(** * advanced-vector: a model of [RawMemory<T>] and [Vector<T>]

    Shallow embedding of [advanced-vector/vector.h].

    - The element type [T] is a parameter, described by the class
      [Element]: the value an object holds, what a moved-from object
      holds, the two type traits the container branches on, and an
      oracle that says which element operations throw.
    - Raw storage lives in a heap of blocks of slots; a slot is either
      uninitialised or holds a live object.  Pointers are a block and an
      offset.
    - [Vector] objects live in an object store and are passed by
      reference, so that [v = std::move(v)] and [v = v] are calls with
      two equal references, as in the source.
    - Every member function is a computation in a state monad with three
      outcomes: normal return, an exception in flight, or abnormal
      termination (undefined behaviour, a failed [assert],
      [std::terminate]).
    - Sizes are natural numbers.  What depends on the implementation
      is collected in the class [Platform]: [sizeof(T)], the value that
      a product computed in [std::size_t] has, and when [operator new]
      throws [std::bad_alloc].  Two platforms are defined: [lp64],
      where [std::size_t] has 64 bits and [operator new] fails when an
      oracle says so, and [unbounded], an idealisation in which sizes
      never wrap and memory never runs out.  Statements that do not
      name a platform are about [unbounded]; the statements about
      requests of a size the caller chooses ([Vector(n)], [Reserve],
      [Resize]) are about every platform, with the request's size as
      a hypothesis.  A subtraction that the source does not guard by a
      comparison is checked ([size_sub]).
    - Undefined behaviour (a pointer outside its block, a range whose
      end is before its start, reading a slot without an object) is
      the outcome [Abort]: the model says nothing about what the
      compiled code does there. *)

From stdpp Require Import base option list gmap numbers.

Set Default Proof Using "Type".

(** ** The element type *)

(** Operations on objects of the element type that the container
    performs.  They are recorded in the trace of the run, which makes
    moves, copies and destructions observable, the way a counting test
    type does. *)
Inductive op (T : Type) : Type :=
| Construct (x : T)          (* T(args...), giving an object that holds x *)
| ValueConstruct             (* T() *)
| CopyConstruct (x : T)      (* T(const T&) from an object that holds x *)
| MoveConstruct (x : T)      (* T(T&&) from an object that holds x *)
| CopyAssign (d x : T)       (* d = x *)
| MoveAssign (d x : T)       (* d = std::move(x) *)
| Destroy (x : T).           (* ~T() on an object that holds x *)
Arguments Construct {T} x.
Arguments ValueConstruct {T}.
Arguments CopyConstruct {T} x.
Arguments MoveConstruct {T} x.
Arguments CopyAssign {T} d x.
Arguments MoveAssign {T} d x.
Arguments Destroy {T} x.

Inductive event (T : Type) : Type :=
| Done (o : op T)            (* the operation completed *)
| Threw (o : op T).          (* the operation threw *)
Arguments Done {T} o.
Arguments Threw {T} o.

(** What the container needs to know about [T].  [throws o tr] says
    whether operation [o], attempted after the history [tr], throws; a
    type that throws on its k-th construction counts the constructions
    in [tr].  Destructors do not throw. *)
Class Element (T : Type) : Type := {
  value_init : T;
  moved_from : T → T;
  is_nothrow_move_constructible : bool;
  is_copy_constructible : bool;
  throws : op T → list (event T) → bool;
  nothrow_move :
    is_nothrow_move_constructible = true →
    ∀ x tr, throws (MoveConstruct x) tr = false
}.

(** ** Memory, objects and the state of a run *)

Definition addr := nat.
Definition vref := nat.

Inductive slot (T : Type) : Type :=
| Uninit
| Live (x : T).
Arguments Uninit {T}.
Arguments Live {T} x.

(** [T*]: the null pointer is [Ptr None 0]. *)
Record ptr : Type := Ptr { blk : option addr; off : nat }.

Global Instance ptr_eq_dec : EqDecision ptr.
Proof. solve_decision. Defined.

(** [RawMemory<T>]: [buffer_] and [capacity_]. *)
Record RawMemory : Type := mkRawMemory { buffer_ : option addr; capacity_ : nat }.

(** [Vector<T>]: [data_] and [size_]. *)
Record Vector : Type := mkVector { data_ : RawMemory; size_ : nat }.

Record state (T : Type) : Type := State {
  heap : gmap addr (list (slot T));
  objects : gmap vref Vector;
  trace : list (event T)
}.
Arguments State {T} heap objects trace.
Arguments heap {T} s.
Arguments objects {T} s.
Arguments trace {T} s.

Inductive outcome (T A : Type) : Type :=
| Val (a : A) (s : state T)   (* normal return *)
| Exn (s : state T)           (* an exception propagates *)
| Abort.                      (* undefined behaviour, failed assert, terminate *)
Arguments Val {T A} a s.
Arguments Exn {T A} s.
Arguments Abort {T A}.

Definition M (T A : Type) : Type := state T → outcome T A.

Global Instance M_ret {T} : MRet (M T) := λ A a s, Val a s.
Global Instance M_bind {T} : MBind (M T) := λ A B f m s,
  match m s with
  | Val a s' => f a s'
  | Exn s' => Exn s'
  | Abort => Abort
  end.

(** ** The platform *)

(** What the container takes from the implementation: [sizeof(T)], the
    value [size_t n] that a [std::size_t] holds when the arithmetic
    result is [n], and whether [operator new(bytes)], called in a given
    state, throws [std::bad_alloc]. *)
Class Platform (T : Type) : Type := {
  sizeof : positive;
  size_t : nat → nat;
  new_throws : nat → state T → bool
}.

(** The largest [std::size_t] and the largest object size of [lp64]. *)
Definition SIZE_MAX : nat := N.to_nat (2 ^ 64 - 1).
Definition PTRDIFF_MAX : nat := N.to_nat (2 ^ 63 - 1).

(** [std::size_t] has 64 bits; [exhausted bytes s] says whether
    [operator new(bytes)] fails in the state [s]. *)
Definition lp64 {T} (sz : positive) (exhausted : nat → state T → bool) : Platform T :=
  {| sizeof := sz;
     size_t := λ n, N.to_nat (N.of_nat n `mod` 2 ^ 64);
     new_throws := exhausted |}.

(** The idealised platform: sizes never wrap, memory never runs out,
    and sizes are counted in objects. *)
Definition unbounded {T} : Platform T :=
  {| sizeof := 1;
     size_t := λ n, n;
     new_throws := λ _ _, false |}.

Section prims.
Context {T : Type} `{!Element T} `{!Platform T}.

Definition abort {A} : M T A := λ _, Abort.

(** Runs [cleanup] when an exception leaves [m] (a local's destructor
    during unwinding, or a [catch (...) { ...; throw; }]).  A cleanup
    that does not return normally ends the program. *)
Definition on_unwind {A} (m : M T A) (cleanup : M T ()) : M T A := λ s,
  match m s with
  | Exn s' => match cleanup s' with Val _ s'' => Exn s'' | _ => Abort end
  | r => r
  end.

(** A [noexcept] function: an exception that would leave it calls
    [std::terminate]. *)
Definition noexcept {A} (m : M T A) : M T A := λ s,
  match m s with
  | Exn _ => Abort
  | r => r
  end.

Definition log (e : event T) : M T () := λ s,
  Val () (State (heap s) (objects s) (trace s ++ [e])).

(** An element operation that may throw. *)
Definition perform (o : op T) : M T () := λ s,
  if throws o (trace s)
  then Exn (State (heap s) (objects s) (trace s ++ [Threw o]))
  else Val () (State (heap s) (objects s) (trace s ++ [Done o])).

(** [a - b] on [std::size_t] where the source does not guard it. *)
Definition size_sub (a b : nat) : M T nat :=
  if decide (b ≤ a) then mret (a - b) else abort.

(** [operator new(bytes)]: throws [std::bad_alloc] and leaves the
    state as it is, or returns a new block.  The block has room for
    [bytes / sizeof(T)] objects. *)
Definition operator_new (bytes : nat) : M T addr := λ s,
  if new_throws bytes s then Exn s
  else
    let a := fresh (dom (heap s)) in
    Val a (State (<[a := replicate (bytes `div` Pos.to_nat sizeof) Uninit]> (heap s))
                 (objects s) (trace s)).

(** *** Pointers *)

Definition ptr_add (p : ptr) (k : nat) : ptr := Ptr (blk p) (off p + k).

Definition ptr_sub (p : ptr) (k : nat) : M T ptr :=
  if decide (k ≤ off p) then mret (Ptr (blk p) (off p - k)) else abort.

(** [std::ranges::distance(first, last)] on pointers: [last - first].
    Both must point into the same block (or both be null).  The source
    does not compare them: with [last] before [first] the range is not
    valid and the behaviour of the algorithm that takes it is
    undefined, which is [abort] here. *)
Definition ranges_distance (first last : ptr) : M T nat :=
  if decide (blk first = blk last)
  then (if decide (off first ≤ off last) then mret (off last - off first) else abort)
  else abort.

Definition read_slot (p : ptr) : M T (slot T) := λ s,
  match blk p with
  | Some a =>
      match heap s !! a with
      | Some b => match b !! off p with Some x => Val x s | None => Abort end
      | None => Abort
      end
  | None => Abort
  end.

Definition write_slot (p : ptr) (x : slot T) : M T () := λ s,
  match blk p with
  | Some a =>
      match heap s !! a with
      | Some b =>
          if decide (off p < length b)
          then Val () (State (<[a := <[off p := x]> b]> (heap s)) (objects s) (trace s))
          else Abort
      | None => Abort
      end
  | None => Abort
  end.

(** Reading [*p]: there must be a live object. *)
Definition load (p : ptr) : M T T :=
  x ← read_slot p;
  match x with Live v => mret v | Uninit => abort end.

(** *** Construction, assignment and destruction at a pointer *)

Definition value_construct_at (p : ptr) : M T () :=
  perform ValueConstruct ;; write_slot p (Live value_init).

Definition copy_construct_at (p src : ptr) : M T () :=
  x ← load src; perform (CopyConstruct x) ;; write_slot p (Live x).

Definition move_construct_at (p src : ptr) : M T () :=
  x ← load src; perform (MoveConstruct x) ;;
  write_slot p (Live x) ;; write_slot src (Live (moved_from x)).

Definition copy_assign_obj (dst src : ptr) : M T () :=
  d ← load dst; x ← load src; perform (CopyAssign d x) ;; write_slot dst (Live x).

Definition move_assign_obj (dst src : ptr) : M T () :=
  d ← load dst; x ← load src; perform (MoveAssign d x) ;;
  write_slot dst (Live x) ;; write_slot src (Live (moved_from x)).

(** [std::destroy_at] *)
Definition destroy_at (p : ptr) : M T () :=
  x ← load p; log (Done (Destroy x)) ;; write_slot p Uninit.

(** *** The standard algorithms the container calls *)

(** [std::destroy_n] *)
Fixpoint destroy_n (first : ptr) (n : nat) : M T () :=
  match n with
  | 0 => mret ()
  | S n' => destroy_at first ;; destroy_n (ptr_add first 1) n'
  end.

(** The loop shared by the [std::uninitialized_*_n] algorithms:
    [construct i] builds the object at [d_first + i]; when it throws,
    the objects built so far are destroyed and the exception goes on. *)
Fixpoint uninitialized_n (construct : nat → M T ()) (d_first : ptr) (i n : nat) : M T () :=
  match n with
  | 0 => mret ()
  | S n' =>
      on_unwind (construct i) (destroy_n d_first i) ;;
      uninitialized_n construct d_first (S i) n'
  end.

Definition uninitialized_value_construct_n (first : ptr) (n : nat) : M T () :=
  uninitialized_n (λ i, value_construct_at (ptr_add first i)) first 0 n.

Definition uninitialized_copy_n (first : ptr) (n : nat) (d_first : ptr) : M T () :=
  uninitialized_n (λ i, copy_construct_at (ptr_add d_first i) (ptr_add first i)) d_first 0 n.

Definition uninitialized_move_n (first : ptr) (n : nat) (d_first : ptr) : M T () :=
  uninitialized_n (λ i, move_construct_at (ptr_add d_first i) (ptr_add first i)) d_first 0 n.

(** Forward element-wise assignment of [n] objects. *)
Fixpoint assign_n (assign : ptr → ptr → M T ()) (first : ptr) (n : nat) (result : ptr) : M T () :=
  match n with
  | 0 => mret ()
  | S n' => assign result first ;; assign_n assign (ptr_add first 1) n' (ptr_add result 1)
  end.

(** [std::ranges::copy(first, last, result)] *)
Definition ranges_copy (first last result : ptr) : M T () :=
  n ← ranges_distance first last; assign_n copy_assign_obj first n result.

(** [std::ranges::move(first, last, result)] *)
Definition ranges_move (first last result : ptr) : M T () :=
  n ← ranges_distance first last; assign_n move_assign_obj first n result.

(** Backward element-wise move assignment of [n] objects, last first. *)
Fixpoint move_backward_n (first : ptr) (n : nat) (d_first : ptr) : M T () :=
  match n with
  | 0 => mret ()
  | S n' =>
      move_assign_obj (ptr_add d_first n') (ptr_add first n') ;;
      move_backward_n first n' d_first
  end.

(** [std::ranges::move_backward(first, last, d_last)] *)
Definition ranges_move_backward (first last d_last : ptr) : M T () :=
  n ← ranges_distance first last;
  d_first ← ptr_sub d_last n;
  move_backward_n first n d_first.
End prims.

(** ** [RawMemory<T>] *)

Module RawMemory.
Section raw_memory.
Context {T : Type} `{!Element T} `{!Platform T}.

(** [Allocate(n)]: [n != 0 ? operator new(n * sizeof(T)) : nullptr];
    the product is computed in [std::size_t]. *)
Definition Allocate (n : nat) : M T (option addr) :=
  if decide (n = 0) then mret None
  else a ← operator_new (size_t (n * Pos.to_nat sizeof)); mret (Some a).

(** [Deallocate(buf)]: [operator delete(buf)], a no-op on the null
    pointer.  Objects still alive in the block are not destroyed. *)
Definition Deallocate (buf : option addr) : M T () := λ s,
  match buf with
  | None => Val () s
  | Some a =>
      match heap s !! a with
      | Some _ => Val () (State (delete a (heap s)) (objects s) (trace s))
      | None => Abort
      end
  end.

(** [RawMemory()] *)
Definition ctor_default : RawMemory := mkRawMemory None 0.

(** [RawMemory(std::size_t capacity)] *)
Definition ctor (capacity : nat) : M T RawMemory :=
  buf ← Allocate capacity; mret (mkRawMemory buf capacity).

(** [RawMemory(RawMemory&& other)]: the new object and what is left in
    [other]. *)
Definition ctor_move (other : RawMemory) : RawMemory * RawMemory :=
  (mkRawMemory (buffer_ other) (capacity_ other), mkRawMemory None 0).

(** [~RawMemory()] *)
Definition dtor (this : RawMemory) : M T () := Deallocate (buffer_ this).

(** [operator+(offset)] *)
Definition plus (this : RawMemory) (offset : nat) : M T ptr :=
  if decide (offset ≤ capacity_ this) then mret (Ptr (buffer_ this) offset) else abort.

(** [operator[](index)]: a reference to the slot. *)
Definition index (this : RawMemory) (i : nat) : M T ptr :=
  if decide (i < capacity_ this) then mret (Ptr (buffer_ this) i) else abort.

(** [Swap(other)]: the new [*this] and the new [other]. *)
Definition Swap (this other : RawMemory) : RawMemory * RawMemory :=
  (mkRawMemory (buffer_ other) (capacity_ other),
   mkRawMemory (buffer_ this) (capacity_ this)).

Definition GetAddress (this : RawMemory) : ptr := Ptr (buffer_ this) 0.

Definition Capacity (this : RawMemory) : nat := capacity_ this.

(** The [RawMemory] objects that are assigned to are the [data_]
    members of vectors: a reference to one is the reference to its
    vector. *)
Definition read (r : vref) : M T RawMemory := λ s,
  match objects s !! r with
  | Some v => Val (data_ v) s
  | None => Abort
  end.

Definition write (r : vref) (m : RawMemory) : M T () := λ s,
  match objects s !! r with
  | Some v => Val () (State (heap s) (<[r := mkVector m (size_ v)]> (objects s)) (trace s))
  | None => Abort
  end.

(** [operator=(RawMemory&& other)] *)
Definition move_assign (this other : vref) : M T () :=
  if decide (this ≠ other) then
    o ← read other;
    let '(temp, o') := ctor_move o in
    write other o' ;;
    t ← read this;
    let '(t', temp') := Swap t temp in
    write this t' ;;
    dtor temp'
  else mret ().

End raw_memory.
End RawMemory.

(** ** [Vector<T>] *)

(** The arguments of [Emplace]: what the new element is constructed
    from.  [Args x] stands for arguments of a constructor that yields
    [x]; [ByCopy x] is a [const T&] to an object that holds [x] (the
    copy constructor runs); [ByMove x] is a [T&&] to an object that
    holds [x] (the move constructor runs).  In every path of [Emplace]
    the construction from the arguments is the first element
    operation, so a [const T&] that refers to an element of the vector
    itself is read before anything moves.  The object a [T&&] refers
    to is not part of the state: [ByMove x] is an rvalue that is not an
    element of the vector, and what the move leaves in it is not
    recorded. *)
Inductive args (T : Type) : Type :=
| Args (x : T)
| ByCopy (x : T)
| ByMove (x : T).
Arguments Args {T} x.
Arguments ByCopy {T} x.
Arguments ByMove {T} x.

Definition args_value {T} (a : args T) : T :=
  match a with Args x | ByCopy x | ByMove x => x end.

Definition args_op {T} (a : args T) : op T :=
  match a with
  | Args x => Construct x
  | ByCopy x => CopyConstruct x
  | ByMove x => MoveConstruct x
  end.

Module Vector.
Section vector.
Context {T : Type} `{!Element T} `{!Platform T}.

Definition deref (this : vref) : M T Vector := λ s,
  match objects s !! this with
  | Some v => Val v s
  | None => Abort
  end.

Definition set_size (this : vref) (n : nat) : M T () := λ s,
  match objects s !! this with
  | Some v => Val () (State (heap s) (<[this := mkVector (data_ v) n]> (objects s)) (trace s))
  | None => Abort
  end.

Definition new_object (v : Vector) : M T vref := λ s,
  let r := fresh (dom (objects s)) in
  Val r (State (heap s) (<[r := v]> (objects s)) (trace s)).

Definition delete_object (this : vref) : M T () := λ s,
  Val () (State (heap s) (delete this (objects s)) (trace s)).

(** [std::construct_at(p, std::forward<Args>(args)...)] *)
Definition construct_at (p : ptr) (a : args T) : M T () :=
  perform (args_op a) ;; write_slot p (Live (args_value a)).

(** The [if constexpr] of the growth paths. *)
Definition transfer_by_move : bool :=
  is_nothrow_move_constructible || negb is_copy_constructible.

(** [Vector()] *)
Definition ctor_default : M T vref :=
  new_object (mkVector RawMemory.ctor_default 0).

(** [Vector(std::size_t size)] *)
Definition ctor (size : nat) : M T vref :=
  data ← RawMemory.ctor size;
  on_unwind
    (uninitialized_value_construct_n (RawMemory.GetAddress data) size)
    (RawMemory.dtor data) ;;
  new_object (mkVector data size).

(** [Vector(const Vector& other)] *)
Definition ctor_copy (other : vref) : M T vref :=
  o ← deref other;
  data ← RawMemory.ctor (size_ o);
  on_unwind
    (uninitialized_copy_n (RawMemory.GetAddress (data_ o)) (size_ o) (RawMemory.GetAddress data))
    (RawMemory.dtor data) ;;
  new_object (mkVector data (size_ o)).

(** [Vector(Vector&& other)] *)
Definition ctor_move (other : vref) : M T vref :=
  o ← deref other;
  let '(data, o') := RawMemory.ctor_move (data_ o) in
  RawMemory.write other o' ;;
  this ← new_object (mkVector data (size_ o));
  set_size other 0 ;;
  mret this.

(** [~Vector()] *)
Definition dtor (this : vref) : M T () :=
  v ← deref this;
  destroy_n (RawMemory.GetAddress (data_ v)) (size_ v) ;;
  RawMemory.dtor (data_ v) ;;
  delete_object this.

Definition Capacity (this : vref) : M T nat :=
  v ← deref this; mret (RawMemory.Capacity (data_ v)).

Definition Size (this : vref) : M T nat :=
  v ← deref this; mret (size_ v).

Definition begin (this : vref) : M T ptr :=
  v ← deref this; mret (RawMemory.GetAddress (data_ v)).

Definition end_ (this : vref) : M T ptr :=
  v ← deref this; RawMemory.plus (data_ v) (size_ v).

Definition cbegin := begin.
Definition cend := end_.

(** [operator[](index)]: a reference to the element. *)
Definition index (this : vref) (i : nat) : M T ptr :=
  v ← deref this;
  if decide (i < size_ v) then RawMemory.index (data_ v) i else abort.

(** [Swap(other)] *)
Definition Swap (this other : vref) : M T () :=
  t ← RawMemory.read this;
  o ← RawMemory.read other;
  let '(t', o') := RawMemory.Swap t o in
  RawMemory.write this t' ;;
  RawMemory.write other o' ;;
  t ← deref this;
  o ← deref other;
  set_size this (size_ o) ;;
  set_size other (size_ t).

(** [operator=(const Vector& other)] *)
Definition copy_assign (this other : vref) : M T () :=
  t ← deref this;
  o ← deref other;
  if decide (RawMemory.Capacity (data_ t) < size_ o) then
    temp ← ctor_copy other;
    Swap this temp ;;
    dtor temp
  else
    ob ← begin other;
    tb ← begin this;
    ranges_copy ob (ptr_add ob (size_ t `min` size_ o)) tb ;;
    (if decide (size_ o < size_ t) then
       p ← RawMemory.plus (data_ t) (size_ o);
       destroy_n p (size_ t - size_ o)
     else
       src ← RawMemory.plus (data_ o) (size_ t);
       dst ← RawMemory.plus (data_ t) (size_ t);
       uninitialized_copy_n src (size_ o - size_ t) dst) ;;
    set_size this (size_ o).

(** [operator=(Vector&& other)] *)
Definition move_assign (this other : vref) : M T () :=
  noexcept (
    set_size other 0 ;;
    RawMemory.move_assign this other).

(** [ReallocateAndEmbed(distance, args...)] *)
Definition ReallocateAndEmbed (this : vref) (distance : nat) (a : args T) : M T () :=
  v ← deref this;
  new_data ← RawMemory.ctor (if decide (size_ v = 0) then 1 else size_t (size_ v * 2));
  old ← on_unwind
    (p ← RawMemory.plus new_data distance;
     construct_at p a ;;
     (if transfer_by_move then
        uninitialized_move_n (RawMemory.GetAddress (data_ v)) distance (RawMemory.GetAddress new_data) ;;
        src ← RawMemory.plus (data_ v) distance;
        rest ← size_sub (size_ v) distance;
        dst ← RawMemory.plus new_data distance;
        uninitialized_move_n src rest (ptr_add dst 1)
      else
        uninitialized_copy_n (RawMemory.GetAddress (data_ v)) distance (RawMemory.GetAddress new_data) ;;
        src ← RawMemory.plus (data_ v) distance;
        rest ← size_sub (size_ v) distance;
        dst ← RawMemory.plus new_data distance;
        uninitialized_copy_n src rest (ptr_add dst 1)) ;;
     destroy_n (RawMemory.GetAddress (data_ v)) (size_ v) ;;
     let '(data, new_data') := RawMemory.Swap (data_ v) new_data in
     RawMemory.write this data ;;
     mret new_data')
    (RawMemory.dtor new_data);
  RawMemory.dtor old.

(** [Embed(pos, distance, args...)] *)
Definition Embed (this : vref) (pos : ptr) (distance : nat) (a : args T) : M T () :=
  e ← end_ this;
  if decide (pos = e) then construct_at e a
  else
    (* T arg(args...): a local object, destroyed when the scope is left *)
    perform (args_op a) ;;
    let arg := args_value a in
    on_unwind
      (e ← end_ this;
       last ← ptr_sub e 1;
       move_construct_at e last ;;
       b ← begin this;
       e ← end_ this;
       last ← ptr_sub e 1;
       ranges_move_backward (ptr_add b distance) last e ;;
       v ← deref this;
       p ← RawMemory.plus (data_ v) distance;
       d ← load p;
       perform (MoveAssign d arg) ;;
       write_slot p (Live arg))
      (log (Done (Destroy arg))) ;;
    log (Done (Destroy (moved_from arg))).

(** [Emplace(pos, args...)] *)
Definition Emplace (this : vref) (pos : ptr) (a : args T) : M T ptr :=
  b ← begin this;
  distance ← ranges_distance b pos;
  v ← deref this;
  (if decide (size_ v = RawMemory.Capacity (data_ v))
   then ReallocateAndEmbed this distance a
   else Embed this pos distance a) ;;
  v ← deref this;
  set_size this (S (size_ v)) ;;
  v ← deref this;
  RawMemory.plus (data_ v) distance.

(** [EmplaceBack(args...)]: a reference to the new element. *)
Definition EmplaceBack (this : vref) (a : args T) : M T ptr :=
  e ← cend this; Emplace this e a.

(** [Erase(pos)] *)
Definition Erase (this : vref) (pos : ptr) : M T ptr :=
  noexcept (
    b ← begin this;
    distance ← ranges_distance b pos;
    v ← deref this;
    first ← RawMemory.plus (data_ v) distance;
    e ← end_ this;
    result ← RawMemory.plus (data_ v) distance;
    ranges_move (ptr_add first 1) e result ;;
    e ← end_ this;
    last ← ptr_sub e 1;
    destroy_at last ;;
    v ← deref this;
    set_size this (size_ v - 1) ;;
    v ← deref this;
    RawMemory.plus (data_ v) distance).

(** [Insert(pos, const T& value)] *)
Definition Insert (this : vref) (pos : ptr) (value : T) : M T ptr :=
  Emplace this pos (ByCopy value).

(** [PopBack()]: [--size_] comes first; when [size_] is zero it wraps
    and the [assert] of [operator+] fails. *)
Definition PopBack (this : vref) : M T () :=
  noexcept (
    v ← deref this;
    if decide (size_ v = 0) then abort
    else
      set_size this (size_ v - 1) ;;
      v ← deref this;
      p ← RawMemory.plus (data_ v) (size_ v);
      destroy_at p).

(** [PushBack(const T& value)] *)
Definition PushBack (this : vref) (value : T) : M T () :=
  EmplaceBack this (ByCopy value) ;; mret ().

(** [PushBack(T&& value)], for a [value] that is not an element of
    the vector. *)
Definition PushBack_move (this : vref) (value : T) : M T () :=
  EmplaceBack this (ByMove value) ;; mret ().

(** [Reserve(capacity)] *)
Definition Reserve (this : vref) (capacity : nat) : M T () :=
  v ← deref this;
  if decide (capacity ≤ RawMemory.Capacity (data_ v)) then mret ()
  else
    new_data ← RawMemory.ctor capacity;
    old ← on_unwind
      ((if transfer_by_move then
          uninitialized_move_n (RawMemory.GetAddress (data_ v)) (size_ v) (RawMemory.GetAddress new_data)
        else
          uninitialized_copy_n (RawMemory.GetAddress (data_ v)) (size_ v) (RawMemory.GetAddress new_data)) ;;
       destroy_n (RawMemory.GetAddress (data_ v)) (size_ v) ;;
       let '(data, new_data') := RawMemory.Swap (data_ v) new_data in
       RawMemory.write this data ;;
       mret new_data')
      (RawMemory.dtor new_data);
    RawMemory.dtor old.

(** [Resize(new_size)] *)
Definition Resize (this : vref) (new_size : nat) : M T () :=
  v ← deref this;
  (if decide (new_size ≤ RawMemory.Capacity (data_ v)) then
     if decide (new_size < size_ v) then
       p ← RawMemory.plus (data_ v) new_size;
       destroy_n p (size_ v - new_size)
     else
       p ← RawMemory.plus (data_ v) (size_ v);
       uninitialized_value_construct_n p (new_size - size_ v)
   else
     new_data ← RawMemory.ctor new_size;
     old ← on_unwind
       ((if transfer_by_move then
           uninitialized_move_n (RawMemory.GetAddress (data_ v)) (size_ v) (RawMemory.GetAddress new_data) ;;
           p ← RawMemory.plus new_data (size_ v);
           uninitialized_value_construct_n p (new_size - size_ v)
         else
           uninitialized_copy_n (RawMemory.GetAddress (data_ v)) (size_ v) (RawMemory.GetAddress new_data) ;;
           p ← RawMemory.plus new_data (size_ v);
           uninitialized_value_construct_n p (new_size - size_ v)) ;;
        destroy_n (RawMemory.GetAddress (data_ v)) (size_ v) ;;
        let '(data, new_data') := RawMemory.Swap (data_ v) new_data in
        RawMemory.write this data ;;
        mret new_data')
       (RawMemory.dtor new_data);
     RawMemory.dtor old) ;;
  set_size this new_size.

End vector.
End Vector.

(** ** Specifications *)

Section spec.
Context {T : Type} `{!Element T} `{!Platform T}.

(** [wp m s Q E]: started in [s], [m] does not go wrong; if it returns
    [a] in [s'] then [Q a s'], and if an exception leaves it in [s']
    then [E s']. *)
Definition wp {A} (m : M T A) (s : state T) (Q : A → state T → Prop) (E : state T → Prop) : Prop :=
  match m s with
  | Val a s' => Q a s'
  | Exn s' => E s'
  | Abort => False
  end.

(** Some element operation can throw at all. *)
Definition can_throw : Prop := ∃ (o : op T) tr, throws o tr = true.

(** [returns m s Q]: started in [s], [m] does not go wrong and returns
    a result and a state that satisfy [Q], unless an element operation
    throws. *)
Definition returns {A} (m : M T A) (s : state T) (Q : A → state T → Prop) : Prop :=
  wp m s Q (λ _, can_throw).

(** Some value construction, copy construction or move construction
    can throw. *)
Definition value_construct_can_throw : Prop :=
  ∃ tr, throws (ValueConstruct (T:=T)) tr = true.

Definition copy_construct_can_throw : Prop :=
  ∃ (x : T) tr, throws (CopyConstruct x) tr = true.

Definition move_construct_can_throw : Prop :=
  ∃ (x : T) tr, throws (MoveConstruct x) tr = true.

(** Some move assignment can throw. *)
Definition move_assign_can_throw : Prop :=
  ∃ (d x : T) tr, throws (MoveAssign d x) tr = true.

Definition copy_assign_can_throw : Prop :=
  ∃ (d x : T) tr, throws (CopyAssign d x) tr = true.

(** The size in bytes of [n] objects can be written in a
    [std::size_t]: the product in [Allocate] does not wrap. *)
Definition representable (n : nat) : Prop :=
  size_t (n * Pos.to_nat sizeof) = n * Pos.to_nat sizeof.

(** [operator new] refuses the storage for [n] objects in the state
    [s]; nothing is asked for when [n] is zero. *)
Definition refused (n : nat) (s : state T) : Prop :=
  n ≠ 0 ∧ new_throws (n * Pos.to_nat sizeof) s = true.

Global Instance refused_dec n s : Decision (refused n s).
Proof. unfold refused. apply _. Defined.

(** In a run of copy constructions of [xs] that starts after the
    history [tr], the first one that throws is that of the element [x]
    of index [k]. *)
Definition first_throw (tr : list (event T)) (xs : list T) (k : nat) (x : T) : Prop :=
  xs !! k = Some x ∧
  (∀ j y, j < k → xs !! j = Some y →
     throws (CopyConstruct y) (tr ++ map (λ z, Done (CopyConstruct z)) (take j xs)) = false) ∧
  throws (CopyConstruct x) (tr ++ map (λ z, Done (CopyConstruct z)) (take k xs)) = true.

(** What such a run adds to the trace: the [k] copies, the copy that
    throws, and the destruction of the [k] copies. *)
Definition copies_undone (xs : list T) (k : nat) (x : T) : list (event T) :=
  map (λ z, Done (CopyConstruct z)) (take k xs)
  ++ [Threw (CopyConstruct x)]
  ++ map (λ z, Done (Destroy z)) (take k xs).

(** What the slot that [std::ranges::move] leaves behind holds, when
    the objects [ys] are moved one slot to the left over an object that
    held [d]. *)
Fixpoint residue (d : T) (ys : list T) : T :=
  match ys with
  | [] => d
  | y :: ys' => residue (moved_from y) ys'
  end.

(** And for [std::ranges::move_backward], one slot to the right. *)
Definition residue_back (d : T) (ys : list T) : T :=
  match ys with
  | [] => d
  | y :: _ => moved_from y
  end.

(** The move assignments that shift the objects [ys] by one slot onto
    an object that holds [d]: the first is assigned over [d], each
    next one over what the move before left behind. *)
Fixpoint shift_events (d : T) (ys : list T) : list (event T) :=
  match ys with
  | [] => []
  | y :: ys' => Done (MoveAssign d y) :: shift_events (moved_from y) ys'
  end.

(** The constructor that carries an existing element into new storage
    on a growth path: the move constructor if it does not throw or if
    [T] cannot be copied, the copy constructor otherwise. *)
Definition transfer_op (x : T) : op T :=
  if is_nothrow_move_constructible || negb is_copy_constructible
  then MoveConstruct x
  else CopyConstruct x.

(** What the old object holds after the transfer. *)
Definition left_behind (x : T) : T :=
  if is_nothrow_move_constructible || negb is_copy_constructible
  then moved_from x
  else x.

(** The block a [RawMemory] points to: [capacity_] slots, the first
    ones alive and holding [xs], the others uninitialised.  A null
    buffer has no slots. *)
Definition owns (s : state T) (m : RawMemory) (xs : list T) : Prop :=
  length xs ≤ capacity_ m ∧
  match buffer_ m with
  | Some a => heap s !! a = Some (map Live xs ++ replicate (capacity_ m - length xs) Uninit)
  | None => capacity_ m = 0
  end.

(** [holds s this xs cap]: in [s] the vector [this] satisfies the
    invariant of the container, with elements [xs] and capacity [cap]:
    slots [0, size) hold live objects (with the values [xs]), slots
    [size, capacity) are uninitialised, and size is at most capacity. *)
Definition holds (s : state T) (this : vref) (xs : list T) (cap : nat) : Prop :=
  ∃ v, objects s !! this = Some v ∧
       size_ v = length xs ∧
       capacity_ (data_ v) = cap ∧
       owns s (data_ v) xs.

(** The invariant alone. *)
Definition invariant (s : state T) (this : vref) : Prop :=
  ∃ xs cap, holds s this xs cap.

(** Two vectors do not share a block. *)
Definition separate (s : state T) (this other : vref) : Prop :=
  ∀ v w a, objects s !! this = Some v → objects s !! other = Some w →
           buffer_ (data_ v) = Some a → buffer_ (data_ w) ≠ Some a.

(** [begin() + i] of a vector. *)
Definition position (s : state T) (this : vref) (i : nat) : option ptr :=
  v ← objects s !! this; Some (Ptr (buffer_ (data_ v)) i).

(** The capacity [ReallocateAndEmbed] allocates for a full vector of
    [n] elements: [size_ == 0 ? 1 : size_ * 2]. *)
Definition grown (n : nat) : nat := if decide (n = 0) then 1 else n * 2.

(** The capacity of a vector after [n] calls of [PushBack] on an empty
    vector without storage: it grows when a push finds the vector
    full. *)
Fixpoint pushed_capacity (n : nat) : nat :=
  match n with
  | 0 => 0
  | S n' =>
      let c := pushed_capacity n' in
      if decide (n' = c) then grown c else c
  end.

(** [PushBack] of the values [ys], in order. *)
Fixpoint push_all (this : vref) (ys : list T) : M T () :=
  match ys with
  | [] => mret ()
  | y :: ys' => Vector.PushBack this y ;; push_all this ys'
  end.

End spec.

(** ** Element types used in examples *)

(** An [int]-like type: nothing throws, a moved-from object keeps its
    value. *)
Definition int_like : Element nat.
Proof.
  refine {| value_init := 0;
            moved_from := λ x, x;
            is_nothrow_move_constructible := true;
            is_copy_constructible := true;
            throws := λ _ _, false |}.
  reflexivity.
Defined.

(** A type whose constructors throw once [k] constructions have been
    attempted; its move constructor is not [noexcept]. *)
Definition is_construction {T} (e : event T) : bool :=
  match e with
  | Done (Construct _) | Done ValueConstruct | Done (CopyConstruct _) | Done (MoveConstruct _)
  | Threw (Construct _) | Threw ValueConstruct | Threw (CopyConstruct _) | Threw (MoveConstruct _) => true
  | _ => false
  end.

Definition throws_on (k : nat) (o : op nat) (tr : list (event nat)) : bool :=
  match o with
  | Construct _ | ValueConstruct | CopyConstruct _ | MoveConstruct _ =>
      bool_decide (length (filter (λ e, is_construction e = true) tr) = k)
  | _ => false
  end.

Definition thrower (k : nat) : Element nat.
Proof.
  refine {| value_init := 0;
            moved_from := λ x, x;
            is_nothrow_move_constructible := false;
            is_copy_constructible := true;
            throws := throws_on k |}.
  discriminate.
Defined.

(** A type whose default constructor always throws and whose move
    constructor is [noexcept]; a moved-from object holds 0. *)
Definition value_thrower : Element nat.
Proof.
  refine {| value_init := 0;
            moved_from := λ _, 0;
            is_nothrow_move_constructible := true;
            is_copy_constructible := true;
            throws := λ o _, match o with ValueConstruct => true | _ => false end |}.
  reflexivity.
Defined.

(** The empty program state. *)
Definition init {T} : state T := State ∅ ∅ [].

(** [operator new] on a 64-bit platform with memory to spare: it
    refuses exactly the requests above [PTRDIFF_MAX].  And with no
    memory left: it refuses every request. *)
Definition within_ptrdiff {T} : nat → state T → bool :=
  λ bytes _, (2 ^ 63 - 1 <? N.of_nat bytes)%N.
Definition exhausted {T} : nat → state T → bool := λ _ _, true.

(** A four-byte [int] on such a platform. *)
Definition lp64_int : Platform nat := lp64 4 within_ptrdiff.

(** Example states over [int_like] elements.  [two_vectors]: vector
    [0] holds [[10; 20; 30]] in a block of three slots, vector [1]
    holds [[7]] in a block of one slot.  [one_vector]: vector [0] holds
    [[10; 20; 30]] in a block of four slots. *)
Definition two_vectors : state nat :=
  State {[ 0 := [Live 10; Live 20; Live 30]; 1 := [Live 7] ]}
        {[ 0 := mkVector (mkRawMemory (Some 0) 3) 3;
           1 := mkVector (mkRawMemory (Some 1) 1) 1 ]}
        [].

Definition one_vector : state nat :=
  State {[ 0 := [Live 10; Live 20; Live 30; Uninit] ]}
        {[ 0 := mkVector (mkRawMemory (Some 0) 4) 3 ]}
        [].

Definition single_vector : state nat :=
  State {[ 0 := [Live 10] ]}
        {[ 0 := mkVector (mkRawMemory (Some 0) 1) 1 ]}
        [].

Definition full_vector : state nat :=
  State {[ 0 := [Live 10; Live 20] ]}
        {[ 0 := mkVector (mkRawMemory (Some 0) 2) 2 ]}
        [].

(** [empty_vector]: vector [0] is empty and has no storage. *)
Definition empty_vector : state nat :=
  State ∅ {[ 0 := mkVector (mkRawMemory None 0) 0 ]} [].

(** ** Programs over the public interface *)

(** A call of a public operation.  Vectors are named by their
    references; a position is given as the index [i] of [begin() + i]. *)
Inductive command (T : Type) : Type :=
| CDefault                                   (* Vector v; *)
| CSized (n : nat)                           (* Vector v(n); *)
| CCopy (other : vref)                       (* Vector v(other); *)
| CMove (other : vref)                       (* Vector v(std::move(other)); *)
| CCopyAssign (this other : vref)            (* this = other; *)
| CMoveAssign (this other : vref)            (* this = std::move(other); *)
| CPushBack (this : vref) (x : T)
| CEmplace (this : vref) (i : nat) (a : args T)
| CInsert (this : vref) (i : nat) (x : T)
| CErase (this : vref) (i : nat)
| CPopBack (this : vref)
| CReserve (this : vref) (n : nat)
| CResize (this : vref) (n : nat)
| CSwap (this other : vref).
Arguments CDefault {T}.
Arguments CSized {T} n.
Arguments CCopy {T} other.
Arguments CMove {T} other.
Arguments CCopyAssign {T} this other.
Arguments CMoveAssign {T} this other.
Arguments CPushBack {T} this x.
Arguments CEmplace {T} this i a.
Arguments CInsert {T} this i x.
Arguments CErase {T} this i.
Arguments CPopBack {T} this.
Arguments CReserve {T} this n.
Arguments CResize {T} this n.
Arguments CSwap {T} this other.

Section programs.
Context {T : Type} `{!Element T} `{!Platform T}.

Definition exec (c : command T) : M T () :=
  match c with
  | CDefault => Vector.ctor_default ;; mret ()
  | CSized n => Vector.ctor n ;; mret ()
  | CCopy other => Vector.ctor_copy other ;; mret ()
  | CMove other => Vector.ctor_move other ;; mret ()
  | CCopyAssign this other => Vector.copy_assign this other
  | CMoveAssign this other => Vector.move_assign this other
  | CPushBack this x => Vector.PushBack this x
  | CEmplace this i a => b ← Vector.begin this; Vector.Emplace this (ptr_add b i) a ;; mret ()
  | CInsert this i x => b ← Vector.begin this; Vector.Insert this (ptr_add b i) x ;; mret ()
  | CErase this i => b ← Vector.begin this; Vector.Erase this (ptr_add b i) ;; mret ()
  | CPopBack this => Vector.PopBack this
  | CReserve this n => Vector.Reserve this n
  | CResize this n => Vector.Resize this n
  | CSwap this other => Vector.Swap this other
  end.

Fixpoint exec_all (cs : list (command T)) : M T () :=
  match cs with
  | [] => mret ()
  | c :: cs' => exec c ;; exec_all cs'
  end.

(** A state that some sequence of public operations reaches from the
    empty state, every call returning normally. *)
Definition reachable (s : state T) : Prop :=
  ∃ cs, exec_all cs init = Val () s.

End programs.

(** ** What a call leaves alone, and the invariant of a whole state *)

Section global.
Context {T : Type} `{!Element T} `{!Platform T}.

(** A call on the vector [this] that took [s] to [s'] was confined to
    that vector: the other vectors are as they were, every block other
    than the block of [this] is as it was, and the block of [this]
    afterwards is its block before or a block that was not allocated
    before. *)
Definition confined (s s' : state T) (this : vref) : Prop :=
  (∀ w, w ≠ this → objects s' !! w = objects s !! w) ∧
  (∀ a b, heap s !! a = Some b → position s this 0 ≠ Some (Ptr (Some a) 0) →
          heap s' !! a = Some b) ∧
  (∀ a, position s' this 0 = Some (Ptr (Some a) 0) →
        position s this 0 = Some (Ptr (Some a) 0) ∨ heap s !! a = None).

(** Every vector of the state satisfies the invariant and no two
    vectors share a block. *)
Definition all_valid (s : state T) : Prop :=
  (∀ v, is_Some (objects s !! v) → invariant s v) ∧
  (∀ v w, v ≠ w → separate s v w).

Definition is_move_assign (c : command T) : bool :=
  match c with CMoveAssign _ _ => true | _ => false end.

(** The references [x] and [y] exchanged. *)
Definition exchange (x y : vref) (z : vref) : vref :=
  if decide (z = x) then y else if decide (z = y) then x else z.

(** The capacities of all the vectors of a state satisfy [ok]. *)
Definition capacities (ok : nat → Prop) (s : state T) : Prop :=
  ∀ v w, objects s !! v = Some w → ok (capacity_ (data_ w)).

(** The storage of every vector has at most [limit] bytes. *)
Definition fits (limit : nat) (s : state T) : Prop :=
  capacities (λ n, n * Pos.to_nat sizeof ≤ limit) s.

(** A platform on which no object has more than [limit] bytes: one
    element fits, [operator new] refuses larger requests, and twice
    that size can be written in a [std::size_t]. *)
Definition bounded_platform (limit : nat) : Prop :=
  Pos.to_nat sizeof ≤ limit ∧
  (∀ bytes (s : state T), new_throws bytes s = false → bytes ≤ limit) ∧
  (∀ n, n ≤ 2 * limit → size_t n = n).

(** The number of elements that the caller of a command asks storage
    for. *)
Definition request (c : command T) : nat :=
  match c with
  | CSized n | CReserve _ n | CResize _ n => n
  | _ => 0
  end.

(** Whether an event brings an object into being, or ends one. *)
Definition made (e : event T) : nat :=
  match e with
  | Done (Construct _) | Done ValueConstruct | Done (CopyConstruct _) | Done (MoveConstruct _) => 1
  | _ => 0
  end.

Definition unmade (e : event T) : nat :=
  match e with Done (Destroy _) => 1 | _ => 0 end.

(** The numbers of objects constructed and destroyed in a trace. *)
Definition constructed (tr : list (event T)) : nat := sum_list_with made tr.
Definition destroyed (tr : list (event T)) : nat := sum_list_with unmade tr.

(** The number of elements of all the vectors of a state. *)
Definition total_size (s : state T) : nat :=
  map_fold (λ _ v n, size_ v + n) 0 (objects s).

(** Every object that was constructed and not destroyed is an element
    of a vector. *)
Definition accounted (s : state T) : Prop :=
  constructed (trace s) = destroyed (trace s) + total_size s.

End global.

(** Statements that do not name a platform are about the idealised
    one. *)
Global Existing Instance unbounded.

(** * Proofs *)

(** ** Lists of slots *)

Ltac map_lookup :=
  simpl;
  repeat first
    [ rewrite lookup_insert_eq
    | rewrite lookup_delete_eq
    | rewrite lookup_insert_ne by congruence
    | rewrite lookup_delete_ne by congruence ];
  try done.

Ltac map_ext :=
  apply map_eq; intros ?;
  rewrite ?lookup_delete, ?lookup_insert;
  repeat (rewrite ?lookup_delete, ?lookup_insert; case_decide; subst);
  try congruence.

Ltac len :=
  rewrite ?length_app, ?length_map, ?length_fmap, ?length_replicate, ?length_take, ?length_drop;
  simpl; lia.

Section slots.
Context {A : Type}.
Implicit Types l r : list A.

Lemma lookup_seg l x r i : i = length l → (l ++ x :: r) !! i = Some x.
Proof. intros ->. by apply list_lookup_middle. Qed.

Lemma insert_seg l x y r i : i = length l → <[i := y]> (l ++ x :: r) = l ++ y :: r.
Proof.
  intros ->. rewrite insert_app_r_alt by lia.
  by rewrite Nat.sub_diag.
Qed.

Lemma length_seg l x r i : i = length l → i < length (l ++ x :: r).
Proof. intros ->. rewrite length_app. simpl. lia. Qed.

Lemma seg_split {B} (f : B → A) l done x todo r :
  l ++ map f (done ++ x :: todo) ++ r = (l ++ map f done) ++ f x :: map f todo ++ r.
Proof. rewrite map_app. simpl. by rewrite <- !app_assoc. Qed.

End slots.

(** ** Rules of the monad *)

Section rules.
Context {T : Type} `{!Element T}.
Implicit Types s : state T.

Lemma wp_ret {A} (a : A) s Q E : Q a s → wp (mret a) s Q E.
Proof. done. Qed.

Lemma wp_bind {A B} (m : M T A) (f : A → M T B) s Q E :
  wp m s (λ a s', wp (f a) s' Q E) E → wp (m ≫= f) s Q E.
Proof. unfold wp, mbind, M_bind. by destruct (m s). Qed.

Lemma wp_mono {A} (m : M T A) s (Q Q' : A → state T → Prop) (E E' : state T → Prop) :
  wp m s Q E → (∀ a s', Q a s' → Q' a s') → (∀ s', E s' → E' s') → wp m s Q' E'.
Proof. unfold wp. destruct (m s); eauto. Qed.

Lemma wp_on_unwind {A} (m : M T A) c s Q E :
  wp m s Q (λ s', wp c s' (λ _ s'', E s'') (λ _, False)) → wp (on_unwind m c) s Q E.
Proof.
  unfold wp, on_unwind. destruct (m s) as [a s'|s'|]; [done| |done].
  by destruct (c s').
Qed.

Lemma wp_noexcept {A} (m : M T A) s Q E :
  wp m s Q (λ _, False) → wp (noexcept m) s Q E.
Proof. unfold wp, noexcept. by destruct (m s). Qed.

Lemma wp_log e s (Q : () → state T → Prop) E :
  Q () (State (heap s) (objects s) (trace s ++ [e])) → wp (log e) s Q E.
Proof. done. Qed.

Lemma wp_perform o s (Q : () → state T → Prop) (E : state T → Prop) :
  (throws o (trace s) = false → Q () (State (heap s) (objects s) (trace s ++ [Done o]))) →
  (throws o (trace s) = true → E (State (heap s) (objects s) (trace s ++ [Threw o]))) →
  wp (perform o) s Q E.
Proof. unfold wp, perform. destruct (throws o (trace s)); eauto. Qed.

Lemma wp_size_sub a b s (Q : nat → state T → Prop) E :
  b ≤ a → Q (a - b) s → wp (size_sub a b) s Q E.
Proof. intros. unfold size_sub. by rewrite decide_True. Qed.

Lemma wp_ptr_sub p k s (Q : ptr → state T → Prop) E :
  k ≤ off p → Q (Ptr (blk p) (off p - k)) s → wp (ptr_sub p k) s Q E.
Proof. intros. unfold ptr_sub. by rewrite decide_True. Qed.

Lemma wp_ranges_distance b i j s (Q : nat → state T → Prop) E :
  i ≤ j → Q (j - i) s → wp (ranges_distance (Ptr b i) (Ptr b j)) s Q E.
Proof.
  intros. unfold ranges_distance. simpl.
  rewrite decide_True by done. by rewrite decide_True.
Qed.

Lemma wp_load a i b x s (Q : T → state T → Prop) E :
  heap s !! a = Some b → b !! i = Some (Live x) → Q x s →
  wp (load (Ptr (Some a) i)) s Q E.
Proof.
  intros Ha Hi HQ. unfold wp, load, mbind, M_bind, read_slot. simpl.
  by rewrite Ha, Hi.
Qed.

Lemma wp_write_slot a i b x s (Q : () → state T → Prop) E :
  heap s !! a = Some b → i < length b →
  Q () (State (<[a := <[i := x]> b]> (heap s)) (objects s) (trace s)) →
  wp (write_slot (Ptr (Some a) i) x) s Q E.
Proof.
  intros Ha Hi HQ. unfold wp, write_slot. simpl.
  rewrite Ha. by rewrite decide_True.
Qed.

Lemma wp_destroy_at a i l x r s (Q : () → state T → Prop) E :
  heap s !! a = Some (l ++ Live x :: r) → i = length l →
  Q () (State (<[a := l ++ Uninit :: r]> (heap s)) (objects s) (trace s ++ [Done (Destroy x)])) →
  wp (destroy_at (Ptr (Some a) i)) s Q E.
Proof.
  intros Ha -> HQ. unfold destroy_at.
  apply wp_bind. eapply wp_load; [done|by apply lookup_seg|].
  apply wp_bind, wp_log.
  eapply wp_write_slot; [done|by apply length_seg|].
  simpl. by rewrite insert_seg.
Qed.

(** [std::destroy_n] over a run of live objects. *)
Lemma wp_destroy_n a i n l ys r h o tr (Q : () → state T → Prop) E :
  i = length l → n = length ys →
  h !! a = Some (l ++ map Live ys ++ r) →
  Q () (State (<[a := l ++ replicate n Uninit ++ r]> h) o
              (tr ++ map (λ y, Done (Destroy y)) ys)) →
  wp (destroy_n (Ptr (Some a) i) n) (State h o tr) Q E.
Proof.
  intros -> ->. revert l h tr.
  induction ys as [|y ys IH]; intros l h tr Ha HQ; simpl in *.
  - rewrite insert_id, app_nil_r in HQ; done.
  - apply wp_bind. eapply wp_destroy_at; [done..|]. simpl.
    unfold ptr_add. simpl.
    replace (length l + 1) with (length (l ++ [Uninit (T:=T)])) by len.
    apply IH.
    + rewrite lookup_insert_eq. by rewrite <- app_assoc.
    + rewrite insert_insert_eq. rewrite <- !app_assoc. exact HQ.
Qed.

(** [std::uninitialized_value_construct_n]: when a construction
    throws, the block is left with some other contents and nothing else
    has changed. *)
Lemma wp_uninitialized_value_loop a d i n dl dr h o tr (Q : () → state T → Prop) (E : state T → Prop) :
  d = length dl →
  h !! a = Some (dl ++ map Live (replicate i value_init) ++ replicate n Uninit ++ dr) →
  Q () (State (<[a := dl ++ map Live (replicate (i + n) value_init) ++ dr]> h) o
              (tr ++ replicate n (Done ValueConstruct))) →
  (value_construct_can_throw → ∀ b' tr', E (State (<[a := b']> h) o tr')) →
  wp (uninitialized_n (λ i, value_construct_at (ptr_add (Ptr (Some a) d) i)) (Ptr (Some a) d) i n)
     (State h o tr) Q E.
Proof.
  intros -> Ha HQ HE. revert i h tr Ha HQ HE.
  induction n as [|n IH]; intros i h tr Ha HQ HE; simpl in *.
  - rewrite Nat.add_0_r, insert_id, app_nil_r in HQ; done.
  - apply wp_bind, wp_on_unwind. unfold value_construct_at.
    apply wp_bind, wp_perform; simpl; intros Hthrow.
    + rewrite (app_assoc dl) in Ha.
      eapply wp_write_slot; [done|simpl; apply length_seg; len|]. simpl.
      rewrite insert_seg by len.
      apply IH.
      * rewrite lookup_insert_eq. rewrite replicate_S_end, map_app.
        by rewrite <- !app_assoc.
      * rewrite insert_insert_eq, <- app_assoc. simpl.
        by rewrite Nat.add_succ_r in HQ.
      * intros Hc b' tr'. rewrite insert_insert_eq. by apply HE.
    + eapply wp_destroy_n; [done|by rewrite length_replicate|done|].
      apply HE. by eexists.
Qed.

Lemma wp_uninitialized_value_construct_n a d n dl dr h o tr (Q : () → state T → Prop) (E : state T → Prop) :
  d = length dl →
  h !! a = Some (dl ++ replicate n Uninit ++ dr) →
  Q () (State (<[a := dl ++ map Live (replicate n value_init) ++ dr]> h) o
              (tr ++ replicate n (Done ValueConstruct))) →
  (value_construct_can_throw → ∀ b' tr', E (State (<[a := b']> h) o tr')) →
  wp (uninitialized_value_construct_n (Ptr (Some a) d) n) (State h o tr) Q E.
Proof. intros. by apply (wp_uninitialized_value_loop a d 0 n dl dr). Qed.

(** [std::uninitialized_value_construct_n], with the exact state in
    which an exception leaves: the objects built so far have been
    destroyed and the block is back to uninitialised slots. *)
Lemma wp_value_loop_exact a d i n dl dr h o tr (Q : () → state T → Prop) (E : state T → Prop) :
  d = length dl →
  h !! a = Some (dl ++ map Live (replicate i value_init) ++ replicate n Uninit ++ dr) →
  Q () (State (<[a := dl ++ map Live (replicate (i + n) value_init) ++ dr]> h) o
              (tr ++ replicate n (Done ValueConstruct))) →
  (∀ k, k < n → throws ValueConstruct (tr ++ replicate k (Done ValueConstruct)) = true →
     E (State (<[a := dl ++ replicate (i + n) Uninit ++ dr]> h) o
              (tr ++ replicate k (Done ValueConstruct) ++ [Threw ValueConstruct]
                  ++ replicate (i + k) (Done (Destroy value_init))))) →
  wp (uninitialized_n (λ i, value_construct_at (ptr_add (Ptr (Some a) d) i)) (Ptr (Some a) d) i n)
     (State h o tr) Q E.
Proof.
  intros -> Ha HQ HE. revert i h tr Ha HQ HE.
  induction n as [|n IH]; intros i h tr Ha HQ HE; simpl in *.
  - rewrite Nat.add_0_r, insert_id, app_nil_r in HQ; done.
  - apply wp_bind, wp_on_unwind. unfold value_construct_at.
    apply wp_bind, wp_perform; simpl; intros Hthrow.
    + rewrite (app_assoc dl) in Ha.
      eapply wp_write_slot; [done|simpl; apply length_seg; len|]. simpl.
      rewrite insert_seg by len.
      apply IH.
      * rewrite lookup_insert_eq. rewrite replicate_S_end, map_app.
        by rewrite <- !app_assoc.
      * rewrite insert_insert_eq, <- app_assoc. simpl.
        by rewrite Nat.add_succ_r in HQ.
      * intros k Hk Hthrow'. rewrite insert_insert_eq.
        specialize (HE (S k) ltac:(lia)). simpl in HE.
        rewrite <- !app_assoc in *. simpl in *.
        rewrite !Nat.add_succ_r in HE. by apply HE.
    + specialize (HE 0 ltac:(lia)). simpl in HE. rewrite app_nil_r in HE.
      specialize (HE Hthrow). rewrite Nat.add_0_r in HE.
      rewrite replicate_add, <- (app_assoc (replicate i Uninit)) in HE.
      eapply (wp_destroy_n a (length dl) i dl (replicate i value_init));
        [done|by rewrite length_replicate|done|].
      replace (map (λ y : T, Done (Destroy y)) (replicate i value_init))
        with (replicate i (Done (Destroy (value_init (T:=T)))))
        by (clear; induction i; simpl; congruence).
      by rewrite <- !app_assoc in *.
Qed.

Lemma wp_value_construct_n_exact a d n dl dr h o tr (Q : () → state T → Prop) (E : state T → Prop) :
  d = length dl →
  h !! a = Some (dl ++ replicate n Uninit ++ dr) →
  Q () (State (<[a := dl ++ map Live (replicate n value_init) ++ dr]> h) o
              (tr ++ replicate n (Done ValueConstruct))) →
  (∀ k, k < n → throws ValueConstruct (tr ++ replicate k (Done ValueConstruct)) = true →
     E (State h o (tr ++ replicate k (Done ValueConstruct) ++ [Threw ValueConstruct]
                      ++ replicate k (Done (Destroy value_init))))) →
  wp (uninitialized_value_construct_n (Ptr (Some a) d) n) (State h o tr) Q E.
Proof.
  intros Hd Ha HQ HE.
  apply (wp_value_loop_exact a d 0 n dl dr); [done|done|done|].
  intros k Hk Hthrow. simpl. rewrite insert_id by done. by apply HE.
Qed.

(** [std::uninitialized_copy_n] between two blocks: when a copy throws,
    only the destination block has changed. *)
Lemma wp_uninitialized_copy_loop a a' f d sl sr dl dr done todo h o tr
    (Q : () → state T → Prop) (E : state T → Prop) :
  a ≠ a' → f = length sl → d = length dl →
  h !! a = Some (sl ++ map Live (done ++ todo) ++ sr) →
  h !! a' = Some (dl ++ map Live done ++ replicate (length todo) Uninit ++ dr) →
  Q () (State (<[a' := dl ++ map Live (done ++ todo) ++ dr]> h) o
              (tr ++ map (λ x, Done (CopyConstruct x)) todo)) →
  (copy_construct_can_throw → ∀ b' tr', E (State (<[a' := b']> h) o tr')) →
  wp (uninitialized_n
        (λ i, copy_construct_at (ptr_add (Ptr (Some a') d) i) (ptr_add (Ptr (Some a) f) i))
        (Ptr (Some a') d) (length done) (length todo))
     (State h o tr) Q E.
Proof.
  intros Hne -> -> Ha Ha' HQ HE. revert done h tr Ha Ha' HQ HE.
  induction todo as [|x todo IH]; intros done h tr Ha Ha' HQ HE; simpl in *.
  - rewrite app_nil_r in *. rewrite insert_id, app_nil_r in HQ; done.
  - apply wp_bind, wp_on_unwind. unfold copy_construct_at.
    rewrite seg_split in Ha.
    apply wp_bind. eapply wp_load; [done|simpl; apply lookup_seg; len|].
    apply wp_bind, wp_perform; simpl; intros Hthrow.
    + rewrite (app_assoc dl) in Ha'.
      eapply wp_write_slot; [done|simpl; apply length_seg; len|]. simpl.
      rewrite insert_seg by len.
      replace (S (length done)) with (length (done ++ [x])) by len.
      apply IH.
      * rewrite lookup_insert_ne by done.
        rewrite <- (app_assoc done). simpl. by rewrite seg_split.
      * rewrite lookup_insert_eq. rewrite map_app. simpl. by rewrite <- !app_assoc.
      * rewrite insert_insert_eq, <- !app_assoc. simpl. exact HQ.
      * intros Hc b' tr'. rewrite insert_insert_eq. by apply HE.
    + eapply wp_destroy_n; [done|done|done|].
      apply HE. by eexists _, _.
Qed.

Lemma wp_uninitialized_copy_n a a' f d n sl sr dl dr xs h o tr
    (Q : () → state T → Prop) (E : state T → Prop) :
  a ≠ a' → f = length sl → d = length dl → n = length xs →
  h !! a = Some (sl ++ map Live xs ++ sr) →
  h !! a' = Some (dl ++ replicate n Uninit ++ dr) →
  Q () (State (<[a' := dl ++ map Live xs ++ dr]> h) o
              (tr ++ map (λ x, Done (CopyConstruct x)) xs)) →
  (copy_construct_can_throw → ∀ b' tr', E (State (<[a' := b']> h) o tr')) →
  wp (uninitialized_copy_n (Ptr (Some a) f) n (Ptr (Some a') d)) (State h o tr) Q E.
Proof.
  intros ? ? ? -> ? ? ? ?. unfold uninitialized_copy_n.
  by apply (wp_uninitialized_copy_loop a a' f d sl sr dl dr [] xs).
Qed.

(** [std::uninitialized_move_n] between two blocks: when a move throws,
    the source block and the destination block have changed. *)
Lemma wp_uninitialized_move_loop a a' f d sl sr dl dr done todo h o tr
    (Q : () → state T → Prop) (E : state T → Prop) :
  a ≠ a' → f = length sl → d = length dl →
  h !! a = Some (sl ++ map Live (map moved_from done) ++ map Live todo ++ sr) →
  h !! a' = Some (dl ++ map Live done ++ replicate (length todo) Uninit ++ dr) →
  Q () (State (<[a' := dl ++ map Live (done ++ todo) ++ dr]>
                 (<[a := sl ++ map Live (map moved_from (done ++ todo)) ++ sr]> h)) o
              (tr ++ map (λ x, Done (MoveConstruct x)) todo)) →
  (move_construct_can_throw →
   ∀ b0 b' tr', E (State (<[a' := b']> (<[a := b0]> h)) o tr')) →
  wp (uninitialized_n
        (λ i, move_construct_at (ptr_add (Ptr (Some a') d) i) (ptr_add (Ptr (Some a) f) i))
        (Ptr (Some a') d) (length done) (length todo))
     (State h o tr) Q E.
Proof.
  intros Hne -> -> Ha Ha' HQ HE. revert done h tr Ha Ha' HQ HE.
  induction todo as [|x todo IH]; intros done h tr Ha Ha' HQ HE; simpl in *.
  - rewrite app_nil_r in *.
    rewrite (insert_id h a) in HQ by done.
    rewrite insert_id, app_nil_r in HQ; done.
  - apply wp_bind, wp_on_unwind. unfold move_construct_at.
    rewrite (app_assoc sl) in Ha.
    apply wp_bind. eapply wp_load; [done|simpl; apply lookup_seg; len|].
    simpl.
    apply wp_bind, wp_perform; simpl; intros Hthrow.
    + rewrite (app_assoc dl) in Ha'.
      apply wp_bind.
      eapply wp_write_slot; [done|simpl; apply length_seg; len|]. simpl.
      eapply wp_write_slot; [simpl; by rewrite lookup_insert_ne|simpl; apply length_seg; len|].
      simpl. rewrite !insert_seg by len.
      replace (S (length done)) with (length (done ++ [x])) by len.
      apply IH.
      * rewrite lookup_insert_eq. rewrite !map_app. simpl.
        by rewrite <- !app_assoc.
      * rewrite lookup_insert_ne by done. rewrite lookup_insert_eq.
        rewrite map_app. simpl. by rewrite <- !app_assoc.
      * rewrite insert_insert_eq.
        rewrite (insert_insert_ne _ a a') by done.
        rewrite insert_insert_eq, <- !app_assoc. simpl. exact HQ.
      * intros Hc b0 b' tr'.
        match goal with
        | |- E (State ?X _ _) => replace X with (<[a':=b']> (<[a:=b0]> h)) by map_ext
        end.
        by apply HE.
    + eapply wp_destroy_n; [done|done|done|].
      rewrite <- (insert_id h a _ Ha). apply HE. by eexists _, _.
Qed.

Lemma wp_uninitialized_move_n a a' f d n sl sr dl dr xs h o tr
    (Q : () → state T → Prop) (E : state T → Prop) :
  a ≠ a' → f = length sl → d = length dl → n = length xs →
  h !! a = Some (sl ++ map Live xs ++ sr) →
  h !! a' = Some (dl ++ replicate n Uninit ++ dr) →
  Q () (State (<[a' := dl ++ map Live xs ++ dr]>
                 (<[a := sl ++ map Live (map moved_from xs) ++ sr]> h)) o
              (tr ++ map (λ x, Done (MoveConstruct x)) xs)) →
  (move_construct_can_throw →
   ∀ b0 b' tr', E (State (<[a' := b']> (<[a := b0]> h)) o tr')) →
  wp (uninitialized_move_n (Ptr (Some a) f) n (Ptr (Some a') d)) (State h o tr) Q E.
Proof.
  intros ? ? ? -> ? ? ? ?. unfold uninitialized_move_n.
  by apply (wp_uninitialized_move_loop a a' f d sl sr dl dr [] xs).
Qed.

Lemma can_throw_value_construct : value_construct_can_throw → can_throw.
Proof. intros (tr & ?). by eexists _, _. Qed.

Lemma can_throw_copy_construct : copy_construct_can_throw → can_throw.
Proof. intros (x & tr & ?). by eexists _, _. Qed.

Lemma can_throw_move_construct : move_construct_can_throw → can_throw.
Proof. intros (x & tr & ?). by eexists _, _. Qed.

(** *** Members of [RawMemory] and accessors of [Vector] *)

Lemma wp_RawMemory_ctor n h o tr (Q : RawMemory → state T → Prop) E :
  n ≠ 0 →
  (∀ a, h !! a = None →
        Q (mkRawMemory (Some a) n) (State (<[a := replicate n Uninit]> h) o tr)) →
  wp (RawMemory.ctor n) (State h o tr) Q E.
Proof.
  intros Hn HQ. unfold wp, RawMemory.ctor, RawMemory.Allocate.
  rewrite decide_False by done.
  unfold mbind, M_bind, operator_new, new_throws, size_t, sizeof, unbounded.
  rewrite Pos2Nat.inj_1, Nat.mul_1_r, Nat.div_1_r. simpl. apply HQ.
  apply not_elem_of_dom, is_fresh.
Qed.

Lemma wp_RawMemory_dtor m h o tr (Q : () → state T → Prop) E :
  (∀ a, buffer_ m = Some a → is_Some (h !! a) ∧ Q () (State (delete a h) o tr)) →
  (buffer_ m = None → Q () (State h o tr)) →
  wp (RawMemory.dtor m) (State h o tr) Q E.
Proof.
  intros HS HN. unfold wp, RawMemory.dtor, RawMemory.Deallocate. simpl.
  destruct (buffer_ m) as [a|]; [|by apply HN].
  destruct (HS a eq_refl) as [[b ->] ?]. done.
Qed.

(** The destructor of a fresh [RawMemory] during unwinding. *)
Lemma wp_unwind_dtor a n (h : gmap addr (list (slot T))) o tr (P : state T → Prop) :
  is_Some (h !! a) → (∀ s, P s) →
  wp (RawMemory.dtor (mkRawMemory (Some a) n)) (State h o tr) (λ _ s, P s) (λ _, False).
Proof.
  intros Ha HP. apply wp_RawMemory_dtor; [|done].
  intros ? [= <-]. by split.
Qed.

Lemma wp_RawMemory_plus m k s (Q : ptr → state T → Prop) E :
  k ≤ capacity_ m → Q (Ptr (buffer_ m) k) s → wp (RawMemory.plus m k) s Q E.
Proof. intros. unfold RawMemory.plus. by rewrite decide_True. Qed.

Lemma wp_RawMemory_read this v s (Q : RawMemory → state T → Prop) E :
  objects s !! this = Some v → Q (data_ v) s → wp (RawMemory.read this) s Q E.
Proof. intros Hv ?. unfold wp, RawMemory.read. by rewrite Hv. Qed.

Lemma wp_RawMemory_write this v m s (Q : () → state T → Prop) E :
  objects s !! this = Some v →
  Q () (State (heap s) (<[this := mkVector m (size_ v)]> (objects s)) (trace s)) →
  wp (RawMemory.write this m) s Q E.
Proof. intros Hv ?. unfold wp, RawMemory.write. by rewrite Hv. Qed.

Lemma wp_deref this v s (Q : Vector → state T → Prop) E :
  objects s !! this = Some v → Q v s → wp (Vector.deref this) s Q E.
Proof. intros Hv ?. unfold wp, Vector.deref. by rewrite Hv. Qed.

Lemma wp_set_size this v n s (Q : () → state T → Prop) E :
  objects s !! this = Some v →
  Q () (State (heap s) (<[this := mkVector (data_ v) n]> (objects s)) (trace s)) →
  wp (Vector.set_size this n) s Q E.
Proof. intros Hv ?. unfold wp, Vector.set_size. by rewrite Hv. Qed.

Lemma wp_begin this v s (Q : ptr → state T → Prop) E :
  objects s !! this = Some v → Q (Ptr (buffer_ (data_ v)) 0) s → wp (Vector.begin this) s Q E.
Proof. intros Hv ?. unfold Vector.begin. apply wp_bind. by eapply wp_deref. Qed.

Lemma wp_end this v s (Q : ptr → state T → Prop) E :
  objects s !! this = Some v → size_ v ≤ capacity_ (data_ v) →
  Q (Ptr (buffer_ (data_ v)) (size_ v)) s → wp (Vector.end_ this) s Q E.
Proof.
  intros Hv ? ?. unfold Vector.end_. apply wp_bind. eapply wp_deref; [done|].
  by apply wp_RawMemory_plus.
Qed.

Lemma wp_val {A} (m : M T A) s Q E a s' :
  wp m s Q E → m s = Val a s' → Q a s'.
Proof. unfold wp. intros H Hm. by rewrite Hm in H. Qed.

Lemma returns_nothrow {A} (m : M T A) s Q :
  returns m s Q → ¬ can_throw → ∃ a s', m s = Val a s' ∧ Q a s'.
Proof. unfold returns, wp. destruct (m s); naive_solver. Qed.

(** A computation that does not go wrong and cannot end with an
    exception returns. *)
Lemma wp_result {A} (m : M T A) s (Q : A → state T → Prop) (E : state T → Prop) :
  wp m s Q E → (∀ s', E s' → False) → ∃ a s', m s = Val a s' ∧ Q a s'.
Proof.
  unfold wp. destruct (m s) as [a s'|s'|]; intros H HE; [by eauto|by destruct (HE s')|done].
Qed.

Lemma wp_exn_eq {A} (m : M T A) s s' :
  wp m s (λ _ _, False) (λ s'', s'' = s') → m s = Exn s'.
Proof. unfold wp. destruct (m s); [done|by intros ->|done]. Qed.

End rules.

Section shifts.
Context {T : Type} `{!Element T}.

Lemma wp_move_assign_obj a i j b d x h o tr (Q : () → state T → Prop) (E : state T → Prop) :
  h !! a = Some b → b !! i = Some (Live d) → b !! j = Some (Live x) →
  Q () (State (<[a := <[j := Live (moved_from x)]> (<[i := Live x]> b)]> h) o
              (tr ++ [Done (MoveAssign d x)])) →
  (move_assign_can_throw → ∀ s', E s') →
  wp (move_assign_obj (Ptr (Some a) i) (Ptr (Some a) j)) (State h o tr) Q E.
Proof.
  intros Ha Hi Hj HQ HE. unfold move_assign_obj.
  apply wp_bind. eapply wp_load; [done..|].
  apply wp_bind. eapply wp_load; [done..|].
  apply wp_bind, wp_perform; simpl; intros Hthrow.
  - apply wp_bind.
    eapply wp_write_slot; [done|by eapply lookup_lt_Some|]. simpl.
    eapply wp_write_slot; [simpl; by rewrite lookup_insert_eq| |].
    { rewrite length_insert. by eapply lookup_lt_Some. }
    simpl. by rewrite insert_insert_eq.
  - apply HE. by eexists _, _, _.
Qed.

Lemma wp_copy_assign_obj a a' i j b b' d x h o tr (Q : () → state T → Prop) (E : state T → Prop) :
  h !! a' = Some b' → h !! a = Some b →
  b' !! i = Some (Live d) → b !! j = Some (Live x) →
  Q () (State (<[a' := <[i := Live x]> b']> h) o (tr ++ [Done (CopyAssign d x)])) →
  (copy_assign_can_throw → ∀ s', E s') →
  wp (copy_assign_obj (Ptr (Some a') i) (Ptr (Some a) j)) (State h o tr) Q E.
Proof.
  intros Ha' Ha Hi Hj HQ HE. unfold copy_assign_obj.
  apply wp_bind. eapply wp_load; [done..|].
  apply wp_bind. eapply wp_load; [done..|].
  apply wp_bind, wp_perform; simpl; intros Hthrow.
  - eapply wp_write_slot; [done|by eapply lookup_lt_Some|]. done.
  - apply HE. by eexists _, _, _.
Qed.

(** [std::ranges::move] of a run of objects one slot to the left. *)
Lemma wp_move_left a i pre d ys post h o tr (Q : () → state T → Prop) (E : state T → Prop) :
  i = length pre →
  h !! a = Some (pre ++ Live d :: map Live ys ++ post) →
  (∀ tr', Q () (State (<[a := pre ++ map Live ys ++ Live (residue d ys) :: post]> h) o tr')) →
  (move_assign_can_throw → ∀ s', E s') →
  wp (assign_n move_assign_obj (Ptr (Some a) (S i)) (length ys) (Ptr (Some a) i))
     (State h o tr) Q E.
Proof.
  intros -> Ha HQ HE. revert pre d h tr Ha HQ.
  induction ys as [|y ys IH]; intros pre d h tr Ha HQ; simpl in *.
  - specialize (HQ tr). by rewrite insert_id in HQ.
  - apply wp_bind.
    eapply wp_move_assign_obj; [done|by apply lookup_seg| | |done].
    { rewrite (cons_middle (Live d)), app_assoc. apply lookup_seg. len. }
    rewrite insert_seg by done.
    rewrite (cons_middle (Live y) pre), app_assoc.
    rewrite insert_seg by len.
    unfold ptr_add; simpl.
    replace (S (length pre + 1)) with (S (length (pre ++ [Live y]))) by len.
    replace (length pre + 1) with (length (pre ++ [Live y])) by len.
    eapply IH.
    + by rewrite lookup_insert_eq.
    + intros tr'. rewrite insert_insert_eq, <- app_assoc. simpl. apply HQ.
Qed.

(** [std::ranges::move_backward] of a run of objects one slot to the
    right. *)
Lemma wp_move_right a i pre d ys post h o tr (Q : () → state T → Prop) (E : state T → Prop) :
  i = length pre →
  h !! a = Some (pre ++ map Live ys ++ Live d :: post) →
  (∀ tr', Q () (State (<[a := pre ++ Live (residue_back d ys) :: map Live ys ++ post]> h) o tr')) →
  (move_assign_can_throw → ∀ s', E s') →
  wp (move_backward_n (Ptr (Some a) i) (length ys) (Ptr (Some a) (S i)))
     (State h o tr) Q E.
Proof.
  intros -> Ha HQ HE. revert d post h tr Ha HQ.
  induction ys as [|y ys IH] using rev_ind; intros d post h tr Ha HQ.
  - simpl in *. specialize (HQ tr). by rewrite insert_id in HQ.
  - rewrite length_app. simpl. rewrite Nat.add_1_r. simpl.
    rewrite map_app in Ha. simpl in Ha.
    rewrite <- app_assoc in Ha. simpl in Ha.
    apply wp_bind.
    eapply wp_move_assign_obj; [done| | | |done].
    { simpl. rewrite (cons_middle (Live y)), !app_assoc. apply lookup_seg. len. }
    { simpl. rewrite app_assoc. apply lookup_seg. len. }
    simpl.
    rewrite (cons_middle (Live y)), !app_assoc.
    rewrite insert_seg by len.
    rewrite <- !app_assoc. simpl. rewrite app_assoc.
    rewrite insert_seg by len.
    rewrite <- app_assoc.
    eapply IH.
    + by rewrite lookup_insert_eq.
    + intros tr'. rewrite insert_insert_eq.
      specialize (HQ tr'). rewrite map_app in HQ. simpl in HQ.
      rewrite <- app_assoc in HQ. simpl in HQ.
      destruct ys; exact HQ.
Qed.

(** The same two loops with the trace they leave. *)
Lemma wp_move_left_trace a i pre d ys post h o tr (Q : () → state T → Prop) (E : state T → Prop) :
  i = length pre →
  h !! a = Some (pre ++ Live d :: map Live ys ++ post) →
  Q () (State (<[a := pre ++ map Live ys ++ Live (residue d ys) :: post]> h) o
              (tr ++ shift_events d ys)) →
  (move_assign_can_throw → ∀ s', E s') →
  wp (assign_n move_assign_obj (Ptr (Some a) (S i)) (length ys) (Ptr (Some a) i))
     (State h o tr) Q E.
Proof.
  intros -> Ha HQ HE. revert pre d h tr Ha HQ.
  induction ys as [|y ys IH]; intros pre d h tr Ha HQ; simpl in *.
  - by rewrite insert_id, app_nil_r in HQ.
  - apply wp_bind.
    eapply wp_move_assign_obj; [done|by apply lookup_seg| | |done].
    { rewrite (cons_middle (Live d)), app_assoc. apply lookup_seg. len. }
    rewrite insert_seg by done.
    rewrite (cons_middle (Live y) pre), app_assoc.
    rewrite insert_seg by len.
    unfold ptr_add; simpl.
    replace (S (length pre + 1)) with (S (length (pre ++ [Live y]))) by len.
    replace (length pre + 1) with (length (pre ++ [Live y])) by len.
    eapply IH.
    + by rewrite lookup_insert_eq.
    + rewrite insert_insert_eq, <- !app_assoc. simpl. apply HQ.
Qed.

Lemma wp_move_right_trace a i pre d ys post h o tr (Q : () → state T → Prop) (E : state T → Prop) :
  i = length pre →
  h !! a = Some (pre ++ map Live ys ++ Live d :: post) →
  Q () (State (<[a := pre ++ Live (residue_back d ys) :: map Live ys ++ post]> h) o
              (tr ++ shift_events d (rev ys))) →
  (move_assign_can_throw → ∀ s', E s') →
  wp (move_backward_n (Ptr (Some a) i) (length ys) (Ptr (Some a) (S i)))
     (State h o tr) Q E.
Proof.
  intros -> Ha HQ HE. revert d post h tr Ha HQ.
  induction ys as [|y ys IH] using rev_ind; intros d post h tr Ha HQ.
  - simpl in *. by rewrite insert_id, app_nil_r in HQ.
  - rewrite length_app. simpl. rewrite Nat.add_1_r. simpl.
    rewrite map_app in Ha. simpl in Ha.
    rewrite <- app_assoc in Ha. simpl in Ha.
    apply wp_bind.
    eapply wp_move_assign_obj; [done| | | |done].
    { simpl. rewrite (cons_middle (Live y)), !app_assoc. apply lookup_seg. len. }
    { simpl. rewrite app_assoc. apply lookup_seg. len. }
    simpl.
    rewrite (cons_middle (Live y)), !app_assoc.
    rewrite insert_seg by len.
    rewrite <- !app_assoc. simpl. rewrite app_assoc.
    rewrite insert_seg by len.
    rewrite <- app_assoc.
    eapply IH.
    + by rewrite lookup_insert_eq.
    + rewrite insert_insert_eq.
      rewrite map_app in HQ. simpl in HQ.
      rewrite <- app_assoc in HQ. simpl in HQ.
      rewrite rev_app_distr in HQ. simpl in HQ.
      rewrite <- app_assoc. simpl.
      destruct ys; exact HQ.
Qed.
(** [std::ranges::copy] between two blocks *)
Lemma wp_copy_between a a' f d sl sr dl dr xs ds h o tr (Q : () → state T → Prop) (E : state T → Prop) :
  a ≠ a' → f = length sl → d = length dl → length ds = length xs →
  h !! a = Some (sl ++ map Live xs ++ sr) →
  h !! a' = Some (dl ++ map Live ds ++ dr) →
  Q () (State (<[a' := dl ++ map Live xs ++ dr]> h) o
              (tr ++ zip_with (λ d x, Done (CopyAssign d x)) ds xs)) →
  (copy_assign_can_throw → ∀ s', E s') →
  wp (assign_n copy_assign_obj (Ptr (Some a) f) (length xs) (Ptr (Some a') d))
     (State h o tr) Q E.
Proof.
  intros Hne -> -> Hlen Ha Ha' HQ HE. revert ds sl dl h tr Hlen Ha Ha' HQ.
  induction xs as [|x xs IH]; intros [|d0 ds] sl dl h tr Hlen Ha Ha' HQ;
    simpl in *; try done.
  - rewrite insert_id, app_nil_r in HQ; done.
  - apply wp_bind.
    eapply wp_copy_assign_obj; [done|done|by apply lookup_seg|by apply lookup_seg| |done].
    rewrite insert_seg by done.
    unfold ptr_add; simpl.
    replace (length sl + 1) with (length (sl ++ [Live x])) by len.
    replace (length dl + 1) with (length (dl ++ [Live x])) by len.
    apply (IH ds).
    + lia.
    + rewrite lookup_insert_ne by done. by rewrite <- app_assoc.
    + rewrite lookup_insert_eq. by rewrite <- app_assoc.
    + rewrite insert_insert_eq, <- !app_assoc. apply HQ.
Qed.

(** [std::ranges::copy] of a range onto itself *)
Lemma wp_copy_self a f sl sr xs h o tr (Q : () → state T → Prop) (E : state T → Prop) :
  f = length sl →
  h !! a = Some (sl ++ map Live xs ++ sr) →
  Q () (State h o (tr ++ zip_with (λ d x, Done (CopyAssign d x)) xs xs)) →
  (copy_assign_can_throw → ∀ s', E s') →
  wp (assign_n copy_assign_obj (Ptr (Some a) f) (length xs) (Ptr (Some a) f))
     (State h o tr) Q E.
Proof.
  intros -> Ha HQ HE. revert sl tr Ha HQ.
  induction xs as [|x xs IH]; intros sl tr Ha HQ; simpl in *.
  - by rewrite app_nil_r in HQ.
  - apply wp_bind.
    eapply wp_copy_assign_obj; [done|done|by apply lookup_seg|by apply lookup_seg| |done].
    rewrite insert_seg by done. rewrite insert_id by done.
    unfold ptr_add; simpl.
    replace (length sl + 1) with (length (sl ++ [Live x])) by len.
    apply IH; [by rewrite <- app_assoc|]. by rewrite <- app_assoc.
Qed.

End shifts.

(** ** The growth paths *)

Section growth.
Context {T : Type} `{!Element T}.
Implicit Types (h : gmap addr (list (slot T))) (o : gmap vref Vector).
Implicit Types (tr : list (event T)) (xs ys : list T) (this other : vref).

(** The transfer of a run of elements into another block, by the
    policy [b].  When a construction throws, the destination block has
    changed, and under the move policy the source block as well. *)
Lemma wp_transfer (b : bool) a a' f d n sl sr dl dr xs h o tr
    (Q : () → state T → Prop) (E : state T → Prop) :
  a ≠ a' → f = length sl → d = length dl → n = length xs →
  h !! a = Some (sl ++ map Live xs ++ sr) →
  h !! a' = Some (dl ++ replicate n Uninit ++ dr) →
  Q () (State (<[a' := dl ++ map Live xs ++ dr]>
                 (<[a := sl ++ map Live (map (λ x, if b then moved_from x else x) xs) ++ sr]> h)) o
              (tr ++ map (λ x, Done (if b then MoveConstruct x else CopyConstruct x)) xs)) →
  ((if b then move_construct_can_throw else copy_construct_can_throw) →
   ∀ b0 b' tr', (b = false → h !! a = Some b0) →
                E (State (<[a' := b']> (<[a := b0]> h)) o tr')) →
  wp (if b then uninitialized_move_n (Ptr (Some a) f) n (Ptr (Some a') d)
      else uninitialized_copy_n (Ptr (Some a) f) n (Ptr (Some a') d))
     (State h o tr) Q E.
Proof.
  intros ? ? ? ? Ha Ha' HQ HE. destruct b.
  - eapply wp_uninitialized_move_n; [done..|].
    intros Hc b0 b' tr'. by apply HE.
  - eapply wp_uninitialized_copy_n; [done..| |].
    + rewrite map_id in HQ. by rewrite (insert_id h a) in HQ.
    + intros Hc b' tr'. rewrite <- (insert_id h a _ Ha). by apply HE.
Qed.

Lemma wp_transfer_0 (b : bool) p q s (Q : () → state T → Prop) (E : state T → Prop) :
  Q () s →
  wp (if b then uninitialized_move_n p 0 q else uninitialized_copy_n p 0 q) s Q E.
Proof. by destruct b. Qed.

Lemma can_throw_transfer (b : bool) :
  (if b then move_construct_can_throw else copy_construct_can_throw) → can_throw.
Proof. destruct b; [apply can_throw_move_construct|apply can_throw_copy_construct]. Qed.

Lemma holds_inv h o tr this xs cap :
  holds (State h o tr) this xs cap →
  ∃ buf, o !! this = Some (mkVector (mkRawMemory buf cap) (length xs)) ∧
         length xs ≤ cap ∧
         match buf with
         | Some a => h !! a = Some (map Live xs ++ replicate (cap - length xs) Uninit)
         | None => cap = 0 ∧ xs = []
         end.
Proof.
  intros ([[buf c] sz] & Ho & Hsz & Hc & Hlen & Hb). simpl in *. subst.
  exists buf. split_and!; [done..|].
  destruct buf; [done|]. split; [done|].
  subst. destruct xs; [done|simpl in *; lia].
Qed.

Lemma holds_intro h o tr this xs cap buf :
  o !! this = Some (mkVector (mkRawMemory buf cap) (length xs)) →
  length xs ≤ cap →
  match buf with
  | Some a => h !! a = Some (map Live xs ++ replicate (cap - length xs) Uninit)
  | None => cap = 0
  end →
  holds (State h o tr) this xs cap.
Proof. intros. eexists. split; [done|]. by repeat split. Qed.

Lemma confined_intro h o tr h' o' tr' this v v' :
  o !! this = Some v → o' = <[this := v']> o →
  (∀ a b, h !! a = Some b → buffer_ (data_ v) ≠ Some a → h' !! a = Some b) →
  (∀ a, buffer_ (data_ v') = Some a → buffer_ (data_ v) = Some a ∨ h !! a = None) →
  confined (State h o tr) (State h' o' tr') this.
Proof.
  intros Hv -> Hkept Hblock. unfold confined, position. simpl.
  rewrite Hv, lookup_insert_eq. simpl. split_and!.
  - intros w Hw. by rewrite lookup_insert_ne.
  - intros a b Ha Hne. apply Hkept; [done|]. intros Heq. apply Hne. by rewrite Heq.
  - intros a [= Ha]. destruct (Hblock a Ha) as [->|]; auto.
Qed.

(** [Reserve] beyond the capacity.  An exception comes from the
    constructor that transfers the elements; when that is the copy
    constructor, the heap is as it was. *)
Lemma Reserve_grow_full h o tr this xs cap n :
  holds (State h o tr) this xs cap → cap < n →
  wp (Vector.Reserve this n) (State h o tr)
     (λ _ s',
        holds s' this xs n ∧
        trace s' = tr ++ map (λ x, Done (transfer_op x)) xs
                      ++ map (λ x, Done (Destroy (left_behind x))) xs ∧
        confined (State h o tr) s' this)
     (λ s', objects s' = o ∧
            if Vector.transfer_by_move then move_construct_can_throw
            else copy_construct_can_throw ∧ heap s' = h).
Proof.
  intros (buf & Ho & Hlen & Hb)%holds_inv Hn. unfold Vector.Reserve.
  apply wp_bind. eapply wp_deref; [done|]. simpl.
  rewrite decide_False by (unfold RawMemory.Capacity; simpl; lia).
  apply wp_bind, wp_RawMemory_ctor; [lia|]. intros a' Hfresh.
  apply wp_bind, wp_on_unwind. simpl.
  destruct buf as [a|].
  - assert (a ≠ a') by congruence.
    apply wp_bind.
    replace (replicate n (@Uninit T))
      with (@nil (slot T) ++ replicate (length xs) Uninit ++ replicate (n - length xs) Uninit)
      by (simpl; rewrite <- replicate_add; f_equal; lia).
    unfold RawMemory.GetAddress. simpl buffer_.
    eapply (wp_transfer Vector.transfer_by_move a a' 0 0 _ [] _ [] _ xs);
      [done|done|done|done|simpl; by rewrite lookup_insert_ne|by rewrite lookup_insert_eq| |].
    + simpl app. apply wp_bind.
      eapply (wp_destroy_n a 0 (length xs) [] (map _ xs));
        [done|by rewrite length_map| |].
      { rewrite lookup_insert_ne by done. by rewrite lookup_insert_eq. }
      simpl app. apply wp_bind.
      eapply wp_RawMemory_write; [done|]. simpl.
      apply wp_ret.
      eapply wp_RawMemory_dtor.
      * intros ? [= <-]. split; [map_lookup|].
        split_and!.
        -- eapply holds_intro; [by rewrite lookup_insert_eq|lia|].
           map_lookup.
        -- simpl. rewrite <- !app_assoc. f_equal.
           by rewrite map_map.
        -- eapply confined_intro; [done|done| |]; simpl.
           ++ intros a0 b0 Ha0 Hne. assert (a0 ≠ a') by congruence.
              rewrite lookup_delete_ne, lookup_insert_ne by congruence.
              by rewrite !lookup_insert_ne by congruence.
           ++ intros a0 [= <-]. by right.
      * done.
    + intros Hc b0 b' tr' Hb0.
      apply wp_RawMemory_dtor; [|done]. simpl. intros ? [= <-].
      split; [map_lookup|].
      split; [done|]. simpl.
      destruct Vector.transfer_by_move; [done|].
      split; [done|].
      rewrite delete_insert_eq, insert_id by (by apply Hb0).
      by rewrite delete_insert_id.
  - destruct Hb as [-> ->]. unfold RawMemory.GetAddress. simpl.
    apply wp_bind, wp_transfer_0.
    apply wp_bind, wp_ret, wp_bind.
    eapply wp_RawMemory_write; [done|]. simpl.
    apply wp_ret, wp_RawMemory_dtor; [done|]. intros _.
    split_and!; [|by rewrite app_nil_r|].
    + eapply holds_intro; [by rewrite lookup_insert_eq|simpl; lia|].
      map_lookup. by rewrite Nat.sub_0_r.
    + eapply confined_intro; [done|done| |]; simpl.
      * intros a0 b0 Ha0 _. rewrite lookup_insert_ne; [done|congruence].
      * intros a0 [= <-]. by right.
Qed.

Lemma Reserve_grow h o tr this xs cap n :
  holds (State h o tr) this xs cap → cap < n →
  returns (Vector.Reserve this n) (State h o tr) (λ _ s',
    holds s' this xs n ∧
    trace s' = tr ++ map (λ x, Done (transfer_op x)) xs
                  ++ map (λ x, Done (Destroy (left_behind x))) xs).
Proof.
  intros Hholds Hn.
  eapply wp_mono; [by eapply Reserve_grow_full| |].
  - by intros ? ? (? & ? & _).
  - intros s' [_ Hc]. apply (can_throw_transfer Vector.transfer_by_move).
    destruct Vector.transfer_by_move; [done|by destruct Hc].
Qed.

Lemma wp_transfer_seq {A} (b : bool) (m c : M T ()) (f g : M T A) s (Q : A → state T → Prop) E :
  wp ((if b then m else c) ;; (if b then f else g)) s Q E →
  wp (if b then m ;; f else c ;; g) s Q E.
Proof. by destruct b. Qed.

Lemma wp_transfer_bind {A B} (b : bool) (p : M T A) (f g : A → M T B) s
    (Q : B → state T → Prop) E :
  wp (x ← p; if b then f x else g x) s Q E →
  wp (if b then x ← p; f x else x ← p; g x) s Q E.
Proof. by destruct b. Qed.

Lemma wp_construct_at a i l r (x : args T) h o tr (Q : () → state T → Prop) (E : state T → Prop) :
  i = length l →
  h !! a = Some (l ++ Uninit :: r) →
  (throws (args_op x) tr = false →
   Q () (State (<[a := l ++ Live (args_value x) :: r]> h) o (tr ++ [Done (args_op x)]))) →
  (throws (args_op x) tr = true → E (State h o (tr ++ [Threw (args_op x)]))) →
  wp (Vector.construct_at (Ptr (Some a) i) x) (State h o tr) Q E.
Proof.
  intros -> Ha HQ HE. unfold Vector.construct_at.
  apply wp_bind, wp_perform; simpl; intros Hthrow; [|by apply HE].
  eapply wp_write_slot; [done|by apply length_seg|]. simpl.
  rewrite insert_seg by done. by apply HQ.
Qed.

Lemma grown_max n : grown n = 1 `max` (n * 2).
Proof. unfold grown. case_decide; lia. Qed.

Lemma ReallocateAndEmbed_full h o tr this xs i (x : args T) :
  holds (State h o tr) this xs (length xs) → i ≤ length xs →
  wp (Vector.ReallocateAndEmbed this i x) (State h o tr)
     (λ _ s', ∃ a',
        throws (args_op x) tr = false ∧ h !! a' = None ∧
        objects s' = <[this := mkVector (mkRawMemory (Some a') (grown (length xs))) (length xs)]> o ∧
        heap s' !! a' = Some (map Live (take i xs ++ args_value x :: drop i xs)
                              ++ replicate (grown (length xs) - S (length xs)) Uninit) ∧
        trace s' = tr ++ [Done (args_op x)]
                      ++ map (λ y, Done (transfer_op y)) (take i xs)
                      ++ map (λ y, Done (transfer_op y)) (drop i xs)
                      ++ map (λ y, Done (Destroy (left_behind y))) xs ∧
        (∀ a0 b0, h !! a0 = Some b0 →
                  position (State h o tr) this 0 ≠ Some (Ptr (Some a0) 0) →
                  heap s' !! a0 = Some b0))
     (λ s', can_throw ∧
            (throws (args_op x) tr = true → s' = State h o (tr ++ [Threw (args_op x)])) ∧
            ((Vector.transfer_by_move = true → ¬ move_construct_can_throw) →
             heap s' = h ∧ objects s' = o)).
Proof.
  intros (buf & Ho & Hlen & Hb)%holds_inv Hi. unfold Vector.ReallocateAndEmbed.
  apply wp_bind. eapply wp_deref; [done|]. simpl.
  fold (grown (length xs)).
  assert (length xs < grown (length xs)) as Hg by (rewrite grown_max; lia).
  apply wp_bind, wp_RawMemory_ctor; [lia|]. intros a' Hfresh.
  apply wp_bind, wp_on_unwind.
  apply wp_bind, wp_RawMemory_plus; [simpl; lia|]. simpl buffer_.
  apply wp_bind.
  set (g := grown (length xs)) in *.
  eapply (wp_construct_at a' i (replicate i Uninit) (replicate (g - S i) Uninit));
    [by rewrite length_replicate| | |].
  { rewrite lookup_insert_eq. f_equal.
    rewrite (replicate_add i 1 (g - S i) Uninit) || idtac.
    change (Uninit :: replicate (g - S i) Uninit) with (replicate (S (g - S i)) (@Uninit T)).
    rewrite <- replicate_add. f_equal. lia. }
  2:{ intros Hthrow. eapply wp_RawMemory_dtor; [|done].
      intros ? [= <-]. split; [map_lookup|].
      rewrite delete_insert_eq, delete_id by done.
      split_and!; [by eexists _, _|done|done]. }
  intros Hnothrow. rewrite insert_insert_eq.
  assert (∀ h' tr',
            is_Some (h' !! a') → can_throw →
            (Vector.transfer_by_move = true → move_construct_can_throw) →
            (Vector.transfer_by_move = false → delete a' h' = h) →
            wp (RawMemory.dtor (mkRawMemory (Some a') g)) (State h' o tr')
               (λ _ s'', can_throw ∧
                  (throws (args_op x) tr = true →
                   s'' = State h o (tr ++ [Threw (args_op x)])) ∧
                  ((Vector.transfer_by_move = true → ¬ move_construct_can_throw) →
                   heap s'' = h ∧ objects s'' = o))
               (λ _, False)) as Hfail.
  { intros h' tr' Hsome Hc Hmove Hcopy.
    apply wp_RawMemory_dtor; [|done]. intros ? [= <-]. split; [done|].
    split_and!; [done|congruence|]. intros Hpolicy. simpl. split; [|done].
    destruct Vector.transfer_by_move; [|by apply Hcopy].
    destruct (Hpolicy eq_refl). by apply Hmove. }
  unfold RawMemory.GetAddress. simpl.
  destruct buf as [a|].
  - assert (a ≠ a') by congruence.
    rewrite Nat.sub_diag in Hb. simpl in Hb. rewrite app_nil_r in Hb.
    apply wp_bind, wp_transfer_seq, wp_bind.
    eapply (wp_transfer _ a a' 0 0 i [] (map Live (drop i xs)) [] _ (take i xs));
      [done|done|done|by rewrite length_take; lia| | | |].
    { map_lookup. by rewrite <- map_app, take_drop. }
    { map_lookup. }
    2:{ intros Hc b0 b' tr' Hb0.
        apply Hfail; [map_lookup|by eapply can_throw_transfer| |].
        - intros Hp. by rewrite Hp in Hc.
        - intros Hp. rewrite (insert_id _ a b0) by auto.
          by rewrite !delete_insert_eq, delete_id. }
    simpl app.
    apply wp_transfer_bind, wp_bind, wp_RawMemory_plus; [simpl; lia|]. simpl buffer_.
    apply wp_transfer_bind, wp_bind, wp_size_sub; [done|].
    apply wp_transfer_bind, wp_bind, wp_RawMemory_plus; [simpl; lia|]. simpl buffer_.
    unfold ptr_add. simpl.
    eapply (wp_transfer _ a a' i (i + 1) (length xs - i) (map Live (map _ (take i xs))) []
              (map Live (take i xs) ++ [Live (args_value x)])
              (replicate (g - S (length xs)) Uninit) (drop i xs));
      [done|len|len|len| | | |].
    { map_lookup. by rewrite app_nil_r. }
    { map_lookup. rewrite <- !app_assoc. simpl. do 3 f_equal.
      rewrite <- replicate_add. f_equal. lia. }
    2:{ intros Hc b0 b' tr' Hb0.
        apply Hfail; [map_lookup|by eapply can_throw_transfer| |].
        - intros Hp. by rewrite Hp in Hc.
        - intros Hp. rewrite (insert_id _ a b0) by auto.
          rewrite !delete_insert_eq. rewrite Hp. simpl.
          rewrite map_id, <- map_app, take_drop.
          rewrite (insert_id _ a) by map_lookup.
          by rewrite delete_insert_eq, delete_id. }
    rewrite app_nil_r.
    apply wp_bind.
    eapply (wp_destroy_n a 0 (length xs) [] (map _ xs) []); [done|len| |].
    { map_lookup. by rewrite <- !map_app, take_drop, app_nil_r. }
    apply wp_bind.
    eapply wp_RawMemory_write; [done|]. simpl.
    apply wp_ret, wp_RawMemory_dtor; [|done].
    intros ? [= <-]. split; [map_lookup|].
    exists a'. split_and!; [done|done|done| | |].
    + map_lookup. f_equal. rewrite <- !app_assoc, map_app. simpl.
      by rewrite <- app_assoc.
    + rewrite <- !app_assoc. simpl. do 4 f_equal. by rewrite map_map.
    + intros a0 b0 Ha0 Hne. simpl.
      assert (a0 ≠ a).
      { intros ->. apply Hne. unfold position. simpl. by rewrite Ho. }
      assert (a0 ≠ a') by congruence.
      rewrite lookup_delete_ne by done. by rewrite !lookup_insert_ne by done.
  - destruct Hb as [_ ->]. simpl in *. assert (i = 0) as -> by lia.
    apply wp_bind, wp_transfer_seq, wp_bind, wp_transfer_0.
    apply wp_transfer_bind, wp_bind, wp_RawMemory_plus; [simpl; lia|]. simpl buffer_.
    apply wp_transfer_bind, wp_bind, wp_size_sub; [done|].
    apply wp_transfer_bind, wp_bind, wp_RawMemory_plus; [simpl; lia|]. simpl buffer_.
    apply wp_transfer_0.
    apply wp_bind, wp_ret, wp_bind.
    eapply wp_RawMemory_write; [done|]. simpl.
    apply wp_ret, wp_RawMemory_dtor; [done|]. intros _.
    exists a'. split_and!; [done|done|done|map_lookup|done|].
    intros a0 b0 Ha0 _. simpl. rewrite lookup_insert_ne; [done|congruence].
Qed.

Lemma ReallocateAndEmbed_spec h o tr this xs i (x : args T) :
  holds (State h o tr) this xs (length xs) → i ≤ length xs →
  wp (Vector.ReallocateAndEmbed this i x) (State h o tr)
     (λ _ s', ∃ a',
        throws (args_op x) tr = false ∧ h !! a' = None ∧
        objects s' = <[this := mkVector (mkRawMemory (Some a') (grown (length xs))) (length xs)]> o ∧
        heap s' !! a' = Some (map Live (take i xs ++ args_value x :: drop i xs)
                              ++ replicate (grown (length xs) - S (length xs)) Uninit) ∧
        trace s' = tr ++ [Done (args_op x)]
                      ++ map (λ y, Done (transfer_op y)) (take i xs)
                      ++ map (λ y, Done (transfer_op y)) (drop i xs)
                      ++ map (λ y, Done (Destroy (left_behind y))) xs)
     (λ s', can_throw ∧
            (throws (args_op x) tr = true → s' = State h o (tr ++ [Threw (args_op x)])) ∧
            ((Vector.transfer_by_move = true → ¬ move_construct_can_throw) →
             heap s' = h ∧ objects s' = o)).
Proof.
  intros Hholds Hi.
  eapply wp_mono; [by apply ReallocateAndEmbed_full| |done].
  intros _ s' (a' & ? & ? & ? & ? & ? & _). by exists a'.
Qed.

End growth.

(** ** Insertion within capacity *)

Section embed.
Context {T : Type} `{!Element T}.
Implicit Types (h : gmap addr (list (slot T))) (o : gmap vref Vector).
Implicit Types (tr : list (event T)) (xs ys : list T) (this other : vref).

Lemma can_throw_move_assign : move_assign_can_throw → can_throw.
Proof. intros (d & x & tr & ?). by eexists _, _. Qed.

Lemma can_throw_copy_assign : copy_assign_can_throw → can_throw.
Proof. intros (d & x & tr & ?). by eexists _, _. Qed.

Lemma Embed_full h o tr this a xs cap i (x : args T) :
  o !! this = Some (mkVector (mkRawMemory (Some a) cap) (length xs)) →
  h !! a = Some (map Live xs ++ replicate (cap - length xs) Uninit) →
  length xs < cap → i ≤ length xs →
  wp (Vector.Embed this (Ptr (Some a) i) i x) (State h o tr)
     (λ _ s',
        throws (args_op x) tr = false ∧
        objects s' = o ∧
        heap s' = <[a := map Live (take i xs ++ args_value x :: drop i xs)
                          ++ replicate (cap - S (length xs)) Uninit]> h ∧
        (i = length xs → trace s' = tr ++ [Done (args_op x)]) ∧
        (∀ ys z, xs = ys ++ [z] → i < length xs →
           trace s' = tr ++ [Done (args_op x); Done (MoveConstruct z)]
                         ++ shift_events (moved_from z) (rev (drop i ys))
                         ++ [Done (MoveAssign (residue_back (moved_from z) (drop i ys))
                                              (args_value x));
                             Done (Destroy (moved_from (args_value x)))]))
     (λ s', can_throw ∧
            (throws (args_op x) tr = true → s' = State h o (tr ++ [Threw (args_op x)])) ∧
            ((i < length xs → ¬ move_assign_can_throw) → heap s' = h ∧ objects s' = o)).
Proof.
  intros Ho Ha Hcap Hi. unfold Vector.Embed.
  assert (replicate (cap - length xs) (@Uninit T)
          = Uninit :: replicate (cap - S (length xs)) Uninit) as Hrep.
  { replace (cap - length xs) with (S (cap - S (length xs))) by lia. done. }
  rewrite Hrep in Ha.
  apply wp_bind. eapply wp_end; [done|simpl; lia|]. simpl.
  case_decide as Hpos.
  - assert (i = length xs) as -> by congruence.
    eapply wp_construct_at; [by rewrite length_map|done| |].
    + intros ?. split_and!; [done|done| |done|intros; lia]. simpl.
      rewrite take_ge, drop_ge by lia. rewrite map_app. simpl.
      by rewrite <- app_assoc.
    + intros Hthrow. split_and!; [by eexists _, _|done|done].
  - assert (i < length xs) as Hlt.
    { destruct (decide (i = length xs)) as [->|]; [done|lia]. }
    apply wp_bind, wp_perform; simpl; intros Hthrow;
      [|split_and!; [by eexists _, _|done|done]].
    assert (∀ s' : state T, move_assign_can_throw → can_throw ∧
              (throws (args_op x) tr = true → s' = State h o (tr ++ [Threw (args_op x)])) ∧
              ((i < length xs → ¬ move_assign_can_throw) → heap s' = h ∧ objects s' = o))
      as Hexn.
    { intros s' Hc. split_and!; [by apply can_throw_move_assign|congruence|].
      intros Hn. destruct (Hn Hlt Hc). }
    apply wp_bind, wp_on_unwind.
    destruct xs as [|z xs _] using rev_ind; [simpl in *; lia|].
    rewrite length_app in *. simpl in *.
    rewrite map_app in Ha. simpl in Ha. rewrite <- app_assoc in Ha. simpl in Ha.
    apply wp_bind. eapply wp_end; [done|simpl; lia|]. simpl.
    apply wp_bind, wp_ptr_sub; [simpl; lia|]. simpl.
    apply wp_bind. unfold move_construct_at.
    apply wp_bind. eapply wp_load; [done|apply lookup_seg; len|]. simpl.
    apply wp_bind, wp_perform; simpl; intros Hthrow';
      [|apply wp_log; simpl; split_and!; [by eexists _, _|congruence|done]].
    apply wp_bind.
    eapply wp_write_slot; [done| |].
    { simpl. rewrite (cons_middle (Live z)), app_assoc. apply length_seg. len. }
    simpl.
    eapply wp_write_slot; [map_lookup| |].
    { simpl. rewrite length_insert. apply length_seg. len. }
    simpl. rewrite insert_insert_eq.
    rewrite (cons_middle (Live z)), app_assoc, insert_seg by len.
    rewrite <- app_assoc. simpl. rewrite insert_seg by len.
    apply wp_bind. eapply wp_begin; [done|]. simpl.
    apply wp_bind. eapply wp_end; [done|simpl; lia|]. simpl.
    apply wp_bind, wp_ptr_sub; [simpl; lia|]. simpl.
    unfold ptr_add. simpl.
    apply wp_bind. unfold ranges_move_backward.
    apply wp_bind, wp_ranges_distance; [lia|].
    apply wp_bind, wp_ptr_sub; [simpl; lia|]. simpl.
    replace (length xs + 1 - 1 - i) with (length (drop i xs)) by len.
    replace (length xs + 1 - length (drop i xs)) with (S i) by len.
    eapply (wp_move_right_trace a i (map Live (take i xs)) _ (drop i xs));
      [len| | |].
    { map_lookup. by rewrite app_assoc, <- map_app, take_drop. }
    2:{ intros Hc s'. apply wp_log, Hexn, Hc. }
    apply wp_bind. eapply wp_deref; [done|]. simpl.
    apply wp_bind, wp_RawMemory_plus; [simpl; lia|]. simpl.
    apply wp_bind. eapply wp_load; [map_lookup|apply lookup_seg; len|]. simpl.
    apply wp_bind, wp_perform; simpl; intros Hthrow'';
      [|apply wp_log, Hexn; by eexists _, _, _].
    eapply wp_write_slot; [map_lookup|apply length_seg; len|]. simpl.
    apply wp_log. simpl. split_and!; [done|done| |lia|].
    + rewrite !insert_insert_eq. f_equal.
      rewrite insert_seg by len.
      rewrite take_app_le, drop_app_le by lia.
      rewrite !map_app. simpl. rewrite !map_app. simpl.
      rewrite <- !app_assoc. simpl. by rewrite <- app_assoc.
    + intros ys z0 [-> ->]%app_inj_tail _.
      rewrite <- !app_assoc. by simpl.
Qed.

Lemma Embed_spec h o tr this a xs cap i (x : args T) :
  o !! this = Some (mkVector (mkRawMemory (Some a) cap) (length xs)) →
  h !! a = Some (map Live xs ++ replicate (cap - length xs) Uninit) →
  length xs < cap → i ≤ length xs →
  wp (Vector.Embed this (Ptr (Some a) i) i x) (State h o tr)
     (λ _ s',
        throws (args_op x) tr = false ∧
        objects s' = o ∧
        heap s' = <[a := map Live (take i xs ++ args_value x :: drop i xs)
                          ++ replicate (cap - S (length xs)) Uninit]> h)
     (λ s', can_throw ∧
            (throws (args_op x) tr = true → s' = State h o (tr ++ [Threw (args_op x)])) ∧
            ((i < length xs → ¬ move_assign_can_throw) → heap s' = h ∧ objects s' = o)).
Proof.
  intros Ho Ha Hcap Hi.
  eapply wp_mono; [by apply Embed_full| |done].
  intros [] s' (? & ? & ? & _). done.
Qed.

(** [Emplace] at [begin() + i] of a vector that satisfies the
    invariant. *)
Lemma Emplace_full h o tr this xs cap i pos (x : args T) :
  holds (State h o tr) this xs cap → i ≤ length xs →
  position (State h o tr) this i = Some pos →
  wp (Vector.Emplace this pos x) (State h o tr)
     (λ p s',
        throws (args_op x) tr = false ∧
        holds s' this (take i xs ++ args_value x :: drop i xs)
              (if decide (length xs = cap) then grown cap else cap) ∧
        position s' this i = Some p ∧
        (∀ other, other ≠ this → objects s' !! other = o !! other) ∧
        (length xs < cap → position s' this 0 = position (State h o tr) this 0) ∧
        (length xs = cap → position s' this 0 ≠ position (State h o tr) this 0) ∧
        (length xs = cap →
         trace s' = tr ++ [Done (args_op x)]
                       ++ map (λ y, Done (transfer_op y)) (take i xs)
                       ++ map (λ y, Done (transfer_op y)) (drop i xs)
                       ++ map (λ y, Done (Destroy (left_behind y))) xs) ∧
        confined (State h o tr) s' this ∧
        (length xs < cap → i = length xs → trace s' = tr ++ [Done (args_op x)]) ∧
        (length xs < cap → ∀ ys z, xs = ys ++ [z] → i < length xs →
           trace s' = tr ++ [Done (args_op x); Done (MoveConstruct z)]
                         ++ shift_events (moved_from z) (rev (drop i ys))
                         ++ [Done (MoveAssign (residue_back (moved_from z) (drop i ys))
                                              (args_value x));
                             Done (Destroy (moved_from (args_value x)))]))
     (λ s', can_throw ∧
            (throws (args_op x) tr = true → s' = State h o (tr ++ [Threw (args_op x)])) ∧
            ((length xs = cap → Vector.transfer_by_move = true → ¬ move_construct_can_throw) →
             (length xs < cap → i < length xs → ¬ move_assign_can_throw) →
             heap s' = h ∧ objects s' = o)).
Proof.
  intros Hholds Hi Hpos. pose proof Hholds as (buf & Ho & Hlen & Hb)%holds_inv.
  unfold position in Hpos. simpl in Hpos. rewrite Ho in Hpos. simpl in Hpos.
  injection Hpos as <-.
  unfold Vector.Emplace.
  apply wp_bind. eapply wp_begin; [done|]. simpl.
  apply wp_bind, wp_ranges_distance; [lia|]. rewrite Nat.sub_0_r.
  apply wp_bind. eapply wp_deref; [done|]. simpl.
  unfold RawMemory.Capacity. simpl.
  assert (length (take i xs ++ args_value x :: drop i xs) = S (length xs)) as Hlen'.
  { rewrite length_app. simpl. rewrite length_take, length_drop. lia. }
  case_decide as Hfull.
  - subst cap. apply wp_bind.
    eapply wp_mono; [by apply ReallocateAndEmbed_full|
                     |intros s' (? & ? & Hsame); split_and!; [done..|]; intros; apply Hsame; auto].
    intros _ [h' o' tr'] (a' & ? & Hfresh & Ho' & Ha' & Htr' & Hframe). simpl in *. subst o'.
    assert (length xs < grown (length xs)) by (rewrite grown_max; lia).
    apply wp_bind. eapply wp_deref; [map_lookup|]. simpl.
    apply wp_bind. eapply wp_set_size; [map_lookup|]. simpl.
    rewrite insert_insert_eq.
    apply wp_bind. eapply wp_deref; [map_lookup|]. simpl.
    apply wp_RawMemory_plus; [simpl; lia|]. simpl.
    split_and!; [done|..].
    + eapply holds_intro; [map_lookup; by rewrite Hlen'|lia|].
      by rewrite Hlen'.
    + unfold position. simpl. by rewrite lookup_insert_eq.
    + intros other ?. by rewrite lookup_insert_ne.
    + lia.
    + intros _. unfold position. simpl. rewrite lookup_insert_eq, Ho. simpl.
      destruct buf as [a|]; [|done]. intros [= ->]. congruence.
    + done.
    + eapply confined_intro; [done|done| |]; simpl.
      * intros a0 b0 Ha0 Hne. apply Hframe; [done|].
        unfold position. simpl. rewrite Ho. simpl. congruence.
      * intros a0 [= <-]. by right.
    + lia.
    + lia.
  - destruct buf as [a|]; [|destruct Hb; lia].
    apply wp_bind.
    eapply wp_mono; [eapply Embed_full; [done|done|lia|done]|
                     |intros s' (? & ? & Hsame); split_and!; [done..|]; intros; apply Hsame; auto with lia].
    intros _ [h' o' tr'] (? & Ho' & Hh' & Hend & Hmid). simpl in *. subst o' h'.
    apply wp_bind. eapply wp_deref; [done|]. simpl.
    apply wp_bind. eapply wp_set_size; [done|]. simpl.
    apply wp_bind. eapply wp_deref; [map_lookup|]. simpl.
    apply wp_RawMemory_plus; [simpl; lia|]. simpl.
    split_and!; [done|..].
    + eapply holds_intro; [map_lookup; by rewrite Hlen'|lia|].
      map_lookup. by rewrite Hlen'.
    + unfold position. simpl. by rewrite lookup_insert_eq.
    + intros other ?. by rewrite lookup_insert_ne.
    + intros _. unfold position. simpl. by rewrite lookup_insert_eq, Ho.
    + lia.
    + lia.
    + eapply confined_intro; [done|done| |]; simpl.
      * intros a0 b0 Ha0 Hne. rewrite lookup_insert_ne; [done|congruence].
      * intros a0 [= <-]. by left.
    + intros _. apply Hend.
    + intros _. apply Hmid.
Qed.

Lemma Emplace_spec h o tr this xs cap i pos (x : args T) :
  holds (State h o tr) this xs cap → i ≤ length xs →
  position (State h o tr) this i = Some pos →
  wp (Vector.Emplace this pos x) (State h o tr)
     (λ p s',
        throws (args_op x) tr = false ∧
        holds s' this (take i xs ++ args_value x :: drop i xs)
              (if decide (length xs = cap) then grown cap else cap) ∧
        position s' this i = Some p ∧
        (∀ other, other ≠ this → objects s' !! other = o !! other) ∧
        (length xs < cap → position s' this 0 = position (State h o tr) this 0) ∧
        (length xs = cap → position s' this 0 ≠ position (State h o tr) this 0) ∧
        (length xs = cap →
         trace s' = tr ++ [Done (args_op x)]
                       ++ map (λ y, Done (transfer_op y)) (take i xs)
                       ++ map (λ y, Done (transfer_op y)) (drop i xs)
                       ++ map (λ y, Done (Destroy (left_behind y))) xs))
     (λ s', can_throw ∧
            (throws (args_op x) tr = true → s' = State h o (tr ++ [Threw (args_op x)])) ∧
            ((length xs = cap → Vector.transfer_by_move = true → ¬ move_construct_can_throw) →
             (length xs < cap → i < length xs → ¬ move_assign_can_throw) →
             heap s' = h ∧ objects s' = o)).
Proof.
  intros Hholds Hi Hpos.
  eapply wp_mono; [by apply Emplace_full| |done].
  intros p s' (? & ? & ? & ? & ? & ? & ? & _). done.
Qed.

Lemma PushBack_spec h o tr this xs cap y :
  holds (State h o tr) this xs cap →
  wp (Vector.PushBack this y) (State h o tr)
     (λ _ s',
        throws (CopyConstruct y) tr = false ∧
        holds s' this (xs ++ [y]) (if decide (length xs = cap) then grown cap else cap) ∧
        (∀ other, other ≠ this → objects s' !! other = o !! other) ∧
        (length xs < cap → position s' this 0 = position (State h o tr) this 0))
     (λ s', can_throw ∧
            (throws (CopyConstruct y) tr = true → s' = State h o (tr ++ [Threw (CopyConstruct y)])) ∧
            ((length xs = cap → Vector.transfer_by_move = true → ¬ move_construct_can_throw) →
             heap s' = h ∧ objects s' = o)).
Proof.
  intros Hholds. pose proof Hholds as (buf & Ho & Hlen & Hb)%holds_inv.
  unfold Vector.PushBack, Vector.EmplaceBack, Vector.cend.
  apply wp_bind, wp_bind. eapply wp_end; [done|simpl; lia|]. simpl.
  eapply wp_mono; [eapply (Emplace_spec _ _ _ _ _ _ (length xs)); [done|done|]|
                  |intros s' (? & ? & Hsame); split_and!; [done..|];
                   intros; apply Hsame; [done|lia]].
  { unfold position. simpl. by rewrite Ho. }
  intros p s' (? & Hh & _ & Hframe & Hpos & _). simpl.
  rewrite take_ge, drop_ge in Hh by lia. by apply wp_ret.
Qed.

Lemma push_all_within h o tr this xs cap ys :
  holds (State h o tr) this xs cap → length xs + length ys ≤ cap →
  returns (push_all this ys) (State h o tr) (λ _ s',
    holds s' this (xs ++ ys) cap ∧
    position s' this 0 = position (State h o tr) this 0).
Proof.
  revert xs h o tr. induction ys as [|y ys IH]; intros xs h o tr Hholds Hlen; simpl in *.
  - apply wp_ret. by rewrite app_nil_r.
  - apply wp_bind.
    eapply wp_mono; [by apply PushBack_spec| |by intros ? []].
    intros _ [h' o' tr'] (_ & Hh & _ & Hpos). simpl.
    rewrite decide_False in Hh by lia.
    eapply wp_mono; [apply (IH (xs ++ [y])); [done|len]| |done].
    intros _ s'' [Hh' Hpos']. simpl in *.
    rewrite <- app_assoc in Hh'. split; [done|].
    rewrite Hpos'. apply Hpos. lia.
Qed.

Lemma push_all_from h o tr this xs ys :
  holds (State h o tr) this xs (pushed_capacity (length xs)) →
  returns (push_all this ys) (State h o tr) (λ _ s',
    holds s' this (xs ++ ys) (pushed_capacity (length xs + length ys))).
Proof.
  revert xs h o tr. induction ys as [|y ys IH]; intros xs h o tr Hholds; simpl in *.
  - apply wp_ret. by rewrite app_nil_r, Nat.add_0_r.
  - apply wp_bind.
    eapply wp_mono; [by apply PushBack_spec| |by intros ? []].
    intros _ [h' o' tr'] (_ & Hh & _ & _). simpl.
    eapply wp_mono; [apply (IH (xs ++ [y]))| |done].
    + rewrite length_app. simpl. rewrite Nat.add_1_r. simpl. exact Hh.
    + intros [] s''. simpl. rewrite <- app_assoc, length_app. simpl.
      by rewrite <- Nat.add_assoc.
Qed.

(** Pushing onto an empty vector keeps the capacity at the least power
    of two that holds the elements. *)
Lemma pushed_capacity_pow2 n :
  1 ≤ n → ∃ k, pushed_capacity n = 2 ^ k ∧ n ≤ 2 ^ k ∧ 2 ^ k < 2 * n.
Proof.
  induction n as [|n IH]; [lia|]. intros _.
  destruct n as [|n].
  - exists 0. split; [reflexivity|simpl; lia].
  - destruct IH as (k & Hk & Hle & Hlt); [lia|].
    change (pushed_capacity (S (S n)))
      with (if decide (S n = pushed_capacity (S n))
            then grown (pushed_capacity (S n)) else pushed_capacity (S n)).
    rewrite Hk. case_decide as Hfull.
    + exists (S k). rewrite grown_max, Nat.pow_succ_r'. lia.
    + exists k. lia.
Qed.

End embed.

(** ** Removal and resizing *)

Section erase_resize.
Context {T : Type} `{!Element T}.
Implicit Types (h : gmap addr (list (slot T))) (o : gmap vref Vector).
Implicit Types (tr : list (event T)) (xs ys : list T) (this other : vref).

(** A run of a [noexcept] function that returns: no exception left
    its body. *)
Lemma wp_noexcept_val {A} (m : M T A) s (Q : A → state T → Prop) a s' :
  wp m s Q (λ _, True) → noexcept m s = Val a s' → Q a s'.
Proof. unfold wp, noexcept. destruct (m s); naive_solver. Qed.

Lemma Erase_full h o tr this xs cap i pos :
  holds (State h o tr) this xs cap → i < length xs →
  position (State h o tr) this i = Some pos →
  (∀ p s', Vector.Erase this pos (State h o tr) = Val p s' →
     holds s' this (take i xs ++ drop (S i) xs) cap ∧
     position s' this i = Some p ∧
     position s' this 0 = position (State h o tr) this 0 ∧
     (∀ other, other ≠ this → objects s' !! other = o !! other) ∧
     confined (State h o tr) s' this ∧
     (∀ d, xs !! i = Some d →
        trace s' = tr ++ shift_events d (drop (S i) xs)
                      ++ [Done (Destroy (residue d (drop (S i) xs)))])) ∧
  (¬ move_assign_can_throw → ∃ p s', Vector.Erase this pos (State h o tr) = Val p s').
Proof.
  intros (buf & Ho & Hlen & Hb)%holds_inv Hi Hpos.
  unfold position in Hpos. simpl in Hpos. rewrite Ho in Hpos. simpl in Hpos.
  injection Hpos as <-.
  destruct buf as [a|]; [|destruct Hb as [_ ->]; simpl in *; lia].
  destruct (lookup_lt_is_Some_2 xs i Hi) as [d Hd].
  pose proof (take_drop_middle xs i d Hd) as Hxs.
  assert (length (take i xs ++ drop (S i) xs) = length xs - 1) as Hlen' by len.
  assert (∀ E : state T → Prop, (move_assign_can_throw → ∀ s', E s') →
    wp (b ← Vector.begin this;
        distance ← ranges_distance b (Ptr (Some a) i);
        v ← Vector.deref this;
        first ← RawMemory.plus (data_ v) distance;
        e ← Vector.end_ this;
        result ← RawMemory.plus (data_ v) distance;
        ranges_move (ptr_add first 1) e result ;;
        e ← Vector.end_ this;
        last ← ptr_sub e 1;
        destroy_at last ;;
        v ← Vector.deref this;
        Vector.set_size this (size_ v - 1) ;;
        v ← Vector.deref this;
        RawMemory.plus (data_ v) distance)
       (State h o tr)
       (λ p s',
          holds s' this (take i xs ++ drop (S i) xs) cap ∧
          position s' this i = Some p ∧
          position s' this 0 = position (State h o tr) this 0 ∧
          (∀ other, other ≠ this → objects s' !! other = o !! other) ∧
          confined (State h o tr) s' this ∧
          (∀ d, xs !! i = Some d →
             trace s' = tr ++ shift_events d (drop (S i) xs)
                           ++ [Done (Destroy (residue d (drop (S i) xs)))]))
       E) as Hbody.
  { intros E HE.
    apply wp_bind; (eapply wp_begin; [exact Ho|]); simpl.
    apply wp_bind, wp_ranges_distance; [lia|]; rewrite Nat.sub_0_r.
    apply wp_bind; (eapply wp_deref; [exact Ho|]); simpl.
    apply wp_bind, wp_RawMemory_plus; [simpl; lia|]; simpl.
    apply wp_bind; (eapply wp_end; [exact Ho|simpl; lia|]); simpl.
    apply wp_bind, wp_RawMemory_plus; [simpl; lia|]; simpl.
    apply wp_bind; unfold ranges_move, ptr_add; simpl.
    apply wp_bind, wp_ranges_distance; [lia|].
    replace (length xs - (i + 1)) with (length (drop (S i) xs)) by len.
    replace (i + 1) with (S i) by lia.
    eapply (wp_move_left_trace a i (map Live (take i xs)) d (drop (S i) xs)); [len| | |done].
    { rewrite Hb. rewrite <- Hxs at 1. rewrite map_app. simpl.
      by rewrite <- app_assoc. }
    apply wp_bind. eapply wp_end; [done|simpl; lia|]. simpl.
    apply wp_bind, wp_ptr_sub; [simpl; lia|]. simpl.
    apply wp_bind.
    rewrite app_assoc.
    eapply wp_destroy_at; [map_lookup|len|]. simpl.
    rewrite insert_insert_eq.
    apply wp_bind. eapply wp_deref; [done|]. simpl.
    apply wp_bind. eapply wp_set_size; [done|]. simpl.
    apply wp_bind. eapply wp_deref; [map_lookup|]. simpl.
    apply wp_RawMemory_plus; [simpl; lia|]. simpl.
    split_and!.
    - eapply holds_intro; [map_lookup; by rewrite Hlen'|lia|].
      map_lookup. rewrite Hlen'. f_equal.
      rewrite map_app, <- !app_assoc. do 2 f_equal.
      replace (cap - (length xs - 1)) with (S (cap - length xs)) by lia. done.
    - unfold position. simpl. by rewrite lookup_insert_eq.
    - unfold position. simpl. by rewrite lookup_insert_eq, Ho.
    - intros other ?. by rewrite lookup_insert_ne.
    - eapply confined_intro; [done|done| |]; simpl.
      + intros a0 b0 Ha0 Hne. rewrite lookup_insert_ne; [done|congruence].
      + intros a0 [= <-]. by left.
    - intros d' Hd'. rewrite Hd in Hd'. injection Hd' as <-.
      by rewrite <- app_assoc. }
  split.
  - intros p s' Hrun.
    exact (wp_noexcept_val _ _ _ _ _ (Hbody (λ _, True) (λ _ _, I)) Hrun).
  - intros Hnothrow.
    assert (move_assign_can_throw → state T → False) as HE by done.
    specialize (Hbody (λ _, False) HE). unfold Vector.Erase, noexcept.
    unfold wp in Hbody.
    match type of Hbody with
    | match ?run with _ => _ end => destruct run as [p s'| |] eqn:Hrun
    end; [by eauto|done..].
Qed.

Lemma Erase_spec h o tr this xs cap i pos :
  holds (State h o tr) this xs cap → i < length xs →
  position (State h o tr) this i = Some pos →
  (∀ p s', Vector.Erase this pos (State h o tr) = Val p s' →
     holds s' this (take i xs ++ drop (S i) xs) cap ∧
     position s' this i = Some p ∧
     position s' this 0 = position (State h o tr) this 0 ∧
     (∀ other, other ≠ this → objects s' !! other = o !! other)) ∧
  (¬ move_assign_can_throw → ∃ p s', Vector.Erase this pos (State h o tr) = Val p s').
Proof.
  intros Hholds Hi Hpos.
  destruct (Erase_full h o tr this xs cap i pos Hholds Hi Hpos) as [Hval Htotal].
  split; [|done]. intros p s' Hrun.
  destruct (Hval p s' Hrun) as (? & ? & ? & ? & _). done.
Qed.

Lemma wp_transfer_then {A} (b : bool) (m c : M T ()) (k : M T A) s (Q : A → state T → Prop) E :
  wp ((if b then m else c) ;; k) s Q E →
  wp (if b then m ;; k else c ;; k) s Q E.
Proof. by destruct b. Qed.

(** [Resize].  An exception leaves heap and vectors as they were,
    unless the vector had to grow beyond its capacity and the elements
    were transferred by move. *)
Lemma Resize_full h o tr this xs cap n :
  holds (State h o tr) this xs cap →
  wp (Vector.Resize this n) (State h o tr)
     (λ _ s',
        holds s' this (take n xs ++ replicate (n - length xs) value_init) (cap `max` n) ∧
        (n ≤ cap → position s' this 0 = position (State h o tr) this 0) ∧
        (∀ other, other ≠ this → objects s' !! other = o !! other) ∧
        trace s' =
          tr ++ (if decide (n ≤ cap) then
                   if decide (n < length xs)
                   then map (λ x, Done (Destroy x)) (drop n xs)
                   else replicate (n - length xs) (Done ValueConstruct)
                 else
                   map (λ x, Done (transfer_op x)) xs
                   ++ replicate (n - length xs) (Done ValueConstruct)
                   ++ map (λ x, Done (Destroy (left_behind x))) xs) ∧
        confined (State h o tr) s' this)
     (λ s', can_throw ∧ objects s' = o ∧
            ((cap < n → Vector.transfer_by_move = false) → heap s' = h) ∧
            (¬ move_construct_can_throw → ¬ copy_construct_can_throw →
             value_construct_can_throw ∧
             holds s' this (if decide (n ≤ cap) then xs else map left_behind xs) cap)).
Proof.
  intros Hholds. pose proof Hholds as (buf & Ho & Hlen & Hb)%holds_inv.
  unfold Vector.Resize.
  apply wp_bind. eapply wp_deref; [done|]. simpl.
  unfold RawMemory.Capacity. simpl.
  apply wp_bind.
  assert (length (take n xs ++ replicate (n - length xs) value_init) = n) as Hlen' by len.
  assert (∀ a v', buf = Some a → buffer_ (data_ v') = Some a →
            ∀ b' tr', confined (State h o tr) (State (<[a := b']> h) (<[this := v']> o) tr') this)
    as Hsame.
  { intros a v' -> Hv' b' tr'. eapply confined_intro; [done|done| |]; simpl.
    - intros a0 b0 Ha0 Hne. rewrite lookup_insert_ne; [done|congruence].
    - intros a0. rewrite Hv'. intros [= <-]. by left. }
  destruct (decide (n ≤ cap)) as [Hn|Hn].
  - replace (cap `max` n) with cap by lia.
    destruct (decide (n < length xs)) as [Hshrink|Hgrow].
    + destruct buf as [a|]; [|destruct Hb as [_ ->]; simpl in *; lia].
      apply wp_bind, wp_RawMemory_plus; [simpl; lia|]. simpl.
      eapply (wp_destroy_n a n (length xs - n) (map Live (take n xs)) (drop n xs));
        [len|len| |].
      { rewrite Hb. by rewrite app_assoc, <- map_app, take_drop. }
      eapply wp_set_size; [done|]. simpl.
      replace (n - length xs) with 0 in * by lia. simpl. rewrite app_nil_r in *.
      split_and!; [|unfold position; simpl; by rewrite lookup_insert_eq, Ho
                   |intros other ?; by rewrite lookup_insert_ne|done|by apply Hsame].
      eapply holds_intro; [map_lookup; by rewrite Hlen'|lia|].
      map_lookup. rewrite Hlen'. do 2 f_equal.
      rewrite <- replicate_add. f_equal. lia.
    + rewrite take_ge in * by lia.
      apply wp_bind, wp_RawMemory_plus; [simpl; lia|]. simpl.
      destruct buf as [a|].
      * eapply (wp_value_construct_n_exact a _ _ (map Live xs) (replicate (cap - n) Uninit));
          [len| | |].
        { rewrite Hb. do 2 f_equal. rewrite <- replicate_add. f_equal. lia. }
        2:{ intros k Hk Hthrow. split_and!; [by eexists _, _|done|done|].
            intros _ _. split; [by eexists|]. simpl.
            destruct Hholds as (v & ?). by exists v. }
        eapply wp_set_size; [done|]. simpl.
        split_and!; [|unfold position; simpl; by rewrite lookup_insert_eq, Ho
                     |intros other ?; by rewrite lookup_insert_ne|done|by apply Hsame].
        eapply holds_intro; [map_lookup; by rewrite Hlen'|lia|].
        map_lookup. rewrite Hlen'. by rewrite map_app, <- app_assoc.
      * destruct Hb as [-> ->]. simpl in *. assert (n = 0) as -> by lia.
        apply wp_ret. eapply wp_set_size; [done|]. simpl.
        split_and!; [|unfold position; simpl; by rewrite lookup_insert_eq, Ho
                     |intros other ?; by rewrite lookup_insert_ne|by rewrite app_nil_r|].
        -- eapply holds_intro; [map_lookup|simpl; lia|done].
        -- eapply confined_intro; [done|done| |]; simpl; [done|]. by intros.
  - replace (cap `max` n) with n by lia.
    rewrite take_ge in * by lia.
    apply wp_bind, wp_RawMemory_ctor; [lia|]. intros a' Hfresh.
    apply wp_bind, wp_on_unwind. simpl.
    unfold RawMemory.GetAddress. simpl.
    assert (∀ h'' tr'',
              h'' !! a' = Some (map Live (xs ++ replicate (n - length xs) value_init)) →
              (∀ a0 b0, h !! a0 = Some b0 → buf ≠ Some a0 → h'' !! a0 = Some b0) →
              tr'' = tr ++ map (λ x, Done (transfer_op x)) xs
                        ++ replicate (n - length xs) (Done ValueConstruct)
                        ++ map (λ x, Done (Destroy (left_behind x))) xs →
              wp (Vector.set_size this n)
                 (State h'' (<[this := mkVector (mkRawMemory (Some a') n) (length xs)]> o) tr'')
                 (λ _ s', holds s' this (xs ++ replicate (n - length xs) value_init) n ∧
                    (n ≤ cap → position s' this 0 = position (State h o tr) this 0) ∧
                    (∀ other, other ≠ this → objects s' !! other = o !! other) ∧
                    trace s' = tr ++ map (λ x, Done (transfer_op x)) xs
                            ++ replicate (n - length xs) (Done ValueConstruct)
                            ++ map (λ x, Done (Destroy (left_behind x))) xs ∧
                    confined (State h o tr) s' this)
                 (λ s', can_throw ∧ objects s' = o ∧
                    ((cap < n → Vector.transfer_by_move = false) → heap s' = h) ∧
                    (¬ move_construct_can_throw → ¬ copy_construct_can_throw →
                     value_construct_can_throw ∧
                     holds s' this (map left_behind xs) cap)))
      as Hfinal.
    { intros h'' tr'' Hh'' Hkept ->.
      eapply wp_set_size; [map_lookup|]. simpl. rewrite insert_insert_eq.
      split_and!; [|lia|intros other ?; by rewrite lookup_insert_ne|done|].
      - eapply holds_intro; [map_lookup; by rewrite Hlen'|lia|].
        simpl. by rewrite Hh'', Hlen', Nat.sub_diag, app_nil_r.
      - eapply confined_intro; [done|done| |]; simpl; [done|].
        intros a0 [= <-]. by right. }
    assert (∀ h'' tr'',
              is_Some (h'' !! a') → can_throw →
              (Vector.transfer_by_move = false → delete a' h'' = h) →
              (¬ move_construct_can_throw → ¬ copy_construct_can_throw →
               value_construct_can_throw ∧
               holds (State (delete a' h'') o tr'') this (map left_behind xs) cap) →
              wp (RawMemory.dtor (mkRawMemory (Some a') n)) (State h'' o tr'')
                 (λ _ s', can_throw ∧ objects s' = o ∧
                    ((cap < n → Vector.transfer_by_move = false) → heap s' = h) ∧
                    (¬ move_construct_can_throw → ¬ copy_construct_can_throw →
                     value_construct_can_throw ∧
                     holds s' this (map left_behind xs) cap))
                 (λ _, False)) as Hfail.
    { intros h'' tr'' Hsome Hc Hcopy Hleft.
      apply wp_RawMemory_dtor; [|done]. intros ? [= <-]. split; [done|].
      split_and!; [done|done| |].
      - simpl. intros Hpol. apply Hcopy, Hpol. lia.
      - intros Hm Hcp. by apply Hleft. }
    destruct buf as [a|].
    + assert (a ≠ a') by congruence.
      apply wp_bind, wp_transfer_then, wp_bind.
      eapply (wp_transfer _ a a' 0 0 _ [] _ [] (replicate (n - length xs) Uninit) xs);
        [done|done|done|done|map_lookup| | |].
      { map_lookup. simpl. rewrite <- replicate_add. do 2 f_equal. lia. }
      2:{ intros Hc b0 b' tr' Hb0.
          apply Hfail; [map_lookup|by eapply can_throw_transfer| |].
          - intros Hp. rewrite (insert_id _ a b0) by auto.
            by rewrite !delete_insert_eq, delete_id.
          - intros Hm Hcp. by destruct Vector.transfer_by_move. }
      simpl app.
      apply wp_bind, wp_RawMemory_plus; [simpl; lia|]. simpl.
      eapply (wp_value_construct_n_exact a' _ _ (map Live xs) []);
        [len|map_lookup; by rewrite app_nil_r| |].
      2:{ intros k Hk Hthrow.
          assert (value_construct_can_throw) as Hc by by eexists.
          apply Hfail; [map_lookup|by apply can_throw_value_construct| |].
          - intros Hp. rewrite Hp. rewrite !delete_insert_eq.
            rewrite map_id, (insert_id _ a) by map_lookup.
            by rewrite delete_insert_eq, delete_id.
          - intros _ _. split; [done|].
            eapply holds_intro; [rewrite length_map; exact Ho|by rewrite length_map|].
            rewrite delete_insert_eq, delete_insert_ne, delete_insert_id by done.
            rewrite lookup_insert_eq, length_map. reflexivity. }
      rewrite insert_insert_eq, app_nil_r.
      apply wp_bind.
      eapply (wp_destroy_n a 0 (length xs) [] (map _ xs)); [done|len|map_lookup|].
      simpl app. apply wp_bind.
      eapply wp_RawMemory_write; [done|]. simpl.
      apply wp_ret. eapply wp_RawMemory_dtor; [|done].
      intros ? [= <-]. split; [map_lookup|].
      apply Hfinal; [map_lookup; by rewrite map_app| |].
      * intros a0 b0 Ha0 Hne. assert (a0 ≠ a') by congruence.
        rewrite lookup_delete_ne by congruence.
        by rewrite !lookup_insert_ne by congruence.
      * by rewrite <- !app_assoc, map_map.
    + destruct Hb as [-> ->]. simpl in *.
      apply wp_bind, wp_transfer_then, wp_bind, wp_transfer_0.
      apply wp_bind, wp_RawMemory_plus; [simpl; lia|]. simpl.
      eapply (wp_uninitialized_value_construct_n a' _ _ [] []); [done| | |].
      { map_lookup. by rewrite Nat.sub_0_r, app_nil_r. }
      2:{ intros Hc b' tr'.
          apply Hfail; [map_lookup|by apply can_throw_value_construct| |].
          - intros _. by rewrite !delete_insert_eq, delete_id.
          - intros _ _. split; [done|].
            rewrite !delete_insert_eq, delete_id by done.
            by eapply holds_intro. }
      rewrite insert_insert_eq, app_nil_r.
      apply wp_bind, wp_ret, wp_bind.
      eapply wp_RawMemory_write; [done|]. simpl.
      apply wp_ret. eapply wp_RawMemory_dtor; [done|]. intros _.
      apply Hfinal; [map_lookup| |by rewrite app_nil_r].
      intros a0 b0 Ha0 _. rewrite lookup_insert_ne; [done|congruence].
Qed.

Lemma Resize_spec h o tr this xs cap n :
  holds (State h o tr) this xs cap →
  returns (Vector.Resize this n) (State h o tr) (λ _ s',
    holds s' this (take n xs ++ replicate (n - length xs) value_init) (cap `max` n) ∧
    (n ≤ cap → position s' this 0 = position (State h o tr) this 0) ∧
    (∀ other, other ≠ this → objects s' !! other = o !! other) ∧
    trace s' =
      tr ++ (if decide (n ≤ cap) then
               if decide (n < length xs)
               then map (λ x, Done (Destroy x)) (drop n xs)
               else replicate (n - length xs) (Done ValueConstruct)
             else
               map (λ x, Done (transfer_op x)) xs
               ++ replicate (n - length xs) (Done ValueConstruct)
               ++ map (λ x, Done (Destroy (left_behind x))) xs)).
Proof.
  intros Hholds.
  eapply wp_mono; [by apply Resize_full| |by intros ? []].
  intros [] s' (? & ? & ? & ? & _). done.
Qed.

End erase_resize.

(** ** Construction, destruction, swap and assignment *)

Section assignment.
Context {T : Type} `{!Element T}.
Implicit Types (h : gmap addr (list (slot T))) (o : gmap vref Vector).
Implicit Types (tr : list (event T)) (xs ys : list T) (this other : vref).

Lemma wp_new_object v h o tr (Q : vref → state T → Prop) E :
  (∀ r, o !! r = None → Q r (State h (<[r := v]> o) tr)) →
  wp (Vector.new_object v) (State h o tr) Q E.
Proof.
  intros HQ. unfold wp, Vector.new_object. simpl. apply HQ.
  apply not_elem_of_dom, is_fresh.
Qed.

Lemma holds_functional s this xs ys cap cap' :
  holds s this xs cap → holds s this ys cap' → xs = ys ∧ cap = cap'.
Proof.
  destruct s as [h o tr].
  intros (buf & Ho & Hlen & Hb)%holds_inv (buf' & Ho' & Hlen' & Hb')%holds_inv.
  rewrite Ho in Ho'. injection Ho' as <- <- Hl. split; [|done].
  destruct buf as [a|]; [|by destruct Hb as [_ ->], Hb' as [_ ->]].
  rewrite Hb in Hb'. injection Hb' as Heq. rewrite Hl in Heq.
  apply app_inv_tail in Heq.
  revert Heq. clear. revert ys.
  induction xs as [|x xs IH]; intros [|y ys]; simpl; try done.
  intros [= -> ?]. f_equal. by apply IH.
Qed.

(** [Vector(const Vector& other)] for a source that is not empty. *)
Lemma ctor_copy_spec h o tr other ys cap b :
  o !! other = Some (mkVector (mkRawMemory (Some b) cap) (length ys)) →
  h !! b = Some (map Live ys ++ replicate (cap - length ys) Uninit) →
  ys ≠ [] →
  returns (Vector.ctor_copy other) (State h o tr) (λ r s',
    ∃ a', o !! r = None ∧ h !! a' = None ∧
      s' = State (<[a' := map Live ys]> h)
                 (<[r := mkVector (mkRawMemory (Some a') (length ys)) (length ys)]> o)
                 (tr ++ map (λ y, Done (CopyConstruct y)) ys)).
Proof.
  intros Ho Hb Hne. unfold returns, Vector.ctor_copy.
  apply wp_bind. eapply wp_deref; [done|]. simpl.
  apply wp_bind, wp_RawMemory_ctor; [by destruct ys|]. intros a' Hfresh.
  assert (b ≠ a') by congruence.
  apply wp_bind, wp_on_unwind. unfold RawMemory.GetAddress. simpl.
  eapply (wp_uninitialized_copy_n b a' 0 0 _ [] _ [] [] ys);
    [done|done|done|done|map_lookup|map_lookup; by rewrite app_nil_r| |].
  2:{ intros Hc%can_throw_copy_construct b' tr'.
      eapply (wp_unwind_dtor _ _ _ _ _ (λ _, can_throw)); [map_lookup|done]. }
  simpl. rewrite insert_insert_eq, app_nil_r.
  apply wp_new_object. intros r Hr. by exists a'.
Qed.

(** [Vector(const Vector& other)] *)
Lemma wp_ctor_copy h o tr other ys cap (Q : vref → state T → Prop) (E : state T → Prop) :
  holds (State h o tr) other ys cap →
  (∀ r buf, o !! r = None →
     match buf with Some a => h !! a = None ∧ ys ≠ [] | None => ys = [] end →
     Q r (State (from_option (λ a, <[a := map Live ys]> h) h buf)
                (<[r := mkVector (mkRawMemory buf (length ys)) (length ys)]> o)
                (tr ++ map (λ y, Done (CopyConstruct y)) ys))) →
  (copy_construct_can_throw → ∀ tr', E (State h o tr')) →
  wp (Vector.ctor_copy other) (State h o tr) Q E.
Proof.
  intros (b & Ho & Hlen & Hb)%holds_inv HQ HE. unfold Vector.ctor_copy.
  apply wp_bind. eapply wp_deref; [done|]. simpl.
  destruct ys as [|y ys'] eqn:Hys.
  - apply wp_bind. unfold RawMemory.ctor, RawMemory.Allocate. apply wp_bind.
    unfold wp at 1. simpl.
    apply wp_bind. apply wp_on_unwind, wp_ret.
    apply wp_new_object. intros r Hr.
    specialize (HQ r None Hr eq_refl). simpl in HQ. by rewrite app_nil_r in HQ.
  - rewrite <- Hys in *. assert (ys ≠ []) as Hne by (by subst).
    clear Hys. destruct b as [b|]; [|by destruct Hb as [_ ->]].
    apply wp_bind, wp_RawMemory_ctor; [by destruct ys|]. intros a' Hfresh.
    assert (b ≠ a') by congruence.
    apply wp_bind, wp_on_unwind. unfold RawMemory.GetAddress. simpl.
    eapply (wp_uninitialized_copy_n b a' 0 0 _ [] _ [] [] ys);
      [done|done|done|done|map_lookup|map_lookup; by rewrite app_nil_r| |].
    + simpl. rewrite insert_insert_eq, app_nil_r.
      apply wp_new_object. intros r Hr. by apply (HQ r (Some a')).
    + intros Hc b' tr'. rewrite insert_insert_eq.
      apply wp_RawMemory_dtor; [|done]. simpl. intros ? [= <-].
      split; [map_lookup|]. rewrite delete_insert_id by done. by apply HE.
Qed.

(** [Swap] of two different vectors. *)
Lemma Swap_spec h o tr this other v w (Q : () → state T → Prop) E :
  this ≠ other → o !! this = Some v → o !! other = Some w →
  Q () (State h (<[other := v]> (<[this := w]> o)) tr) →
  wp (Vector.Swap this other) (State h o tr) Q E.
Proof.
  intros Hne Hv Hw HQ. unfold Vector.Swap.
  destruct v as [[vb vc] vs], w as [[wb wc] ws].
  apply wp_bind. eapply wp_RawMemory_read; [done|]. simpl.
  apply wp_bind. eapply wp_RawMemory_read; [done|]. simpl.
  apply wp_bind. eapply wp_RawMemory_write; [done|]. simpl.
  apply wp_bind. eapply wp_RawMemory_write; [map_lookup|]. simpl.
  apply wp_bind. eapply wp_deref; [map_lookup|]. simpl.
  apply wp_bind. eapply wp_deref; [map_lookup|]. simpl.
  apply wp_bind. eapply wp_set_size; [map_lookup|]. simpl.
  eapply wp_set_size; [map_lookup|]. simpl.
  match goal with
  | |- Q () (State _ ?X _) =>
      replace X with (<[other := mkVector (mkRawMemory vb vc) vs]>
                        (<[this := mkVector (mkRawMemory wb wc) ws]> o)); [done|]
  end.
  apply map_eq. intros k. rewrite !lookup_insert.
  repeat case_decide; congruence.
Qed.

(** [~Vector()] *)
Lemma dtor_spec h o tr this xs cap (Q : () → state T → Prop) E :
  holds (State h o tr) this xs cap →
  (∀ buf, o !! this = Some (mkVector (mkRawMemory buf cap) (length xs)) →
     Q () (State (from_option (λ a, delete a h) h buf) (delete this o)
                 (tr ++ map (λ x, Done (Destroy x)) xs))) →
  wp (Vector.dtor this) (State h o tr) Q E.
Proof.
  intros (buf & Ho & Hlen & Hb)%holds_inv HQ. specialize (HQ buf Ho).
  unfold Vector.dtor.
  apply wp_bind. eapply wp_deref; [done|]. simpl.
  unfold RawMemory.GetAddress. simpl.
  destruct buf as [a|].
  - apply wp_bind.
    eapply (wp_destroy_n a 0 (length xs) [] xs); [done|done|done|].
    apply wp_bind. eapply wp_RawMemory_dtor; [|done].
    intros ? [= <-]. split; [map_lookup|].
    simpl in *. by rewrite delete_insert_eq.
  - destruct Hb as [-> ->]. simpl in *.
    apply wp_bind, wp_ret, wp_bind.
    eapply wp_RawMemory_dtor; [done|]. intros _.
    by rewrite app_nil_r in HQ.
Qed.

Lemma zip_with_take_min {A B C} (f : A → B → C) (l : list A) (k : list B) :
  zip_with f (take (length l `min` length k) l) (take (length l `min` length k) k)
  = zip_with f l k.
Proof.
  revert k. induction l as [|x l IH]; intros [|y k]; simpl; try done.
  by rewrite IH.
Qed.

Ltac kept :=
  let a0 := fresh in let b0 := fresh in let H0 := fresh in let Hne0 := fresh in
  intros a0 b0 H0 Hne0; simpl;
  repeat (rewrite lookup_insert_ne by congruence); try done.

(** [operator=(const Vector&)] when the elements of the source fit the
    capacity of the destination. *)
Lemma copy_assign_within_full h o tr this other xs cap ys cap' :
  holds (State h o tr) this xs cap → holds (State h o tr) other ys cap' →
  this = other ∨ separate (State h o tr) this other →
  length ys ≤ cap →
  returns (Vector.copy_assign this other) (State h o tr) (λ _ s',
    holds s' this ys cap ∧ holds s' other ys cap' ∧
    position s' this 0 = position (State h o tr) this 0 ∧
    trace s' = tr ++ zip_with (λ d x, Done (CopyAssign d x)) xs ys
                  ++ (if decide (length ys < length xs)
                      then map (λ x, Done (Destroy x)) (drop (length ys) xs)
                      else map (λ y, Done (CopyConstruct y)) (drop (length xs) ys)) ∧
    confined (State h o tr) s' this).
Proof.
  intros Hthis Hother Hsep Hfit.
  pose proof Hthis as (buf & Ho & Hlen & Hb)%holds_inv.
  pose proof Hother as (buf' & Ho' & Hlen' & Hb')%holds_inv.
  unfold returns, Vector.copy_assign.
  apply wp_bind. eapply wp_deref; [done|]. simpl.
  apply wp_bind. eapply wp_deref; [done|]. simpl.
  unfold RawMemory.Capacity. simpl.
  rewrite decide_False by lia.
  apply wp_bind. eapply wp_begin; [done|]. simpl.
  apply wp_bind. eapply wp_begin; [done|]. simpl.
  unfold ptr_add, ranges_copy. simpl.
  apply wp_bind, wp_bind, wp_ranges_distance; [lia|]. rewrite Nat.sub_0_r.
  set (m := length xs `min` length ys).
  rewrite <- (zip_with_take_min _ xs ys). fold m.
  assert (∀ h' o' tr' (P : Prop),
            o' = <[this := mkVector (mkRawMemory buf cap) (length ys)]> o →
            from_option (λ a, h' !! a = Some (map Live ys ++ replicate (cap - length ys) Uninit))
                        True buf →
            from_option (λ b, h' !! b = Some (map Live ys ++ replicate (cap' - length ys) Uninit))
                        True buf' →
            P →
            (∀ a0 b0, h !! a0 = Some b0 → buf ≠ Some a0 → h' !! a0 = Some b0) →
            holds (State h' o' tr') this ys cap ∧ holds (State h' o' tr') other ys cap' ∧
            position (State h' o' tr') this 0 = position (State h o tr) this 0 ∧ P ∧
            confined (State h o tr) (State h' o' tr') this)
    as Hpost.
  { intros h' o' tr' P -> Hh Hh' HP Hkept. split_and!; [| | |done|].
    4:{ eapply confined_intro; [done|done|done|]. simpl. intros a0 ->. by left. }
    - eapply holds_intro; [map_lookup|done|].
      destruct buf; [done|by destruct Hb].
    - destruct (decide (this = other)) as [<-|Hne].
      + destruct (holds_functional _ _ _ _ _ _ Hthis Hother) as [-> ->].
        rewrite Ho in Ho'. injection Ho' as <-.
        eapply holds_intro; [map_lookup|done|].
        destruct buf; [done|by destruct Hb].
      + eapply holds_intro; [by rewrite lookup_insert_ne|done|].
        destruct buf'; [done|by destruct Hb'].
    - unfold position. simpl. by rewrite lookup_insert_eq, Ho. }
  destruct (decide (this = other)) as [<-|Hne].
  - (* self-assignment *)
    destruct (holds_functional _ _ _ _ _ _ Hthis Hother) as [<- <-].
    rewrite Ho in Ho'. injection Ho' as <-.
    replace m with (length xs) by lia. rewrite !firstn_all.
    rewrite decide_False by lia. rewrite Nat.sub_diag, drop_all. simpl.
    destruct buf as [a|].
    + eapply (wp_copy_self a 0 [] _ xs); [done|done| |].
      2:{ intros Hc s'. by apply can_throw_copy_assign. }
      apply wp_bind, wp_bind, wp_RawMemory_plus; [simpl; lia|].
      apply wp_bind, wp_RawMemory_plus; [simpl; lia|].
      apply wp_ret.
      eapply wp_set_size; [done|]. simpl.
      apply Hpost; [done|done|done| |kept]. case_decide; by rewrite app_nil_r.
    + destruct Hb as [-> ->]. simpl.
      apply wp_ret, wp_bind, wp_bind, wp_RawMemory_plus; [simpl; lia|].
      apply wp_bind, wp_RawMemory_plus; [simpl; lia|].
      apply wp_ret.
      eapply wp_set_size; [done|]. simpl.
      apply Hpost; [done|done|done| |kept]. by rewrite app_nil_r.
  - destruct Hsep as [?|Hsep]; [done|].
    destruct buf as [a|].
    2:{ destruct Hb as [-> ->]. destruct ys; [|simpl in *; lia].
        simpl. apply wp_ret, wp_bind, wp_bind, wp_RawMemory_plus; [simpl; lia|].
        apply wp_bind, wp_RawMemory_plus; [simpl; lia|].
        apply wp_ret.
        eapply wp_set_size; [done|]. simpl.
        apply Hpost; [done|done|by destruct buf'|by rewrite app_nil_r|kept]. }
    destruct buf' as [b|].
    2:{ destruct Hb' as [-> ->]. simpl in *.
        replace m with 0 by lia. simpl. apply wp_ret.
        rewrite Nat.sub_0_r, drop_0.
        case_decide as Hxs.
        - apply wp_bind, wp_bind, wp_RawMemory_plus; [simpl; lia|]. simpl.
          eapply (wp_destroy_n a 0 (length xs) [] xs); [done|done|done|].
          eapply wp_set_size; [done|]. simpl.
          apply Hpost; [done| |done|done|kept].
          simpl. map_lookup. by rewrite <- replicate_add, Nat.sub_0_r, Nat.add_comm, Nat.sub_add.
        - destruct xs; [|simpl in *; lia]. simpl.
          apply wp_bind, wp_bind, wp_RawMemory_plus; [simpl; lia|]. simpl.
          apply wp_bind, wp_RawMemory_plus; [simpl; lia|]. simpl.
          apply wp_ret.
          eapply wp_set_size; [done|]. simpl.
          apply Hpost; [done| |done|by rewrite app_nil_r|kept].
          simpl. by rewrite Hb. }
    assert (b ≠ a) as Hba.
    { intros ->. by eapply (Hsep _ _ a). }
    assert (length (take m xs) = m ∧ length (take m ys) = m) as [Hmx Hmy] by (split; len).
    rewrite <- Hmy at 1.
    eapply (wp_copy_between b a 0 0 [] (map Live (drop m ys) ++ replicate (cap' - length ys) Uninit)
              [] (map Live (drop m xs) ++ replicate (cap - length xs) Uninit)
              (take m ys) (take m xs)); [done|done|done|lia| | | |].
    { simpl. by rewrite app_assoc, <- map_app, take_drop. }
    { simpl. by rewrite app_assoc, <- map_app, take_drop. }
    2:{ intros Hc s'. by apply can_throw_copy_assign. }
    simpl app.
    case_decide as Hshrink.
    + replace m with (length ys) in * by lia. rewrite firstn_all.
      apply wp_bind, wp_bind, wp_RawMemory_plus; [simpl; lia|]. simpl.
      eapply (wp_destroy_n a (length ys) (length xs - length ys) (map Live ys) (drop (length ys) xs));
        [len|len|map_lookup|].
      eapply wp_set_size; [done|]. simpl.
      apply Hpost; [done| |by simpl; map_lookup|by rewrite <- app_assoc|kept].
      simpl. map_lookup. do 2 f_equal. rewrite <- replicate_add. f_equal. lia.
    + replace m with (length xs) in * by lia. rewrite (firstn_all xs), (drop_all xs).
      simpl app.
      apply wp_bind, wp_bind, wp_RawMemory_plus; [simpl; lia|]. simpl.
      apply wp_bind, wp_RawMemory_plus; [simpl; lia|]. simpl.
      eapply (wp_uninitialized_copy_n b a _ _ _ (map Live (take (length xs) ys))
                (replicate (cap' - length ys) Uninit)
                (map Live (take (length xs) ys)) (replicate (cap - length ys) Uninit)
                (drop (length xs) ys));
        [done|len|len|len| | | |by intros ?%can_throw_copy_construct].
      { map_lookup. by rewrite app_assoc, <- map_app, take_drop. }
      { map_lookup. do 2 f_equal. rewrite <- replicate_add. f_equal. len. }
      eapply wp_set_size; [done|]. simpl.
      apply Hpost; [done| | |by rewrite <- app_assoc|kept].
      * simpl. map_lookup. by rewrite app_assoc, <- map_app, take_drop.
      * simpl. by map_lookup.
Qed.

Lemma copy_assign_within h o tr this other xs cap ys cap' :
  holds (State h o tr) this xs cap → holds (State h o tr) other ys cap' →
  this = other ∨ separate (State h o tr) this other →
  length ys ≤ cap →
  returns (Vector.copy_assign this other) (State h o tr) (λ _ s',
    holds s' this ys cap ∧ holds s' other ys cap' ∧
    position s' this 0 = position (State h o tr) this 0 ∧
    trace s' = tr ++ zip_with (λ d x, Done (CopyAssign d x)) xs ys
                  ++ (if decide (length ys < length xs)
                      then map (λ x, Done (Destroy x)) (drop (length ys) xs)
                      else map (λ y, Done (CopyConstruct y)) (drop (length xs) ys))).
Proof.
  intros Hthis Hother Hsep Hfit.
  eapply wp_mono; [by apply copy_assign_within_full| |done].
  intros [] s' (? & ? & ? & ? & _). done.
Qed.

(** [operator=(const Vector&)] when the source has more elements than
    the destination has capacity. *)
Lemma copy_assign_realloc_full h o tr this other xs cap ys cap' :
  holds (State h o tr) this xs cap → holds (State h o tr) other ys cap' →
  this = other ∨ separate (State h o tr) this other →
  cap < length ys →
  wp (Vector.copy_assign this other) (State h o tr)
     (λ _ s',
        holds s' this ys (length ys) ∧ holds s' other ys cap' ∧
        position s' this 0 ≠ position (State h o tr) this 0 ∧
        trace s' = tr ++ map (λ y, Done (CopyConstruct y)) ys
                      ++ map (λ x, Done (Destroy x)) xs ∧
        confined (State h o tr) s' this)
     (λ s', copy_construct_can_throw ∧ heap s' = h ∧ objects s' = o).
Proof.
  intros Hthis Hother Hsep Hbig.
  pose proof Hthis as (buf & Ho & Hlen & Hb)%holds_inv.
  pose proof Hother as (buf' & Ho' & Hlen' & Hb')%holds_inv.
  assert (this ≠ other) as Hne.
  { intros <-. destruct (holds_functional _ _ _ _ _ _ Hthis Hother) as [<- <-]. lia. }
  destruct Hsep as [?|Hsep]; [done|].
  destruct buf' as [b|]; [|destruct Hb' as [_ ->]; simpl in *; lia].
  unfold Vector.copy_assign.
  apply wp_bind. eapply wp_deref; [done|]. simpl.
  apply wp_bind. eapply wp_deref; [done|]. simpl.
  unfold RawMemory.Capacity. simpl.
  rewrite decide_True by lia.
  apply wp_bind.
  eapply wp_ctor_copy; [done| |by intros].
  intros r [a'|] Hr Hbuf; [|subst ys; simpl in *; lia].
  destruct Hbuf as [Ha' _]. simpl.
  assert (this ≠ r ∧ other ≠ r ∧ b ≠ a') as (? & ? & ?) by (split_and!; congruence).
  apply wp_bind.
  eapply Swap_spec; [done|map_lookup|map_lookup|].
  eapply dtor_spec.
  { eapply holds_intro; [map_lookup|done|].
    destruct buf as [a|]; [|by destruct Hb].
    assert (a ≠ a') by congruence. by map_lookup. }
  intros buf0. rewrite lookup_insert_eq. intros [= <-].
  split_and!.
  - eapply holds_intro; [map_lookup|done|].
    rewrite Nat.sub_diag, app_nil_r.
    destruct buf as [a|]; simpl; [|map_lookup].
    assert (a ≠ a') by congruence. by map_lookup.
  - eapply holds_intro; [map_lookup|done|].
    destruct buf as [a|]; simpl; [|by map_lookup].
    assert (a ≠ b). { intros ->. by eapply (Hsep _ _ b). }
    by map_lookup.
  - unfold position. simpl. map_lookup. rewrite Ho. simpl.
    destruct buf as [a|]; [|done].
    intros [= ->]. congruence.
  - simpl. by rewrite <- app_assoc.
  - unfold confined, position. simpl. rewrite Ho. simpl. split_and!.
    + intros w Hw. destruct (decide (w = r)) as [->|Hwr].
      * by rewrite lookup_delete_eq.
      * rewrite lookup_delete_ne by done. by rewrite !lookup_insert_ne by done.
    + intros a0 b0 Ha0 Hne0. assert (a0 ≠ a') by congruence.
      destruct buf as [a|]; simpl.
      * rewrite lookup_delete_ne by congruence. by rewrite lookup_insert_ne.
      * by rewrite lookup_insert_ne.
    + rewrite lookup_delete_ne by done.
      rewrite lookup_insert_ne, lookup_insert_eq by done. simpl.
      intros a0 [= <-]. by right.
Qed.

Lemma copy_assign_realloc h o tr this other xs cap ys cap' :
  holds (State h o tr) this xs cap → holds (State h o tr) other ys cap' →
  this = other ∨ separate (State h o tr) this other →
  cap < length ys →
  returns (Vector.copy_assign this other) (State h o tr) (λ _ s',
    holds s' this ys (length ys) ∧ holds s' other ys cap' ∧
    position s' this 0 ≠ position (State h o tr) this 0 ∧
    trace s' = tr ++ map (λ y, Done (CopyConstruct y)) ys
                  ++ map (λ x, Done (Destroy x)) xs).
Proof.
  intros Hthis Hother Hsep Hbig.
  eapply wp_mono; [by eapply copy_assign_realloc_full|
                  |intros ? [? _]; by apply can_throw_copy_construct].
  intros [] s' (? & ? & ? & ? & _). done.
Qed.

End assignment.

(** ** Move assignment *)

Section move_assignment.
Context {T : Type} `{!Element T}.
Implicit Types (h : gmap addr (list (slot T))) (o : gmap vref Vector).
Implicit Types (tr : list (event T)) (xs ys : list T) (this other : vref).

Lemma wp_val_eq {A} (m : M T A) s a s' :
  wp m s (λ b s'', b = a ∧ s'' = s') (λ _, False) → m s = Val a s'.
Proof. unfold wp. destruct (m s); [by intros [-> ->]|done..]. Qed.

(** [this = std::move(other)] for two different vectors: [this] takes
    the storage of [other] and keeps its own [size_]; its old block is
    released with its elements not destroyed. *)
Lemma move_assign_distinct h o tr this other v w :
  this ≠ other → o !! this = Some v → o !! other = Some w →
  (∀ a, buffer_ (data_ v) = Some a → is_Some (h !! a)) →
  Vector.move_assign this other (State h o tr)
  = Val () (State (from_option (λ a, delete a h) h (buffer_ (data_ v)))
                  (<[this := mkVector (data_ w) (size_ v)]>
                     (<[other := mkVector (mkRawMemory None 0) 0]> o))
                  tr).
Proof.
  intros Hne Hv Hw Hblock. apply wp_val_eq.
  destruct v as [[vb vc] vs], w as [[wb wc] ws]. simpl in *.
  unfold Vector.move_assign. apply wp_noexcept.
  apply wp_bind. eapply wp_set_size; [done|]. simpl.
  unfold RawMemory.move_assign. rewrite decide_True by done.
  apply wp_bind. eapply wp_RawMemory_read; [map_lookup|]. simpl.
  apply wp_bind. eapply wp_RawMemory_write; [map_lookup|]. simpl.
  apply wp_bind. eapply wp_RawMemory_read; [map_lookup|]. simpl.
  apply wp_bind. eapply wp_RawMemory_write; [map_lookup|]. simpl.
  rewrite insert_insert_eq.
  apply wp_RawMemory_dtor; simpl.
  - intros a ->. split; [by apply Hblock|]. done.
  - by intros ->.
Qed.

(** [v = std::move(v)]: the storage stays and [size_] becomes zero. *)
Lemma move_assign_self h o tr this v :
  o !! this = Some v →
  Vector.move_assign this this (State h o tr)
  = Val () (State h (<[this := mkVector (data_ v) 0]> o) tr).
Proof.
  intros Hv. apply wp_val_eq.
  unfold Vector.move_assign. apply wp_noexcept.
  apply wp_bind. eapply wp_set_size; [done|]. simpl.
  unfold RawMemory.move_assign.
  rewrite decide_False by (intros Hne; by apply Hne). done.
Qed.

End move_assignment.

(** ** Platforms *)

(** The functions that allocate differ between platforms only in
    [Allocate]: on every platform a call throws [std::bad_alloc] before
    it has touched anything when [operator new] refuses the storage, and
    otherwise does what it does on the idealised platform, as long as
    the size of the request can be written in a [std::size_t]. *)

Section platform.
Context {T : Type} `{!Element T} `{!Platform T}.
Implicit Types (s : state T) (this other : vref) (xs ys : list T).

Local Abbreviation ideal := (@unbounded T).

Lemma lp64_representable (sz : positive) (f : nat → state T → bool) n :
  n * Pos.to_nat sz ≤ SIZE_MAX → representable (Platform0 := lp64 sz f) n.
Proof.
  unfold representable, SIZE_MAX. simpl. intros Hn.
  rewrite N.mod_small by lia. lia.
Qed.

Lemma unbounded_representable n : representable (Platform0 := ideal) n.
Proof. done. Qed.

Lemma RawMemory_ctor_ideal n s :
  n ≠ 0 →
  RawMemory.ctor (Platform0 := ideal) n s =
    Val (mkRawMemory (Some (fresh (dom (heap s)))) n)
        (State (<[fresh (dom (heap s)) := replicate n Uninit]> (heap s)) (objects s) (trace s)).
Proof.
  intros Hn. unfold RawMemory.ctor, RawMemory.Allocate.
  rewrite decide_False by done.
  unfold mbind, M_bind, operator_new, new_throws, size_t, sizeof, unbounded.
  by rewrite Pos2Nat.inj_1, Nat.mul_1_r, Nat.div_1_r.
Qed.

(** [RawMemory(n)] on a platform, in terms of the idealised one. *)
Lemma RawMemory_ctor_platform n s :
  representable n →
  RawMemory.ctor n s =
    if decide (refused n s) then Exn s
    else RawMemory.ctor (Platform0 := ideal) n s.
Proof.
  unfold representable, refused. intros Hn.
  destruct (decide (n = 0)) as [->|Hne].
  - rewrite decide_False by (by intros []). done.
  - rewrite RawMemory_ctor_ideal by done.
    unfold RawMemory.ctor, RawMemory.Allocate.
    rewrite decide_False by done.
    unfold mbind, M_bind, operator_new. rewrite Hn.
    destruct (decide _) as [[_ Hnew]|Hno].
    + by rewrite Hnew.
    + destruct (new_throws _ s); [by destruct Hno|].
      by rewrite Nat.div_mul by lia.
Qed.

(** [Vector(n)] *)
Lemma ctor_platform n s :
  representable n →
  Vector.ctor n s =
    if decide (refused n s) then Exn s else Vector.ctor (Platform0 := ideal) n s.
Proof.
  intros Hn. unfold Vector.ctor. unfold mbind, M_bind.
  rewrite RawMemory_ctor_platform by done. by case_decide.
Qed.

(** [Vector(const Vector&)] *)
Lemma ctor_copy_platform other s v :
  objects s !! other = Some v → representable (size_ v) →
  Vector.ctor_copy other s =
    if decide (refused (size_ v) s) then Exn s
    else Vector.ctor_copy (Platform0 := ideal) other s.
Proof.
  intros Hv Hn. unfold Vector.ctor_copy. unfold mbind, M_bind. unfold Vector.deref.
  rewrite Hv. rewrite RawMemory_ctor_platform by done. by case_decide.
Qed.

(** [Reserve(n)] *)
Lemma Reserve_platform this n s v :
  objects s !! this = Some v →
  (capacity_ (data_ v) < n → representable n) →
  Vector.Reserve this n s =
    if decide (capacity_ (data_ v) < n ∧ refused n s) then Exn s
    else Vector.Reserve (Platform0 := ideal) this n s.
Proof.
  intros Hv Hn. unfold Vector.Reserve. unfold mbind, M_bind. unfold Vector.deref.
  rewrite Hv. unfold RawMemory.Capacity.
  destruct (decide (n ≤ capacity_ (data_ v))) as [Hle|Hgt].
  - destruct (decide (_ ∧ _)) as [[? ?]|_]; [lia|done].
  - rewrite RawMemory_ctor_platform by (apply Hn; lia).
    destruct (decide (refused n s)).
    + destruct (decide (_ ∧ _)) as [_|Hno]; [done|]. destruct Hno. split; [lia|done].
    + by destruct (decide (_ ∧ _)) as [[? ?]|_].
Qed.

(** [Resize(n)] *)
Lemma Resize_platform this n s v :
  objects s !! this = Some v →
  (capacity_ (data_ v) < n → representable n) →
  Vector.Resize this n s =
    if decide (capacity_ (data_ v) < n ∧ refused n s) then Exn s
    else Vector.Resize (Platform0 := ideal) this n s.
Proof.
  intros Hv Hn. unfold Vector.Resize. unfold mbind, M_bind. unfold Vector.deref.
  rewrite Hv. unfold RawMemory.Capacity.
  destruct (decide (n ≤ capacity_ (data_ v))) as [Hle|Hgt].
  - destruct (decide (_ ∧ _)) as [[? ?]|_]; [lia|done].
  - rewrite RawMemory_ctor_platform by (apply Hn; lia).
    destruct (decide (refused n s)).
    + destruct (decide (_ ∧ _)) as [_|Hno]; [done|]. destruct Hno. split; [lia|done].
    + by destruct (decide (_ ∧ _)) as [[? ?]|_].
Qed.

(** [operator=(const Vector&)] *)
Lemma copy_assign_platform this other s v w :
  objects s !! this = Some v → objects s !! other = Some w →
  (capacity_ (data_ v) < size_ w → representable (size_ w)) →
  Vector.copy_assign this other s =
    if decide (capacity_ (data_ v) < size_ w ∧ refused (size_ w) s) then Exn s
    else Vector.copy_assign (Platform0 := ideal) this other s.
Proof.
  intros Hv Hw Hn. unfold Vector.copy_assign. unfold mbind, M_bind. unfold Vector.deref.
  rewrite Hv, Hw. unfold RawMemory.Capacity.
  destruct (decide (capacity_ (data_ v) < size_ w)) as [Hlt|Hge].
  - rewrite (ctor_copy_platform other s w) by auto.
    destruct (decide (refused (size_ w) s)).
    + destruct (decide (_ ∧ _)) as [_|Hno]; [done|]. by destruct Hno.
    + by destruct (decide (_ ∧ _)) as [[? ?]|_].
  - by destruct (decide (_ ∧ _)) as [[? ?]|_].
Qed.

(** [ReallocateAndEmbed]: the capacity it asks for is [grown]. *)
Lemma ReallocateAndEmbed_platform this distance (a : args T) s v :
  objects s !! this = Some v →
  size_t (size_ v * 2) = size_ v * 2 → representable (grown (size_ v)) →
  Vector.ReallocateAndEmbed this distance a s =
    if decide (refused (grown (size_ v)) s) then Exn s
    else Vector.ReallocateAndEmbed (Platform0 := ideal) this distance a s.
Proof.
  intros Hv H2 Hn. unfold Vector.ReallocateAndEmbed. unfold mbind, M_bind. unfold Vector.deref.
  rewrite Hv, H2. fold (grown (size_ v)).
  rewrite RawMemory_ctor_platform by done.
  change (size_t (Platform := ideal) (size_ v * 2)) with (size_ v * 2).
  fold (grown (size_ v)). by case_decide.
Qed.

(** [Emplace] into a vector that is not full allocates nothing. *)
Lemma Emplace_platform_spare this pos (a : args T) s v :
  objects s !! this = Some v → size_ v ≠ capacity_ (data_ v) →
  Vector.Emplace this pos a s = Vector.Emplace (Platform0 := ideal) this pos a s.
Proof.
  intros Hv Hne. unfold Vector.Emplace. unfold mbind, M_bind.
  unfold Vector.begin, Vector.deref. unfold mbind, M_bind. rewrite Hv.
  unfold mret, M_ret.
  destruct (ranges_distance _ pos s) as [d s1| |] eqn:Hd; [|done..].
  assert (s1 = s) as ->.
  { unfold ranges_distance, mret, M_ret, abort in Hd. repeat case_decide; congruence. }
  rewrite Hv. unfold RawMemory.Capacity. by rewrite !decide_False by done.
Qed.

(** [Emplace] into a full vector. *)
Lemma Emplace_platform_full this pos (a : args T) s v :
  objects s !! this = Some v → size_ v = capacity_ (data_ v) →
  size_t (size_ v * 2) = size_ v * 2 → representable (grown (size_ v)) →
  ¬ refused (grown (size_ v)) s →
  Vector.Emplace this pos a s = Vector.Emplace (Platform0 := ideal) this pos a s.
Proof.
  intros Hv Hfull H2 Hn Hok. unfold Vector.Emplace. unfold mbind, M_bind.
  unfold Vector.begin, Vector.deref. unfold mbind, M_bind. rewrite Hv.
  unfold mret, M_ret.
  destruct (ranges_distance _ pos s) as [d s1| |] eqn:Hd; [|done..].
  assert (s1 = s) as ->.
  { unfold ranges_distance, mret, M_ret, abort in Hd. repeat case_decide; congruence. }
  rewrite Hv. unfold RawMemory.Capacity. rewrite !decide_True by done.
  rewrite (ReallocateAndEmbed_platform this d a s v) by done.
  by rewrite decide_False.
Qed.

Lemma holds_object s this xs cap :
  holds s this xs cap →
  ∃ v, objects s !! this = Some v ∧ size_ v = length xs ∧ capacity_ (data_ v) = cap ∧
       length xs ≤ cap.
Proof.
  intros (v & Hv & Hsize & Hcap & Hlen & _). exists v.
  split_and!; [done..|]. by rewrite <- Hcap.
Qed.

(** [PushBack] onto a vector that is not full allocates nothing. *)
Lemma PushBack_platform_spare s this xs cap y :
  holds s this xs cap → length xs < cap →
  Vector.PushBack this y s = Vector.PushBack (Platform0 := ideal) this y s.
Proof.
  intros Hh Hlt. destruct (holds_object _ _ _ _ Hh) as (v & Hv & Hsize & Hcap & _).
  unfold Vector.PushBack, Vector.EmplaceBack. unfold mbind, M_bind.
  destruct (Vector.cend this s) as [e s1| |] eqn:He; [|done..].
  assert (s1 = s) as ->.
  { unfold Vector.cend, Vector.end_, Vector.deref, RawMemory.plus, mbind, M_bind,
      mret, M_ret, abort in He.
    rewrite Hv in He. case_decide; congruence. }
  by rewrite (Emplace_platform_spare this e _ s v) by (done || lia).
Qed.

Lemma push_all_platform_within s this xs cap ys :
  holds s this xs cap → length xs + length ys ≤ cap →
  push_all this ys s = push_all (Platform0 := ideal) this ys s.
Proof.
  revert s xs. induction ys as [|y ys IH]; intros s xs Hh Hlen; [done|].
  simpl in *. unfold mbind, M_bind.
  rewrite (PushBack_platform_spare s this xs cap) by (done || lia).
  destruct (Vector.PushBack this y s) as [[] s1| |] eqn:Hrun; [|done..].
  destruct s as [h o tr].
  pose proof (wp_val _ _ _ _ _ _ (PushBack_spec h o tr this xs cap y Hh) Hrun)
    as (_ & Hh1 & _).
  rewrite decide_False in Hh1 by lia.
  apply (IH s1 (xs ++ [y])); [done|]. rewrite length_app. simpl. lia.
Qed.

(** A run on the platform from the run on the idealised one, when the
    only difference is that the allocation can be refused. *)
Lemma wp_refusable {A} (m m' : M T A) s (c : Prop) `{!Decision c} Q E :
  m s = (if decide c then Exn s else m' s) →
  wp m' s Q E →
  wp m s Q (λ s', E s' ∨ (c ∧ s' = s)).
Proof.
  intros Hm Hwp. unfold wp in *. rewrite Hm.
  destruct (decide c); [by right|].
  destruct (m' s); [done|by left|done].
Qed.

Lemma RawMemory_ctor_run n s :
  n ≠ 0 → new_throws (size_t (n * Pos.to_nat sizeof)) s = false →
  RawMemory.ctor n s =
    Val (mkRawMemory (Some (fresh (dom (heap s)))) n)
        (State (<[fresh (dom (heap s)) :=
                  replicate (size_t (n * Pos.to_nat sizeof) `div` Pos.to_nat sizeof) Uninit]> (heap s))
               (objects s) (trace s)).
Proof.
  intros Hn Hnew. unfold RawMemory.ctor, RawMemory.Allocate.
  rewrite decide_False by done.
  unfold mbind, M_bind, operator_new. by rewrite Hnew.
Qed.

(** [Reserve(n)] on an empty vector without storage, when the product
    [n * sizeof(T)] wraps: the call returns, with [capacity_] equal to
    [n] over a block that has room for fewer objects. *)
Lemma Reserve_wrapped this n s :
  objects s !! this = Some (mkVector (mkRawMemory None 0) 0) →
  n ≠ 0 → new_throws (size_t (n * Pos.to_nat sizeof)) s = false →
  Vector.Reserve this n s =
    Val () (State (<[fresh (dom (heap s)) :=
                     replicate (size_t (n * Pos.to_nat sizeof) `div` Pos.to_nat sizeof) Uninit]> (heap s))
                  (<[this := mkVector (mkRawMemory (Some (fresh (dom (heap s)))) n) 0]> (objects s))
                  (trace s)).
Proof.
  intros Hv Hn Hnew. unfold Vector.Reserve. unfold mbind, M_bind, Vector.deref.
  rewrite Hv. unfold RawMemory.Capacity. cbn [capacity_ data_ size_ buffer_].
  rewrite decide_False by lia.
  rewrite RawMemory_ctor_run by done.
  unfold on_unwind, mbind, M_bind. simpl.
  destruct Vector.transfer_by_move; simpl;
    unfold RawMemory.write; simpl; rewrite Hv; simpl; done.
Qed.

Lemma value_construct_outside a n h o tr :
  h !! a = Some [] → throws ValueConstruct tr = false →
  uninitialized_value_construct_n (Ptr (Some a) 0) (S n) (State h o tr) = Abort.
Proof.
  intros Ha Hthrow. unfold uninitialized_value_construct_n. cbn [uninitialized_n].
  unfold mbind, M_bind, on_unwind, value_construct_at, mbind, M_bind, perform.
  cbn [trace heap objects]. rewrite Hthrow.
  unfold write_slot. cbn [blk off ptr_add heap]. by rewrite Ha.
Qed.

(** [Resize(n)] in the same situation writes the first new element
    outside the block. *)
Lemma Resize_wrapped this n s :
  objects s !! this = Some (mkVector (mkRawMemory None 0) 0) →
  n ≠ 0 → new_throws (size_t (n * Pos.to_nat sizeof)) s = false →
  size_t (n * Pos.to_nat sizeof) < Pos.to_nat sizeof →
  throws ValueConstruct (trace s) = false →
  Vector.Resize this n s = Abort.
Proof.
  intros Hv Hn Hnew Hwrap Hthrow. unfold Vector.Resize. unfold mbind, M_bind, Vector.deref.
  rewrite Hv. unfold RawMemory.Capacity. cbn [capacity_ data_ size_ buffer_].
  rewrite decide_False by lia.
  rewrite RawMemory_ctor_run by done.
  rewrite Nat.div_small by done.
  destruct n as [|n]; [done|].
  unfold on_unwind, mbind, M_bind. simpl.
  destruct Vector.transfer_by_move; simpl;
    by rewrite value_construct_outside by (done || by rewrite lookup_insert_eq).
Qed.
End platform.

(** * The claims *)

Ltac holds_concrete :=
  eexists; split_and!;
  [vm_compute; reflexivity|reflexivity|reflexivity
  |split; [simpl; lia|vm_compute; reflexivity]].

Section claims_int.
Local Existing Instance int_like.

(** The scenario of the specification: pushes onto an empty vector, an
    insertion, a removal, a resize. *)
Example scenario :
  ∃ s1 s2 s3 s4 s5 s6,
    exec_all [CDefault; CPushBack 0 1] init = Val () s1 ∧ holds s1 0 [1] 1 ∧
    exec (CPushBack 0 2) s1 = Val () s2 ∧ holds s2 0 [1; 2] 2 ∧
    exec (CPushBack 0 3) s2 = Val () s3 ∧ holds s3 0 [1; 2; 3] 4 ∧
    exec (CInsert 0 1 99) s3 = Val () s4 ∧ holds s4 0 [1; 99; 2; 3] 4 ∧
    exec (CErase 0 2) s4 = Val () s5 ∧ holds s5 0 [1; 99; 3] 4 ∧
    exec (CResize 0 5) s5 = Val () s6 ∧ holds s6 0 [1; 99; 3; 0; 0] 5.
Proof.
  eexists _, _, _, _, _, _.
  split_and!; first [by vm_compute | holds_concrete].
Qed.

(** C1 (the code departs from the claim).  Move assignment does give
    the destination the storage of the source and does set the size of
    the source to zero, but it leaves the size of the destination as it
    was instead of giving it the former size of the source.  After
    [Vector v(3); Vector w(1); v = std::move(w);] the vector [v] points
    to the one-slot block of [w] and still has size 3, so it no longer
    satisfies the invariant; [w] has size 0. *)
Theorem move_assign_keeps_destination_size :
  ∃ s s',
    exec_all [CSized 3; CSized 1] init = Val () s ∧
    holds s 0 [0; 0; 0] 3 ∧ holds s 1 [0] 1 ∧
    Vector.move_assign 0 1 s = Val () s' ∧
    (data_ <$> objects s' !! 0) = (data_ <$> objects s !! 1) ∧
    Vector.Size 0 s' = Val 3 s' ∧
    Vector.Capacity 0 s' = Val 1 s' ∧
    Vector.Size 1 s' = Val 0 s' ∧
    ¬ invariant s' 0.
Proof.
  eexists _, _. split; [vm_compute; reflexivity|].
  split; [eexists; split_and!; [vm_compute; reflexivity|done..]|].
  split; [eexists; split_and!; [vm_compute; reflexivity|done..]|].
  split; [vm_compute; reflexivity|].
  split_and!; [vm_compute; reflexivity..|].
  intros (xs & cap & v & Hv & Hsize & Hcap & Hlen & _).
  vm_compute in Hv. injection Hv as <-. simpl in *. lia.
Qed.

(** C2 (the code departs from the claim).  The invariant is not kept by
    every sequence of public operations: three calls reach a state in
    which a vector has size 3 and capacity 1.  The last call is a move
    assignment; the move constructor, next to it in the source, does
    transfer the size. *)
Theorem invariant_broken_by_move_assign :
  ∃ s v, reachable s ∧ is_Some (objects s !! v) ∧ ¬ invariant s v.
Proof.
  eexists _, 0. split; [exists [CSized 3; CSized 1; CMoveAssign 0 1]; vm_compute; reflexivity|].
  split; [vm_compute; eauto|].
  intros (xs & cap & v & Hv & Hsize & Hcap & Hlen & _).
  vm_compute in Hv. injection Hv as <-. simpl in *. lia.
Qed.

End claims_int.

Section claims.
Context {T : Type} `{!Element T}.
Implicit Types (s : state T) (xs ys : list T) (this other : vref).

Lemma wp_exn {A} (m : M T A) s (Q : A → state T → Prop) (E : state T → Prop) :
  wp m s Q E → (∀ a s', Q a s' → False) → ∃ s', m s = Exn s' ∧ E s'.
Proof.
  unfold wp. destruct (m s) as [a s'|s'|]; intros H HQ; [|by eauto|done].
  destruct (HQ _ _ H).
Qed.

Lemma wp_exn_inv {A} (m : M T A) s (Q : A → state T → Prop) (E : state T → Prop) s' :
  wp m s Q E → m s = Exn s' → E s'.
Proof. unfold wp. intros H Hrun. by rewrite Hrun in H. Qed.

Lemma holds_ext s s' this xs cap :
  holds s this xs cap → heap s' = heap s → objects s' = objects s →
  holds s' this xs cap.
Proof.
  intros (v & Hv & Hsize & Hcap & Hlen & Hblock) Hh Ho.
  exists v. unfold owns. by rewrite Hh, Ho.
Qed.

(** C3.  When the constructor of the new element throws, [Emplace] (at
    any position, on the growth path as well as within capacity) lets
    the exception through and leaves the heap and the vector objects as
    they were: same size, same capacity, same elements.  The same holds
    for [Insert] and [PushBack], which construct the new element by
    copy.  More generally, whichever element operation makes [Emplace]
    end with an exception, the heap and the vector objects are as they
    were, as long as the transfer on the growth path is by copy or by a
    move constructor that does not throw, and the move assignments that
    shift elements within capacity do not throw. *)
Theorem Emplace_strong_guarantee s this xs cap :
  holds s this xs cap →
  (∀ i pos a,
     i ≤ length xs → position s this i = Some pos →
     throws (args_op a) (trace s) = true →
     ∃ s', Vector.Emplace this pos a s = Exn s' ∧
           heap s' = heap s ∧ objects s' = objects s ∧ holds s' this xs cap) ∧
  (∀ i pos y,
     i ≤ length xs → position s this i = Some pos →
     throws (CopyConstruct y) (trace s) = true →
     ∃ s', Vector.Insert this pos y s = Exn s' ∧
           heap s' = heap s ∧ objects s' = objects s ∧ holds s' this xs cap) ∧
  (∀ y,
     throws (CopyConstruct y) (trace s) = true →
     ∃ s', Vector.PushBack this y s = Exn s' ∧
           heap s' = heap s ∧ objects s' = objects s ∧ holds s' this xs cap) ∧
  (∀ i pos a s',
     i ≤ length xs → position s this i = Some pos →
     (length xs = cap → Vector.transfer_by_move = true → ¬ move_construct_can_throw) →
     (length xs < cap → i < length xs → ¬ move_assign_can_throw) →
     Vector.Emplace this pos a s = Exn s' →
     heap s' = heap s ∧ objects s' = objects s ∧ holds s' this xs cap).
Proof.
  destruct s as [h o tr]. intros Hholds.
  assert (∀ i pos a,
     i ≤ length xs → position (State h o tr) this i = Some pos →
     throws (args_op a) tr = true →
     ∃ s', Vector.Emplace this pos a (State h o tr) = Exn s' ∧
           heap s' = h ∧ objects s' = o ∧ holds s' this xs cap) as HEmplace.
  { intros i pos a Hi Hpos Hthrow.
    destruct (wp_exn _ _ _ _ (Emplace_spec h o tr this xs cap i pos a Hholds Hi Hpos))
      as (s' & Hrun & _ & Hs' & _); [intros ? ? [? _]; congruence|].
    exists s'. rewrite (Hs' Hthrow). split_and!; [by rewrite <- (Hs' Hthrow)|done..]. }
  split_and!; [done|intros i pos y ? ? ?; by apply (HEmplace i pos (ByCopy y))| |].
  - intros y Hthrow.
    destruct (wp_exn _ _ _ _ (PushBack_spec h o tr this xs cap y Hholds))
      as (s' & Hrun & _ & Hs' & _); [intros ? ? [? _]; simpl in *; congruence|].
    exists s'. rewrite (Hs' Hthrow). split_and!; [by rewrite <- (Hs' Hthrow)|done..].
  - intros i pos a s' Hi Hpos Hmove Hassign Hrun.
    destruct (wp_exn_inv _ _ _ _ _ (Emplace_spec h o tr this xs cap i pos a Hholds Hi Hpos) Hrun)
      as (_ & _ & Hsame).
    destruct (Hsame Hmove Hassign) as [Hh Ho].
    split_and!; [done..|]. by eapply holds_ext.
Qed.

(** C4.  [Emplace] into a full vector (size equal to capacity), at any
    position, moves it to new storage of capacity exactly
    [max(1, size * 2)].  Hence [PushBack]s onto an empty vector without
    storage give the capacities 1, 2, 4, ...: after [n >= 1] pushes the
    capacity is the least power of two that is at least [n]. *)
Theorem Emplace_growth_capacity s this xs :
  holds s this xs (length xs) →
  (∀ i pos a,
     i ≤ length xs → position s this i = Some pos →
     returns (Vector.Emplace this pos a) s (λ _ s',
       holds s' this (take i xs ++ args_value a :: drop i xs) (1 `max` (length xs * 2)) ∧
       position s' this 0 ≠ position s this 0)) ∧
  (xs = [] → ∀ ys,
     returns (push_all this ys) s (λ _ s',
       holds s' this ys (pushed_capacity (length ys)))) ∧
  pushed_capacity <$> [1; 2; 3; 4; 5] = [1; 2; 4; 4; 8] ∧
  (∀ n, 1 ≤ n → ∃ k, pushed_capacity n = 2 ^ k ∧ n ≤ 2 ^ k ∧ 2 ^ k < 2 * n).
Proof.
  destruct s as [h o tr]. intros Hholds. split_and!.
  - intros i pos a Hi Hpos.
    eapply wp_mono; [by apply Emplace_spec| |by intros ? []].
    intros p s' (_ & Hh & _ & _ & _ & Hrealloc & _). simpl in *.
    rewrite decide_True in Hh by done. rewrite grown_max in Hh. auto.
  - intros -> ys. by apply (push_all_from h o tr this []).
  - reflexivity.
  - apply pushed_capacity_pow2.
Qed.

(** C5.  On every growth path ([Reserve], [Resize] beyond the
    capacity, [Emplace] into a full vector) the existing elements are
    carried into the new storage by [transfer_op], in order, and the old
    objects are then destroyed; [transfer_op] is the move constructor
    exactly when the move constructor of [T] does not throw or [T] is
    not copy-constructible, and the copy constructor otherwise. *)
Theorem growth_transfer_policy s this xs cap :
  holds s this xs cap →
  (∀ n, cap < n →
     returns (Vector.Reserve this n) s (λ _ s',
       trace s' = trace s ++ map (λ x, Done (transfer_op x)) xs
                          ++ map (λ x, Done (Destroy (left_behind x))) xs)) ∧
  (∀ n, cap < n →
     returns (Vector.Resize this n) s (λ _ s',
       trace s' = trace s ++ map (λ x, Done (transfer_op x)) xs
                          ++ replicate (n - length xs) (Done ValueConstruct)
                          ++ map (λ x, Done (Destroy (left_behind x))) xs)) ∧
  (∀ i pos a,
     length xs = cap → i ≤ length xs → position s this i = Some pos →
     returns (Vector.Emplace this pos a) s (λ _ s',
       trace s' = trace s ++ [Done (args_op a)]
                          ++ map (λ x, Done (transfer_op x)) (take i xs)
                          ++ map (λ x, Done (transfer_op x)) (drop i xs)
                          ++ map (λ x, Done (Destroy (left_behind x))) xs)) ∧
  (∀ x : T, transfer_op x = MoveConstruct x ↔
            is_nothrow_move_constructible = true ∨ is_copy_constructible = false) ∧
  (∀ x : T, transfer_op x = CopyConstruct x ↔
            ¬ (is_nothrow_move_constructible = true ∨ is_copy_constructible = false)).
Proof.
  destruct s as [h o tr]. intros Hholds. split_and!.
  - intros n Hn.
    eapply wp_mono; [by eapply Reserve_grow| |done]. by intros ? ? [_ ?].
  - intros n Hn.
    eapply wp_mono; [by eapply Resize_spec| |done].
    intros ? ? (_ & _ & _ & Htr). by rewrite decide_False in Htr by lia.
  - intros i pos a Hfull Hi Hpos.
    eapply wp_mono; [by eapply Emplace_spec| |by intros ? []].
    intros p s' (_ & _ & _ & _ & _ & _ & Htr). by apply Htr.
  - intros x. unfold transfer_op.
    destruct is_nothrow_move_constructible, is_copy_constructible; simpl;
      intuition congruence.
  - intros x. unfold transfer_op.
    destruct is_nothrow_move_constructible, is_copy_constructible; simpl;
      intuition congruence.
Qed.

(** C6.  Copy assignment [this = other].  The source keeps its
    elements and the destination ends with the same elements.  When the
    source fits the capacity of the destination, the destination keeps
    its storage and its capacity, elements are assigned over the common
    prefix, and a surplus tail of the destination is destroyed (a
    surplus tail of the source is copy-constructed); otherwise the
    destination gets new storage, whose capacity is the size of the
    source. *)
Theorem copy_assign_capacity s this other xs cap ys cap' :
  holds s this xs cap → holds s other ys cap' →
  this = other ∨ separate s this other →
  returns (Vector.copy_assign this other) s (λ _ s',
    holds s' other ys cap' ∧
    (length ys ≤ cap →
       holds s' this ys cap ∧
       position s' this 0 = position s this 0 ∧
       trace s' = trace s
                  ++ zip_with (λ d x, Done (CopyAssign d x)) xs ys
                  ++ (if decide (length ys < length xs)
                      then map (λ x, Done (Destroy x)) (drop (length ys) xs)
                      else map (λ y, Done (CopyConstruct y)) (drop (length xs) ys))) ∧
    (cap < length ys →
       ∃ cap2, holds s' this ys cap2 ∧ length ys ≤ cap2 ∧
               position s' this 0 ≠ position s this 0)).
Proof.
  destruct s as [h o tr]. intros Hthis Hother Hsep.
  destruct (decide (length ys ≤ cap)) as [Hfit|Hbig].
  - eapply wp_mono; [by eapply copy_assign_within| |done].
    intros ? ? (? & ? & ? & ?). split_and!; [done|done|lia].
  - eapply wp_mono; [eapply copy_assign_realloc; [done|done|done|lia]| |done].
    intros ? ? (? & ? & ? & ?). split_and!; [done|lia|].
    intros _. by exists (length ys).
Qed.

(** C8.  [Erase] at [begin() + i], for [i] below the size: a call that
    returns has removed the element of index [i], moved the elements
    after it one slot to the left, left those before it as they were,
    decremented the size and kept the capacity and the storage.  The
    call returns unless a move assignment of [T] throws ([Erase] is
    [noexcept]). *)
Theorem Erase_shifts_left s this xs cap i pos :
  holds s this xs cap → i < length xs → position s this i = Some pos →
  (∀ p s', Vector.Erase this pos s = Val p s' →
     holds s' this (take i xs ++ drop (S i) xs) cap ∧
     (∀ j, j < i → (take i xs ++ drop (S i) xs) !! j = xs !! j) ∧
     (∀ j, i ≤ j → (take i xs ++ drop (S i) xs) !! j = xs !! (S j)) ∧
     length (take i xs ++ drop (S i) xs) = length xs - 1 ∧
     position s' this 0 = position s this 0) ∧
  (¬ move_assign_can_throw → ∃ p s', Vector.Erase this pos s = Val p s').
Proof.
  destruct s as [h o tr]. intros Hholds Hi Hpos.
  destruct (Erase_spec h o tr this xs cap i pos Hholds Hi Hpos) as [Hval Htotal].
  split; [|done]. intros p s' Hrun.
  destruct (Hval p s' Hrun) as (? & _ & ? & _).
  split_and!; [done| | |len|done].
  - intros j Hj. rewrite lookup_app_l by len. by apply lookup_take_lt.
  - intros j Hj. rewrite lookup_app_r by len.
    rewrite lookup_drop. f_equal. rewrite length_take. lia.
Qed.

Lemma Reserve_noop s this xs cap n :
  holds s this xs cap → n ≤ cap → Vector.Reserve this n s = Val () s.
Proof.
  destruct s as [h o tr]. intros (buf & Ho & _)%holds_inv Hn.
  apply wp_val_eq. unfold Vector.Reserve.
  apply wp_bind. eapply wp_deref; [done|]. simpl.
  unfold RawMemory.Capacity. simpl. by rewrite decide_True by done.
Qed.

Lemma PopBack_spec s this xs cap s' :
  holds s this xs cap → Vector.PopBack this s = Val () s' →
  xs ≠ [] ∧ holds s' this (take (length xs - 1) xs) cap.
Proof.
  destruct s as [h o tr]. intros (buf & Ho & Hlen & Hb)%holds_inv Hrun.
  destruct xs as [|z xs _] using rev_ind.
  { unfold Vector.PopBack, noexcept, mbind, M_bind, Vector.deref in Hrun.
    simpl in Hrun. by rewrite Ho in Hrun. }
  split; [by destruct xs|].
  destruct buf as [a|]; [|destruct Hb as [_ Hnil]; by destruct xs].
  rewrite length_app in *. simpl in *.
  replace (length xs + 1 - 1) with (length xs) by lia.
  rewrite take_app_length.
  unfold Vector.PopBack in Hrun.
  eapply (wp_noexcept_val _ _ (λ _ s'', holds s'' this xs cap)); [|exact Hrun].
  apply wp_bind. eapply wp_deref; [done|]. simpl.
  rewrite decide_False by lia.
  apply wp_bind. eapply wp_set_size; [done|]. simpl.
  apply wp_bind. eapply wp_deref; [map_lookup|]. simpl.
  apply wp_bind, wp_RawMemory_plus; [simpl; lia|]. simpl.
  rewrite map_app, <- app_assoc in Hb. simpl in Hb.
  eapply wp_destroy_at; [done|len|]. simpl.
  eapply holds_intro; [map_lookup; do 3 f_equal; lia|lia|].
  map_lookup. do 2 f_equal.
  replace (cap - length xs) with (S (cap - (length xs + 1))) by lia. done.
Qed.

(** Every returning call of an operation other than move assignment
    keeps the invariant of the vector it is called on, and copy
    assignment that of its source too. *)
Lemma invariant_kept s this xs cap :
  holds s this xs cap →
  (∀ y s', Vector.PushBack this y s = Val () s' → invariant s' this) ∧
  (∀ i pos a p s',
     i ≤ length xs → position s this i = Some pos →
     Vector.Emplace this pos a s = Val p s' → invariant s' this) ∧
  (∀ i pos p s',
     i < length xs → position s this i = Some pos →
     Vector.Erase this pos s = Val p s' → invariant s' this) ∧
  (∀ s', Vector.PopBack this s = Val () s' → invariant s' this) ∧
  (∀ n s', Vector.Reserve this n s = Val () s' → invariant s' this) ∧
  (∀ n s', Vector.Resize this n s = Val () s' → invariant s' this) ∧
  (∀ other ys cap' s',
     holds s other ys cap' → this = other ∨ separate s this other →
     Vector.copy_assign this other s = Val () s' →
     invariant s' this ∧ invariant s' other).
Proof.
  destruct s as [h o tr]. intros Hholds. split_and!.
  - intros y s' Hrun.
    destruct (wp_val _ _ _ _ _ _ (PushBack_spec h o tr this xs cap y Hholds) Hrun)
      as (_ & ? & _). by eexists _, _.
  - intros i pos a p s' Hi Hpos Hrun.
    destruct (wp_val _ _ _ _ _ _ (Emplace_spec h o tr this xs cap i pos a Hholds Hi Hpos) Hrun)
      as (_ & ? & _). by eexists _, _.
  - intros i pos p s' Hi Hpos Hrun.
    destruct (proj1 (Erase_spec h o tr this xs cap i pos Hholds Hi Hpos) p s' Hrun)
      as (? & _). by eexists _, _.
  - intros s' Hrun. destruct (PopBack_spec _ _ _ _ _ Hholds Hrun) as [_ ?].
    by eexists _, _.
  - intros n s' Hrun. destruct (decide (n ≤ cap)) as [Hn|Hn].
    + rewrite (Reserve_noop _ _ _ _ _ Hholds Hn) in Hrun. injection Hrun as <-.
      by eexists _, _.
    + assert (cap < n) as Hn' by lia.
      destruct (wp_val _ _ _ _ _ _ (Reserve_grow h o tr this xs cap n Hholds Hn') Hrun)
        as (? & _). by eexists _, _.
  - intros n s' Hrun.
    destruct (wp_val _ _ _ _ _ _ (Resize_spec h o tr this xs cap n Hholds) Hrun)
      as (? & _). by eexists _, _.
  - intros other ys cap' s' Hother Hsep Hrun.
    destruct (decide (length ys ≤ cap)) as [Hle|Hgt].
    + destruct (wp_val _ _ _ _ _ _
                  (copy_assign_within h o tr this other xs cap ys cap' Hholds Hother Hsep Hle)
                  Hrun) as (? & ? & _).
      split; by eexists _, _.
    + assert (cap < length ys) as Hgt' by lia.
      destruct (wp_val _ _ _ _ _ _
                  (copy_assign_realloc h o tr this other xs cap ys cap' Hholds Hother Hsep Hgt')
                  Hrun) as (? & ? & _).
      split; by eexists _, _.
Qed.

Lemma load_element s this xs cap j x p :
  holds s this xs cap → xs !! j = Some x → position s this j = Some p →
  load p s = Val x s.
Proof.
  destruct s as [h o tr]. intros (buf & Ho & Hlen & Hb)%holds_inv Hj Hpos.
  unfold position in Hpos. simpl in Hpos. rewrite Ho in Hpos. injection Hpos as <-.
  destruct buf as [a|]; [|by destruct Hb as [_ ->]].
  unfold load, mbind, M_bind, read_slot. simpl. rewrite Hb.
  rewrite <- (take_drop_middle xs j x Hj), map_app, <- app_assoc. simpl.
  rewrite lookup_seg; [done|].
  rewrite length_map, length_take. apply lookup_lt_Some in Hj. lia.
Qed.

(** C10.  [Emplace] at [begin() + i] returns [begin() + i] of the vector
    after the insertion, where the new element is.  [Erase] at
    [begin() + i] returns [begin() + i] of the vector after the removal:
    there lies the element that followed the erased one, or, when the
    last element was erased, that is [end()]. *)
Theorem Emplace_Erase_return_position s this xs cap i pos :
  holds s this xs cap → position s this i = Some pos →
  (i ≤ length xs → ∀ a,
     returns (Vector.Emplace this pos a) s (λ p s',
       position s' this i = Some p ∧ load p s' = Val (args_value a) s')) ∧
  (i < length xs →
     (∀ p s', Vector.Erase this pos s = Val p s' →
        position s' this i = Some p ∧
        (∀ y, xs !! S i = Some y → load p s' = Val y s') ∧
        (S i = length xs → Vector.end_ this s' = Val p s')) ∧
     (¬ move_assign_can_throw → ∃ p s', Vector.Erase this pos s = Val p s')).
Proof.
  destruct s as [h o tr]. intros Hholds Hpos. split.
  - intros Hi a.
    eapply wp_mono; [by eapply Emplace_spec| |by intros ? []].
    intros p s' (_ & Hh & Hp & _). simpl. split; [done|].
    eapply load_element; [done| |done].
    apply lookup_seg. rewrite length_take. lia.
  - intros Hi.
    destruct (Erase_spec h o tr this xs cap i pos Hholds Hi Hpos) as [Hval Htotal].
    split; [|done]. intros p s' Hrun.
    destruct (Hval p s' Hrun) as (Hh & Hp & _ & _).
    split_and!; [done| |].
    + intros y Hy. eapply load_element; [done| |done].
      rewrite lookup_app_r by len. rewrite lookup_drop, <- Hy. f_equal.
      rewrite length_take. lia.
    + intros Hlast. destruct s' as [h' o' tr'].
      destruct Hh as (v & Hv & Hsize & Hcap & Hle & _).
      unfold position in Hp. simpl in *. rewrite Hv in Hp. injection Hp as <-.
      unfold Vector.end_, Vector.deref, mbind, M_bind, RawMemory.plus. simpl.
      rewrite Hv. rewrite decide_True by lia. unfold mret, M_ret. do 2 f_equal.
      rewrite Hsize. len.
Qed.

End claims.

(** ** Requests of a size that the caller chooses *)

Section requests.
Context {T : Type} `{!Element T} `{!Platform T}.
Implicit Types (s : state T) (this other : vref) (xs ys : list T).

(** C7, as amended.  [Resize(n)] on any platform, for a request whose
    size in bytes can be written in a [std::size_t] when the vector has
    to grow.  Below the size it destroys the elements [[n, size)] and
    keeps the first [n]; between size and capacity it value-constructs
    [n - size] elements in place; above the capacity it moves to
    storage of capacity exactly [n], keeps the elements and
    value-constructs the new tail.  A call that returns has set the
    size to [n].  A call ends with an exception only if an element
    operation of [T] can throw or, when the vector has to grow, if
    [operator new] refuses the storage; then the call throws
    [std::bad_alloc] and leaves the state as it was. *)
Theorem Resize_cases s this xs cap n :
  holds s this xs cap →
  (cap < n → representable n) →
  wp (Vector.Resize this n) s
     (λ _ s',
        (n < length xs →
           holds s' this (take n xs) cap ∧
           position s' this 0 = position s this 0 ∧
           trace s' = trace s ++ map (λ x, Done (Destroy x)) (drop n xs)) ∧
        (length xs ≤ n ≤ cap →
           holds s' this (xs ++ replicate (n - length xs) value_init) cap ∧
           position s' this 0 = position s this 0 ∧
           trace s' = trace s ++ replicate (n - length xs) (Done ValueConstruct)) ∧
        (cap < n →
           holds s' this (xs ++ replicate (n - length xs) value_init) n) ∧
        Vector.Size this s' = Val n s')
     (λ s', can_throw ∨ (cap < n ∧ refused n s ∧ s' = s)) ∧
  (cap < n → refused n s → Vector.Resize this n s = Exn s).
Proof.
  intros Hholds Hn.
  destruct (holds_object _ _ _ _ Hholds) as (v & Hv & Hsize & Hcap & Hlen).
  pose proof (Resize_platform this n s v Hv) as Hrun.
  rewrite Hcap in Hrun. specialize (Hrun Hn).
  split.
  2:{ intros Hlt Href. rewrite Hrun. by rewrite decide_True. }
  destruct s as [h o tr].
  eapply wp_mono; [eapply wp_refusable; [exact Hrun|by apply Resize_spec]| |].
  2:{ intros s' [Hc|[[? ?] ?]]; [by left|by right]. }
  intros [] s' (Hh & Hpos & _ & Htr). simpl. split_and!.
  - intros Hlt. replace (n - length xs) with 0 in Hh by lia.
    simpl in Hh. rewrite app_nil_r in Hh.
    replace (cap `max` n) with cap in Hh by lia.
    rewrite !decide_True in Htr by lia. split_and!; [done|apply Hpos; lia|done].
  - intros [Hge Hle]. rewrite take_ge in Hh by lia.
    replace (cap `max` n) with cap in Hh by lia.
    rewrite decide_True, decide_False in Htr by lia. auto.
  - intros Hgt. rewrite take_ge in Hh by lia.
    by replace (cap `max` n) with n in Hh by lia.
  - destruct Hh as (v' & Hv' & Hsize' & _).
    unfold Vector.Size, Vector.deref, mbind, M_bind, mret, M_ret. rewrite Hv'.
    f_equal. rewrite Hsize'. len.
Qed.

(** C9, as amended.  [Reserve(n)] with [n] at most the capacity changes
    nothing.  With [n] above the capacity and [n * sizeof(T)]
    representable in [std::size_t], it throws [std::bad_alloc] and
    leaves the state as it was when [operator new] refuses the storage;
    otherwise it makes the capacity exactly [n] and keeps the size and
    the elements, and pushes that bring the size to at most [n], that
    is up to [n - size] of them, then keep the capacity at [n] and the
    storage in place. *)
Theorem Reserve_then_pushes s this xs cap n :
  holds s this xs cap →
  (n ≤ cap → Vector.Reserve this n s = Val () s) ∧
  (cap < n → representable n →
     wp (Vector.Reserve this n) s
        (λ _ s1,
           holds s1 this xs n ∧
           ∀ ys, length xs + length ys ≤ n →
             returns (push_all this ys) s1 (λ _ s2,
               holds s2 this (xs ++ ys) n ∧
               position s2 this 0 = position s1 this 0))
        (λ s', can_throw ∨ (refused n s ∧ s' = s)) ∧
     (refused n s → Vector.Reserve this n s = Exn s)).
Proof.
  intros Hholds.
  destruct (holds_object _ _ _ _ Hholds) as (v & Hv & Hsize & Hcap & Hlen).
  pose proof (Reserve_platform this n s v Hv) as Hrun. rewrite Hcap in Hrun.
  split.
  { intros Hle. rewrite Hrun by lia.
    destruct (decide (_ ∧ _)) as [[? ?]|_]; [lia|]. by eapply Reserve_noop. }
  intros Hlt Hn. specialize (Hrun (λ _, Hn)). split.
  2:{ intros Href. rewrite Hrun. by rewrite decide_True. }
  destruct s as [h o tr].
  eapply wp_mono; [eapply wp_refusable; [exact Hrun|by eapply Reserve_grow]| |].
  2:{ intros s' [Hc|[[? ?] ?]]; [by left|by right]. }
  intros [] [h1 o1 tr1] [Hh _]. split; [done|].
  intros ys Hys. unfold returns, wp.
  rewrite (push_all_platform_within _ this xs n) by done.
  by apply push_all_within.
Qed.
End requests.

(** ** The claims on example vectors *)

Section witnesses.
Local Existing Instance int_like.

Lemma int_like_never_throws : ¬ can_throw.
Proof. intros (o & tr & Hthrow). discriminate Hthrow. Qed.

Lemma holds_empty_vector : holds empty_vector 0 [] 0.
Proof. eexists. split; [reflexivity|]. by repeat split. Qed.

(** The size in bytes of [2^62] [int]s is 0 in a 64-bit
    [std::size_t]. *)
Lemma lp64_int_wraps :
  size_t (Platform := lp64_int)
    (N.to_nat (2 ^ 62) * Pos.to_nat (sizeof (Platform := lp64_int))) = 0.
Proof.
  unfold size_t, sizeof, lp64_int, lp64. rewrite Nat2N.inj_mul, N2Nat.id. by vm_compute.
Qed.

(** No object of [lp64_int] has more than [PTRDIFF_MAX] bytes. *)
Lemma lp64_int_bounded : bounded_platform (Platform0 := lp64_int) PTRDIFF_MAX.
Proof.
  unfold bounded_platform, PTRDIFF_MAX, sizeof, new_throws, size_t, lp64_int, lp64.
  split_and!.
  - lia.
  - intros bytes s Hnew. unfold within_ptrdiff in Hnew. apply N.ltb_ge in Hnew. lia.
  - intros n Hn. rewrite N.mod_small by lia. lia.
Qed.

Lemma holds_single_vector : holds single_vector 0 [10] 1.
Proof. holds_concrete. Qed.

Lemma holds_full_vector : holds full_vector 0 [10; 20] 2.
Proof. holds_concrete. Qed.

Lemma holds_one_vector : holds one_vector 0 [10; 20; 30] 4.
Proof. holds_concrete. Qed.

Lemma holds_two_vectors_0 : holds two_vectors 0 [10; 20; 30] 3.
Proof. holds_concrete. Qed.

Lemma holds_two_vectors_1 : holds two_vectors 1 [7] 1.
Proof. holds_concrete. Qed.

Lemma separate_two_vectors : separate two_vectors 0 1.
Proof.
  intros v w a Hv Hw. vm_compute in Hv, Hw.
  injection Hv as <-. injection Hw as <-. simpl. congruence.
Qed.

Lemma int_like_nothrow_move_assign : ¬ move_assign_can_throw.
Proof. intros (d & x & tr & Hthrow). discriminate Hthrow. Qed.

(** C3 on a full vector: of a type whose first construction throws (the
    new element), and of a type whose second construction throws (the
    copy of the first existing element into the new storage). *)
Lemma Emplace_strong_guarantee_witness :
  (∃ s', Vector.Emplace (Element0 := thrower 0) 0 (Ptr (Some 0) 1) (Args 5) full_vector = Exn s' ∧
         heap s' = heap full_vector ∧ objects s' = objects full_vector ∧
         holds s' 0 [10; 20] 2) ∧
  (∃ s', Vector.Emplace (Element0 := thrower 1) 0 (Ptr (Some 0) 1) (Args 5) full_vector = Exn s' ∧
         heap s' = heap full_vector ∧ objects s' = objects full_vector ∧
         holds s' 0 [10; 20] 2).
Proof.
  split.
  - apply (proj1 (@Emplace_strong_guarantee nat (thrower 0) full_vector 0 [10; 20] 2
                    holds_full_vector) 1 (Ptr (Some 0) 1) (Args 5));
      [simpl; lia|reflexivity|reflexivity].
  - eexists. split; [vm_compute; reflexivity|].
    apply (proj2 (proj2 (proj2 (@Emplace_strong_guarantee nat (thrower 1) full_vector 0
                                  [10; 20] 2 holds_full_vector)))
             1 (Ptr (Some 0) 1) (Args 5));
      [simpl; lia|reflexivity|discriminate|simpl; lia|vm_compute; reflexivity].
Defined.

(** C4 on a full vector of two elements. *)
Lemma Emplace_growth_capacity_witness :
  returns (Vector.Emplace 0 (Ptr (Some 0) 1) (Args 5)) full_vector (λ _ s',
    holds s' 0 [10; 5; 20] 4 ∧ position s' 0 0 ≠ position full_vector 0 0).
Proof.
  apply (proj1 (@Emplace_growth_capacity nat int_like full_vector 0 [10; 20]
                  holds_full_vector) 1 (Ptr (Some 0) 1) (Args 5));
    [simpl; lia|reflexivity].
Defined.

(** C5 on a vector of three elements with capacity four. *)
Lemma growth_transfer_policy_witness :
  returns (Vector.Reserve 0 6) one_vector (λ _ s',
    trace s' = [Done (MoveConstruct 10); Done (MoveConstruct 20); Done (MoveConstruct 30);
                Done (Destroy 10); Done (Destroy 20); Done (Destroy 30)]).
Proof.
  apply (proj1 (@growth_transfer_policy nat int_like one_vector 0 [10; 20; 30] 4
                  holds_one_vector) 6).
  lia.
Defined.

(** C6 on a destination of three elements and a source of one. *)
Lemma copy_assign_capacity_witness :
  returns (Vector.copy_assign 0 1) two_vectors (λ _ s',
    holds s' 1 [7] 1 ∧
    (length [7] ≤ 3 →
       holds s' 0 [7] 3 ∧
       position s' 0 0 = position two_vectors 0 0 ∧
       trace s' = [Done (CopyAssign 10 7); Done (Destroy 20); Done (Destroy 30)]) ∧
    (3 < length [7] →
       ∃ cap2, holds s' 0 [7] cap2 ∧ length [7] ≤ cap2 ∧
               position s' 0 0 ≠ position two_vectors 0 0)).
Proof.
  apply (@copy_assign_capacity nat int_like two_vectors 0 1 [10; 20; 30] 3 [7] 1
           holds_two_vectors_0 holds_two_vectors_1 (or_intror separate_two_vectors)).
Defined.

(** C7, as amended, on a vector of three [int]s with capacity four,
    resized to six. *)
Lemma Resize_cases_witness :
  ∃ s', Vector.Resize (Platform0 := lp64_int) 0 6 one_vector = Val () s' ∧
        holds s' 0 [10; 20; 30; 0; 0; 0] 6 ∧
        Vector.Size 0 s' = Val 6 s'.
Proof.
  destruct (Resize_cases (Platform0 := lp64_int) one_vector 0 [10; 20; 30] 4 6
              holds_one_vector ltac:(intros _; vm_compute; reflexivity)) as [Hwp _].
  destruct (wp_result _ _ _ _ Hwp) as ([] & s' & Hrun & _ & _ & Hgrow & Hsize).
  { intros s' [Hc|(_ & [_ Href] & _)]; [by apply int_like_never_throws|discriminate Href]. }
  exists s'. split_and!; [exact Hrun|exact (Hgrow ltac:(lia))|exact Hsize].
Defined.

(** C7 as first stated fails for a request that the platform cannot
    meet.  On an empty vector of [int]s, [Resize(2^62)] asks
    [operator new] for [2^62 * 4] bytes, which is 0 in a 64-bit
    [std::size_t]: the storage has [capacity_] [2^62] and room for no
    element, and the first value construction is outside of it.  And
    when [operator new] throws, as it does for the [2^63] bytes of
    [Resize(2^61)] or when no memory is left, the size stays what it
    was. *)
Lemma Resize_request_fails :
  holds empty_vector 0 [] 0 ∧
  (∃ a s1, RawMemory.ctor (Platform0 := lp64_int) (N.to_nat (2 ^ 62)) empty_vector
           = Val (mkRawMemory (Some a) (N.to_nat (2 ^ 62))) s1 ∧
           heap s1 !! a = Some []) ∧
  Vector.Resize (Platform0 := lp64_int) 0 (N.to_nat (2 ^ 62)) empty_vector = Abort ∧
  holds one_vector 0 [10; 20; 30] 4 ∧
  Vector.Resize (Platform0 := lp64_int) 0 (N.to_nat (2 ^ 61)) one_vector = Exn one_vector ∧
  Vector.Resize (Platform0 := lp64 4 exhausted) 0 6 one_vector = Exn one_vector.
Proof.
  pose proof lp64_int_wraps as Hwrap.
  split; [exact holds_empty_vector|]. split; [|split; [|split; [|split]]].
  - eexists _, _. split.
    + apply RawMemory_ctor_run; [lia|]. by rewrite Hwrap.
    + cbn [heap]. rewrite lookup_insert_eq. by rewrite Hwrap.
  - apply Resize_wrapped; [reflexivity|lia|by rewrite Hwrap| |reflexivity].
    rewrite Hwrap. apply Pos2Nat.is_pos.
  - exact holds_one_vector.
  - rewrite (Resize_platform (Platform0 := lp64_int) 0 (N.to_nat (2 ^ 61)) one_vector
               (mkVector (mkRawMemory (Some 0) 4) 3) eq_refl).
    + rewrite decide_True; [done|]. cbn [capacity_ data_]. split; [lia|]. split; [lia|].
      unfold new_throws, sizeof, lp64_int, lp64, within_ptrdiff.
      rewrite Nat2N.inj_mul, N2Nat.id. by vm_compute.
    + intros _. apply lp64_representable. unfold SIZE_MAX. lia.
  - vm_compute. reflexivity.
Qed.

(** C8 on a vector of three elements. *)
Lemma Erase_shifts_left_witness :
  ∃ p s', Vector.Erase 0 (Ptr (Some 0) 1) one_vector = Val p s'.
Proof.
  apply (proj2 (@Erase_shifts_left nat int_like one_vector 0 [10; 20; 30] 4 1 (Ptr (Some 0) 1)
                  holds_one_vector ltac:(simpl; lia) eq_refl)).
  exact int_like_nothrow_move_assign.
Defined.

(** C9, as amended, on a vector of one [int] with capacity one. *)
Lemma Reserve_then_pushes_witness :
  ∃ s1, Vector.Reserve (Platform0 := lp64_int) 0 3 single_vector = Val () s1 ∧
        holds s1 0 [10] 3 ∧
        ∀ ys, length [10] + length ys ≤ 3 →
          returns (push_all (Platform0 := lp64_int) 0 ys) s1 (λ _ s2,
            holds s2 0 ([10] ++ ys) 3 ∧ position s2 0 0 = position s1 0 0).
Proof.
  destruct (proj2 (Reserve_then_pushes (Platform0 := lp64_int) single_vector 0 [10] 1 3
                     holds_single_vector) ltac:(lia) ltac:(vm_compute; reflexivity))
    as [Hwp _].
  destruct (wp_result _ _ _ _ Hwp) as ([] & s1 & Hrun & Hh & Hpush).
  { intros s' [Hc|[[_ Href] _]]; [by apply int_like_never_throws|discriminate Href]. }
  exists s1. split_and!; [exact Hrun|exact Hh|exact Hpush].
Defined.

(** C9 as first stated fails: after [Reserve(2)] on a vector that
    already has one element, two pushes are "up to [n]" pushes, and the
    second of them reallocates: the capacity becomes 4 and the storage
    moves. *)
Lemma Reserve_then_n_pushes_reallocates :
  holds single_vector 0 [10] 1 ∧ length [7; 8] ≤ 2 ∧
  ∃ s1 s2,
    Vector.Reserve 0 2 single_vector = Val () s1 ∧
    holds s1 0 [10] 2 ∧
    push_all 0 [7; 8] s1 = Val () s2 ∧
    holds s2 0 [10; 7; 8] 4 ∧
    (∀ zs, ¬ holds s2 0 zs 2) ∧
    position s2 0 0 ≠ position s1 0 0.
Proof.
  split; [exact holds_single_vector|]. split; [simpl; lia|].
  eexists _, _. split; [vm_compute; reflexivity|].
  split; [holds_concrete|].
  split; [vm_compute; reflexivity|].
  split; [holds_concrete|].
  split.
  - intros zs (v & Hv & _ & Hcap & _). vm_compute in Hv. injection Hv as <-.
    simpl in Hcap. lia.
  - vm_compute. congruence.
Qed.

(** C10 on a vector of three elements. *)
Lemma Emplace_Erase_return_position_witness :
  returns (Vector.Emplace 0 (Ptr (Some 0) 1) (Args 5)) one_vector (λ p s',
    position s' 0 1 = Some p ∧ load p s' = Val 5 s').
Proof.
  apply (proj1 (@Emplace_Erase_return_position nat int_like one_vector 0 [10; 20; 30] 4 1
                  (Ptr (Some 0) 1) holds_one_vector eq_refl)).
  simpl. lia.
Defined.

End witnesses.

(** * Further properties of the container *)

(** ** Constructors and destructor *)

Section ctors.
Context {T : Type} `{!Element T}.
Implicit Types (s : state T) (h : gmap addr (list (slot T))) (o : gmap vref Vector).
Implicit Types (tr : list (event T)) (xs ys : list T) (this other : vref).

(** [Vector(std::size_t size)] *)
Lemma wp_ctor n h o tr (Q : vref → state T → Prop) (E : state T → Prop) :
  (∀ r buf, o !! r = None →
     match buf with Some a => h !! a = None ∧ n ≠ 0 | None => n = 0 end →
     Q r (State (from_option (λ a, <[a := map Live (replicate n value_init)]> h) h buf)
                (<[r := mkVector (mkRawMemory buf n) n]> o)
                (tr ++ replicate n (Done ValueConstruct)))) →
  (∀ k, k < n → throws ValueConstruct (tr ++ replicate k (Done ValueConstruct)) = true →
     E (State h o (tr ++ replicate k (Done ValueConstruct) ++ [Threw ValueConstruct]
                      ++ replicate k (Done (Destroy value_init))))) →
  wp (Vector.ctor n) (State h o tr) Q E.
Proof.
  intros HQ HE. unfold Vector.ctor.
  destruct (decide (n = 0)) as [->|Hn].
  - apply wp_bind. unfold RawMemory.ctor, RawMemory.Allocate. apply wp_bind.
    unfold wp at 1. simpl.
    apply wp_bind. apply wp_on_unwind, wp_ret.
    apply wp_new_object. intros r Hr.
    specialize (HQ r None Hr eq_refl). simpl in HQ. by rewrite app_nil_r in HQ.
  - apply wp_bind, wp_RawMemory_ctor; [done|]. intros a Hfresh.
    apply wp_bind, wp_on_unwind. unfold RawMemory.GetAddress. simpl.
    eapply (wp_value_loop_exact a 0 0 n [] []); [done|map_lookup; by rewrite app_nil_r| |].
    + simpl. rewrite insert_insert_eq, app_nil_r.
      apply wp_new_object. intros r Hr.
      by apply (HQ r (Some a)).
    + intros k Hk Hthrow. simpl. rewrite insert_insert_eq.
      apply wp_RawMemory_dtor; [|done]. simpl. intros ? [= <-].
      split; [map_lookup|]. rewrite delete_insert_id by done. by apply HE.
Qed.

(** [Vector(Vector&& other)] *)
Lemma wp_ctor_move h o tr other v (Q : vref → state T → Prop) (E : state T → Prop) :
  o !! other = Some v →
  (∀ r, o !! r = None →
     Q r (State h (<[other := mkVector (mkRawMemory None 0) 0]> (<[r := v]> o)) tr)) →
  wp (Vector.ctor_move other) (State h o tr) Q E.
Proof.
  intros Hv HQ. destruct v as [[b c] sz]. unfold Vector.ctor_move.
  apply wp_bind. eapply wp_deref; [done|]. simpl.
  apply wp_bind. eapply wp_RawMemory_write; [done|]. simpl.
  apply wp_bind, wp_new_object. intros r Hr.
  assert (o !! r = None) as Hr'.
  { rewrite lookup_insert in Hr. by case_decide. }
  assert (other ≠ r) as Hne by congruence.
  apply wp_bind. eapply wp_set_size; [map_lookup|]. simpl.
  apply wp_ret. specialize (HQ r Hr').
  rewrite (insert_insert_ne _ other r), !insert_insert_eq by done.
  by rewrite (insert_insert_ne _ other r) in HQ by done.
Qed.

Lemma holds_fresh_object h o tr r v this xs cap :
  o !! r = None → holds (State h o tr) this xs cap →
  holds (State h (<[r := v]> o) tr) this xs cap.
Proof.
  intros Hr (w & Hw & ?). exists w. simpl in *.
  split; [|done]. rewrite lookup_insert_ne; [done|congruence].
Qed.

Lemma holds_fresh_block h o tr a b this xs cap :
  h !! a = None → holds (State h o tr) this xs cap →
  holds (State (<[a := b]> h) o tr) this xs cap.
Proof.
  intros Ha (w & Hw & Hsz & Hcap & Hlen & Hb). exists w. simpl in *.
  split_and!; [done..|]. split; [done|]. simpl.
  destruct (buffer_ (data_ w)) as [a'|]; [|done].
  rewrite lookup_insert_ne; [done|congruence].
Qed.

(** [Vector(size)] on the idealised platform: a new vector of [size]
    value-initialised elements whose capacity is exactly [size]; when
    the [k]-th value construction throws, the [k] objects built so far
    are destroyed and the storage is released. *)
Lemma ctor_unbounded s n :
  wp (Vector.ctor n) s
     (λ r s',
        objects s !! r = None ∧
        holds s' r (replicate n value_init) n ∧
        trace s' = trace s ++ replicate n (Done ValueConstruct) ∧
        (∀ other, other ≠ r → objects s' !! other = objects s !! other) ∧
        (∀ a b, heap s !! a = Some b → heap s' !! a = Some b) ∧
        (n = 0 → heap s' = heap s))
     (λ s',
        heap s' = heap s ∧ objects s' = objects s ∧
        ∃ k, k < n ∧
             throws ValueConstruct (trace s ++ replicate k (Done ValueConstruct)) = true ∧
             trace s' = trace s ++ replicate k (Done ValueConstruct) ++ [Threw ValueConstruct]
                                ++ replicate k (Done (Destroy value_init))).
Proof.
  destruct s as [h o tr]. apply wp_ctor.
  - intros r buf Hr Hbuf. simpl. split_and!; [done| |done| | |].
    + eapply holds_intro; [by rewrite lookup_insert_eq, length_replicate
                          |by rewrite length_replicate|].
      destruct buf as [a|]; simpl; [|done].
      rewrite lookup_insert_eq, length_replicate, Nat.sub_diag. simpl.
      by rewrite app_nil_r.
    + intros other Hne. by rewrite lookup_insert_ne.
    + intros a b Ha. destruct buf as [a'|]; simpl; [|done].
      destruct Hbuf as [Hfresh _]. rewrite lookup_insert_ne; [done|congruence].
    + intros ->. by destruct buf as [a|]; [destruct Hbuf|].
  - intros k Hk Hthrow. simpl. split_and!; [done..|]. by exists k.
Qed.

(** X2.  The copy constructor returns a new vector with the elements
    of the source, copy-constructed in order, in storage of its own
    whose capacity is the size of the source (not its capacity); the
    source is unchanged.  If a copy throws, heap and vectors are as
    before the call. *)
Theorem ctor_copy_fits s other ys cap :
  holds s other ys cap →
  wp (Vector.ctor_copy other) s
     (λ r s',
        objects s !! r = None ∧
        holds s' r ys (length ys) ∧
        holds s' other ys cap ∧
        separate s' r other ∧
        trace s' = trace s ++ map (λ y, Done (CopyConstruct y)) ys ∧
        (∀ v, v ≠ r → objects s' !! v = objects s !! v) ∧
        (∀ a b, heap s !! a = Some b → heap s' !! a = Some b))
     (λ s', copy_construct_can_throw ∧ heap s' = heap s ∧ objects s' = objects s).
Proof.
  destruct s as [h o tr]. intros Hholds.
  pose proof Hholds as (b & Ho & Hlen & Hb)%holds_inv.
  eapply wp_ctor_copy; [done| |by intros].
  intros r buf Hr Hbuf. simpl.
  assert (r ≠ other) as Hne by congruence.
  split_and!; [done| | | |done| |].
  - eapply holds_intro; [by rewrite lookup_insert_eq|done|].
    destruct buf as [a|]; simpl; [|by rewrite Hbuf].
    by rewrite lookup_insert_eq, Nat.sub_diag, app_nil_r.
  - apply holds_fresh_object; [done|].
    destruct buf as [a|]; simpl; [|done].
    apply holds_fresh_block; [by destruct Hbuf|done].
  - intros v w a. simpl. rewrite lookup_insert_eq, lookup_insert_ne, Ho by done.
    intros [= <-] [= <-]. simpl. intros ->. destruct Hbuf as [Hfresh _].
    intros [= ->]. congruence.
  - intros v Hv. by rewrite lookup_insert_ne.
  - intros a bl Ha. destruct buf as [a'|]; simpl; [|done].
    destruct Hbuf as [Hfresh _]. rewrite lookup_insert_ne; [done|congruence].
Qed.

(** X3.  The move constructor always returns: the new vector takes the
    storage, the capacity, the size and so the elements of the source,
    the source is left empty without storage, and no element is
    constructed, moved or destroyed (heap and trace are unchanged). *)
Theorem ctor_move_transfers s other xs cap :
  holds s other xs cap →
  wp (Vector.ctor_move other) s
     (λ r s',
        objects s !! r = None ∧
        holds s' r xs cap ∧
        holds s' other [] 0 ∧
        position s' r 0 = position s other 0 ∧
        position s' other 0 = Some (Ptr None 0) ∧
        heap s' = heap s ∧ trace s' = trace s ∧
        (∀ v, v ≠ r → v ≠ other → objects s' !! v = objects s !! v))
     (λ _, False).
Proof.
  destruct s as [h o tr]. intros (b & Ho & Hlen & Hb)%holds_inv.
  eapply wp_ctor_move; [done|]. intros r Hr.
  assert (r ≠ other) as Hne by congruence.
  unfold position. simpl.
  rewrite lookup_insert_ne, !lookup_insert_eq, Ho by done. simpl.
  split_and!; [done| | |done..|].
  - eapply holds_intro; [by rewrite lookup_insert_ne, lookup_insert_eq|done|].
    destruct b; [done|by destruct Hb].
  - by eapply (holds_intro _ _ _ _ [] 0 None); [rewrite lookup_insert_eq|..].
  - intros v ? ?. by rewrite !lookup_insert_ne.
Qed.

(** X4.  The destructor of a vector that satisfies the invariant always
    returns: it destroys the elements in order, first to last, releases
    the block of the vector and nothing else, and the vector is gone. *)
Theorem dtor_releases s this xs cap :
  holds s this xs cap →
  wp (Vector.dtor this) s
     (λ _ s',
        objects s' = delete this (objects s) ∧
        trace s' = trace s ++ map (λ x, Done (Destroy x)) xs ∧
        (∀ a, position s this 0 = Some (Ptr (Some a) 0) → heap s' = delete a (heap s)) ∧
        (position s this 0 = Some (Ptr None 0) → heap s' = heap s))
     (λ _, False).
Proof.
  destruct s as [h o tr]. intros Hholds.
  eapply dtor_spec; [done|]. intros buf Ho. unfold position. simpl.
  rewrite Ho. simpl. split_and!; [done..| |].
  - by intros a [= ->].
  - by intros [= ->].
Qed.

(** Constructing a vector and destroying it, on the idealised
    platform. *)
Lemma round_trip_unbounded s :
  (∀ n,
     wp (r ← Vector.ctor n; Vector.dtor r) s
        (λ _ s',
           heap s' = heap s ∧ objects s' = objects s ∧
           trace s' = trace s ++ replicate n (Done ValueConstruct)
                              ++ replicate n (Done (Destroy value_init)))
        (λ s', value_construct_can_throw ∧ heap s' = heap s ∧ objects s' = objects s)) ∧
  (∀ other ys cap,
     holds s other ys cap →
     wp (r ← Vector.ctor_copy other; Vector.dtor r) s
        (λ _ s',
           heap s' = heap s ∧ objects s' = objects s ∧
           trace s' = trace s ++ map (λ y, Done (CopyConstruct y)) ys
                              ++ map (λ y, Done (Destroy y)) ys)
        (λ s', copy_construct_can_throw ∧ heap s' = heap s ∧ objects s' = objects s)).
Proof.
  destruct s as [h o tr]. split.
  - intros n. apply wp_bind, wp_ctor; [|intros k _ Hthrow; split; [by eexists|done]].
    intros r buf Hr Hbuf.
    eapply (dtor_spec _ _ _ r (replicate n value_init) n).
    { eapply holds_intro; [by rewrite lookup_insert_eq, length_replicate
                          |by rewrite length_replicate|].
      destruct buf as [a|]; simpl; [|done].
      rewrite lookup_insert_eq, length_replicate, Nat.sub_diag. simpl.
      by rewrite app_nil_r. }
    intros buf'. rewrite lookup_insert_eq. intros [= <-]. simpl.
    rewrite delete_insert_id by done. split_and!; [|done|].
    + destruct buf as [a|]; simpl; [|done].
      destruct Hbuf. by rewrite delete_insert_id.
    + rewrite <- app_assoc. do 2 f_equal.
      clear. induction n; simpl; congruence.
  - intros other ys cap Hholds. apply wp_bind.
    eapply wp_ctor_copy; [done| |by intros].
    intros r buf Hr Hbuf.
    eapply (dtor_spec _ _ _ r ys (length ys)).
    { eapply holds_intro; [by rewrite lookup_insert_eq|done|].
      destruct buf as [a|]; simpl; [|by rewrite Hbuf].
      by rewrite lookup_insert_eq, Nat.sub_diag, app_nil_r. }
    intros buf'. rewrite lookup_insert_eq. intros [= <-]. simpl.
    rewrite delete_insert_id by done. split_and!; [|done|by rewrite <- app_assoc].
    destruct buf as [a|]; simpl; [|done].
    destruct Hbuf. by rewrite delete_insert_id.
Qed.
End ctors.

(** ** Swap and element access *)

Section access.
Context {T : Type} `{!Element T}.
Implicit Types (s : state T) (h : gmap addr (list (slot T))) (o : gmap vref Vector).
Implicit Types (tr : list (event T)) (xs ys : list T) (this other : vref).

(** [Swap] of a vector with itself. *)
Lemma wp_Swap_self h o tr this v (Q : () → state T → Prop) E :
  o !! this = Some v → Q () (State h o tr) → wp (Vector.Swap this this) (State h o tr) Q E.
Proof.
  intros Hv HQ. unfold Vector.Swap. destruct v as [[vb vc] vs].
  apply wp_bind. eapply wp_RawMemory_read; [done|]. simpl.
  apply wp_bind. eapply wp_RawMemory_read; [done|]. simpl.
  apply wp_bind. eapply wp_RawMemory_write; [done|]. simpl.
  apply wp_bind. eapply wp_RawMemory_write; [map_lookup|]. simpl.
  apply wp_bind. eapply wp_deref; [map_lookup|]. simpl.
  apply wp_bind. eapply wp_deref; [map_lookup|]. simpl.
  apply wp_bind. eapply wp_set_size; [map_lookup|]. simpl.
  eapply wp_set_size; [map_lookup|]. simpl.
  rewrite !insert_insert_eq. by rewrite insert_id.
Qed.

Lemma wp_Swap h o tr this other v w (Q : () → state T → Prop) E :
  o !! this = Some v → o !! other = Some w →
  Q () (State h (<[other := v]> (<[this := w]> o)) tr) →
  wp (Vector.Swap this other) (State h o tr) Q E.
Proof.
  intros Hv Hw HQ. destruct (decide (this = other)) as [->|Hne].
  - eapply wp_Swap_self; [done|].
    rewrite Hv in Hw. injection Hw as <-.
    by rewrite insert_insert_eq, insert_id in HQ.
  - by eapply Swap_spec.
Qed.

Lemma holds_objects s s' this other xs cap :
  holds s other xs cap → heap s' = heap s → objects s' !! this = objects s !! other →
  holds s' this xs cap.
Proof.
  intros (v & Hv & ? & ? & ? & ?) Hh Ho. exists v.
  unfold owns. by rewrite Hh, Ho.
Qed.

(** X6.  [Swap] always returns and exchanges the elements, sizes,
    capacities and storage of the two vectors without touching an
    element: heap and trace are unchanged, as are the other vectors.
    Swapping again restores the state; swapping a vector with itself
    changes nothing. *)
Theorem Swap_exchanges s this other xs cap ys cap' :
  holds s this xs cap → holds s other ys cap' →
  wp (Vector.Swap this other) s
     (λ _ s',
        holds s' this ys cap' ∧ holds s' other xs cap ∧
        heap s' = heap s ∧ trace s' = trace s ∧
        position s' this 0 = position s other 0 ∧
        position s' other 0 = position s this 0 ∧
        (∀ w, w ≠ this → w ≠ other → objects s' !! w = objects s !! w) ∧
        Vector.Swap this other s' = Val () s)
     (λ _, False).
Proof.
  destruct s as [h o tr]. intros Hthis Hother.
  pose proof Hthis as (v & Hv & _). pose proof Hother as (w & Hw & _).
  simpl in Hv, Hw.
  eapply wp_Swap; [done..|].
  assert (<[other:=v]> (<[this:=w]> o) !! this = Some w) as Hthis'.
  { rewrite lookup_insert. case_decide; [congruence|by rewrite lookup_insert_eq]. }
  assert (<[other:=v]> (<[this:=w]> o) !! other = Some v) as Hother'
    by by rewrite lookup_insert_eq.
  unfold position. simpl. rewrite Hthis', Hother', Hv, Hw. simpl.
  split_and!; [| |done..| |].
  - eapply holds_objects; [exact Hother|done|]. simpl. congruence.
  - eapply holds_objects; [exact Hthis|done|]. simpl. congruence.
  - intros u ? ?. by rewrite !lookup_insert_ne.
  - apply wp_val_eq. eapply wp_Swap; [done..|]. split; [done|]. f_equal.
    apply map_eq. intros k. rewrite !lookup_insert.
    repeat case_decide; congruence.
Qed.

(** X7.  [operator[]] with an index below the size returns a reference
    to the element of that index, [begin() + i], and leaves the state
    as it is; with an index at or above the size the [assert] fails,
    also when the index is below the capacity. *)
Theorem index_checked s this xs cap :
  holds s this xs cap →
  (∀ i x, xs !! i = Some x →
     ∃ p, Vector.index this i s = Val p s ∧
          position s this i = Some p ∧ load p s = Val x s) ∧
  (∀ i, length xs ≤ i → Vector.index this i s = Abort).
Proof.
  intros Hholds. destruct s as [h o tr].
  pose proof Hholds as (buf & Ho & Hlen & Hb)%holds_inv. split.
  - intros i x Hi. pose proof (lookup_lt_Some _ _ _ Hi) as Hlt.
    exists (Ptr buf i).
    assert (position (State h o tr) this i = Some (Ptr buf i)) as Hpos
      by (unfold position; simpl; by rewrite Ho).
    split_and!; [|done|by eapply load_element].
    unfold Vector.index, mbind, M_bind, Vector.deref, RawMemory.index. simpl.
    rewrite Ho. simpl. rewrite !decide_True by lia. done.
  - intros i Hi.
    unfold Vector.index, mbind, M_bind, Vector.deref. simpl.
    rewrite Ho. simpl. by rewrite decide_False by lia.
Qed.

(** X8.  The observers of a vector that satisfies the invariant leave
    the state unchanged: [Size] is the number of elements, [Capacity]
    the capacity, [end()] is [begin() + Size()], [cbegin]/[cend] agree
    with [begin]/[end], the range is empty exactly when the vector is,
    and reading [begin() + j] gives the element of index [j]. *)
Theorem begin_end_range s this xs cap :
  holds s this xs cap →
  ∃ b e,
    Vector.begin this s = Val b s ∧ Vector.end_ this s = Val e s ∧
    Vector.cbegin this s = Val b s ∧ Vector.cend this s = Val e s ∧
    Vector.Size this s = Val (length xs) s ∧
    Vector.Capacity this s = Val cap s ∧
    e = ptr_add b (length xs) ∧
    ranges_distance b e s = Val (length xs) s ∧
    (b = e ↔ xs = []) ∧
    (∀ j x, xs !! j = Some x → load (ptr_add b j) s = Val x s).
Proof.
  intros Hholds. destruct s as [h o tr].
  pose proof Hholds as (buf & Ho & Hlen & Hb)%holds_inv.
  exists (Ptr buf 0), (Ptr buf (length xs)).
  unfold Vector.cbegin, Vector.cend, Vector.begin, Vector.end_, Vector.Size,
    Vector.Capacity, mbind, M_bind, Vector.deref, RawMemory.plus. simpl.
  rewrite Ho. simpl. rewrite decide_True by done.
  split_and!; try done.
  - unfold ranges_distance. simpl. rewrite !decide_True by (done || lia).
    by rewrite Nat.sub_0_r.
  - split; [intros [= Heq]; by destruct xs|by intros ->].
  - intros j x Hj. eapply load_element; [done..|].
    unfold position. simpl. by rewrite Ho.
Qed.
End access.

(** ** Operations at the end, insertion *)

Section back.
Context {T : Type} `{!Element T}.
Implicit Types (s : state T) (h : gmap addr (list (slot T))) (o : gmap vref Vector).
Implicit Types (tr : list (event T)) (xs ys : list T) (this other : vref).

(** [PopBack] on a vector that is not empty. *)
Lemma wp_PopBack h o tr this xs x cap (Q : () → state T → Prop) E :
  holds (State h o tr) this (xs ++ [x]) cap →
  (∀ a, o !! this = Some (mkVector (mkRawMemory (Some a) cap) (S (length xs))) →
        h !! a = Some (map Live (xs ++ [x]) ++ replicate (cap - S (length xs)) Uninit) →
        Q () (State (<[a := map Live xs ++ replicate (cap - length xs) Uninit]> h)
                    (<[this := mkVector (mkRawMemory (Some a) cap) (length xs)]> o)
                    (tr ++ [Done (Destroy x)]))) →
  wp (Vector.PopBack this) (State h o tr) Q E.
Proof.
  intros (buf & Ho & Hlen & Hb)%holds_inv HQ.
  destruct buf as [a|]; [|destruct Hb as [_ Hnil]; by destruct xs].
  rewrite length_app in *. simpl in *. rewrite Nat.add_1_r in *.
  specialize (HQ a Ho Hb).
  unfold Vector.PopBack. apply wp_noexcept.
  apply wp_bind. eapply wp_deref; [done|]. simpl.
  rewrite Nat.sub_0_r.
  apply wp_bind. eapply wp_set_size; [done|]. simpl.
  apply wp_bind. eapply wp_deref; [map_lookup|]. simpl.
  apply wp_bind, wp_RawMemory_plus; [simpl; lia|]. simpl.
  rewrite map_app, <- app_assoc in Hb. simpl in Hb.
  eapply wp_destroy_at; [done|len|]. simpl.
  replace (cap - length xs) with (S (cap - S (length xs))) in HQ by lia.
  exact HQ.
Qed.

(** X9.  [PopBack] on a vector that is not empty always returns: it
    destroys the last element and nothing else, and keeps the other
    elements, the capacity and the storage.  On an empty vector it does
    not return: [--size_] wraps and the [assert] of [operator+]
    fails. *)
Theorem PopBack_removes_last s this xs cap :
  holds s this xs cap →
  (∀ ys x, xs = ys ++ [x] →
     wp (Vector.PopBack this) s
        (λ _ s',
           holds s' this ys cap ∧
           trace s' = trace s ++ [Done (Destroy x)] ∧
           position s' this 0 = position s this 0 ∧
           (∀ w, w ≠ this → objects s' !! w = objects s !! w))
        (λ _, False)) ∧
  (xs = [] → Vector.PopBack this s = Abort).
Proof.
  destruct s as [h o tr]. intros Hholds. split.
  - intros ys x ->. eapply wp_PopBack; [done|]. intros a Ho Ha.
    unfold position. simpl. rewrite lookup_insert_eq, Ho. simpl.
    split_and!; [|done..|].
    + eapply holds_intro; [by rewrite lookup_insert_eq| |map_lookup].
      apply holds_inv in Hholds as (? & _ & Hlen & _).
      rewrite length_app in Hlen. simpl in Hlen. lia.
    + intros w Hw. by rewrite lookup_insert_ne.
  - intros ->. apply holds_inv in Hholds as (buf & Ho & _).
    unfold Vector.PopBack, noexcept, mbind, M_bind, Vector.deref. simpl.
    by rewrite Ho.
Qed.

(** [Emplace] at [end()] of a vector with spare capacity. *)
Lemma wp_Emplace_end h o tr this a xs cap (x : args T)
    (Q : ptr → state T → Prop) (E : state T → Prop) :
  o !! this = Some (mkVector (mkRawMemory (Some a) cap) (length xs)) →
  h !! a = Some (map Live xs ++ replicate (cap - length xs) Uninit) →
  length xs < cap →
  (throws (args_op x) tr = false →
     Q (Ptr (Some a) (length xs))
       (State (<[a := map Live (xs ++ [args_value x]) ++ replicate (cap - S (length xs)) Uninit]> h)
              (<[this := mkVector (mkRawMemory (Some a) cap) (S (length xs))]> o)
              (tr ++ [Done (args_op x)]))) →
  (throws (args_op x) tr = true → E (State h o (tr ++ [Threw (args_op x)]))) →
  wp (Vector.Emplace this (Ptr (Some a) (length xs)) x) (State h o tr) Q E.
Proof.
  intros Ho Ha Hcap HQ HE. unfold Vector.Emplace.
  apply wp_bind. eapply wp_begin; [done|]. simpl.
  apply wp_bind, wp_ranges_distance; [lia|]. rewrite Nat.sub_0_r.
  apply wp_bind. eapply wp_deref; [done|]. simpl.
  unfold RawMemory.Capacity. simpl. rewrite decide_False by lia.
  apply wp_bind. unfold Vector.Embed.
  apply wp_bind. eapply wp_end; [done|simpl; lia|]. simpl.
  rewrite decide_True by done.
  replace (cap - length xs) with (S (cap - S (length xs))) in Ha by lia.
  simpl in Ha.
  eapply wp_construct_at; [by rewrite length_map|done| |done].
  intros Hthrow.
  apply wp_bind. eapply wp_deref; [done|]. simpl.
  apply wp_bind. eapply wp_set_size; [done|]. simpl.
  apply wp_bind. eapply wp_deref; [map_lookup|]. simpl.
  apply wp_RawMemory_plus; [simpl; lia|]. simpl.
  rewrite map_app, <- app_assoc in HQ. by apply HQ.
Qed.

Lemma EmplaceBack_spec h o tr this xs cap (x : args T) :
  holds (State h o tr) this xs cap →
  returns (Vector.EmplaceBack this x) (State h o tr) (λ p s',
    holds s' this (xs ++ [args_value x]) (if decide (length xs = cap) then grown cap else cap) ∧
    position s' this (length xs) = Some p ∧
    trace s' = tr ++ [Done (args_op x)]
                  ++ (if decide (length xs = cap)
                      then map (λ y, Done (transfer_op y)) xs
                           ++ map (λ y, Done (Destroy (left_behind y))) xs
                      else []) ∧
    (length xs < cap → position s' this 0 = position (State h o tr) this 0)).
Proof.
  intros Hholds. pose proof Hholds as (buf & Ho & Hlen & Hb)%holds_inv.
  unfold returns, Vector.EmplaceBack, Vector.cend.
  apply wp_bind. eapply wp_end; [done|simpl; lia|]. simpl.
  destruct (decide (length xs = cap)) as [Hfull|Hspare].
  - eapply wp_mono; [eapply (Emplace_spec _ _ _ _ _ _ (length xs)); [done|done|]
                    | |by intros ? []].
    { unfold position. simpl. by rewrite Ho. }
    intros p s' (_ & Hh & Hp & _ & Hsame & _ & Htr). simpl.
    rewrite take_ge, drop_ge in Hh, Htr by lia. rewrite decide_True in Hh by done.
    split_and!; [done|done|by rewrite (Htr Hfull)|lia].
  - destruct buf as [a|]; [|destruct Hb; lia].
    eapply wp_Emplace_end; [done|done|lia| |].
    + intros Hthrow. simpl. unfold position. simpl.
      rewrite lookup_insert_eq, Ho. simpl. split_and!; [|done|done|done].
      eapply holds_intro; [rewrite lookup_insert_eq; do 2 f_equal; len|len|].
      map_lookup. rewrite length_app. simpl. by rewrite Nat.add_1_r.
    + intros Hthrow. by eexists _, _.
Qed.

(** X10.  [EmplaceBack] appends the new element and returns a reference
    to it, the last element.  [PushBack(const T&)] constructs the new
    element with the copy constructor and [PushBack(T&&)] with the move
    constructor; with spare capacity that is the only element
    operation, and on a full vector it is followed by the transfer of
    the existing elements and the destruction of the old objects. *)
Theorem PushBack_appends s this xs cap :
  holds s this xs cap →
  (∀ a,
     returns (Vector.EmplaceBack this a) s (λ p s',
       holds s' this (xs ++ [args_value a]) (if decide (length xs = cap) then grown cap else cap) ∧
       position s' this (length xs) = Some p ∧
       load p s' = Val (args_value a) s')) ∧
  (∀ y,
     returns (Vector.PushBack this y) s (λ _ s',
       holds s' this (xs ++ [y]) (if decide (length xs = cap) then grown cap else cap) ∧
       trace s' = trace s ++ [Done (CopyConstruct y)]
                          ++ (if decide (length xs = cap)
                              then map (λ y, Done (transfer_op y)) xs
                                   ++ map (λ y, Done (Destroy (left_behind y))) xs
                              else []))) ∧
  (∀ y,
     returns (Vector.PushBack_move this y) s (λ _ s',
       holds s' this (xs ++ [y]) (if decide (length xs = cap) then grown cap else cap) ∧
       trace s' = trace s ++ [Done (MoveConstruct y)]
                          ++ (if decide (length xs = cap)
                              then map (λ y, Done (transfer_op y)) xs
                                   ++ map (λ y, Done (Destroy (left_behind y))) xs
                              else []))).
Proof.
  destruct s as [h o tr]. intros Hholds. split_and!.
  - intros a. eapply wp_mono; [by apply EmplaceBack_spec| |done].
    intros p s' (Hh & Hp & _). split_and!; [done..|].
    eapply load_element; [done| |done]. by apply lookup_seg.
  - intros y. unfold Vector.PushBack. apply wp_bind.
    eapply wp_mono; [by apply EmplaceBack_spec| |done].
    intros p s' (Hh & _ & Htr & _). by apply wp_ret.
  - intros y. unfold Vector.PushBack_move. apply wp_bind.
    eapply wp_mono; [by apply EmplaceBack_spec| |done].
    intros p s' (Hh & _ & Htr & _). by apply wp_ret.
Qed.

(** The elements after an insertion at index [i]. *)
Lemma inserted_lookup xs i (y : T) :
  i ≤ length xs →
  length (take i xs ++ y :: drop i xs) = S (length xs) ∧
  (∀ j, j < i → (take i xs ++ y :: drop i xs) !! j = xs !! j) ∧
  (take i xs ++ y :: drop i xs) !! i = Some y ∧
  (∀ j, i ≤ j → (take i xs ++ y :: drop i xs) !! S j = xs !! j).
Proof.
  intros Hi. split_and!.
  - rewrite length_app. simpl. rewrite length_take, length_drop. lia.
  - intros j Hj. rewrite lookup_app_l by len. by apply lookup_take_lt.
  - apply lookup_seg. len.
  - intros j Hj. rewrite lookup_app_r by len. rewrite length_take.
    replace (S j - i `min` length xs) with (S (j - i)) by lia. simpl.
    rewrite lookup_drop. f_equal. lia.
Qed.

(** X11.  [Insert(pos, const T&)] at [begin() + i]: the size grows by
    one, the elements before index [i] stay, the new element has index
    [i] and every element at or after [i] moves one index to the
    right.  A call returns normally only if the copy construction of
    the new element did not throw. *)
Theorem Insert_shifts_right s this xs cap i pos y :
  holds s this xs cap → i ≤ length xs → position s this i = Some pos →
  let zs := take i xs ++ y :: drop i xs in
  (length zs = S (length xs) ∧
   (∀ j, j < i → zs !! j = xs !! j) ∧
   zs !! i = Some y ∧
   (∀ j, i ≤ j → zs !! S j = xs !! j)) ∧
  returns (Vector.Insert this pos y) s (λ _ s',
    holds s' this zs (if decide (length xs = cap) then grown cap else cap) ∧
    throws (CopyConstruct y) (trace s) = false).
Proof.
  destruct s as [h o tr]. intros Hholds Hi Hpos zs.
  split; [by apply inserted_lookup|].
  eapply wp_mono; [eapply (Emplace_spec _ _ _ _ _ _ i pos (ByCopy y)); done| |by intros ? []].
  intros p s' (? & ? & _). done.
Qed.

(** X12.  [PushBack] followed by [PopBack], and [Insert] followed by
    [Erase] at the returned position, give back the elements the vector
    had (the capacity may have grown); the position [Erase] returns is
    again [begin() + i]. *)
Theorem insert_remove_round_trip s this xs cap :
  holds s this xs cap →
  (∀ y,
     returns (Vector.PushBack this y ;; Vector.PopBack this) s (λ _ s',
       holds s' this xs (if decide (length xs = cap) then grown cap else cap))) ∧
  (∀ i pos y,
     i ≤ length xs → position s this i = Some pos →
     ¬ move_assign_can_throw →
     returns (p ← Vector.Insert this pos y; Vector.Erase this p) s (λ p' s',
       holds s' this xs (if decide (length xs = cap) then grown cap else cap) ∧
       position s' this i = Some p')).
Proof.
  destruct s as [h o tr]. intros Hholds. split.
  - intros y. apply wp_bind.
    eapply wp_mono; [by apply PushBack_spec| |by intros ? []].
    intros _ [h' o' tr'] (_ & Hh & _).
    eapply wp_PopBack; [done|]. intros a Ho Ha.
    eapply holds_intro; [by rewrite lookup_insert_eq| |map_lookup].
    apply holds_inv in Hh as (? & _ & Hlen & _).
    rewrite length_app in Hlen. simpl in Hlen. lia.
  - intros i pos y Hi Hpos Hnothrow. apply wp_bind.
    eapply wp_mono; [eapply (Emplace_spec _ _ _ _ _ _ i pos (ByCopy y)); done| |by intros ? []].
    intros p [h' o' tr'] (_ & Hh & Hp & _). simpl in Hh.
    destruct (Erase_spec h' o' tr' this _ _ i p Hh ltac:(len) Hp) as [Hval Htotal].
    destruct (Htotal Hnothrow) as (p' & s' & Hrun).
    unfold wp. rewrite Hrun.
    destruct (Hval p' s' Hrun) as (Hh' & Hp' & _). split; [|done].
    rewrite take_app_le, take_take in Hh' by len.
    rewrite Nat.min_id in Hh'.
    replace (drop (S i) (take i xs ++ y :: drop i xs)) with (drop i xs) in Hh'.
    2:{ rewrite drop_app_ge by len. rewrite length_take.
        replace (S i - i `min` length xs) with 1 by lia. done. }
    by rewrite take_drop in Hh'.
Qed.
End back.

(** ** Move assignment of raw storage *)

Section raw.
Context {T : Type} `{!Element T}.
Implicit Types (s : state T) (h : gmap addr (list (slot T))) (o : gmap vref Vector).

(** X13.  Move assignment of [RawMemory]: the destination takes the
    buffer and the capacity of the source, the source is left with a
    null buffer and capacity zero, and the former block of the
    destination is deallocated, whatever it contains; nothing is
    recorded in the trace.  Self-assignment changes nothing. *)
Theorem RawMemory_move_assign_takes s this other v w :
  objects s !! this = Some v → objects s !! other = Some w →
  (∀ a, buffer_ (data_ v) = Some a → is_Some (heap s !! a)) →
  (this ≠ other →
   RawMemory.move_assign this other s
   = Val () (State (from_option (λ a, delete a (heap s)) (heap s) (buffer_ (data_ v)))
                   (<[this := mkVector (data_ w) (size_ v)]>
                      (<[other := mkVector (mkRawMemory None 0) (size_ w)]> (objects s)))
                   (trace s))) ∧
  (this = other → RawMemory.move_assign this other s = Val () s).
Proof.
  destruct s as [h o tr]. simpl. intros Hv Hw Hblock. split.
  - intros Hne. apply wp_val_eq.
    destruct v as [[vb vc] vs], w as [[wb wc] ws]. simpl in *.
    unfold RawMemory.move_assign. rewrite decide_True by done.
    apply wp_bind. eapply wp_RawMemory_read; [done|]. simpl.
    apply wp_bind. eapply wp_RawMemory_write; [done|]. simpl.
    apply wp_bind. eapply wp_RawMemory_read; [map_lookup|]. simpl.
    apply wp_bind. eapply wp_RawMemory_write; [map_lookup|]. simpl.
    apply wp_RawMemory_dtor; simpl.
    + intros a ->. split; [by apply Hblock|]. done.
    + by intros ->.
  - intros ->. unfold RawMemory.move_assign.
    by rewrite decide_False by (intros Hne; by apply Hne).
Qed.
End raw.

(** ** Exceptions *)

Section exceptions.
Context {T : Type} `{!Element T}.
Implicit Types (s : state T) (h : gmap addr (list (slot T))) (o : gmap vref Vector).
Implicit Types (tr : list (event T)) (xs ys : list T) (this other : vref).

Lemma nothrow_move_policy :
  is_nothrow_move_constructible = true →
  Vector.transfer_by_move = true ∧ ¬ move_construct_can_throw.
Proof.
  intros Hn. split.
  - unfold Vector.transfer_by_move. by rewrite Hn.
  - intros (x & tr & Hthrow). by rewrite nothrow_move in Hthrow.
Qed.

End exceptions.

(** ** The invariant of a whole state *)

Section whole_state.
Context {T : Type} `{!Element T}.
Implicit Types (s : state T) (h : gmap addr (list (slot T))) (o : gmap vref Vector).
Implicit Types (tr : list (event T)) (xs ys : list T) (this other : vref).

(** The block of a vector that satisfies the invariant is allocated. *)
Lemma invariant_block s v w a :
  invariant s v → objects s !! v = Some w → buffer_ (data_ w) = Some a →
  is_Some (heap s !! a).
Proof.
  intros (xs & cap & w' & Hw' & _ & _ & _ & Hb) Hw Ha.
  rewrite Hw in Hw'. injection Hw' as <-. rewrite Ha in Hb. eauto.
Qed.

(** A vector whose object and block are the same in two states
    satisfies the invariant in both. *)
Lemma invariant_kept_by s s' v w :
  invariant s v → objects s !! v = Some w → objects s' !! v = Some w →
  (∀ a b, buffer_ (data_ w) = Some a → heap s !! a = Some b → heap s' !! a = Some b) →
  invariant s' v.
Proof.
  intros (xs & cap & w' & Hw' & Hsz & Hcap & Hlen & Hb) Hw Hw2 Hkept.
  rewrite Hw in Hw'. injection Hw' as <-.
  exists xs, cap, w. split_and!; [done..|]. split; [done|].
  destruct (buffer_ (data_ w)) as [a|] eqn:Ha; [|done].
  by eapply Hkept.
Qed.

(** A call confined to one vector, which satisfies the invariant
    afterwards, keeps the state valid. *)
Lemma all_valid_confined s s' this :
  all_valid s → is_Some (objects s !! this) → invariant s' this →
  confined s s' this → all_valid s'.
Proof.
  intros [Hinv Hsep] [t Ht] Hthis (Hobj & Hkept & Hblock).
  assert (∀ v w a, v ≠ this → objects s !! v = Some w → buffer_ (data_ w) = Some a →
            position s this 0 ≠ Some (Ptr (Some a) 0)) as Hother.
  { intros v w a Hv Hw Ha. unfold position. rewrite Ht. simpl. intros [= Hta].
    by eapply (Hsep v this Hv w t a). }
  split.
  - intros v [w Hw]. destruct (decide (v = this)) as [->|Hv]; [done|].
    rewrite Hobj in Hw by done.
    eapply invariant_kept_by; [apply Hinv; by eauto|done|by rewrite Hobj|].
    intros a b Ha Hab. apply Hkept; [done|]. by eapply Hother.
  - assert (∀ w ww tt a, w ≠ this → objects s !! w = Some ww → objects s' !! this = Some tt →
              buffer_ (data_ tt) = Some a → buffer_ (data_ ww) ≠ Some a) as Hone.
    { intros w ww tt a Hw Hww Htt Ha Hwa.
      destruct (Hblock a) as [Hold|Hfresh].
      - unfold position. rewrite Htt. simpl. by rewrite Ha.
      - by eapply (Hother w ww a).
      - destruct (invariant_block s w ww a) as [b Hb]; [apply Hinv; by eauto|done..|].
        by rewrite Hfresh in Hb. }
    intros v w Hvw vv ww a Hv Hw Ha.
    destruct (decide (v = this)) as [->|Hvt], (decide (w = this)) as [->|Hwt]; [done|..].
    + rewrite Hobj in Hw by done. by eapply Hone.
    + rewrite Hobj in Hv by done. intros Hwa. by eapply (Hone v vv ww a).
    + rewrite Hobj in Hv, Hw by done. by eapply (Hsep v w).
Qed.

(** A new vector, in a block that was not allocated or without a
    block, keeps the state valid. *)
Lemma all_valid_new s s' r :
  all_valid s → objects s !! r = None → invariant s' r →
  (∀ v, v ≠ r → objects s' !! v = objects s !! v) →
  (∀ a b, heap s !! a = Some b → heap s' !! a = Some b) →
  (∀ a, position s' r 0 = Some (Ptr (Some a) 0) → heap s !! a = None) →
  all_valid s'.
Proof.
  intros [Hinv Hsep] Hr Hnew Hobj Hkept Hfresh.
  assert (∀ w ww rr a, w ≠ r → objects s !! w = Some ww → objects s' !! r = Some rr →
            buffer_ (data_ rr) = Some a → buffer_ (data_ ww) ≠ Some a) as Hone.
  { intros w ww rr a Hw Hww Hrr Ha Hwa.
    destruct (invariant_block s w ww a) as [b Hb]; [apply Hinv; by eauto|done..|].
    rewrite Hfresh in Hb; [done|]. unfold position. rewrite Hrr. simpl. by rewrite Ha. }
  split.
  - intros v [w Hw]. destruct (decide (v = r)) as [->|Hv]; [done|].
    rewrite Hobj in Hw by done.
    eapply invariant_kept_by; [apply Hinv; by eauto|done|by rewrite Hobj|].
    intros a b _. apply Hkept.
  - intros v w Hvw vv ww a Hv Hw Ha.
    destruct (decide (v = r)) as [->|Hvr], (decide (w = r)) as [->|Hwr]; [done|..].
    + rewrite Hobj in Hw by done. by eapply Hone.
    + rewrite Hobj in Hv by done. intros Hwa. by eapply (Hone v vv ww a).
    + rewrite Hobj in Hv, Hw by done. by eapply (Hsep v w).
Qed.

(** Exchanging which reference names which vector keeps the state
    valid. *)
Lemma all_valid_permute h o o' tr tr' (π : vref → vref) :
  all_valid (State h o tr) →
  (∀ x, o' !! x = o !! π x) → (∀ x y, π x = π y → x = y) →
  all_valid (State h o' tr').
Proof.
  intros [Hinv Hsep] Hπ Hinj. split.
  - intros v [w Hw]. simpl in *. rewrite Hπ in Hw.
    destruct (Hinv (π v)) as (xs & cap & Hh); [by eauto|].
    exists xs, cap. eapply holds_objects; [done|done|]. simpl. by rewrite Hπ.
  - intros v w Hvw vv ww a. simpl. rewrite !Hπ. intros Hv Hw.
    eapply (Hsep (π v) (π w)); [|done..]. intros Heq. by apply Hvw, Hinj.
Qed.
End whole_state.

(** ** Each operation keeps the state valid *)

Section steps.
Context {T : Type} `{!Element T}.
Implicit Types (s : state T) (h : gmap addr (list (slot T))) (o : gmap vref Vector).
Implicit Types (tr : list (event T)) (xs ys : list T) (this other : vref).

Lemma bind_val_inv {A B} (m : M T A) (f : A → M T B) s b s' :
  (m ≫= f) s = Val b s' → ∃ a s1, m s = Val a s1 ∧ f a s1 = Val b s'.
Proof.
  unfold mbind, M_bind. destruct (m s) as [a s1| |]; [by eauto|done..].
Qed.

Lemma all_valid_holds s this :
  all_valid s → is_Some (objects s !! this) → ∃ xs cap, holds s this xs cap.
Proof. intros [Hinv _] Hthis. by apply Hinv. Qed.

Lemma all_valid_separate s this other :
  all_valid s → this = other ∨ separate s this other.
Proof.
  intros [_ Hsep]. destruct (decide (this = other)); [by left|right; by apply Hsep].
Qed.

Lemma ctor_default_valid s r s' :
  all_valid s → Vector.ctor_default s = Val r s' → all_valid s'.
Proof.
  destruct s as [h o tr]. intros Hvalid Hrun.
  eapply (wp_val _ _ (λ _ s', all_valid s') (λ _, True)); [|exact Hrun].
  apply wp_new_object. intros r' Hr.
  eapply (all_valid_new _ _ r'); [done|done| | |done|].
  - exists [], 0. by eapply holds_intro; [rewrite lookup_insert_eq|..].
  - intros v Hv. simpl. by rewrite lookup_insert_ne.
  - unfold position. simpl. by rewrite lookup_insert_eq.
Qed.

Lemma ctor_valid s n r s' :
  all_valid s → Vector.ctor n s = Val r s' → all_valid s'.
Proof.
  destruct s as [h o tr]. intros Hvalid Hrun.
  eapply (wp_val _ _ (λ _ s', all_valid s') (λ _, True)); [|exact Hrun].
  apply wp_ctor; [|done]. intros r' buf Hr Hbuf.
  eapply (all_valid_new _ _ r'); [done|done| | | |]; simpl.
  - exists (replicate n value_init), n.
    eapply holds_intro; [by rewrite lookup_insert_eq, length_replicate
                        |by rewrite length_replicate|].
    destruct buf as [a|]; simpl; [|done].
    rewrite lookup_insert_eq, length_replicate, Nat.sub_diag. simpl.
    by rewrite app_nil_r.
  - intros v Hv. by rewrite lookup_insert_ne.
  - intros a b Ha. destruct buf as [a'|]; simpl; [|done].
    destruct Hbuf. rewrite lookup_insert_ne; [done|congruence].
  - unfold position. simpl. rewrite lookup_insert_eq. simpl.
    intros a [= ->]. by destruct Hbuf.
Qed.

Lemma ctor_copy_valid s other r s' :
  all_valid s → Vector.ctor_copy other s = Val r s' → all_valid s'.
Proof.
  destruct s as [h o tr]. intros Hvalid Hrun.
  destruct (o !! other) as [w|] eqn:Hother.
  2:{ unfold Vector.ctor_copy, mbind, M_bind, Vector.deref in Hrun. simpl in Hrun.
      by rewrite Hother in Hrun. }
  destruct (all_valid_holds _ other Hvalid) as (ys & cap & Hholds); [by eauto|].
  eapply (wp_val _ _ (λ _ s', all_valid s') (λ _, True)); [|exact Hrun].
  eapply wp_ctor_copy; [done| |done]. intros r' buf Hr Hbuf.
  eapply (all_valid_new _ _ r'); [done|done| | | |]; simpl.
  - exists ys, (length ys).
    eapply holds_intro; [by rewrite lookup_insert_eq|done|].
    destruct buf as [a|]; simpl; [|by rewrite Hbuf].
    by rewrite lookup_insert_eq, Nat.sub_diag, app_nil_r.
  - intros v Hv. by rewrite lookup_insert_ne.
  - intros a b Ha. destruct buf as [a'|]; simpl; [|done].
    destruct Hbuf. rewrite lookup_insert_ne; [done|congruence].
  - unfold position. simpl. rewrite lookup_insert_eq. simpl.
    intros a [= ->]. by destruct Hbuf.
Qed.

Lemma exchange_inj x y z z' : exchange x y z = exchange x y z' → z = z'.
Proof. unfold exchange. repeat case_decide; congruence. Qed.

Lemma ctor_move_valid s other r s' :
  all_valid s → Vector.ctor_move other s = Val r s' → all_valid s'.
Proof.
  destruct s as [h o tr]. intros Hvalid Hrun.
  destruct (o !! other) as [w|] eqn:Hother.
  2:{ unfold Vector.ctor_move, mbind, M_bind, Vector.deref in Hrun. simpl in Hrun.
      by rewrite Hother in Hrun. }
  eapply (wp_val _ _ (λ _ s', all_valid s') (λ _, True)); [|exact Hrun].
  eapply wp_ctor_move; [done|]. intros r' Hr.
  assert (r' ≠ other) by congruence.
  eapply (all_valid_permute h (<[r' := mkVector (mkRawMemory None 0) 0]> o) _ tr tr
            (exchange r' other)).
  - eapply (all_valid_new _ _ r'); [done|done| | |done|]; simpl.
    + exists [], 0. by eapply holds_intro; [rewrite lookup_insert_eq|..].
    + intros v Hv. by rewrite lookup_insert_ne.
    + unfold position. simpl. by rewrite lookup_insert_eq.
  - intros x. unfold exchange. rewrite !lookup_insert.
    repeat case_decide; congruence.
  - apply exchange_inj.
Qed.

Lemma Swap_valid s this other s' :
  all_valid s → Vector.Swap this other s = Val () s' → all_valid s'.
Proof.
  destruct s as [h o tr]. intros Hvalid Hrun.
  destruct (o !! this) as [v|] eqn:Hthis.
  2:{ unfold Vector.Swap, mbind, M_bind, RawMemory.read in Hrun. simpl in Hrun.
      by rewrite Hthis in Hrun. }
  destruct (o !! other) as [w|] eqn:Hother.
  2:{ unfold Vector.Swap, mbind, M_bind, RawMemory.read in Hrun. simpl in Hrun.
      rewrite Hthis in Hrun. simpl in Hrun. by rewrite Hother in Hrun. }
  eapply (wp_val _ _ (λ _ s', all_valid s') (λ _, True)); [|exact Hrun].
  eapply wp_Swap; [done..|].
  eapply (all_valid_permute h o _ tr tr (exchange this other)); [done| |apply exchange_inj].
  intros x. unfold exchange. rewrite !lookup_insert.
  repeat case_decide; congruence.
Qed.

Lemma copy_assign_valid s this other s' :
  all_valid s → Vector.copy_assign this other s = Val () s' → all_valid s'.
Proof.
  destruct s as [h o tr]. intros Hvalid Hrun.
  destruct (o !! this) as [v|] eqn:Hthis.
  2:{ unfold Vector.copy_assign, mbind, M_bind, Vector.deref in Hrun. simpl in Hrun.
      by rewrite Hthis in Hrun. }
  destruct (o !! other) as [w|] eqn:Hother.
  2:{ unfold Vector.copy_assign, mbind, M_bind, Vector.deref in Hrun. simpl in Hrun.
      rewrite Hthis in Hrun. simpl in Hrun. by rewrite Hother in Hrun. }
  destruct (all_valid_holds _ this Hvalid) as (xs & cap & Hh); [by eauto|].
  destruct (all_valid_holds _ other Hvalid) as (ys & cap' & Hh'); [by eauto|].
  pose proof (all_valid_separate _ this other Hvalid) as Hsep.
  destruct (decide (length ys ≤ cap)) as [Hfit|Hbig].
  - destruct (wp_val _ _ _ _ _ _
                (copy_assign_within_full h o tr this other xs cap ys cap' Hh Hh' Hsep Hfit) Hrun)
      as (Hnew & _ & _ & _ & Hconf).
    eapply (all_valid_confined _ _ this); [done|by eauto| |done]. by eexists _, _.
  - assert (cap < length ys) as Hlt by lia.
    destruct (wp_val _ _ _ _ _ _
                (copy_assign_realloc_full h o tr this other xs cap ys cap' Hh Hh' Hsep Hlt) Hrun)
      as (Hnew & _ & _ & _ & Hconf).
    eapply (all_valid_confined _ _ this); [done|by eauto| |done]. by eexists _, _.
Qed.

Lemma Reserve_valid s this n s' :
  all_valid s → Vector.Reserve this n s = Val () s' → all_valid s'.
Proof.
  destruct s as [h o tr]. intros Hvalid Hrun.
  destruct (o !! this) as [v|] eqn:Hthis.
  2:{ unfold Vector.Reserve, mbind, M_bind, Vector.deref in Hrun. simpl in Hrun.
      by rewrite Hthis in Hrun. }
  destruct (all_valid_holds _ this Hvalid) as (xs & cap & Hh); [by eauto|].
  destruct (decide (n ≤ cap)) as [Hn|Hn].
  - rewrite (Reserve_noop _ _ _ _ _ Hh Hn) in Hrun. by injection Hrun as <-.
  - assert (cap < n) as Hlt by lia.
    destruct (wp_val _ _ _ _ _ _ (Reserve_grow_full h o tr this xs cap n Hh Hlt) Hrun)
      as (Hnew & _ & Hconf).
    eapply (all_valid_confined _ _ this); [done|by eauto| |done]. by eexists _, _.
Qed.

Lemma Resize_valid s this n s' :
  all_valid s → Vector.Resize this n s = Val () s' → all_valid s'.
Proof.
  destruct s as [h o tr]. intros Hvalid Hrun.
  destruct (o !! this) as [v|] eqn:Hthis.
  2:{ unfold Vector.Resize, mbind, M_bind, Vector.deref in Hrun. simpl in Hrun.
      by rewrite Hthis in Hrun. }
  destruct (all_valid_holds _ this Hvalid) as (xs & cap & Hh); [by eauto|].
  destruct (wp_val _ _ _ _ _ _ (Resize_full h o tr this xs cap n Hh) Hrun)
    as (Hnew & _ & _ & _ & Hconf).
  eapply (all_valid_confined _ _ this); [done|by eauto| |done]. by eexists _, _.
Qed.

Lemma PopBack_valid s this s' :
  all_valid s → Vector.PopBack this s = Val () s' → all_valid s'.
Proof.
  destruct s as [h o tr]. intros Hvalid Hrun.
  destruct (o !! this) as [v|] eqn:Hthis.
  2:{ unfold Vector.PopBack, noexcept, mbind, M_bind, Vector.deref in Hrun. simpl in Hrun.
      by rewrite Hthis in Hrun. }
  destruct (all_valid_holds _ this Hvalid) as (xs & cap & Hh); [by eauto|].
  destruct xs as [|x xs _] using rev_ind.
  { apply holds_inv in Hh as (buf & Ho & _).
    unfold Vector.PopBack, noexcept, mbind, M_bind, Vector.deref in Hrun. simpl in Hrun.
    by rewrite Ho in Hrun. }
  eapply (wp_val _ _ (λ _ s', all_valid s') (λ _, True)); [|exact Hrun].
  eapply wp_PopBack; [done|]. intros a Ho Ha.
  eapply (all_valid_confined _ _ this); [done|by eauto| |].
  - exists xs, cap.
    eapply holds_intro; [by rewrite lookup_insert_eq| |map_lookup].
    apply holds_inv in Hh as (? & _ & Hlen & _).
    rewrite length_app in Hlen. simpl in Hlen. lia.
  - eapply confined_intro; [done|done| |]; simpl.
    + intros a0 b0 Ha0 Hne. rewrite lookup_insert_ne; [done|congruence].
    + intros a0 [= <-]. by left.
Qed.

(** *** Positions out of range *)

Lemma on_unwind_val_inv {A} (m : M T A) c s a s' :
  on_unwind m c s = Val a s' → m s = Val a s'.
Proof.
  unfold on_unwind. destruct (m s) as [| s1|]; [done| |done].
  by destruct (c s1).
Qed.

Lemma load_val_inv p s x s' : load p s = Val x s' → s' = s.
Proof.
  unfold load, mbind, M_bind, read_slot.
  destruct (blk p) as [a|]; [|done].
  destruct (heap s !! a) as [b|]; [|done].
  destruct (b !! off p) as [[|y]|]; [done| |done].
  by intros [= _ <-].
Qed.

Lemma perform_val_inv (op : op T) s s' :
  perform op s = Val () s' → objects s' = objects s.
Proof. unfold perform. destruct (throws op (trace s)); [done|]. by intros [= <-]. Qed.

Lemma write_slot_val_inv p (x : slot T) s s' :
  write_slot p x s = Val () s' → objects s' = objects s.
Proof.
  unfold write_slot. destruct (blk p) as [a|]; [|done].
  destruct (heap s !! a) as [b|]; [|done].
  case_decide; [|done]. by intros [= <-].
Qed.

Lemma move_construct_at_val_inv p q s s' :
  move_construct_at p q s = Val () s' → objects s' = objects s.
Proof.
  unfold move_construct_at. intros Hrun.
  apply bind_val_inv in Hrun as (x & s1 & ->%load_val_inv & Hrun).
  apply bind_val_inv in Hrun as ([] & s2 & H2%perform_val_inv & Hrun).
  apply bind_val_inv in Hrun as ([] & s3 & H3%write_slot_val_inv & H4%write_slot_val_inv).
  congruence.
Qed.

Lemma ReallocateAndEmbed_out_of_range s this v i (a : args T) r s' :
  objects s !! this = Some v → size_ v < i →
  Vector.ReallocateAndEmbed this i a s = Val r s' → False.
Proof.
  intros Hv Hi Hrun. unfold Vector.ReallocateAndEmbed in Hrun.
  apply bind_val_inv in Hrun as (v' & s1 & Hderef & Hrun).
  unfold Vector.deref in Hderef. rewrite Hv in Hderef. injection Hderef as <- <-.
  apply bind_val_inv in Hrun as (nd & s1 & _ & Hrun).
  apply bind_val_inv in Hrun as (old & s2 & Hrun%on_unwind_val_inv & _).
  apply bind_val_inv in Hrun as (p & s3 & _ & Hrun).
  apply bind_val_inv in Hrun as ([] & s4 & _ & Hrun).
  apply bind_val_inv in Hrun as ([] & s5 & Hrun & _).
  destruct Vector.transfer_by_move.
  - apply bind_val_inv in Hrun as ([] & s6 & _ & Hrun).
    apply bind_val_inv in Hrun as (src & s7 & _ & Hrun).
    apply bind_val_inv in Hrun as (rest & s8 & Hrun & _).
    unfold size_sub in Hrun. by rewrite decide_False in Hrun by lia.
  - apply bind_val_inv in Hrun as ([] & s6 & _ & Hrun).
    apply bind_val_inv in Hrun as (src & s7 & _ & Hrun).
    apply bind_val_inv in Hrun as (rest & s8 & Hrun & _).
    unfold size_sub in Hrun. by rewrite decide_False in Hrun by lia.
Qed.

Lemma end_val s this buf cap sz :
  objects s !! this = Some (mkVector (mkRawMemory buf cap) sz) → sz ≤ cap →
  Vector.end_ this s = Val (Ptr buf sz) s.
Proof.
  intros Hv Hsz. unfold Vector.end_, mbind, M_bind, Vector.deref, RawMemory.plus.
  rewrite Hv. simpl. by rewrite decide_True.
Qed.

Lemma begin_val s this v :
  objects s !! this = Some v → Vector.begin this s = Val (Ptr (buffer_ (data_ v)) 0) s.
Proof.
  intros Hv. unfold Vector.begin, mbind, M_bind, Vector.deref. by rewrite Hv.
Qed.

Lemma Embed_out_of_range s this buf cap sz i (a : args T) r s' :
  objects s !! this = Some (mkVector (mkRawMemory buf cap) sz) → sz ≤ cap → sz < i →
  Vector.Embed this (Ptr buf i) i a s = Val r s' → False.
Proof.
  intros Hv Hsz Hi Hrun. unfold Vector.Embed in Hrun.
  apply bind_val_inv in Hrun as (e & s1 & He & Hrun).
  rewrite (end_val _ _ _ _ _ Hv Hsz) in He. injection He as <- <-.
  rewrite decide_False in Hrun by (intros [= ?]; lia).
  apply bind_val_inv in Hrun as ([] & s1 & H1%perform_val_inv & Hrun).
  apply bind_val_inv in Hrun as ([] & s2 & Hrun%on_unwind_val_inv & _).
  assert (objects s1 !! this = Some (mkVector (mkRawMemory buf cap) sz)) as Hv1
    by by rewrite H1.
  apply bind_val_inv in Hrun as (e & s3 & He & Hrun).
  rewrite (end_val _ _ _ _ _ Hv1 Hsz) in He. injection He as <- <-.
  apply bind_val_inv in Hrun as (last & s3 & Hlast & Hrun).
  unfold ptr_sub in Hlast. simpl in Hlast. case_decide; [|done].
  injection Hlast as <- <-.
  apply bind_val_inv in Hrun as ([] & s3 & H3%move_construct_at_val_inv & Hrun).
  assert (objects s3 !! this = Some (mkVector (mkRawMemory buf cap) sz)) as Hv3
    by by rewrite H3.
  apply bind_val_inv in Hrun as (b & s4 & Hb & Hrun).
  rewrite (begin_val _ _ _ Hv3) in Hb. injection Hb as <- <-.
  apply bind_val_inv in Hrun as (e & s4 & He & Hrun).
  rewrite (end_val _ _ _ _ _ Hv3 Hsz) in He. injection He as <- <-.
  apply bind_val_inv in Hrun as (last & s4 & Hlast & Hrun).
  unfold ptr_sub in Hlast. simpl in Hlast. rewrite decide_True in Hlast by done.
  injection Hlast as <- <-.
  apply bind_val_inv in Hrun as ([] & s4 & Hrun & _).
  unfold ranges_move_backward in Hrun.
  apply bind_val_inv in Hrun as (n & s5 & Hrun & _).
  unfold ranges_distance, ptr_add in Hrun. simpl in Hrun.
  rewrite decide_True in Hrun by done. by rewrite decide_False in Hrun by lia.
Qed.

Lemma Emplace_out_of_range s this xs cap i pos (a : args T) r s' :
  holds s this xs cap → length xs < i → position s this i = Some pos →
  Vector.Emplace this pos a s = Val r s' → False.
Proof.
  destruct s as [h o tr]. intros (buf & Ho & Hlen & _)%holds_inv Hi Hpos Hrun.
  unfold position in Hpos. simpl in Hpos. rewrite Ho in Hpos. injection Hpos as <-.
  unfold Vector.Emplace in Hrun.
  apply bind_val_inv in Hrun as (b & s1 & Hb & Hrun).
  rewrite (begin_val (State h o tr) _ _ Ho) in Hb. injection Hb as <- <-.
  apply bind_val_inv in Hrun as (d & s1 & Hd & Hrun).
  unfold ranges_distance in Hd. simpl in Hd.
  rewrite !decide_True in Hd by (done || lia). injection Hd as <- <-.
  rewrite Nat.sub_0_r in Hrun.
  apply bind_val_inv in Hrun as (v & s1 & Hv & Hrun).
  unfold Vector.deref in Hv. simpl in Hv. rewrite Ho in Hv. injection Hv as <- <-.
  apply bind_val_inv in Hrun as ([] & s1 & Hrun & _).
  simpl in Hrun. case_decide.
  - by eapply ReallocateAndEmbed_out_of_range in Hrun.
  - by eapply Embed_out_of_range in Hrun.
Qed.

Lemma Erase_out_of_range s this xs cap i pos r s' :
  holds s this xs cap → length xs ≤ i → position s this i = Some pos →
  Vector.Erase this pos s = Val r s' → False.
Proof.
  destruct s as [h o tr]. intros (buf & Ho & Hlen & _)%holds_inv Hi Hpos Hrun.
  unfold position in Hpos. simpl in Hpos. rewrite Ho in Hpos. injection Hpos as <-.
  unfold Vector.Erase, noexcept in Hrun.
  match type of Hrun with
  | match ?m ?st with _ => _ end = _ => destruct (m st) as [r1 s1| |] eqn:Hbody; [|done..]
  end.
  clear Hrun.
  apply bind_val_inv in Hbody as (b & s2 & Hb & Hrun).
  rewrite (begin_val (State h o tr) _ _ Ho) in Hb. injection Hb as <- <-.
  apply bind_val_inv in Hrun as (d & s2 & Hd & Hrun).
  unfold ranges_distance in Hd. simpl in Hd.
  rewrite !decide_True in Hd by (done || lia). injection Hd as <- <-.
  rewrite Nat.sub_0_r in Hrun.
  apply bind_val_inv in Hrun as (v & s2 & Hv & Hrun).
  unfold Vector.deref in Hv. simpl in Hv. rewrite Ho in Hv. injection Hv as <- <-.
  apply bind_val_inv in Hrun as (first & s2 & Hfirst & Hrun).
  unfold RawMemory.plus in Hfirst. simpl in Hfirst. case_decide; [|done].
  injection Hfirst as <- <-.
  apply bind_val_inv in Hrun as (e & s2 & He & Hrun).
  rewrite (end_val (State h o tr) _ _ _ _ Ho Hlen) in He. injection He as <- <-.
  apply bind_val_inv in Hrun as (res & s2 & _ & Hrun).
  apply bind_val_inv in Hrun as ([] & s3 & Hrun & _).
  unfold ranges_move in Hrun.
  apply bind_val_inv in Hrun as (n & s4 & Hrun & _).
  unfold ranges_distance, ptr_add in Hrun. simpl in Hrun.
  rewrite decide_True in Hrun by done. by rewrite decide_False in Hrun by lia.
Qed.

(** *** Insertion and removal *)

Lemma Emplace_at_valid s this i (a : args T) p s' :
  all_valid s →
  (b ← Vector.begin this; Vector.Emplace this (ptr_add b i) a) s = Val p s' →
  all_valid s'.
Proof.
  destruct s as [h o tr]. intros Hvalid Hrun.
  destruct (o !! this) as [v|] eqn:Hthis.
  2:{ unfold Vector.begin, mbind, M_bind, Vector.deref in Hrun. simpl in Hrun.
      by rewrite Hthis in Hrun. }
  destruct (all_valid_holds _ this Hvalid) as (xs & cap & Hh); [by eauto|].
  apply bind_val_inv in Hrun as (b & s1 & Hb & Hrun).
  rewrite (begin_val (State h o tr) _ _ Hthis) in Hb. injection Hb as <- <-.
  assert (position (State h o tr) this i = Some (ptr_add (Ptr (buffer_ (data_ v)) 0) i)) as Hpos.
  { unfold position. simpl. by rewrite Hthis. }
  destruct (decide (i ≤ length xs)) as [Hi|Hi].
  - destruct (wp_val _ _ _ _ _ _ (Emplace_full h o tr this xs cap i _ a Hh Hi Hpos) Hrun)
      as (_ & Hnew & _ & _ & _ & _ & _ & Hconf & _).
    eapply (all_valid_confined _ _ this); [done|by eauto| |done]. by eexists _, _.
  - destruct (Emplace_out_of_range _ _ _ _ i _ a _ _ Hh ltac:(lia) Hpos Hrun).
Qed.

Lemma PushBack_valid s this y s' :
  all_valid s → Vector.PushBack this y s = Val () s' → all_valid s'.
Proof.
  destruct s as [h o tr]. intros Hvalid Hrun.
  destruct (o !! this) as [v|] eqn:Hthis.
  2:{ unfold Vector.PushBack, Vector.EmplaceBack, Vector.cend, Vector.end_,
        mbind, M_bind, Vector.deref in Hrun. simpl in Hrun.
      by rewrite Hthis in Hrun. }
  destruct (all_valid_holds _ this Hvalid) as (xs & cap & Hh); [by eauto|].
  pose proof Hh as (buf & Ho & Hlen & _)%holds_inv.
  unfold Vector.PushBack, Vector.EmplaceBack, Vector.cend in Hrun.
  apply bind_val_inv in Hrun as (p & s1 & Hrun & [= <-]).
  apply bind_val_inv in Hrun as (e & s2 & He & Hrun).
  rewrite (end_val (State h o tr) _ _ _ _ Ho Hlen) in He. injection He as <- <-.
  assert (position (State h o tr) this (length xs) = Some (Ptr buf (length xs))) as Hpos.
  { unfold position. simpl. by rewrite Ho. }
  destruct (wp_val _ _ _ _ _ _
              (Emplace_full h o tr this xs cap (length xs) _ (ByCopy y) Hh (le_n _) Hpos) Hrun)
    as (_ & Hnew & _ & _ & _ & _ & _ & Hconf & _).
  eapply (all_valid_confined _ _ this); [done|by eauto| |done]. by eexists _, _.
Qed.

Lemma Erase_at_valid s this i p s' :
  all_valid s →
  (b ← Vector.begin this; Vector.Erase this (ptr_add b i)) s = Val p s' →
  all_valid s'.
Proof.
  destruct s as [h o tr]. intros Hvalid Hrun.
  destruct (o !! this) as [v|] eqn:Hthis.
  2:{ unfold Vector.begin, mbind, M_bind, Vector.deref in Hrun. simpl in Hrun.
      by rewrite Hthis in Hrun. }
  destruct (all_valid_holds _ this Hvalid) as (xs & cap & Hh); [by eauto|].
  apply bind_val_inv in Hrun as (b & s1 & Hb & Hrun).
  rewrite (begin_val (State h o tr) _ _ Hthis) in Hb. injection Hb as <- <-.
  assert (position (State h o tr) this i = Some (ptr_add (Ptr (buffer_ (data_ v)) 0) i)) as Hpos.
  { unfold position. simpl. by rewrite Hthis. }
  destruct (decide (i < length xs)) as [Hi|Hi].
  - destruct (proj1 (Erase_full h o tr this xs cap i _ Hh Hi Hpos) _ _ Hrun)
      as (Hnew & _ & _ & _ & Hconf & _).
    eapply (all_valid_confined _ _ this); [done|by eauto| |done]. by eexists _, _.
  - destruct (Erase_out_of_range _ _ _ _ i _ _ _ Hh ltac:(lia) Hpos Hrun).
Qed.

(** Every public operation other than move assignment takes a valid
    state to a valid state. *)
Lemma exec_valid (c : command T) s s' :
  is_move_assign c = false → all_valid s → exec c s = Val () s' → all_valid s'.
Proof.
  intros Hc Hvalid Hrun. destruct c; simpl in *; try done.
  - apply bind_val_inv in Hrun as (r & s1 & Hrun & [= <-]). by eapply ctor_default_valid.
  - apply bind_val_inv in Hrun as (r & s1 & Hrun & [= <-]). by eapply ctor_valid.
  - apply bind_val_inv in Hrun as (r & s1 & Hrun & [= <-]). by eapply ctor_copy_valid.
  - apply bind_val_inv in Hrun as (r & s1 & Hrun & [= <-]). by eapply ctor_move_valid.
  - by eapply copy_assign_valid.
  - by eapply PushBack_valid.
  - apply bind_val_inv in Hrun as (b & s1 & Hb & Hrun).
    apply bind_val_inv in Hrun as (p & s2 & Hrun & [= <-]).
    eapply (Emplace_at_valid s this i a p).
    + done.
    + unfold mbind, M_bind at 1. by rewrite Hb.
  - apply bind_val_inv in Hrun as (b & s1 & Hb & Hrun).
    apply bind_val_inv in Hrun as (p & s2 & Hrun & [= <-]).
    eapply (Emplace_at_valid s this i (ByCopy x) p).
    + done.
    + unfold mbind, M_bind at 1. by rewrite Hb.
  - apply bind_val_inv in Hrun as (b & s1 & Hb & Hrun).
    apply bind_val_inv in Hrun as (p & s2 & Hrun & [= <-]).
    eapply (Erase_at_valid s this i p).
    + done.
    + unfold mbind, M_bind at 1. by rewrite Hb.
  - by eapply PopBack_valid.
  - by eapply Reserve_valid.
  - by eapply Resize_valid.
  - by eapply Swap_valid.
Qed.

Lemma init_valid : all_valid (init (T:=T)).
Proof.
  split.
  - intros v [w Hw]. simpl in Hw. by rewrite lookup_empty in Hw.
  - intros v w _ vv ww a Hv. simpl in Hv. by rewrite lookup_empty in Hv.
Qed.

End steps.

(** ** An exception in the middle of growth *)

Section leak.
Context {T : Type} `{!Element T}.
Implicit Types (s : state T) (h : gmap addr (list (slot T))) (o : gmap vref Vector).
Implicit Types (tr : list (event T)) (xs ys : list T) (this other : vref).

(** X18.  A full vector whose elements are transferred by copy: when
    the first copy of an existing element throws during
    [Emplace]-triggered growth, the exception propagates with heap and
    vectors as before, and the new element, which was already
    constructed in the new storage, is not destroyed: the storage is
    released with the object in it. *)
Theorem Emplace_growth_copy_throws h o tr this x xs i pos (a : args T) :
  holds (State h o tr) this (x :: xs) (S (length xs)) →
  i ≤ S (length xs) → position (State h o tr) this i = Some pos →
  Vector.transfer_by_move = false →
  throws (args_op a) tr = false →
  throws (CopyConstruct x) (tr ++ [Done (args_op a)]) = true →
  Vector.Emplace this pos a (State h o tr)
  = Exn (State h o (tr ++ [Done (args_op a); Threw (CopyConstruct x)])).
Proof.
  intros Hholds Hi Hpos Hcopy Hargs Hthrow.
  pose proof Hholds as (buf & Ho & Hlen & Hb)%holds_inv.
  destruct buf as [b|]; [|by destruct Hb].
  unfold position in Hpos. simpl in Hpos. rewrite Ho in Hpos. injection Hpos as <-.
  assert (∀ (m : M T ptr) s', wp m (State h o tr) (λ _ _, False) (λ s'', s'' = s') →
            m (State h o tr) = Exn s') as Hexn.
  { intros m s'. unfold wp. by destruct (m _); [|intros ->|]. }
  apply Hexn. unfold Vector.Emplace.
  apply wp_bind. eapply wp_begin; [done|]. simpl.
  apply wp_bind, wp_ranges_distance; [lia|]. rewrite Nat.sub_0_r.
  apply wp_bind. eapply wp_deref; [done|]. simpl.
  unfold RawMemory.Capacity. simpl. rewrite decide_True by done.
  apply wp_bind. unfold Vector.ReallocateAndEmbed.
  apply wp_bind. eapply wp_deref; [done|]. simpl.
  apply wp_bind, wp_RawMemory_ctor; [lia|]. intros a' Hfresh.
  assert (b ≠ a') by congruence.
  apply wp_bind, wp_on_unwind.
  apply wp_bind, wp_RawMemory_plus; [simpl; lia|]. simpl buffer_.
  apply wp_bind.
  set (g := S (length xs) * 2) in *.
  eapply (wp_construct_at a' i (replicate i Uninit) (replicate (g - S i) Uninit));
    [by rewrite length_replicate| | |congruence].
  { rewrite lookup_insert_eq. f_equal.
    change (Uninit :: replicate (g - S i) Uninit) with (replicate (S (g - S i)) (@Uninit T)).
    rewrite <- replicate_add. f_equal. lia. }
  intros _. rewrite insert_insert_eq. rewrite Hcopy.
  unfold RawMemory.GetAddress. simpl.
  assert (∀ h', is_Some (h' !! a') → delete a' h' = h →
            wp (RawMemory.dtor (mkRawMemory (Some a') g))
               (State h' o (tr ++ [Done (args_op a)] ++ [Threw (CopyConstruct x)]))
               (λ _ s'', s'' = State h o (tr ++ [Done (args_op a); Threw (CopyConstruct x)]))
               (λ _, False)) as Hfail.
  { intros h' Hsome Hdel. apply wp_RawMemory_dtor; [|done]. intros ? [= <-].
    split; [done|]. by rewrite Hdel. }
  destruct i as [|i].
  - (* the first range is empty, the second starts with [x] *)
    apply wp_bind, wp_bind. apply wp_ret.
    apply wp_bind, wp_RawMemory_plus; [simpl; lia|]. simpl buffer_.
    apply wp_bind, wp_size_sub; [lia|].
    apply wp_bind, wp_RawMemory_plus; [simpl; lia|]. simpl buffer_.
    simpl. unfold uninitialized_copy_n. simpl.
    apply wp_bind, wp_on_unwind. unfold copy_construct_at.
    apply wp_bind. eapply wp_load; [map_lookup|done|]. simpl.
    apply wp_bind, wp_perform; simpl; [by rewrite Hthrow|]. intros _.
    apply wp_ret. rewrite <- app_assoc.
    apply Hfail; [map_lookup|]. by rewrite delete_insert_eq, delete_id.
  - apply wp_bind, wp_bind. unfold uninitialized_copy_n. simpl.
    apply wp_bind, wp_on_unwind. unfold copy_construct_at.
    apply wp_bind. eapply wp_load; [map_lookup|done|]. simpl.
    apply wp_bind, wp_perform; simpl; [by rewrite Hthrow|]. intros _.
    apply wp_ret. rewrite <- app_assoc.
    apply Hfail; [map_lookup|]. by rewrite delete_insert_eq, delete_id.
Qed.
End leak.

(** ** Capacity *)

Section edges.
Context {T : Type} `{!Element T}.
Implicit Types (s : state T) (h : gmap addr (list (slot T))) (o : gmap vref Vector).
Implicit Types (tr : list (event T)) (xs ys : list T) (this other : vref).

(** No operation on the elements shrinks the capacity, on the
    idealised platform. *)
Lemma capacity_unbounded s this xs cap :
  holds s this xs cap →
  let grows_or_stays (s' : state T) :=
    ∃ xs' cap', holds s' this xs' cap' ∧ cap ≤ cap' ∧
                (cap' = cap → position s' this 0 = position s this 0) in
  (∀ y s', Vector.PushBack this y s = Val () s' → grows_or_stays s') ∧
  (∀ i pos a p s', i ≤ length xs → position s this i = Some pos →
     Vector.Emplace this pos a s = Val p s' → grows_or_stays s') ∧
  (∀ i pos p s', i < length xs → position s this i = Some pos →
     Vector.Erase this pos s = Val p s' → grows_or_stays s') ∧
  (∀ s', Vector.PopBack this s = Val () s' → grows_or_stays s') ∧
  (∀ n s', Vector.Reserve this n s = Val () s' → grows_or_stays s') ∧
  (∀ n s', Vector.Resize this n s = Val () s' → grows_or_stays s') ∧
  (∀ other ys cap' s',
     holds s other ys cap' → this = other ∨ separate s this other →
     Vector.copy_assign this other s = Val () s' → grows_or_stays s').
Proof.
  destruct s as [h o tr]. intros Hholds grows_or_stays. unfold grows_or_stays.
  assert (length xs ≤ cap) as Hlen by (by apply holds_inv in Hholds as (? & _ & ? & _)).
  split_and!.
  - intros y s' Hrun.
    destruct (wp_val _ _ _ _ _ _ (PushBack_spec h o tr this xs cap y Hholds) Hrun)
      as (_ & Hh & _ & Hpos).
    eexists _, _. split; [done|]. case_decide; [|by auto with lia].
    subst cap. rewrite grown_max. split; lia.
  - intros i pos a p s' Hi Hpos Hrun.
    destruct (wp_val _ _ _ _ _ _ (Emplace_spec h o tr this xs cap i pos a Hholds Hi Hpos) Hrun)
      as (_ & Hh & _ & _ & Hsame & _).
    eexists _, _. split; [done|]. case_decide; [|by auto with lia].
    subst cap. rewrite grown_max. split; lia.
  - intros i pos p s' Hi Hpos Hrun.
    destruct (proj1 (Erase_spec h o tr this xs cap i pos Hholds Hi Hpos) p s' Hrun)
      as (Hh & _ & Hsame & _).
    by eexists _, _.
  - intros s' Hrun.
    destruct xs as [|x xs _] using rev_ind.
    { destruct (PopBack_spec _ _ _ _ _ Hholds Hrun) as [? _]. done. }
    eapply (wp_val _ _ (λ _ s', ∃ xs' cap', holds s' this xs' cap' ∧ cap ≤ cap' ∧
              (cap' = cap → position s' this 0 = position (State h o tr) this 0))
              (λ _, True)); [|exact Hrun].
    eapply wp_PopBack; [done|]. intros a Ho Ha.
    exists xs, cap. split_and!; [|done|].
    + eapply holds_intro; [by rewrite lookup_insert_eq| |map_lookup].
      rewrite length_app in Hlen. simpl in Hlen. lia.
    + intros _. unfold position. simpl. by rewrite lookup_insert_eq, Ho.
  - intros n s' Hrun. destruct (decide (n ≤ cap)) as [Hn|Hn].
    + rewrite (Reserve_noop _ _ _ _ _ Hholds Hn) in Hrun. injection Hrun as <-.
      by eexists _, _.
    + assert (cap < n) as Hlt by lia.
      destruct (wp_val _ _ _ _ _ _ (Reserve_grow h o tr this xs cap n Hholds Hlt) Hrun)
        as (Hh & _).
      eexists _, _. split; [done|]. split; lia.
  - intros n s' Hrun.
    destruct (wp_val _ _ _ _ _ _ (Resize_spec h o tr this xs cap n Hholds) Hrun)
      as (Hh & Hsame & _).
    eexists _, _. split; [done|]. split; [lia|]. intros ?. apply Hsame. lia.
  - intros other ys cap' s' Hother Hsep Hrun.
    destruct (decide (length ys ≤ cap)) as [Hfit|Hbig].
    + destruct (wp_val _ _ _ _ _ _
                  (copy_assign_within h o tr this other xs cap ys cap' Hholds Hother Hsep Hfit)
                  Hrun) as (Hh & _ & Hsame & _).
      by eexists _, _.
    + assert (cap < length ys) as Hlt by lia.
      destruct (wp_val _ _ _ _ _ _
                  (copy_assign_realloc h o tr this other xs cap ys cap' Hholds Hother Hsep Hlt)
                  Hrun) as (Hh & _).
      eexists _, _. split; [done|]. split; lia.
Qed.
End edges.

(** ** The element operations of [Erase] and [Emplace] *)

Section element_operations.
Context {T : Type} `{!Element T}.
Implicit Types (s : state T) (h : gmap addr (list (slot T))) (o : gmap vref Vector).
Implicit Types (tr : list (event T)) (xs ys : list T) (this other : vref).

Lemma shift_events_length (d : T) ys : length (shift_events d ys) = length ys.
Proof. revert d. induction ys as [|y ys IH]; intros d; simpl; [done|]. by rewrite IH. Qed.

Lemma shift_events_sources (d : T) ys :
  Forall2 (λ e y, ∃ d', e = Done (MoveAssign d' y)) (shift_events d ys) ys.
Proof.
  revert d. induction ys as [|y ys IH]; intros d; simpl; [done|].
  constructor; [by eexists|apply IH].
Qed.

(** X21.  [Erase] of the element at index [i] performs exactly these
    element operations, in this order: one move assignment for each
    later element, from the nearest to the last, each onto the slot
    before it, then one destruction, of what is left in the last slot
    (the erased element itself when it was the last one, otherwise
    what the move left of the last element).  It constructs
    nothing. *)
Theorem Erase_element_operations s this xs cap i pos d p s' :
  holds s this xs cap → position s this i = Some pos → xs !! i = Some d →
  Vector.Erase this pos s = Val p s' →
  let ys := drop (S i) xs in
  trace s' = trace s ++ shift_events d ys ++ [Done (Destroy (residue d ys))] ∧
  length (shift_events d ys) = length xs - S i ∧
  Forall2 (λ e y, ∃ d', e = Done (MoveAssign d' y)) (shift_events d ys) ys ∧
  (ys = [] → residue d ys = d) ∧
  (∀ ys' z, ys = ys' ++ [z] → residue d ys = moved_from z).
Proof.
  destruct s as [h o tr]. intros Hholds Hpos Hd Hrun ys.
  pose proof (lookup_lt_Some _ _ _ Hd) as Hi.
  destruct (proj1 (Erase_full h o tr this xs cap i pos Hholds Hi Hpos) p s' Hrun)
    as (_ & _ & _ & _ & _ & Htr).
  split_and!.
  - by apply Htr.
  - rewrite shift_events_length. unfold ys. rewrite length_drop. lia.
  - apply shift_events_sources.
  - by intros ->.
  - intros ys' z ->. clear. revert d.
    induction ys' as [|y ys' IH]; intros d; simpl; [done|]. apply IH.
Qed.

(** X22.  [Emplace] into a vector with spare capacity always returns,
    keeps the storage in place and performs exactly these element
    operations.  At the end: the construction of the new element, in
    place.  Before index [i]: the construction of a temporary from the
    arguments, the move construction of the last element one slot
    further, one move assignment for each element from the one before
    the last down to index [i], each onto the slot after it, the move
    assignment of the temporary to slot [i], and the destruction of
    the temporary. *)
Theorem Emplace_within_capacity_operations s this xs cap i pos (a : args T) :
  holds s this xs cap → length xs < cap →
  i ≤ length xs → position s this i = Some pos →
  returns (Vector.Emplace this pos a) s (λ _ s',
    position s' this 0 = position s this 0 ∧
    (i = length xs → trace s' = trace s ++ [Done (args_op a)]) ∧
    (∀ ys z, xs = ys ++ [z] → i < length xs →
       trace s' = trace s ++ [Done (args_op a); Done (MoveConstruct z)]
                          ++ shift_events (moved_from z) (rev (drop i ys))
                          ++ [Done (MoveAssign (residue_back (moved_from z) (drop i ys))
                                               (args_value a));
                              Done (Destroy (moved_from (args_value a)))] ∧
       length (shift_events (moved_from z) (rev (drop i ys))) = length xs - S i)).
Proof.
  destruct s as [h o tr]. intros Hholds Hcap Hi Hpos.
  eapply wp_mono; [by apply Emplace_full| |by intros ? []].
  intros p s' (_ & _ & _ & _ & Hsame & _ & _ & _ & Hend & Hmid).
  split_and!; [by apply Hsame|by apply Hend|].
  intros ys z Hxs Hlt. split; [by apply Hmid|].
  rewrite shift_events_length, length_rev, length_drop.
  subst xs. rewrite length_app. simpl. lia.
Qed.
End element_operations.

(** ** Constructions and destructions balance *)

Section accounting.
Context {T : Type} `{!Element T}.
Implicit Types (s : state T) (h : gmap addr (list (slot T))) (o : gmap vref Vector).
Implicit Types (tr ev : list (event T)) (xs ys : list T) (this other : vref).

Lemma constructed_app tr ev : constructed (tr ++ ev) = constructed tr + constructed ev.
Proof. apply sum_list_with_app. Qed.

Lemma destroyed_app tr ev : destroyed (tr ++ ev) = destroyed tr + destroyed ev.
Proof. apply sum_list_with_app. Qed.

Lemma count_constructions (f : T → op T) xs :
  (∀ x, made (Done (f x)) = 1) → (∀ x, unmade (Done (f x)) = 0) →
  constructed (map (λ x, Done (f x)) xs) = length xs ∧
  destroyed (map (λ x, Done (f x)) xs) = 0.
Proof.
  intros Hm Hu. unfold constructed, destroyed.
  induction xs as [|x xs [IH1 IH2]]; [done|].
  change (made (Done (f x)) + sum_list_with made (map (λ x, Done (f x)) xs) = S (length xs) ∧
          unmade (Done (f x)) + sum_list_with unmade (map (λ x, Done (f x)) xs) = 0).
  rewrite Hm, Hu. lia.
Qed.

Lemma count_transfers xs :
  constructed (map (λ x, Done (transfer_op x)) xs) = length xs ∧
  destroyed (map (λ x, Done (transfer_op x)) xs) = 0.
Proof.
  apply count_constructions; intros x; unfold transfer_op;
    by destruct (is_nothrow_move_constructible || negb is_copy_constructible).
Qed.

Lemma count_copies xs :
  constructed (map (λ x, Done (CopyConstruct x)) xs) = length xs ∧
  destroyed (map (λ x, Done (CopyConstruct x)) xs) = 0.
Proof. by apply count_constructions. Qed.

Lemma count_destructions (f : T → T) xs :
  constructed (map (λ x, Done (Destroy (f x))) xs) = 0 ∧
  destroyed (map (λ x, Done (Destroy (f x))) xs) = length xs.
Proof.
  unfold constructed, destroyed.
  induction xs as [|x xs [IH1 IH2]]; simpl; [done|]. lia.
Qed.

Lemma count_values n :
  constructed (replicate n (Done (ValueConstruct (T:=T)))) = n ∧
  destroyed (replicate n (Done (ValueConstruct (T:=T)))) = 0.
Proof.
  unfold constructed, destroyed.
  induction n as [|n [IH1 IH2]]; simpl; [done|]. lia.
Qed.

Lemma count_shifts (d : T) ys :
  constructed (shift_events d ys) = 0 ∧ destroyed (shift_events d ys) = 0.
Proof.
  unfold constructed, destroyed. revert d.
  induction ys as [|y ys IH]; intros d; simpl; auto.
Qed.

Lemma count_copy_assignments xs ys :
  constructed (zip_with (λ d x, Done (CopyAssign d x)) xs ys) = 0 ∧
  destroyed (zip_with (λ d x, Done (CopyAssign d x)) xs ys) = 0.
Proof.
  unfold constructed, destroyed. revert ys.
  induction xs as [|x xs IH]; intros [|y ys]; simpl; auto.
Qed.

Lemma count_args (a : args T) :
  constructed [Done (args_op a)] = 1 ∧ destroyed [Done (args_op a)] = 0.
Proof. by destruct a. Qed.

(** *** The total_size of a state *)

Lemma total_size_commute (j1 j2 : vref) (z1 z2 : Vector) (y : nat) :
  size_ z1 + (size_ z2 + y) = size_ z2 + (size_ z1 + y).
Proof. lia. Qed.

Lemma total_size_fresh h o tr tr' h' r v :
  o !! r = None →
  total_size (State h' (<[r := v]> o) tr') = size_ v + total_size (State h o tr).
Proof.
  intros Hr. unfold total_size. simpl.
  rewrite map_fold_insert_L; [done| |done]. intros. apply total_size_commute; done.
Qed.

Lemma total_size_lookup h o tr this v :
  o !! this = Some v →
  total_size (State h o tr) = size_ v + total_size (State h (delete this o) tr).
Proof.
  intros Hv. unfold total_size. simpl.
  rewrite (map_fold_delete_L _ _ this v); [done| |done]. intros. apply total_size_commute; done.
Qed.

Lemma total_size_update h o tr h' tr' this v v' :
  o !! this = Some v →
  total_size (State h' (<[this := v']> o) tr') + size_ v
  = total_size (State h o tr) + size_ v'.
Proof.
  intros Hv. rewrite (total_size_lookup h o tr this v Hv).
  rewrite <- insert_delete_eq.
  rewrite (total_size_fresh h (delete this o) tr tr' h' this v') by apply lookup_delete_eq.
  lia.
Qed.

Lemma total_size_ext s s' : objects s' = objects s → total_size s' = total_size s.
Proof. unfold total_size. by intros ->. Qed.

(** A call on one vector whose trace balances the change of its size
    keeps the account. *)
Lemma accounted_step s s' this xs cap xs' cap' ev :
  accounted s → holds s this xs cap → holds s' this xs' cap' →
  (∀ w, w ≠ this → objects s' !! w = objects s !! w) →
  trace s' = trace s ++ ev →
  constructed ev + length xs = destroyed ev + length xs' →
  accounted s'.
Proof.
  destruct s as [h o tr], s' as [h' o' tr']. unfold accounted. simpl.
  intros Hacc (v & Hv & Hsz & _) (v' & Hv' & Hsz' & _) Hobj -> Hev. simpl in *.
  assert (o' = <[this := v']> o) as ->.
  { apply map_eq. intros k. destruct (decide (k = this)) as [->|Hk].
    - by rewrite lookup_insert_eq.
    - rewrite lookup_insert_ne by done. by apply Hobj. }
  pose proof (total_size_update h o tr h' (tr ++ ev) this v v' Hv) as Hel.
  rewrite constructed_app, destroyed_app. lia.
Qed.
End accounting.

Section accounting_steps.
Context {T : Type} `{!Element T}.
Implicit Types (s : state T) (h : gmap addr (list (slot T))) (o : gmap vref Vector).
Implicit Types (tr ev : list (event T)) (xs ys : list T) (this other : vref).

Ltac count :=
  rewrite ?constructed_app, ?destroyed_app;
  repeat match goal with
  | |- context [constructed (map (λ x, Done (transfer_op x)) ?l)] =>
      rewrite (proj1 (count_transfers l)), (proj2 (count_transfers l))
  | |- context [constructed (map (λ x, Done (CopyConstruct x)) ?l)] =>
      rewrite (proj1 (count_copies l)), (proj2 (count_copies l))
  | |- context [constructed (map (λ x, Done (Destroy (?f x))) ?l)] =>
      rewrite (proj1 (count_destructions f l)), (proj2 (count_destructions f l))
  | |- context [constructed (map (λ x, Done (Destroy x)) ?l)] =>
      rewrite (proj1 (count_destructions (λ x, x) l)), (proj2 (count_destructions (λ x, x) l))
  | |- context [constructed (replicate ?n (Done ValueConstruct))] =>
      rewrite (proj1 (count_values n)), (proj2 (count_values n))
  | |- context [constructed (shift_events ?d ?l)] =>
      rewrite (proj1 (count_shifts d l)), (proj2 (count_shifts d l))
  | |- context [constructed (zip_with (λ d x, Done (CopyAssign d x)) ?l ?k)] =>
      rewrite (proj1 (count_copy_assignments l k)), (proj2 (count_copy_assignments l k))
  | |- context [constructed [Done (args_op ?a)]] =>
      rewrite (proj1 (count_args a)), (proj2 (count_args a))
  end.

Lemma ctor_default_accounted s r s' :
  accounted s → Vector.ctor_default s = Val r s' → accounted s'.
Proof.
  destruct s as [h o tr]. intros Hacc Hrun.
  eapply (wp_val _ _ (λ _ s', accounted s') (λ _, True)); [|exact Hrun].
  apply wp_new_object. intros r' Hr. unfold accounted in *. simpl in *.
  by rewrite (total_size_fresh h o tr tr h r' _ Hr).
Qed.

Lemma ctor_accounted s n r s' :
  accounted s → Vector.ctor n s = Val r s' → accounted s'.
Proof.
  destruct s as [h o tr]. intros Hacc Hrun.
  eapply (wp_val _ _ (λ _ s', accounted s') (λ _, True)); [|exact Hrun].
  apply wp_ctor; [|done]. intros r' buf Hr Hbuf. unfold accounted in *. simpl in *.
  rewrite (total_size_fresh h o tr _ _ r' _ Hr). simpl. count. lia.
Qed.

Lemma ctor_copy_accounted s other r s' :
  all_valid s → accounted s → Vector.ctor_copy other s = Val r s' → accounted s'.
Proof.
  destruct s as [h o tr]. intros Hvalid Hacc Hrun.
  destruct (o !! other) as [w|] eqn:Hother.
  2:{ unfold Vector.ctor_copy, mbind, M_bind, Vector.deref in Hrun. simpl in Hrun.
      by rewrite Hother in Hrun. }
  destruct (all_valid_holds _ other Hvalid) as (ys & cap & Hholds); [by eauto|].
  eapply (wp_val _ _ (λ _ s', accounted s') (λ _, True)); [|exact Hrun].
  eapply wp_ctor_copy; [done| |done]. intros r' buf Hr Hbuf.
  unfold accounted in *. simpl in *.
  rewrite (total_size_fresh h o tr _ _ r' _ Hr). simpl. count. lia.
Qed.

Lemma ctor_move_accounted s other r s' :
  accounted s → Vector.ctor_move other s = Val r s' → accounted s'.
Proof.
  destruct s as [h o tr]. intros Hacc Hrun.
  destruct (o !! other) as [w|] eqn:Hother.
  2:{ unfold Vector.ctor_move, mbind, M_bind, Vector.deref in Hrun. simpl in Hrun.
      by rewrite Hother in Hrun. }
  eapply (wp_val _ _ (λ _ s', accounted s') (λ _, True)); [|exact Hrun].
  eapply wp_ctor_move; [done|]. intros r' Hr.
  assert (r' ≠ other) by congruence.
  unfold accounted in *. simpl in *.
  pose proof (total_size_fresh h o tr tr h r' w Hr) as H1.
  pose proof (total_size_update h (<[r' := w]> o) tr h tr other w (mkVector (mkRawMemory None 0) 0)) as H2.
  rewrite lookup_insert_ne in H2 by done. specialize (H2 Hother). simpl in H2. lia.
Qed.

Lemma Swap_accounted s this other s' :
  accounted s → Vector.Swap this other s = Val () s' → accounted s'.
Proof.
  destruct s as [h o tr]. intros Hacc Hrun.
  destruct (o !! this) as [v|] eqn:Hthis.
  2:{ unfold Vector.Swap, mbind, M_bind, RawMemory.read in Hrun. simpl in Hrun.
      by rewrite Hthis in Hrun. }
  destruct (o !! other) as [w|] eqn:Hother.
  2:{ unfold Vector.Swap, mbind, M_bind, RawMemory.read in Hrun. simpl in Hrun.
      rewrite Hthis in Hrun. simpl in Hrun. by rewrite Hother in Hrun. }
  eapply (wp_val _ _ (λ _ s', accounted s') (λ _, True)); [|exact Hrun].
  eapply wp_Swap; [done..|].
  unfold accounted in *. simpl in *.
  pose proof (total_size_update h o tr h tr this v w Hthis) as H1.
  pose proof (total_size_update h (<[this := w]> o) tr h tr other w v) as H2.
  rewrite lookup_insert in H2. case_decide.
  - subst other. rewrite Hthis in Hother. injection Hother as <-.
    specialize (H2 eq_refl). lia.
  - specialize (H2 Hother). lia.
Qed.

Lemma copy_assign_accounted s this other s' :
  all_valid s → accounted s → Vector.copy_assign this other s = Val () s' → accounted s'.
Proof.
  destruct s as [h o tr]. intros Hvalid Hacc Hrun.
  destruct (o !! this) as [v|] eqn:Hthis.
  2:{ unfold Vector.copy_assign, mbind, M_bind, Vector.deref in Hrun. simpl in Hrun.
      by rewrite Hthis in Hrun. }
  destruct (o !! other) as [w|] eqn:Hother.
  2:{ unfold Vector.copy_assign, mbind, M_bind, Vector.deref in Hrun. simpl in Hrun.
      rewrite Hthis in Hrun. simpl in Hrun. by rewrite Hother in Hrun. }
  destruct (all_valid_holds _ this Hvalid) as (xs & cap & Hh); [by eauto|].
  destruct (all_valid_holds _ other Hvalid) as (ys & cap' & Hh'); [by eauto|].
  pose proof (all_valid_separate _ this other Hvalid) as Hsep.
  destruct (decide (length ys ≤ cap)) as [Hfit|Hbig].
  - destruct (wp_val _ _ _ _ _ _
                (copy_assign_within_full h o tr this other xs cap ys cap' Hh Hh' Hsep Hfit) Hrun)
      as (Hnew & _ & _ & Htr & Hconf & _).
    eapply (accounted_step _ _ this); [done|done|done|apply Hconf|exact Htr|].
    count. case_decide; count; rewrite length_drop; lia.
  - assert (cap < length ys) as Hlt by lia.
    destruct (wp_val _ _ _ _ _ _
                (copy_assign_realloc_full h o tr this other xs cap ys cap' Hh Hh' Hsep Hlt) Hrun)
      as (Hnew & _ & _ & Htr & Hconf & _).
    eapply (accounted_step _ _ this); [done|done|done|apply Hconf|exact Htr|].
    count. lia.
Qed.

Lemma Reserve_accounted s this n s' :
  all_valid s → accounted s → Vector.Reserve this n s = Val () s' → accounted s'.
Proof.
  destruct s as [h o tr]. intros Hvalid Hacc Hrun.
  destruct (o !! this) as [v|] eqn:Hthis.
  2:{ unfold Vector.Reserve, mbind, M_bind, Vector.deref in Hrun. simpl in Hrun.
      by rewrite Hthis in Hrun. }
  destruct (all_valid_holds _ this Hvalid) as (xs & cap & Hh); [by eauto|].
  destruct (decide (n ≤ cap)) as [Hn|Hn].
  - rewrite (Reserve_noop _ _ _ _ _ Hh Hn) in Hrun. by injection Hrun as <-.
  - assert (cap < n) as Hlt by lia.
    destruct (wp_val _ _ _ _ _ _ (Reserve_grow_full h o tr this xs cap n Hh Hlt) Hrun)
      as (Hnew & Htr & Hconf & _).
    eapply (accounted_step _ _ this); [done|done|done|apply Hconf|exact Htr|].
    count. lia.
Qed.

Lemma Resize_accounted s this n s' :
  all_valid s → accounted s → Vector.Resize this n s = Val () s' → accounted s'.
Proof.
  destruct s as [h o tr]. intros Hvalid Hacc Hrun.
  destruct (o !! this) as [v|] eqn:Hthis.
  2:{ unfold Vector.Resize, mbind, M_bind, Vector.deref in Hrun. simpl in Hrun.
      by rewrite Hthis in Hrun. }
  destruct (all_valid_holds _ this Hvalid) as (xs & cap & Hh); [by eauto|].
  pose proof Hh as (_ & _ & Hlen & _)%holds_inv.
  destruct (wp_val _ _ _ _ _ _ (Resize_full h o tr this xs cap n Hh) Hrun)
    as (Hnew & _ & _ & Htr & Hconf & _).
  eapply (accounted_step _ _ this); [done|done|done|apply Hconf|exact Htr|].
  rewrite length_app, length_take, length_replicate.
  repeat case_decide; count; rewrite ?length_drop; lia.
Qed.

Lemma PopBack_accounted s this s' :
  all_valid s → accounted s → Vector.PopBack this s = Val () s' → accounted s'.
Proof.
  destruct s as [h o tr]. intros Hvalid Hacc Hrun.
  destruct (o !! this) as [v|] eqn:Hthis.
  2:{ unfold Vector.PopBack, noexcept, mbind, M_bind, Vector.deref in Hrun. simpl in Hrun.
      by rewrite Hthis in Hrun. }
  destruct (all_valid_holds _ this Hvalid) as (xs & cap & Hh); [by eauto|].
  destruct xs as [|x xs _] using rev_ind.
  { apply holds_inv in Hh as (buf & Ho & _).
    unfold Vector.PopBack, noexcept, mbind, M_bind, Vector.deref in Hrun. simpl in Hrun.
    by rewrite Ho in Hrun. }
  eapply (wp_val _ _ (λ _ s', accounted s') (λ _, True)); [|exact Hrun].
  eapply wp_PopBack; [done|]. intros a Ho Ha.
  eapply (accounted_step _ _ this (xs ++ [x]) cap xs cap [Done (Destroy x)]);
    [done|done| | |done|].
  - eapply holds_intro; [by rewrite lookup_insert_eq| |map_lookup].
    apply holds_inv in Hh as (? & _ & Hlen & _).
    rewrite length_app in Hlen. simpl in Hlen. lia.
  - intros w Hw. simpl. by rewrite lookup_insert_ne.
  - rewrite length_app. simpl. unfold constructed, destroyed. simpl. lia.
Qed.

Lemma Emplace_accounted s this xs cap i pos (a : args T) p s' :
  accounted s → holds s this xs cap → i ≤ length xs → position s this i = Some pos →
  Vector.Emplace this pos a s = Val p s' → accounted s'.
Proof.
  destruct s as [h o tr]. intros Hacc Hh Hi Hpos Hrun.
  pose proof Hh as (_ & _ & Hlen & _)%holds_inv.
  destruct (wp_val _ _ _ _ _ _ (Emplace_full h o tr this xs cap i pos a Hh Hi Hpos) Hrun)
    as (_ & Hnew & _ & _ & _ & _ & Hgrow & Hconf & Hend & Hmid).
  assert (length (take i xs ++ args_value a :: drop i xs) = S (length xs)) as Hlen'.
  { rewrite length_app. simpl. rewrite length_take, length_drop. lia. }
  destruct (decide (length xs = cap)) as [Hfull|Hspare].
  - eapply (accounted_step _ _ this); [done|done|done|apply Hconf|exact (Hgrow Hfull)|].
    rewrite Hlen'. count. rewrite length_take, length_drop. lia.
  - destruct (decide (i = length xs)) as [Hlast|Hmiddle].
    + eapply (accounted_step _ _ this); [done|done|done|apply Hconf|apply Hend; lia|].
      rewrite Hlen'. count. lia.
    + destruct xs as [|z ys _] using rev_ind; [simpl in *; lia|].
      eapply (accounted_step _ _ this); [done|done|done|apply Hconf| |].
      * apply (Hmid ltac:(lia) ys z eq_refl). lia.
      * rewrite Hlen'.
        change [Done (args_op a); Done (MoveConstruct z)]
          with ([Done (args_op a)] ++ [Done (MoveConstruct z)]).
        count. unfold constructed, destroyed. simpl. lia.
Qed.

Lemma Emplace_at_accounted s this i (a : args T) p s' :
  all_valid s → accounted s →
  (b ← Vector.begin this; Vector.Emplace this (ptr_add b i) a) s = Val p s' →
  accounted s'.
Proof.
  destruct s as [h o tr]. intros Hvalid Hacc Hrun.
  destruct (o !! this) as [v|] eqn:Hthis.
  2:{ unfold Vector.begin, mbind, M_bind, Vector.deref in Hrun. simpl in Hrun.
      by rewrite Hthis in Hrun. }
  destruct (all_valid_holds _ this Hvalid) as (xs & cap & Hh); [by eauto|].
  apply bind_val_inv in Hrun as (b & s1 & Hb & Hrun).
  rewrite (begin_val (State h o tr) _ _ Hthis) in Hb. injection Hb as <- <-.
  assert (position (State h o tr) this i = Some (ptr_add (Ptr (buffer_ (data_ v)) 0) i)) as Hpos.
  { unfold position. simpl. by rewrite Hthis. }
  destruct (decide (i ≤ length xs)) as [Hi|Hi].
  - by eapply Emplace_accounted.
  - destruct (Emplace_out_of_range _ _ _ _ i _ a _ _ Hh ltac:(lia) Hpos Hrun).
Qed.

Lemma PushBack_accounted s this y s' :
  all_valid s → accounted s → Vector.PushBack this y s = Val () s' → accounted s'.
Proof.
  destruct s as [h o tr]. intros Hvalid Hacc Hrun.
  destruct (o !! this) as [v|] eqn:Hthis.
  2:{ unfold Vector.PushBack, Vector.EmplaceBack, Vector.cend, Vector.end_,
        mbind, M_bind, Vector.deref in Hrun. simpl in Hrun.
      by rewrite Hthis in Hrun. }
  destruct (all_valid_holds _ this Hvalid) as (xs & cap & Hh); [by eauto|].
  pose proof Hh as (buf & Ho & Hlen & _)%holds_inv.
  unfold Vector.PushBack, Vector.EmplaceBack, Vector.cend in Hrun.
  apply bind_val_inv in Hrun as (p & s1 & Hrun & [= <-]).
  apply bind_val_inv in Hrun as (e & s2 & He & Hrun).
  rewrite (end_val (State h o tr) _ _ _ _ Ho Hlen) in He. injection He as <- <-.
  eapply (Emplace_accounted _ this xs cap (length xs)); [done|done|done| |done].
  unfold position. simpl. by rewrite Ho.
Qed.

Lemma Erase_at_accounted s this i p s' :
  all_valid s → accounted s →
  (b ← Vector.begin this; Vector.Erase this (ptr_add b i)) s = Val p s' →
  accounted s'.
Proof.
  destruct s as [h o tr]. intros Hvalid Hacc Hrun.
  destruct (o !! this) as [v|] eqn:Hthis.
  2:{ unfold Vector.begin, mbind, M_bind, Vector.deref in Hrun. simpl in Hrun.
      by rewrite Hthis in Hrun. }
  destruct (all_valid_holds _ this Hvalid) as (xs & cap & Hh); [by eauto|].
  apply bind_val_inv in Hrun as (b & s1 & Hb & Hrun).
  rewrite (begin_val (State h o tr) _ _ Hthis) in Hb. injection Hb as <- <-.
  assert (position (State h o tr) this i = Some (ptr_add (Ptr (buffer_ (data_ v)) 0) i)) as Hpos.
  { unfold position. simpl. by rewrite Hthis. }
  destruct (decide (i < length xs)) as [Hi|Hi].
  - destruct (proj1 (Erase_full h o tr this xs cap i _ Hh Hi Hpos) _ _ Hrun)
      as (Hnew & _ & _ & _ & Hconf & Htr).
    destruct (lookup_lt_is_Some_2 xs i Hi) as [d Hd].
    eapply (accounted_step _ _ this); [done|done|done|apply Hconf|exact (Htr d Hd)|].
    rewrite length_app, length_take, length_drop. count.
    unfold constructed, destroyed. simpl. lia.
  - destruct (Erase_out_of_range _ _ _ _ i _ _ _ Hh ltac:(lia) Hpos Hrun).
Qed.

Lemma exec_accounted (c : command T) s s' :
  is_move_assign c = false → all_valid s → accounted s →
  exec c s = Val () s' → accounted s'.
Proof.
  intros Hc Hvalid Hacc Hrun. destruct c; simpl in *; try done.
  - apply bind_val_inv in Hrun as (r & s1 & Hrun & [= <-]). by eapply ctor_default_accounted.
  - apply bind_val_inv in Hrun as (r & s1 & Hrun & [= <-]). by eapply ctor_accounted.
  - apply bind_val_inv in Hrun as (r & s1 & Hrun & [= <-]). by eapply ctor_copy_accounted.
  - apply bind_val_inv in Hrun as (r & s1 & Hrun & [= <-]). by eapply ctor_move_accounted.
  - by eapply copy_assign_accounted.
  - by eapply PushBack_accounted.
  - apply bind_val_inv in Hrun as (b & s1 & Hb & Hrun).
    apply bind_val_inv in Hrun as (p & s2 & Hrun & [= <-]).
    eapply (Emplace_at_accounted s this i a p); [done|done|].
    unfold mbind, M_bind at 1. by rewrite Hb.
  - apply bind_val_inv in Hrun as (b & s1 & Hb & Hrun).
    apply bind_val_inv in Hrun as (p & s2 & Hrun & [= <-]).
    eapply (Emplace_at_accounted s this i (ByCopy x) p); [done|done|].
    unfold mbind, M_bind at 1. by rewrite Hb.
  - apply bind_val_inv in Hrun as (b & s1 & Hb & Hrun).
    apply bind_val_inv in Hrun as (p & s2 & Hrun & [= <-]).
    eapply (Erase_at_accounted s this i p); [done|done|].
    unfold mbind, M_bind at 1. by rewrite Hb.
  - by eapply PopBack_accounted.
  - by eapply Reserve_accounted.
  - by eapply Resize_accounted.
  - by eapply Swap_accounted.
Qed.

Lemma init_accounted : accounted (init (T:=T)).
Proof. unfold accounted, total_size. simpl. by rewrite map_fold_empty. Qed.

(** X23.  Objects are accounted for: after any sequence of calls that
    all return and contains no move assignment, started in a valid
    state where the count holds (the empty state is one), the number
    of element constructions in the trace equals the number of
    destructions plus the number of elements of all the vectors: no
    element is leaked, destroyed twice or left unconstructed. *)
Theorem objects_accounted (cs : list (command T)) s0 s :
  all_valid s0 → accounted s0 →
  Forall (λ c, is_move_assign c = false) cs →
  exec_all cs s0 = Val () s →
  constructed (trace s) = destroyed (trace s) + total_size s.
Proof.
  intros Hvalid Hacc Hcs Hrun.
  revert s0 Hvalid Hacc Hrun. induction Hcs as [|c cs Hc _ IH]; intros s0 Hvalid Hacc Hrun.
  - simpl in Hrun. by injection Hrun as <-.
  - simpl in Hrun. apply bind_val_inv in Hrun as ([] & s1 & H1 & Hrun).
    eapply (IH s1); [by eapply exec_valid|by eapply exec_accounted|done].
Qed.
End accounting_steps.

(** ** Requests, exceptions and validity on a platform *)

Section copy_throws.
Context {T : Type} `{!Element T}.
Implicit Types (s : state T) (this other : vref) (xs ys : list T).

(** [std::uninitialized_copy_n] when the copy of the element of index
    [k] is the first that throws: the [k] copies made so far are
    destroyed, in the order in which they were made, and the
    destination is uninitialised again. *)
Lemma wp_copy_loop_throws a a' f d sl sr dl dr built todo k x h o tr :
  a ≠ a' → f = length sl → d = length dl →
  h !! a = Some (sl ++ map Live (built ++ todo) ++ sr) →
  h !! a' = Some (dl ++ map Live built ++ replicate (length todo) Uninit ++ dr) →
  todo !! k = Some x →
  (∀ j y, j < k → todo !! j = Some y →
     throws (CopyConstruct y) (tr ++ map (λ z, Done (CopyConstruct z)) (take j todo)) = false) →
  throws (CopyConstruct x) (tr ++ map (λ z, Done (CopyConstruct z)) (take k todo)) = true →
  wp (uninitialized_n
        (λ i, copy_construct_at (ptr_add (Ptr (Some a') d) i) (ptr_add (Ptr (Some a) f) i))
        (Ptr (Some a') d) (length built) (length todo))
     (State h o tr)
     (λ _ _, False)
     (λ s', s' = State (<[a' := dl ++ replicate (length built + length todo) Uninit ++ dr]> h) o
                       (tr ++ map (λ z, Done (CopyConstruct z)) (take k todo)
                           ++ [Threw (CopyConstruct x)]
                           ++ map (λ z, Done (Destroy z)) (built ++ take k todo))).
Proof.
  intros Hne -> ->. revert k built h tr.
  induction todo as [|y todo IH]; intros k built h tr Ha Ha' Hk Hbefore Hthrow; [done|].
  simpl uninitialized_n. simpl length.
  apply wp_bind, wp_on_unwind. unfold copy_construct_at.
  rewrite seg_split in Ha.
  apply wp_bind. eapply wp_load; [done|simpl; apply lookup_seg; len|].
  apply wp_bind, wp_perform; simpl; intros Hy.
  - destruct k as [|k].
    { simpl in *. injection Hk as ->. rewrite app_nil_r in Hthrow. congruence. }
    simpl in Hk.
    rewrite (app_assoc dl) in Ha'.
    eapply wp_write_slot; [done|simpl; apply length_seg; len|]. simpl.
    rewrite insert_seg by len.
    replace (S (length built)) with (length (built ++ [y])) by len.
    eapply wp_mono; [apply (IH k (built ++ [y]))|done|].
    + rewrite lookup_insert_ne by done.
      rewrite <- (app_assoc built). simpl. by rewrite seg_split.
    + rewrite lookup_insert_eq. rewrite map_app. simpl. by rewrite <- !app_assoc.
    + done.
    + intros j z Hj Hz. rewrite <- app_assoc. simpl.
      apply (Hbefore (S j) z); [lia|done].
    + rewrite <- app_assoc. simpl. exact Hthrow.
    + intros s' ->. simpl. rewrite insert_insert_eq. f_equal.
      * do 2 f_equal. f_equal. f_equal. rewrite length_app. simpl. lia.
      * rewrite <- !app_assoc. simpl. by rewrite <- ?app_assoc.
  - destruct k as [|k].
    2:{ specialize (Hbefore 0 y ltac:(lia) eq_refl). simpl in Hbefore.
        rewrite app_nil_r in Hbefore. congruence. }
    simpl in Hk. injection Hk as ->. simpl.
    eapply wp_destroy_n; [done|done|done|]. simpl.
    rewrite app_nil_r. f_equal.
    + do 2 f_equal. rewrite replicate_add. by rewrite <- app_assoc.
    + by rewrite <- app_assoc.
Qed.
Lemma Reserve_copy_throws h o tr this xs cap n k x :
  holds (State h o tr) this xs cap → cap < n →
  Vector.transfer_by_move = false → first_throw tr xs k x →
  Vector.Reserve this n (State h o tr) = Exn (State h o (tr ++ copies_undone xs k x)).
Proof.
  intros (buf & Ho & Hlen & Hb)%holds_inv Hn Hcopy (Hk & Hbefore & Hthrow).
  apply wp_exn_eq. unfold Vector.Reserve.
  apply wp_bind. eapply wp_deref; [done|]. simpl.
  rewrite decide_False by (unfold RawMemory.Capacity; simpl; lia).
  apply wp_bind, wp_RawMemory_ctor; [lia|]. intros a' Hfresh.
  apply wp_bind, wp_on_unwind. simpl. rewrite Hcopy.
  destruct buf as [a|]; [|destruct Hb as [_ ->]; done].
  assert (a ≠ a') by congruence.
  apply wp_bind. unfold RawMemory.GetAddress, uninitialized_copy_n. simpl buffer_.
  eapply wp_mono;
    [apply (wp_copy_loop_throws a a' 0 0 [] (replicate (cap - length xs) Uninit)
              [] (replicate (n - length xs) Uninit) [] xs k x);
       [done|done|done| | |done|done|done]
    |done|].
  - simpl. by rewrite lookup_insert_ne.
  - simpl. rewrite lookup_insert_eq. f_equal.
    rewrite <- replicate_add. f_equal. lia.
  - intros s' ->. simpl.
    apply wp_RawMemory_dtor; [|done]. simpl. intros ? [= <-].
    split; [by rewrite lookup_insert_eq|].
    rewrite insert_insert_eq, delete_insert_id by done. done.
Qed.

Lemma ctor_copy_throws h o tr other ys cap k x :
  holds (State h o tr) other ys cap → first_throw tr ys k x →
  Vector.ctor_copy other (State h o tr) = Exn (State h o (tr ++ copies_undone ys k x)).
Proof.
  intros (buf & Ho & Hlen & Hb)%holds_inv (Hk & Hbefore & Hthrow).
  apply wp_exn_eq. unfold Vector.ctor_copy.
  apply wp_bind. eapply wp_deref; [done|]. simpl.
  destruct buf as [a|]; [|destruct Hb as [_ ->]; done].
  apply wp_bind, wp_RawMemory_ctor; [by destruct ys|]. intros a' Hfresh.
  assert (a ≠ a') by congruence.
  apply wp_bind, wp_on_unwind. unfold RawMemory.GetAddress, uninitialized_copy_n. simpl.
  eapply wp_mono;
    [apply (wp_copy_loop_throws a a' 0 0 [] (replicate (cap - length ys) Uninit)
              [] [] [] ys k x);
       [done|done|done| | |done|done|done]
    |done|].
  - simpl. by rewrite lookup_insert_ne.
  - simpl. rewrite lookup_insert_eq. by rewrite app_nil_r.
  - intros s' ->. simpl.
    apply wp_RawMemory_dtor; [|done]. simpl. intros ? [= <-].
    split; [by rewrite lookup_insert_eq|].
    rewrite insert_insert_eq, delete_insert_id by done. done.
Qed.

Lemma copy_assign_copy_throws h o tr this other xs cap ys cap' k x :
  holds (State h o tr) this xs cap → holds (State h o tr) other ys cap' →
  cap < length ys → first_throw tr ys k x →
  Vector.copy_assign this other (State h o tr)
  = Exn (State h o (tr ++ copies_undone ys k x)).
Proof.
  intros Hh Hh' Hlt Hfirst.
  pose proof Hh as (buf & Ho & _)%holds_inv.
  pose proof Hh' as (buf' & Ho' & _)%holds_inv.
  unfold Vector.copy_assign, mbind, M_bind, Vector.deref. simpl.
  rewrite Ho. simpl. rewrite Ho'. unfold RawMemory.Capacity. simpl.
  rewrite decide_True by done.
  by rewrite (ctor_copy_throws h o tr other ys cap' k x).
Qed.
End copy_throws.

Section requests_more.
Context {T : Type} `{!Element T} `{!Platform T}.
Implicit Types (s : state T) (this other : vref) (xs ys : list T).

Local Abbreviation ideal := (@unbounded T).

(** X1.  [Vector(size)], for a [size] whose size in bytes can be
    written in a [std::size_t].  It returns a new vector of [size]
    value-initialised elements whose capacity is exactly [size], after
    [size] value constructions; the vectors and blocks that existed are
    untouched, and for [size = 0] nothing is allocated.  An exception
    leaves heap and vectors as before the call: either [operator new]
    refused the storage and no element operation took place, or the
    [k]-th value construction threw, the [k] objects built so far were
    destroyed and the storage was released. *)
Theorem ctor_value_initializes s n :
  representable n →
  wp (Vector.ctor n) s
     (λ r s',
        objects s !! r = None ∧
        holds s' r (replicate n value_init) n ∧
        trace s' = trace s ++ replicate n (Done ValueConstruct) ∧
        (∀ other, other ≠ r → objects s' !! other = objects s !! other) ∧
        (∀ a b, heap s !! a = Some b → heap s' !! a = Some b) ∧
        (n = 0 → heap s' = heap s))
     (λ s',
        heap s' = heap s ∧ objects s' = objects s ∧
        ((refused n s ∧ trace s' = trace s) ∨
         ∃ k, k < n ∧
              throws ValueConstruct (trace s ++ replicate k (Done ValueConstruct)) = true ∧
              trace s' = trace s ++ replicate k (Done ValueConstruct) ++ [Threw ValueConstruct]
                                 ++ replicate k (Done (Destroy value_init)))) ∧
  (refused n s → Vector.ctor n s = Exn s).
Proof.
  intros Hn. pose proof (ctor_platform n s Hn) as Hrun. split.
  2:{ intros Href. by rewrite Hrun, decide_True. }
  eapply wp_mono; [eapply wp_refusable; [exact Hrun|apply ctor_unbounded]|done|].
  intros s' [(? & ? & ?)|[? ->]]; split_and!; auto.
Qed.

(** X5.  No leak: constructing a vector ([Vector(n)], or a copy of a
    vector) and destroying it leaves the heap and the vectors as they
    were, with as many destructions as constructions in the trace; this
    is so too when a construction throws or [operator new] refuses the
    storage.  The size in bytes of the elements must be representable
    in a [std::size_t]. *)
Theorem construct_destroy_round_trip s :
  (∀ n,
     representable n →
     wp (r ← Vector.ctor n; Vector.dtor r) s
        (λ _ s',
           heap s' = heap s ∧ objects s' = objects s ∧
           trace s' = trace s ++ replicate n (Done ValueConstruct)
                              ++ replicate n (Done (Destroy value_init)))
        (λ s', (value_construct_can_throw ∨ refused n s) ∧
               heap s' = heap s ∧ objects s' = objects s)) ∧
  (∀ other ys cap,
     holds s other ys cap → representable (length ys) →
     wp (r ← Vector.ctor_copy other; Vector.dtor r) s
        (λ _ s',
           heap s' = heap s ∧ objects s' = objects s ∧
           trace s' = trace s ++ map (λ y, Done (CopyConstruct y)) ys
                              ++ map (λ y, Done (Destroy y)) ys)
        (λ s', (copy_construct_can_throw ∨ refused (length ys) s) ∧
               heap s' = heap s ∧ objects s' = objects s)).
Proof.
  destruct (round_trip_unbounded s) as [Hctor Hcopy]. split.
  - intros n Hn.
    eapply wp_mono; [eapply (wp_refusable _ _ s (refused n s)); [|apply (Hctor n)]|done|].
    + unfold mbind, M_bind. rewrite ctor_platform by done. by case_decide.
    + intros s' [(? & ? & ?)|[? ->]]; auto.
  - intros other ys cap Hh Hn.
    destruct (holds_object _ _ _ _ Hh) as (v & Hv & Hsize & _).
    eapply wp_mono;
      [eapply (wp_refusable _ _ s (refused (length ys) s)); [|by eapply Hcopy]|done|].
    + unfold mbind, M_bind. rewrite (ctor_copy_platform other s v) by (by rewrite ?Hsize).
      rewrite Hsize. by case_decide.
    + intros s' [(? & ? & ?)|[? ->]]; auto.
Qed.

(** X14.  [Reserve(n)] beyond the capacity and exceptions, for a
    request that can be written in a [std::size_t].  When
    [operator new] refuses the storage, [std::bad_alloc] propagates and
    the state is as it was.  When the storage is granted, the elements
    are transferred by copy and the copy of the element of index [k] is
    the first that throws, the [k] copies made are destroyed, the new
    storage is released and the exception propagates: heap and vectors
    are as they were and the trace has exactly these operations (strong
    guarantee).  For an element type with a [noexcept] move constructor
    [Reserve] returns whenever the storage is granted, with the same
    elements and capacity [n].  Whatever the exception, the vector
    objects are as they were, and so is the heap when the transfer is
    by copy. *)
Theorem Reserve_exception s this xs cap n :
  holds s this xs cap → cap < n → representable n →
  (refused n s → Vector.Reserve this n s = Exn s) ∧
  (¬ refused n s → Vector.transfer_by_move = false →
   ∀ k x, first_throw (trace s) xs k x →
     Vector.Reserve this n s
     = Exn (State (heap s) (objects s) (trace s ++ copies_undone xs k x))) ∧
  (¬ refused n s → is_nothrow_move_constructible = true →
   ∃ s', Vector.Reserve this n s = Val () s' ∧ holds s' this xs n) ∧
  (∀ s', Vector.Reserve this n s = Exn s' →
     objects s' = objects s ∧ (Vector.transfer_by_move = false → heap s' = heap s)).
Proof.
  intros Hholds Hlt Hn.
  destruct (holds_object _ _ _ _ Hholds) as (v & Hv & Hsize & Hcap & Hlen).
  pose proof (Reserve_platform this n s v Hv) as Hrun. rewrite Hcap in Hrun.
  specialize (Hrun (λ _, Hn)).
  destruct s as [h o tr].
  pose proof (Reserve_grow_full h o tr this xs cap n Hholds Hlt) as Hwp.
  split_and!.
  - intros Href. by rewrite Hrun, decide_True.
  - intros Hok Hcopy k x Hfirst. rewrite Hrun, decide_False by (by intros [_ ?]).
    by eapply Reserve_copy_throws.
  - intros Hok [Hmove Hnothrow]%nothrow_move_policy.
    rewrite Hrun, decide_False by (by intros [_ ?]).
    destruct (wp_result _ _ _ _ Hwp) as ([] & s' & Hval & Hh & _).
    { intros s' [_ Hc]. rewrite Hmove in Hc. by apply Hnothrow. }
    by exists s'.
  - intros s' Hexn. rewrite Hrun in Hexn.
    destruct (decide (_ ∧ _)) as [_|_]; [by injection Hexn as <-|].
    destruct (wp_exn_inv _ _ _ _ _ Hwp Hexn) as [Ho Hc]. split; [done|].
    intros Hcopy. rewrite Hcopy in Hc. by destruct Hc.
Qed.

(** X15.  [Resize] and exceptions, for a request that can be written
    in a [std::size_t] when the vector has to grow.  The vector objects
    are as before the call.  The heap is as before too, unless the
    vector had to grow beyond its capacity and the elements were
    transferred by move.  Either [operator new] refused the storage,
    and the state is as it was; or, when only the default constructor
    can throw, the vector keeps its size and capacity but, if it had
    to grow, its elements are left moved-from. *)
Theorem Resize_exception s this xs cap n s' :
  holds s this xs cap → (cap < n → representable n) →
  Vector.Resize this n s = Exn s' →
  objects s' = objects s ∧
  ((cap < n → Vector.transfer_by_move = false) → heap s' = heap s) ∧
  ((cap < n ∧ refused n s ∧ s' = s) ∨
   (¬ move_construct_can_throw → ¬ copy_construct_can_throw →
    value_construct_can_throw ∧
    holds s' this (if decide (n ≤ cap) then xs else map left_behind xs) cap)).
Proof.
  intros Hholds Hn Hexn.
  destruct (holds_object _ _ _ _ Hholds) as (v & Hv & Hsize & Hcap & Hlen).
  pose proof (Resize_platform this n s v Hv) as Hrun. rewrite Hcap in Hrun.
  specialize (Hrun Hn). rewrite Hrun in Hexn.
  destruct (decide (_ ∧ _)) as [[? ?]|_].
  { injection Hexn as <-. split_and!; [done|done|by left]. }
  destruct s as [h o tr].
  destruct (wp_exn_inv _ _ _ _ _ (Resize_full h o tr this xs cap n Hholds) Hexn)
    as (_ & ? & ? & ?).
  split_and!; [done|done|by right].
Qed.

(** X16.  Copy assignment from a source with more elements than the
    destination has capacity gives the strong guarantee.  When
    [operator new] refuses the storage for the copy, [std::bad_alloc]
    propagates and the state is as it was.  When the storage is granted
    and the copy of the element of index [k] is the first that throws,
    the [k] copies made are destroyed, the storage is released and the
    exception propagates: heap and vectors are as they were and the
    trace has exactly these operations.  Whatever the exception, heap
    and vectors are as they were. *)
Theorem copy_assign_realloc_exception s this other xs cap ys cap' :
  holds s this xs cap → holds s other ys cap' →
  this = other ∨ separate s this other →
  cap < length ys → representable (length ys) →
  (refused (length ys) s → Vector.copy_assign this other s = Exn s) ∧
  (¬ refused (length ys) s →
   ∀ k x, first_throw (trace s) ys k x →
     Vector.copy_assign this other s
     = Exn (State (heap s) (objects s) (trace s ++ copies_undone ys k x))) ∧
  (∀ s', Vector.copy_assign this other s = Exn s' →
     heap s' = heap s ∧ objects s' = objects s).
Proof.
  intros Hthis Hother Hsep Hbig Hn.
  destruct (holds_object _ _ _ _ Hthis) as (v & Hv & Hsize & Hcap & Hlen).
  destruct (holds_object _ _ _ _ Hother) as (w & Hw & Hsize' & Hcap' & Hlen').
  pose proof (copy_assign_platform this other s v w Hv Hw) as Hrun.
  rewrite Hcap, Hsize' in Hrun. specialize (Hrun (λ _, Hn)).
  destruct s as [h o tr]. split_and!.
  - intros Href. by rewrite Hrun, decide_True.
  - intros Hok k x Hfirst. rewrite Hrun, decide_False by (by intros [_ ?]).
    by eapply copy_assign_copy_throws.
  - intros s' Hexn. rewrite Hrun in Hexn.
    destruct (decide (_ ∧ _)) as [_|_]; [by injection Hexn as <-|].
    by destruct (wp_exn_inv _ _ _ _ _
           (copy_assign_realloc_full h o tr this other xs cap ys cap' Hthis Hother Hsep Hbig)
           Hexn) as (_ & ? & ?).
Qed.
End requests_more.

Section capacities.
Context {T : Type} `{!Element T}.
Implicit Types (s : state T) (h : gmap addr (list (slot T))) (o : gmap vref Vector).
Implicit Types (tr : list (event T)) (xs ys : list T) (this other : vref).
Variable ok : nat → Prop.
Hypothesis ok_0 : ok 0.
Hypothesis ok_le : ∀ n m, n ≤ m → ok m → ok n.

Lemma capacities_step s s' this xs cap :
  capacities ok s → holds s' this xs cap →
  (∀ w, w ≠ this → objects s' !! w = objects s !! w) →
  ok cap → capacities ok s'.
Proof using Type.
  intros Hs (v' & Hv' & _ & Hcap & _) Hframe Hok v w Hw.
  destruct (decide (v = this)) as [->|Hne].
  - rewrite Hv' in Hw. injection Hw as <-. by rewrite Hcap.
  - rewrite Hframe in Hw by done. by eapply Hs.
Qed.

Lemma capacities_insert s s' r v :
  capacities ok s → objects s' = <[r := v]> (objects s) →
  ok (capacity_ (data_ v)) → capacities ok s'.
Proof using Type.
  intros Hs Ho Hok u w Hw. rewrite Ho in Hw.
  destruct (decide (u = r)) as [->|Hne].
  - rewrite lookup_insert_eq in Hw. by injection Hw as <-.
  - rewrite lookup_insert_ne in Hw by done. by eapply Hs.
Qed.

Lemma capacities_holds s this xs cap :
  capacities ok s → holds s this xs cap → ok cap ∧ ok (length xs).
Proof using ok_le.
  intros Hs (v & Hv & _ & Hcap & Hlen & _).
  assert (ok cap) by (rewrite <- Hcap; by eapply Hs).
  split; [done|]. eapply ok_le; [|done]. by rewrite <- Hcap.
Qed.

Lemma ctor_default_capacities s r s' :
  capacities ok s → Vector.ctor_default s = Val r s' → capacities ok s'.
Proof using ok_0.
  destruct s as [h o tr]. intros Hs Hrun.
  eapply (wp_val _ _ (λ _ s', capacities ok s') (λ _, True)); [|exact Hrun].
  apply wp_new_object. intros r' Hr.
  by eapply (capacities_insert (State h o tr)).
Qed.

Lemma ctor_capacities s n r s' :
  capacities ok s → ok n → Vector.ctor n s = Val r s' → capacities ok s'.
Proof using Type.
  destruct s as [h o tr]. intros Hs Hok Hrun.
  eapply (wp_val _ _ (λ _ s', capacities ok s') (λ _, True)); [|exact Hrun].
  apply wp_ctor; [|done]. intros r' buf Hr Hbuf.
  by eapply (capacities_insert (State h o tr)).
Qed.

Lemma ctor_copy_capacities s other r s' :
  all_valid s → capacities ok s → Vector.ctor_copy other s = Val r s' → capacities ok s'.
Proof using ok_le.
  destruct s as [h o tr]. intros Hvalid Hs Hrun.
  destruct (o !! other) as [w|] eqn:Hother.
  2:{ unfold Vector.ctor_copy, mbind, M_bind, Vector.deref in Hrun. simpl in Hrun.
      by rewrite Hother in Hrun. }
  destruct (all_valid_holds _ other Hvalid) as (ys & cap & Hholds); [by eauto|].
  destruct (capacities_holds _ _ _ _ Hs Hholds) as [_ Hok].
  eapply (wp_val _ _ (λ _ s', capacities ok s') (λ _, True)); [|exact Hrun].
  eapply wp_ctor_copy; [done| |done]. intros r' buf Hr Hbuf.
  by eapply (capacities_insert (State h o tr)).
Qed.

Lemma ctor_move_capacities s other r s' :
  capacities ok s → Vector.ctor_move other s = Val r s' → capacities ok s'.
Proof using ok_0.
  destruct s as [h o tr]. intros Hs Hrun.
  destruct (o !! other) as [w|] eqn:Hother.
  2:{ unfold Vector.ctor_move, mbind, M_bind, Vector.deref in Hrun. simpl in Hrun.
      by rewrite Hother in Hrun. }
  eapply (wp_val _ _ (λ _ s', capacities ok s') (λ _, True)); [|exact Hrun].
  eapply wp_ctor_move; [done|]. intros r' Hr.
  eapply (capacities_insert (State h (<[r' := w]> o) tr)); [|done|done].
  eapply (capacities_insert (State h o tr)); [done|done|]. by eapply (Hs other).
Qed.

Lemma Swap_capacities s this other s' :
  capacities ok s → Vector.Swap this other s = Val () s' → capacities ok s'.
Proof using Type.
  destruct s as [h o tr]. intros Hs Hrun.
  destruct (o !! this) as [v|] eqn:Hthis.
  2:{ unfold Vector.Swap, mbind, M_bind, RawMemory.read in Hrun. simpl in Hrun.
      by rewrite Hthis in Hrun. }
  destruct (o !! other) as [w|] eqn:Hother.
  2:{ unfold Vector.Swap, mbind, M_bind, RawMemory.read in Hrun. simpl in Hrun.
      rewrite Hthis in Hrun. simpl in Hrun. by rewrite Hother in Hrun. }
  eapply (wp_val _ _ (λ _ s', capacities ok s') (λ _, True)); [|exact Hrun].
  eapply wp_Swap; [done..|].
  eapply (capacities_insert (State h (<[this := w]> o) tr)); [|done|by eapply (Hs this)].
  eapply (capacities_insert (State h o tr)); [done|done|by eapply (Hs other)].
Qed.

Lemma copy_assign_capacities s this other s' :
  all_valid s → capacities ok s →
  Vector.copy_assign this other s = Val () s' → capacities ok s'.
Proof using ok_le.
  destruct s as [h o tr]. intros Hvalid Hs Hrun.
  destruct (o !! this) as [v|] eqn:Hthis.
  2:{ unfold Vector.copy_assign, mbind, M_bind, Vector.deref in Hrun. simpl in Hrun.
      by rewrite Hthis in Hrun. }
  destruct (o !! other) as [w|] eqn:Hother.
  2:{ unfold Vector.copy_assign, mbind, M_bind, Vector.deref in Hrun. simpl in Hrun.
      rewrite Hthis in Hrun. simpl in Hrun. by rewrite Hother in Hrun. }
  destruct (all_valid_holds _ this Hvalid) as (xs & cap & Hh); [by eauto|].
  destruct (all_valid_holds _ other Hvalid) as (ys & cap' & Hh'); [by eauto|].
  pose proof (all_valid_separate _ this other Hvalid) as Hsep.
  destruct (capacities_holds _ _ _ _ Hs Hh) as [Hcap _].
  destruct (capacities_holds _ _ _ _ Hs Hh') as [_ Hys].
  destruct (decide (length ys ≤ cap)) as [Hfit|Hbig].
  - destruct (wp_val _ _ _ _ _ _
                (copy_assign_within_full h o tr this other xs cap ys cap' Hh Hh' Hsep Hfit) Hrun)
      as (Hnew & _ & _ & _ & Hconf & _).
    by eapply (capacities_step (State h o tr) _ this).
  - assert (cap < length ys) as Hlt by lia.
    destruct (wp_val _ _ _ _ _ _
                (copy_assign_realloc_full h o tr this other xs cap ys cap' Hh Hh' Hsep Hlt) Hrun)
      as (Hnew & _ & _ & _ & Hconf & _).
    by eapply (capacities_step (State h o tr) _ this).
Qed.

Lemma Reserve_capacities s this n s' :
  all_valid s → capacities ok s → ok n →
  Vector.Reserve this n s = Val () s' → capacities ok s'.
Proof using Type.
  destruct s as [h o tr]. intros Hvalid Hs Hok Hrun.
  destruct (o !! this) as [v|] eqn:Hthis.
  2:{ unfold Vector.Reserve, mbind, M_bind, Vector.deref in Hrun. simpl in Hrun.
      by rewrite Hthis in Hrun. }
  destruct (all_valid_holds _ this Hvalid) as (xs & cap & Hh); [by eauto|].
  destruct (decide (n ≤ cap)) as [Hn|Hn].
  - rewrite (Reserve_noop _ _ _ _ _ Hh Hn) in Hrun. by injection Hrun as <-.
  - assert (cap < n) as Hlt by lia.
    destruct (wp_val _ _ _ _ _ _ (Reserve_grow_full h o tr this xs cap n Hh Hlt) Hrun)
      as (Hnew & _ & Hconf & _).
    by eapply (capacities_step (State h o tr) _ this).
Qed.

Lemma Resize_capacities s this n s' :
  all_valid s → capacities ok s → ok n →
  Vector.Resize this n s = Val () s' → capacities ok s'.
Proof using ok_le.
  destruct s as [h o tr]. intros Hvalid Hs Hok Hrun.
  destruct (o !! this) as [v|] eqn:Hthis.
  2:{ unfold Vector.Resize, mbind, M_bind, Vector.deref in Hrun. simpl in Hrun.
      by rewrite Hthis in Hrun. }
  destruct (all_valid_holds _ this Hvalid) as (xs & cap & Hh); [by eauto|].
  destruct (capacities_holds _ _ _ _ Hs Hh) as [Hcap _].
  destruct (wp_val _ _ _ _ _ _ (Resize_full h o tr this xs cap n Hh) Hrun)
    as (Hnew & _ & _ & _ & Hconf & _).
  eapply (capacities_step (State h o tr) _ this); [done|done|done|].
  destruct (Nat.max_spec cap n) as [[_ ->]|[_ ->]]; done.
Qed.

Lemma PopBack_capacities s this s' :
  all_valid s → capacities ok s → Vector.PopBack this s = Val () s' → capacities ok s'.
Proof using Type.
  destruct s as [h o tr]. intros Hvalid Hs Hrun.
  destruct (o !! this) as [v|] eqn:Hthis.
  2:{ unfold Vector.PopBack, noexcept, mbind, M_bind, Vector.deref in Hrun. simpl in Hrun.
      by rewrite Hthis in Hrun. }
  destruct (all_valid_holds _ this Hvalid) as (xs & cap & Hh); [by eauto|].
  destruct xs as [|x xs _] using rev_ind.
  { apply holds_inv in Hh as (buf & Ho & _).
    unfold Vector.PopBack, noexcept, mbind, M_bind, Vector.deref in Hrun. simpl in Hrun.
    by rewrite Ho in Hrun. }
  eapply (wp_val _ _ (λ _ s', capacities ok s') (λ _, True)); [|exact Hrun].
  eapply wp_PopBack; [done|]. intros a Ho Ha.
  eapply (capacities_insert (State h o tr)); [done|done|]. exact (Hs this _ Ho).
Qed.

Lemma Emplace_capacities s this xs cap i pos (a : args T) p s' :
  capacities ok s → holds s this xs cap → i ≤ length xs → position s this i = Some pos →
  (length xs = cap → ok (grown cap)) →
  Vector.Emplace this pos a s = Val p s' → capacities ok s'.
Proof using ok_le.
  destruct s as [h o tr]. intros Hs Hh Hi Hpos Hok Hrun.
  destruct (capacities_holds _ _ _ _ Hs Hh) as [Hcap _].
  destruct (wp_val _ _ _ _ _ _ (Emplace_full h o tr this xs cap i pos a Hh Hi Hpos) Hrun)
    as (_ & Hnew & _ & Hframe & _).
  eapply (capacities_step (State h o tr) _ this); [done|done|done|].
  case_decide; auto.
Qed.

Lemma Erase_capacities s this xs cap i pos p s' :
  capacities ok s → holds s this xs cap → i < length xs → position s this i = Some pos →
  Vector.Erase this pos s = Val p s' → capacities ok s'.
Proof using ok_le.
  destruct s as [h o tr]. intros Hs Hh Hi Hpos Hrun.
  destruct (capacities_holds _ _ _ _ Hs Hh) as [Hcap _].
  destruct (proj1 (Erase_full h o tr this xs cap i pos Hh Hi Hpos) _ _ Hrun)
    as (Hnew & _ & _ & Hframe & _).
  by eapply (capacities_step (State h o tr) _ this).
Qed.
End capacities.

Section bounded.
Context {T : Type} `{!Element T} `{!Platform T}.
Implicit Types (s : state T) (h : gmap addr (list (slot T))) (o : gmap vref Vector).
Implicit Types (tr : list (event T)) (xs ys : list T) (this other : vref).

Local Abbreviation ideal := (@unbounded T).

(** A call of [Emplace] that returns got the storage it asked for, and
    returns the same on the idealised platform. *)
Lemma Emplace_platform_val this pos (a : args T) s v p s' :
  objects s !! this = Some v →
  (size_ v = capacity_ (data_ v) →
   size_t (size_ v * 2) = size_ v * 2 ∧ representable (grown (size_ v))) →
  Vector.Emplace this pos a s = Val p s' →
  Vector.Emplace (Platform0 := ideal) this pos a s = Val p s' ∧
  (size_ v = capacity_ (data_ v) → ¬ refused (grown (size_ v)) s).
Proof.
  intros Hv Hgrow Hrun.
  destruct (decide (size_ v = capacity_ (data_ v))) as [Hfull|Hspare].
  2:{ by rewrite <- (Emplace_platform_spare this pos a s v). }
  destruct (Hgrow Hfull) as [H2 Hn].
  assert (¬ refused (grown (size_ v)) s) as Hok.
  { intros Href. unfold Vector.Emplace in Hrun.
    apply bind_val_inv in Hrun as (b & s1 & Hb & Hrun).
    rewrite (begin_val s this v Hv) in Hb. injection Hb as <- <-.
    apply bind_val_inv in Hrun as (d & s1 & Hd & Hrun).
    assert (s1 = s) as ->.
    { unfold ranges_distance, mret, M_ret, abort in Hd. repeat case_decide; congruence. }
    apply bind_val_inv in Hrun as (v' & s1 & Hv' & Hrun).
    unfold Vector.deref in Hv'. rewrite Hv in Hv'. injection Hv' as <- <-.
    apply bind_val_inv in Hrun as ([] & s1 & Hre & Hrun).
    unfold RawMemory.Capacity in Hre. rewrite decide_True in Hre by done.
    rewrite (ReallocateAndEmbed_platform this d a s v) in Hre by done.
    by rewrite decide_True in Hre. }
  split; [|done].
  by rewrite <- (Emplace_platform_full this pos a s v).
Qed.

Variable limit : nat.
Hypothesis bounded : bounded_platform limit.

Local Abbreviation ok := (λ n : nat, n * Pos.to_nat sizeof ≤ limit).

Lemma fits_0 : ok 0.
Proof using Type. simpl. lia. Qed.

Lemma fits_le n m : n ≤ m → ok m → ok n.
Proof using Type. simpl. nia. Qed.

Lemma bounded_representable n : n * Pos.to_nat sizeof ≤ 2 * limit → representable n.
Proof using bounded. intros Hn. by apply bounded. Qed.

Lemma allocated_fits n s : ¬ refused n s → ok n.
Proof using bounded.
  intros Hok. destruct (decide (n = 0)) as [->|Hn]; [apply fits_0|].
  destruct bounded as (_ & Hnew & _). apply (Hnew _ s).
  destruct (new_throws _ s) eqn:Hthrows; [|done]. by destruct Hok.
Qed.

(** The storage that a full vector grows to can be asked for. *)
Lemma growth_representable n :
  ok n → size_t (n * 2) = n * 2 ∧ representable (grown n).
Proof using bounded.
  intros Hn. destruct bounded as (Hone & _ & Hsize). simpl in Hn. split.
  - apply Hsize. nia.
  - apply bounded_representable. unfold grown. case_decide; [lia|nia].
Qed.

Lemma holds_fits s this xs cap :
  fits limit s → holds s this xs cap → ok cap ∧ ok (length xs).
Proof using Type. intros Hs Hh. eapply capacities_holds; [apply fits_le|done..]. Qed.

Lemma Emplace_bounded s this xs cap i pos (a : args T) p s' :
  fits limit s → holds s this xs cap → i ≤ length xs → position s this i = Some pos →
  Vector.Emplace this pos a s = Val p s' →
  Vector.Emplace (Platform0 := ideal) this pos a s = Val p s' ∧ fits limit s'.
Proof using bounded.
  intros Hs Hh Hi Hpos Hrun.
  destruct (holds_object _ _ _ _ Hh) as (v & Hv & Hsize & Hcap & Hlen).
  destruct (holds_fits _ _ _ _ Hs Hh) as [Hokcap Hokxs].
  destruct (Emplace_platform_val this pos a s v p s' Hv) as [Hideal Hnot]; [|done|].
  { intros _. rewrite Hsize. by apply growth_representable. }
  split; [done|].
  eapply (Emplace_capacities ok fits_le s this xs cap i pos a p s'); [done..| |done].
  intros Hfull. eapply (allocated_fits _ s). rewrite <- Hfull, <- Hsize.
  apply Hnot. by rewrite Hsize, Hcap.
Qed.

Lemma exec_bounded (c : command T) s s' :
  all_valid s → fits limit s →
  is_move_assign c = false → representable (request c) →
  exec c s = Val () s' →
  exec (Platform0 := ideal) c s = Val () s' ∧ fits limit s'.
Proof using bounded.
  intros Hvalid Hs Hc Hreq Hrun. unfold fits.
  destruct c as [|n|other|other|this other|this other|this x|this i a|this i x|this i
                 |this|this n|this n|this other]; simpl in *; try done.
  - (* Vector v; *)
    split; [done|].
    apply bind_val_inv in Hrun as (r & s1 & Hrun & [= <-]).
    by eapply (ctor_default_capacities ok fits_0).
  - (* Vector v(n); *)
    apply bind_val_inv in Hrun as (r & s1 & Hrun & [= <-]).
    rewrite ctor_platform in Hrun by done.
    destruct (decide (refused n s)) as [|Hok]; [done|].
    split; [unfold mbind, M_bind; by rewrite Hrun|].
    eapply (ctor_capacities ok); [done|by eapply allocated_fits|done].
  - (* Vector v(other); *)
    apply bind_val_inv in Hrun as (r & s1 & Hrun & [= <-]).
    destruct (objects s !! other) as [w|] eqn:Hother.
    2:{ unfold Vector.ctor_copy, mbind, M_bind, Vector.deref in Hrun.
        by rewrite Hother in Hrun. }
    destruct (all_valid_holds _ other Hvalid) as (ys & cap & Hh); [by eauto|].
    destruct (holds_object _ _ _ _ Hh) as (w' & Hw' & Hsize & _).
    rewrite Hother in Hw'. injection Hw' as <-.
    destruct (holds_fits _ _ _ _ Hs Hh) as [_ Hokys].
    rewrite (ctor_copy_platform other s w) in Hrun;
      [|done|rewrite Hsize; apply bounded_representable; simpl in Hokys; lia].
    destruct (decide (refused (size_ w) s)) as [|Hok]; [done|].
    split; [unfold mbind, M_bind; by rewrite Hrun|].
    by eapply (ctor_copy_capacities ok fits_le).
  - (* Vector v(std::move(other)); *)
    split; [done|].
    apply bind_val_inv in Hrun as (r & s1 & Hrun & [= <-]).
    by eapply (ctor_move_capacities ok fits_0).
  - (* this = other; *)
    destruct (objects s !! this) as [v|] eqn:Hthis.
    2:{ unfold Vector.copy_assign, mbind, M_bind, Vector.deref in Hrun.
        by rewrite Hthis in Hrun. }
    destruct (objects s !! other) as [w|] eqn:Hother.
    2:{ unfold Vector.copy_assign, mbind, M_bind, Vector.deref in Hrun.
        rewrite Hthis in Hrun. simpl in Hrun. by rewrite Hother in Hrun. }
    destruct (all_valid_holds _ other Hvalid) as (ys & cap & Hh); [by eauto|].
    destruct (holds_object _ _ _ _ Hh) as (w' & Hw' & Hsize & _).
    rewrite Hother in Hw'. injection Hw' as <-.
    destruct (holds_fits _ _ _ _ Hs Hh) as [_ Hokys].
    rewrite (copy_assign_platform this other s v w) in Hrun;
      [|done|done|intros _; rewrite Hsize; apply bounded_representable; simpl in Hokys; lia].
    destruct (decide (_ ∧ _)) as [|_]; [done|].
    split; [done|]. by eapply (copy_assign_capacities ok fits_le).
  - (* this.PushBack(x); *)
    destruct (objects s !! this) as [v|] eqn:Hthis.
    2:{ unfold Vector.PushBack, Vector.EmplaceBack, Vector.cend, Vector.end_,
          mbind, M_bind, Vector.deref in Hrun. by rewrite Hthis in Hrun. }
    destruct (all_valid_holds _ this Hvalid) as (xs & cap & Hh); [by eauto|].
    destruct s as [h o tr].
    pose proof Hh as (buf & Ho & Hlen & _)%holds_inv.
    unfold Vector.PushBack, Vector.EmplaceBack, Vector.cend in *.
    apply bind_val_inv in Hrun as (p & s1 & Hrun & [= <-]).
    apply bind_val_inv in Hrun as (e & s2 & He & Hrun).
    rewrite (end_val (State h o tr) _ _ _ _ Ho Hlen) in He. injection He as <- <-.
    destruct (Emplace_bounded (State h o tr) this xs cap (length xs) (Ptr buf (length xs))
                (ByCopy x) p s1 Hs Hh)
      as [Hideal Hfits]; [done| |done|].
    { unfold position. simpl. by rewrite Ho. }
    split; [|done].
    unfold mbind, M_bind. rewrite (end_val (State h o tr) _ _ _ _ Ho Hlen).
    by rewrite Hideal.
  - (* this.Emplace(this.begin() + i, a); *)
    destruct (objects s !! this) as [v|] eqn:Hthis.
    2:{ unfold Vector.begin, mbind, M_bind, Vector.deref in Hrun. by rewrite Hthis in Hrun. }
    destruct (all_valid_holds _ this Hvalid) as (xs & cap & Hh); [by eauto|].
    apply bind_val_inv in Hrun as (b & s1 & Hb & Hrun).
    rewrite (begin_val s _ _ Hthis) in Hb. injection Hb as <- <-.
    apply bind_val_inv in Hrun as (p & s1 & Hrun & [= <-]).
    assert (position s this i = Some (ptr_add (Ptr (buffer_ (data_ v)) 0) i)) as Hpos.
    { unfold position. by rewrite Hthis. }
    destruct (decide (i ≤ length xs)) as [Hi|Hi].
    + destruct (Emplace_bounded s this xs cap i _ a p s1 Hs Hh Hi Hpos Hrun)
        as [Hideal Hfits].
      split; [|done]. unfold mbind, M_bind. rewrite (begin_val s _ _ Hthis).
      by rewrite Hideal.
    + destruct (holds_object _ _ _ _ Hh) as (v' & Hv' & Hsize & Hcap & _).
      rewrite Hthis in Hv'. injection Hv' as <-.
      destruct (holds_fits _ _ _ _ Hs Hh) as [Hokcap _].
      destruct (Emplace_platform_val this (ptr_add (Ptr (buffer_ (data_ v)) 0) i) a s v p s1 Hthis)
        as [Hideal _]; [|exact Hrun|].
      { intros Hfull. rewrite Hsize. apply growth_representable.
        eapply fits_le; [|exact Hokcap]. rewrite <- Hcap, <- Hfull, Hsize. done. }
      destruct (Emplace_out_of_range _ _ _ _ i _ a _ _ Hh ltac:(lia) Hpos Hideal).
  - (* this.Insert(this.begin() + i, x); *)
    destruct (objects s !! this) as [v|] eqn:Hthis.
    2:{ unfold Vector.begin, mbind, M_bind, Vector.deref in Hrun. by rewrite Hthis in Hrun. }
    destruct (all_valid_holds _ this Hvalid) as (xs & cap & Hh); [by eauto|].
    apply bind_val_inv in Hrun as (b & s1 & Hb & Hrun).
    rewrite (begin_val s _ _ Hthis) in Hb. injection Hb as <- <-.
    apply bind_val_inv in Hrun as (p & s1 & Hrun & [= <-]).
    unfold Vector.Insert in *.
    assert (position s this i = Some (ptr_add (Ptr (buffer_ (data_ v)) 0) i)) as Hpos.
    { unfold position. by rewrite Hthis. }
    destruct (decide (i ≤ length xs)) as [Hi|Hi].
    + destruct (Emplace_bounded s this xs cap i _ (ByCopy x) p s1 Hs Hh Hi Hpos Hrun)
        as [Hideal Hfits].
      split; [|done]. unfold mbind, M_bind. rewrite (begin_val s _ _ Hthis).
      by rewrite Hideal.
    + destruct (holds_object _ _ _ _ Hh) as (v' & Hv' & Hsize & Hcap & _).
      rewrite Hthis in Hv'. injection Hv' as <-.
      destruct (holds_fits _ _ _ _ Hs Hh) as [Hokcap _].
      destruct (Emplace_platform_val this (ptr_add (Ptr (buffer_ (data_ v)) 0) i) (ByCopy x) s v
                  p s1 Hthis) as [Hideal _]; [|exact Hrun|].
      { intros Hfull. rewrite Hsize. apply growth_representable.
        eapply fits_le; [|exact Hokcap]. rewrite <- Hcap, <- Hfull, Hsize. done. }
      destruct (Emplace_out_of_range _ _ _ _ i _ (ByCopy x) _ _ Hh ltac:(lia) Hpos Hideal).
  - (* this.Erase(this.begin() + i); *)
    split; [done|].
    destruct (objects s !! this) as [v|] eqn:Hthis.
    2:{ unfold Vector.begin, mbind, M_bind, Vector.deref in Hrun. by rewrite Hthis in Hrun. }
    destruct (all_valid_holds _ this Hvalid) as (xs & cap & Hh); [by eauto|].
    apply bind_val_inv in Hrun as (b & s1 & Hb & Hrun).
    rewrite (begin_val s _ _ Hthis) in Hb. injection Hb as <- <-.
    apply bind_val_inv in Hrun as (p & s1 & Hrun & [= <-]).
    assert (position s this i = Some (ptr_add (Ptr (buffer_ (data_ v)) 0) i)) as Hpos.
    { unfold position. by rewrite Hthis. }
    destruct (decide (i < length xs)) as [Hi|Hi].
    + by eapply (Erase_capacities ok fits_le s this xs cap i).
    + destruct (Erase_out_of_range _ _ _ _ i _ _ _ Hh ltac:(lia) Hpos Hrun).
  - (* this.PopBack(); *)
    split; [done|]. by eapply (PopBack_capacities ok).
  - (* this.Reserve(n); *)
    destruct (objects s !! this) as [v|] eqn:Hthis.
    2:{ unfold Vector.Reserve, mbind, M_bind, Vector.deref in Hrun. by rewrite Hthis in Hrun. }
    rewrite (Reserve_platform this n s v) in Hrun by done.
    destruct (decide (_ ∧ _)) as [|Hok]; [done|].
    split; [done|].
    destruct (all_valid_holds _ this Hvalid) as (xs & cap & Hh); [by eauto|].
    destruct (holds_object _ _ _ _ Hh) as (v' & Hv' & _ & Hcap & _).
    rewrite Hthis in Hv'. injection Hv' as <-.
    destruct (holds_fits _ _ _ _ Hs Hh) as [Hokcap _].
    eapply (Reserve_capacities ok); [done|done| |done].
    destruct (decide (capacity_ (data_ v) < n)).
    + eapply (allocated_fits _ s). intros Href. by apply Hok.
    + eapply fits_le; [|exact Hokcap]. lia.
  - (* this.Resize(n); *)
    destruct (objects s !! this) as [v|] eqn:Hthis.
    2:{ unfold Vector.Resize, mbind, M_bind, Vector.deref in Hrun. by rewrite Hthis in Hrun. }
    rewrite (Resize_platform this n s v) in Hrun by done.
    destruct (decide (_ ∧ _)) as [|Hok]; [done|].
    split; [done|].
    destruct (all_valid_holds _ this Hvalid) as (xs & cap & Hh); [by eauto|].
    destruct (holds_object _ _ _ _ Hh) as (v' & Hv' & _ & Hcap & _).
    rewrite Hthis in Hv'. injection Hv' as <-.
    destruct (holds_fits _ _ _ _ Hs Hh) as [Hokcap _].
    eapply (Resize_capacities ok fits_le); [done|done| |done].
    destruct (decide (capacity_ (data_ v) < n)).
    + eapply (allocated_fits _ s). intros Href. by apply Hok.
    + eapply fits_le; [|exact Hokcap]. lia.
  - (* this.Swap(other); *)
    split; [done|]. by eapply (Swap_capacities ok).
Qed.

(** X17.  On a platform where no object has more than [limit] bytes
    ([operator new] refuses larger requests, and twice that size can be
    written in a [std::size_t]): every sequence of public operations
    that contains no move assignment and in which the sizes asked for
    by [Vector(n)], [Reserve(n)] and [Resize(n)] can be written in a
    [std::size_t], all of them returning normally, takes a state in
    which every vector satisfies the invariant, no two vectors share a
    block and every storage has at most [limit] bytes to such a
    state. *)
Theorem valid_without_move_assign (cs : list (command T)) s0 s :
  all_valid s0 → fits limit s0 →
  Forall (λ c, is_move_assign c = false ∧ representable (request c)) cs →
  exec_all cs s0 = Val () s →
  all_valid s ∧ fits limit s.
Proof using bounded.
  intros Hvalid Hfits Hcs Hrun.
  revert s0 Hvalid Hfits Hrun.
  induction Hcs as [|c cs [Hc Hreq] _ IH]; intros s0 Hvalid Hfits Hrun.
  - simpl in Hrun. by injection Hrun as <-.
  - simpl in Hrun. apply bind_val_inv in Hrun as ([] & s1 & H1 & Hrun).
    destruct (exec_bounded c s0 s1 Hvalid Hfits Hc Hreq H1) as [Hideal Hfits1].
    eapply (IH s1); [by eapply exec_valid|done|done].
Qed.
End bounded.

Section growth.
Context {T : Type} `{!Element T} `{!Platform T}.
Implicit Types (s : state T) (h : gmap addr (list (slot T))) (o : gmap vref Vector).
Implicit Types (tr : list (event T)) (xs ys : list T) (this other : vref).

Local Abbreviation ideal := (@unbounded T).

Lemma PushBack_platform_val s this xs cap y s' :
  holds s this xs cap →
  (length xs = cap → size_t (cap * 2) = cap * 2 ∧ representable (grown cap)) →
  Vector.PushBack this y s = Val () s' →
  Vector.PushBack (Platform0 := ideal) this y s = Val () s'.
Proof.
  intros Hh Hgrow Hrun. destruct s as [h o tr].
  pose proof Hh as (buf & Ho & Hlen & _)%holds_inv.
  unfold Vector.PushBack, Vector.EmplaceBack, Vector.cend in *.
  apply bind_val_inv in Hrun as (p & s1 & Hrun & [= <-]).
  apply bind_val_inv in Hrun as (e & s2 & He & Hrun).
  rewrite (end_val (State h o tr) _ _ _ _ Ho Hlen) in He. injection He as <- <-.
  destruct (Emplace_platform_val this (Ptr buf (length xs)) (ByCopy y) (State h o tr) _ p s1 Ho)
    as [Hideal _]; [|exact Hrun|].
  { simpl. intros Hfull. rewrite Hfull. by apply Hgrow. }
  unfold mbind, M_bind. rewrite (end_val (State h o tr) _ _ _ _ Ho Hlen).
  by rewrite Hideal.
Qed.

(** X20.  No operation on the elements shrinks the capacity: after a
    returning call of [PushBack], [Emplace], [Erase], [PopBack],
    [Reserve], [Resize] or copy assignment the vector satisfies the
    invariant with a capacity at least the capacity before; and when
    the capacity is the same, [begin()] is the same, so that pointers
    into the vector stay valid.  The size in bytes of the storage that
    a call asks for must be representable in a [std::size_t]: for
    [PushBack] and [Emplace] on a full vector that of twice the
    capacity, for [Reserve] and [Resize] beyond the capacity that of
    [n] elements, for copy assignment beyond the capacity that of the
    elements of the source. *)
Theorem capacity_never_shrinks s this xs cap :
  holds s this xs cap →
  let grows_or_stays (s' : state T) :=
    ∃ xs' cap', holds s' this xs' cap' ∧ cap ≤ cap' ∧
                (cap' = cap → position s' this 0 = position s this 0) in
  let can_grow := length xs = cap → size_t (cap * 2) = cap * 2 ∧ representable (grown cap) in
  (∀ y s', can_grow → Vector.PushBack this y s = Val () s' → grows_or_stays s') ∧
  (∀ i pos a p s', can_grow → i ≤ length xs → position s this i = Some pos →
     Vector.Emplace this pos a s = Val p s' → grows_or_stays s') ∧
  (∀ i pos p s', i < length xs → position s this i = Some pos →
     Vector.Erase this pos s = Val p s' → grows_or_stays s') ∧
  (∀ s', Vector.PopBack this s = Val () s' → grows_or_stays s') ∧
  (∀ n s', (cap < n → representable n) →
     Vector.Reserve this n s = Val () s' → grows_or_stays s') ∧
  (∀ n s', (cap < n → representable n) →
     Vector.Resize this n s = Val () s' → grows_or_stays s') ∧
  (∀ other ys cap' s',
     holds s other ys cap' → this = other ∨ separate s this other →
     (cap < length ys → representable (length ys)) →
     Vector.copy_assign this other s = Val () s' → grows_or_stays s').
Proof.
  intros Hholds grows_or_stays can_grow.
  destruct (capacity_unbounded s this xs cap Hholds)
    as (Hpush & Hemplace & Herase & Hpop & Hreserve & Hresize & Hassign).
  destruct (holds_object _ _ _ _ Hholds) as (v & Hv & Hsize & Hcap & Hlen).
  split_and!.
  - intros y s' Hgrow Hrun. apply (Hpush y).
    by eapply PushBack_platform_val.
  - intros i pos a p s' Hgrow Hi Hpos Hrun. apply (Hemplace i pos a p); [done..|].
    eapply (Emplace_platform_val this pos a s v); [done| |done].
    rewrite Hsize, Hcap. intros Hfull. rewrite Hfull. by apply Hgrow.
  - exact Herase.
  - exact Hpop.
  - intros n s' Hn Hrun. apply (Hreserve n).
    rewrite (Reserve_platform this n s v) in Hrun by (by rewrite ?Hcap).
    by destruct (decide (_ ∧ _)).
  - intros n s' Hn Hrun. apply (Hresize n).
    rewrite (Resize_platform this n s v) in Hrun by (by rewrite ?Hcap).
    by destruct (decide (_ ∧ _)).
  - intros other ys cap' s' Hother Hsep Hn Hrun. apply (Hassign other ys cap'); [done..|].
    destruct (holds_object _ _ _ _ Hother) as (w & Hw & Hsize' & _).
    rewrite (copy_assign_platform this other s v w) in Hrun
      by (by rewrite ?Hcap, ?Hsize').
    by destruct (decide (_ ∧ _)).
Qed.

(** X24.  [Allocate] multiplies without a check.  [Reserve(n)] on an
    empty vector without storage, when the storage is granted and
    [n * sizeof(T)], computed in [std::size_t], is room for fewer than
    [n] elements (the product has wrapped): the call returns normally
    with capacity [n] and size 0, and the vector does not satisfy the
    invariant: the block that it owns has room for
    [size_t(n * sizeof(T)) / sizeof(T)] elements only, fewer than its
    capacity. *)
Theorem Reserve_request_wraps s this n :
  objects s !! this = Some (mkVector (mkRawMemory None 0) 0) →
  n ≠ 0 → new_throws (size_t (n * Pos.to_nat sizeof)) s = false →
  size_t (n * Pos.to_nat sizeof) `div` Pos.to_nat sizeof < n →
  ∃ s', Vector.Reserve this n s = Val () s' ∧
        Vector.Capacity this s' = Val n s' ∧
        Vector.Size this s' = Val 0 s' ∧
        ¬ invariant s' this ∧
        ∃ a block,
          objects s' !! this = Some (mkVector (mkRawMemory (Some a) n) 0) ∧
          heap s' !! a = Some block ∧
          length block = size_t (n * Pos.to_nat sizeof) `div` Pos.to_nat sizeof.
Proof.
  intros Hv Hn Hnew Hwrap. eexists. split; [by apply Reserve_wrapped|].
  split_and!.
  - unfold Vector.Capacity, Vector.deref, mbind, M_bind. simpl.
    by rewrite lookup_insert_eq.
  - unfold Vector.Size, Vector.deref, mbind, M_bind. simpl.
    by rewrite lookup_insert_eq.
  - intros (xs & cap & v & Hv' & Hsize & Hcap & Hlen & Hblock). simpl in *.
    rewrite lookup_insert_eq in Hv'. injection Hv' as <-. simpl in *.
    rewrite lookup_insert_eq in Hblock. injection Hblock as Hblock.
    apply (f_equal length) in Hblock.
    rewrite length_replicate, length_app, length_map, length_replicate in Hblock. lia.
  - eexists _, _. cbn [objects heap]. split_and!.
    + apply lookup_insert_eq.
    + apply lookup_insert_eq.
    + apply length_replicate.
Qed.
End growth.

(** ** The further properties on example vectors *)


Section more_examples.
Local Existing Instance int_like.

(** X1: a vector of three [int]s. *)
Lemma ctor_value_initializes_witness :
  ∃ r s', Vector.ctor (Platform0 := lp64_int) 3 init = Val r s' ∧ holds s' r [0; 0; 0] 3.
Proof.
  destruct (ctor_value_initializes (Platform0 := lp64_int) init 3
              ltac:(vm_compute; reflexivity)) as [Hwp _].
  destruct (wp_result _ _ _ _ Hwp) as (r & s' & Hrun & _ & Hh & _).
  { intros s' (_ & _ & [[[_ Href] _]|(k & _ & Hthrow & _)]);
      [discriminate Href|discriminate Hthrow]. }
  exists r, s'. split; [exact Hrun|exact Hh].
Defined.

(** X2 on a vector of three elements with capacity four. *)
Lemma ctor_copy_fits_witness :
  ∃ r s', Vector.ctor_copy 0 one_vector = Val r s' ∧
          holds s' r [10; 20; 30] 3 ∧ holds s' 0 [10; 20; 30] 4.
Proof.
  destruct (wp_result _ _ _ _
              (ctor_copy_fits one_vector 0 [10; 20; 30] 4 holds_one_vector))
    as (r & s' & Hrun & _ & Hr & Hother & _).
  { intros s' [Hc _]. apply int_like_never_throws.
    destruct Hc as (x & tr & Hc). by exists (CopyConstruct x), tr. }
  exists r, s'. split_and!; [exact Hrun|exact Hr|exact Hother].
Defined.

(** X3 on the same vector. *)
Lemma ctor_move_transfers_witness :
  ∃ r s', Vector.ctor_move 0 one_vector = Val r s' ∧
          holds s' r [10; 20; 30] 4 ∧ holds s' 0 [] 0 ∧ heap s' = heap one_vector.
Proof.
  destruct (wp_result _ _ _ _
              (ctor_move_transfers one_vector 0 [10; 20; 30] 4 holds_one_vector))
    as (r & s' & Hrun & _ & Hr & Hother & _ & _ & Hheap & _); [done|].
  exists r, s'. split_and!; [exact Hrun|exact Hr|exact Hother|exact Hheap].
Defined.

(** X4 on the same vector. *)
Lemma dtor_releases_witness :
  ∃ s', Vector.dtor 0 one_vector = Val () s' ∧
        objects s' = ∅ ∧ heap s' = ∅ ∧
        trace s' = [Done (Destroy 10); Done (Destroy 20); Done (Destroy 30)].
Proof.
  destruct (wp_result _ _ _ _
              (dtor_releases one_vector 0 [10; 20; 30] 4 holds_one_vector))
    as ([] & s' & Hrun & Ho & Htr & Hheap & _); [done|].
  exists s'. split_and!; [done| | |done].
  - rewrite Ho. vm_compute. reflexivity.
  - rewrite (Hheap 0 eq_refl). vm_compute. reflexivity.
Defined.

(** X5: a copy of that vector, destroyed at once. *)
Lemma construct_destroy_round_trip_witness :
  ∃ s', (r ← Vector.ctor_copy (Platform0 := lp64_int) 0; Vector.dtor r) one_vector = Val () s' ∧
        heap s' = heap one_vector ∧ objects s' = objects one_vector.
Proof.
  destruct (wp_result _ _ _ _
              (proj2 (construct_destroy_round_trip (Platform0 := lp64_int) one_vector)
                 0 [10; 20; 30] 4 holds_one_vector ltac:(vm_compute; reflexivity)))
    as ([] & s' & Hrun & Hheap & Ho & _).
  { intros s' [[Hc|[_ Href]] _]; [|discriminate Href]. apply int_like_never_throws.
    destruct Hc as (x & tr & Hc). by exists (CopyConstruct x), tr. }
  exists s'. split_and!; [exact Hrun|exact Hheap|exact Ho].
Defined.

(** X6 on two vectors of three and one elements. *)
Lemma Swap_exchanges_witness :
  ∃ s', Vector.Swap 0 1 two_vectors = Val () s' ∧
        holds s' 0 [7] 1 ∧ holds s' 1 [10; 20; 30] 3 ∧
        Vector.Swap 0 1 s' = Val () two_vectors.
Proof.
  destruct (wp_result _ _ _ _
              (Swap_exchanges two_vectors 0 1 [10; 20; 30] 3 [7] 1
                 holds_two_vectors_0 holds_two_vectors_1))
    as ([] & s' & Hrun & H0 & H1 & _ & _ & _ & _ & _ & Hback); [done|].
  exists s'. split_and!; [exact Hrun|exact H0|exact H1|exact Hback].
Defined.

(** X7: index 1 and index 3 of a vector of three elements with capacity four. *)
Lemma index_checked_witness :
  (∃ p, Vector.index 0 1 one_vector = Val p one_vector ∧ load p one_vector = Val 20 one_vector) ∧
  Vector.index 0 3 one_vector = Abort.
Proof.
  destruct (index_checked one_vector 0 [10; 20; 30] 4 holds_one_vector) as [Hin Hout].
  split.
  - destruct (Hin 1 20 eq_refl) as (p & Hp & _ & Hload). exists p. split; [exact Hp|exact Hload].
  - apply Hout. simpl. lia.
Defined.

(** X8 on the same vector. *)
Lemma begin_end_range_witness :
  ∃ b e, Vector.begin 0 one_vector = Val b one_vector ∧
         Vector.end_ 0 one_vector = Val e one_vector ∧
         ranges_distance b e one_vector = Val 3 one_vector ∧
         load (ptr_add b 2) one_vector = Val 30 one_vector.
Proof.
  destruct (begin_end_range one_vector 0 [10; 20; 30] 4 holds_one_vector)
    as (b & e & Hb & He & _ & _ & _ & _ & _ & Hd & _ & Hload).
  exists b, e. split_and!; [exact Hb|exact He|exact Hd|]. apply Hload. reflexivity.
Defined.

(** X9 on the same vector. *)
Lemma PopBack_removes_last_witness :
  ∃ s', Vector.PopBack 0 one_vector = Val () s' ∧
        holds s' 0 [10; 20] 4 ∧ trace s' = [Done (Destroy 30)].
Proof.
  destruct (wp_result _ _ _ _
              (proj1 (PopBack_removes_last one_vector 0 [10; 20; 30] 4 holds_one_vector)
                 [10; 20] 30 eq_refl))
    as ([] & s' & Hrun & Hh & Htr & _); [done|].
  exists s'. split_and!; [exact Hrun|exact Hh|exact Htr].
Defined.

(** X10: [PushBack(T&&)] with spare capacity. *)
Lemma PushBack_appends_witness :
  ∃ s', Vector.PushBack_move 0 40 one_vector = Val () s' ∧
        holds s' 0 [10; 20; 30; 40] 4 ∧ trace s' = [Done (MoveConstruct 40)].
Proof.
  destruct (returns_nothrow _ _ _
              (proj2 (proj2 (PushBack_appends one_vector 0 [10; 20; 30] 4 holds_one_vector)) 40)
              int_like_never_throws)
    as ([] & s' & Hrun & Hh & Htr).
  exists s'. split_and!; [exact Hrun|exact Hh|exact Htr].
Defined.

(** X11: insertion at index 1. *)
Lemma Insert_shifts_right_witness :
  ∃ p s', Vector.Insert 0 (Ptr (Some 0) 1) 15 one_vector = Val p s' ∧
          holds s' 0 [10; 15; 20; 30] 4.
Proof.
  destruct (returns_nothrow _ _ _
              (proj2 (Insert_shifts_right one_vector 0 [10; 20; 30] 4 1 (Ptr (Some 0) 1) 15
                        holds_one_vector ltac:(simpl; lia) eq_refl))
              int_like_never_throws)
    as (p & s' & Hrun & Hh & _).
  exists p, s'. split; [exact Hrun|exact Hh].
Defined.

(** X12: insertion at index 1, then removal. *)
Lemma insert_remove_round_trip_witness :
  ∃ p s', (p ← Vector.Insert 0 (Ptr (Some 0) 1) 15; Vector.Erase 0 p) one_vector = Val p s' ∧
          holds s' 0 [10; 20; 30] 4.
Proof.
  destruct (returns_nothrow _ _ _
              (proj2 (insert_remove_round_trip one_vector 0 [10; 20; 30] 4 holds_one_vector)
                 1 (Ptr (Some 0) 1) 15 ltac:(simpl; lia) eq_refl int_like_nothrow_move_assign)
              int_like_never_throws)
    as (p & s' & Hrun & Hh & _).
  exists p, s'. split; [exact Hrun|exact Hh].
Defined.

(** X13 on the storage of two vectors. *)
Lemma RawMemory_move_assign_takes_witness :
  ∃ s', RawMemory.move_assign 0 1 two_vectors = Val () s' ∧
        heap s' !! 0 = None ∧
        objects s' !! 0 = Some (mkVector (mkRawMemory (Some 1) 1) 3) ∧
        objects s' !! 1 = Some (mkVector (mkRawMemory None 0) 1).
Proof.
  eexists. split.
  - apply (proj1 (RawMemory_move_assign_takes two_vectors 0 1
                    (mkVector (mkRawMemory (Some 0) 3) 3) (mkVector (mkRawMemory (Some 1) 1) 1)
                    eq_refl eq_refl
                    ltac:(intros a [= <-]; vm_compute; eauto))).
    lia.
  - vm_compute. done.
Defined.
(** X14: [Reserve(5)] on a full vector of two elements: of a type
    whose first construction throws, of [int]s, and of [int]s when no
    memory is left. *)
Lemma Reserve_exception_witness :
  Vector.Reserve (Element0 := thrower 0) (Platform0 := lp64_int) 0 5 full_vector
  = Exn (State (heap full_vector) (objects full_vector) [Threw (CopyConstruct 10)]) ∧
  (∃ s', Vector.Reserve (Platform0 := lp64_int) 0 5 full_vector = Val () s' ∧
         holds s' 0 [10; 20] 5) ∧
  Vector.Reserve (Platform0 := lp64 4 exhausted) 0 5 full_vector = Exn full_vector.
Proof.
  split_and!.
  - apply (proj1 (proj2 (Reserve_exception (Element0 := thrower 0) (Platform0 := lp64_int)
                           full_vector 0 [10; 20] 2 5 holds_full_vector
                           ltac:(lia) ltac:(vm_compute; reflexivity)))
             ltac:(intros [_ Href]; discriminate Href) eq_refl 0 10).
    split_and!; [reflexivity|intros j y Hj; lia|reflexivity].
  - apply (proj1 (proj2 (proj2 (Reserve_exception (Platform0 := lp64_int)
                                  full_vector 0 [10; 20] 2 5 holds_full_vector
                                  ltac:(lia) ltac:(vm_compute; reflexivity))))
             ltac:(intros [_ Href]; discriminate Href) eq_refl).
  - apply (proj1 (Reserve_exception (Platform0 := lp64 4 exhausted)
                    full_vector 0 [10; 20] 2 5 holds_full_vector
                    ltac:(lia) ltac:(vm_compute; reflexivity))).
    split; [lia|reflexivity].
Defined.

(** X15: growth beyond the capacity with a default constructor that
    throws leaves the three elements moved-from. *)
Lemma Resize_exception_witness :
  ∃ s', Vector.Resize (Element0 := value_thrower) (Platform0 := lp64_int) 0 6 one_vector
        = Exn s' ∧
        holds s' 0 [0; 0; 0] 4.
Proof.
  eexists. split; [vm_compute; reflexivity|].
  destruct (Resize_exception (Element0 := value_thrower) (Platform0 := lp64_int)
              one_vector 0 [10; 20; 30] 4 6 _ holds_one_vector
              ltac:(intros _; vm_compute; reflexivity) ltac:(vm_compute; reflexivity))
    as (_ & _ & [(_ & [_ Href] & _)|Hbasic]).
  - discriminate Href.
  - apply Hbasic; intros (x & tr & Hthrow); discriminate Hthrow.
Defined.

(** X16: three elements assigned to a vector of capacity one; the first copy throws. *)
Lemma copy_assign_realloc_exception_witness :
  Vector.copy_assign (Element0 := thrower 0) (Platform0 := lp64_int) 1 0 two_vectors
  = Exn (State (heap two_vectors) (objects two_vectors) [Threw (CopyConstruct 10)]).
Proof.
  assert (separate two_vectors 1 0) as Hsep.
  { intros v w a Hv Hw. vm_compute in Hv, Hw.
    injection Hv as <-. injection Hw as <-. simpl. congruence. }
  apply (proj1 (proj2 (copy_assign_realloc_exception (Element0 := thrower 0)
                         (Platform0 := lp64_int) two_vectors 1 0 [7] 1 [10; 20; 30] 3
                         holds_two_vectors_1 holds_two_vectors_0 (or_intror Hsep)
                         ltac:(simpl; lia) ltac:(vm_compute; reflexivity)))
           ltac:(intros [_ Href]; discriminate Href) 0 10).
  split_and!; [reflexivity|intros j y Hj; lia|reflexivity].
Defined.

(** X17 on a program of seven calls on [int]s. *)
Lemma valid_without_move_assign_witness :
  ∃ s, exec_all (Platform0 := lp64_int)
         [CSized 3; CSized 1; CSwap 0 1; CPushBack 0 5; CCopyAssign 1 0;
          CReserve 0 10; CResize 1 2] init = Val () s ∧
       all_valid s ∧ fits (Platform0 := lp64_int) PTRDIFF_MAX s.
Proof.
  eexists. split; [vm_compute; reflexivity|].
  eapply (valid_without_move_assign (Platform0 := lp64_int) PTRDIFF_MAX lp64_int_bounded
            [CSized 3; CSized 1; CSwap 0 1; CPushBack 0 5; CCopyAssign 1 0;
             CReserve 0 10; CResize 1 2] init).
  - apply init_valid.
  - intros v w Hw. unfold init in Hw. cbn [objects] in Hw. by rewrite lookup_empty in Hw.
  - repeat (constructor; [split; [reflexivity|vm_compute; reflexivity]|]). constructor.
  - vm_compute. reflexivity.
Defined.

(** X18: insertion at index 1 of a full vector; the second construction throws. *)
Lemma Emplace_growth_copy_throws_witness :
  Vector.Emplace (Element0 := thrower 1) 0 (Ptr (Some 0) 1) (Args 5) full_vector
  = Exn (State (heap full_vector) (objects full_vector)
               [Done (Construct 5); Threw (CopyConstruct 10)]).
Proof.
  apply (Emplace_growth_copy_throws (Element0 := thrower 1) _ _ [] 0 10 [20] 1
           (Ptr (Some 0) 1) (Args 5) holds_full_vector);
    [simpl; lia|reflexivity..].
Defined.
(** X20: [Reserve(8)] on a vector of three [int]s with capacity four. *)
Lemma capacity_never_shrinks_witness :
  ∃ s', Vector.Reserve (Platform0 := lp64_int) 0 8 one_vector = Val () s' ∧
        ∃ xs' cap', holds s' 0 xs' cap' ∧ 4 ≤ cap' ∧
                    (cap' = 4 → position s' 0 0 = position one_vector 0 0).
Proof.
  eexists. split; [vm_compute; reflexivity|].
  apply (proj1 (proj2 (proj2 (proj2 (proj2
           (capacity_never_shrinks (Platform0 := lp64_int) one_vector 0 [10; 20; 30] 4
              holds_one_vector))))) 8).
  - intros _. vm_compute. reflexivity.
  - vm_compute. reflexivity.
Defined.

(** X21: erasing the first of three elements. *)
Lemma Erase_element_operations_witness :
  ∃ p s', Vector.Erase 0 (Ptr (Some 0) 0) one_vector = Val p s' ∧
          trace s' = [Done (MoveAssign 10 20); Done (MoveAssign 20 30); Done (Destroy 30)].
Proof.
  eexists _, _. split; [vm_compute; reflexivity|].
  exact (proj1 (Erase_element_operations (Element0 := int_like) one_vector 0 [10; 20; 30] 4 0 (Ptr (Some 0) 0) 10 _ _
                  holds_one_vector eq_refl eq_refl ltac:(vm_compute; reflexivity))).
Defined.

(** X22: insertion at index 1 of three elements, capacity 4. *)
Lemma Emplace_within_capacity_operations_witness :
  ∃ p s', Vector.Emplace 0 (Ptr (Some 0) 1) (Args 5) one_vector = Val p s' ∧
          trace s' = [Done (Construct 5); Done (MoveConstruct 30); Done (MoveAssign 30 20);
                      Done (MoveAssign 20 5); Done (Destroy 5)].
Proof.
  destruct (returns_nothrow _ _ _
              (Emplace_within_capacity_operations one_vector 0 [10; 20; 30] 4 1 (Ptr (Some 0) 1)
                 (Args 5) holds_one_vector ltac:(simpl; lia) ltac:(simpl; lia) eq_refl)
              int_like_never_throws)
    as (p & s' & Hrun & _ & _ & Hmid).
  exists p, s'. split; [exact Hrun|].
  exact (proj1 (Hmid [10; 20] 30 eq_refl ltac:(simpl; lia))).
Defined.

(** X23 on a program of eight calls. *)
Lemma objects_accounted_witness :
  ∃ s, exec_all [CSized 3; CSized 1; CSwap 0 1; CPushBack 0 5; CCopyAssign 1 0;
                 CErase 1 0; CResize 0 1; CPopBack 1] init = Val () s ∧
       constructed (trace s) = destroyed (trace s) + total_size s.
Proof.
  eexists. split; [vm_compute; reflexivity|].
  eapply (objects_accounted
            [CSized 3; CSized 1; CSwap 0 1; CPushBack 0 5; CCopyAssign 1 0;
             CErase 1 0; CResize 0 1; CPopBack 1] init).
  - apply init_valid.
  - apply init_accounted.
  - repeat constructor.
  - vm_compute. reflexivity.
Defined.

(** X24: [Reserve(2^62)] on an empty vector of [int]s. *)
Lemma Reserve_request_wraps_witness :
  ∃ s', Vector.Reserve (Platform0 := lp64_int) 0 (N.to_nat (2 ^ 62)) empty_vector = Val () s' ∧
        Vector.Capacity 0 s' = Val (N.to_nat (2 ^ 62)) s' ∧
        ¬ invariant s' 0.
Proof.
  destruct (Reserve_request_wraps (Platform0 := lp64_int) empty_vector 0 (N.to_nat (2 ^ 62))
              eq_refl)
    as (s' & Hrun & Hcap & _ & Hinv & _).
  - lia.
  - by rewrite lp64_int_wraps.
  - rewrite lp64_int_wraps, Nat.Div0.div_0_l. lia.
  - exists s'. split_and!; [exact Hrun|exact Hcap|exact Hinv].
Defined.
End more_examples.
